(** * The lazy chaining engine of lodash 3.6.0 (AMD build)

    A shallow embedding of [src/prebuilt-as-amd/lodash.js]: the JavaScript
    values the engine handles, the eager array helpers it is compared with,
    the object store in which wrappers, their arrays and their iteratee
    entries live, the [LazyWrapper] methods, and [lazyValue]. *)

From Stdlib Require Import ZArith List Ascii String Bool Lia DecimalString.
From stdpp Require Import base list.
Import ListNotations.

Set Warnings "-register-all".
Local Open Scope Z_scope.

(** ** JavaScript numbers and values *)

(** The numbers of the model are the integers together with the special
    doubles the code can meet: [NaN], the two infinities and the negative
    zero.  [Fin 0] is the positive zero.  A number with a fractional part
    (a size of [1.5]) has no counterpart here: what the code does with one
    is outside the model, and the properties below that take a size or a
    count are stated for the sizes of [exact_size] only. *)
Inductive num : Type :=
| NaN
| PInf
| NInf
| NegZero
| Fin (z : Z).

(** A value is a primitive, an array (by its elements), a plain object (by
    its own enumerable properties, in key order), a function reference, or
    the object that [Object(p)] makes of a primitive [p]. *)
Inductive value : Type :=
| VUndefined
| VNull
| VBool (b : bool)
| VNum (n : num)
| VStr (s : string)
| VArr (elems : list value)
| VObj (props : list (string * value))
| VFun (id : nat)
| VBoxed (p : value).

Definition VInt (z : Z) : value := VNum (Fin z).

Module Num.

Definition neg (a : num) : num :=
  match a with
  | NaN => NaN
  | PInf => NInf
  | NInf => PInf
  | NegZero => Fin 0
  | Fin z => if z =? 0 then NegZero else Fin (- z)
  end.

Definition add (a b : num) : num :=
  match a, b with
  | NaN, _ | _, NaN => NaN
  | PInf, NInf | NInf, PInf => NaN
  | PInf, _ | _, PInf => PInf
  | NInf, _ | _, NInf => NInf
  | NegZero, NegZero => NegZero
  | NegZero, Fin z | Fin z, NegZero => Fin z
  | Fin x, Fin y => Fin (x + y)
  end.

Definition sub (a b : num) : num := add a (neg b).

(** [a < b]; a comparison with [NaN] is false, the two zeros are equal. *)
Definition lt (a b : num) : bool :=
  match a, b with
  | NaN, _ | _, NaN => false
  | _, NInf => false
  | NInf, _ => true
  | PInf, _ => false
  | _, PInf => true
  | NegZero, NegZero => false
  | NegZero, Fin z => 0 <? z
  | Fin z, NegZero => z <? 0
  | Fin x, Fin y => x <? y
  end.

Definition gt (a b : num) : bool := lt b a.

(** [a >= b] *)
Definition ge (a b : num) : bool :=
  match a, b with
  | NaN, _ | _, NaN => false
  | _, _ => negb (lt a b)
  end.

(** [a === b] on numbers *)
Definition eqb (a b : num) : bool :=
  match a, b with
  | NaN, _ | _, NaN => false
  | PInf, PInf | NInf, NInf => true
  | NegZero, NegZero => true
  | NegZero, Fin z | Fin z, NegZero => z =? 0
  | Fin x, Fin y => x =? y
  | _, _ => false
  end.

(** [Math.min] and [Math.max]: [NaN] wins, and [-0] is below [+0]. *)
Definition min (a b : num) : num :=
  match a, b with
  | NaN, _ | _, NaN => NaN
  | NegZero, Fin z => if z <? 0 then b else NegZero
  | Fin z, NegZero => if z <? 0 then a else NegZero
  | _, _ => if lt b a then b else a
  end.

Definition max (a b : num) : num :=
  match a, b with
  | NaN, _ | _, NaN => NaN
  | NegZero, Fin z => if z <? 0 then NegZero else b
  | Fin z, NegZero => if z <? 0 then NegZero else a
  | _, _ => if lt a b then b else a
  end.

(** [Math.floor] on the numbers of the model, all of which are integral.
    On a fraction the code's [floor(n)] rounds down where [baseSlice]
    truncates by [>>> 0] after the subtraction; no such number is a [num]. *)
Definition floor (a : num) : num := a.

(** ToBoolean on a number *)
Definition truthy (a : num) : bool :=
  match a with
  | NaN | NegZero => false
  | Fin z => negb (z =? 0)
  | PInf | NInf => true
  end.

(** [a >>> 0], ToUint32 *)
Definition toUint32 (a : num) : Z :=
  match a with
  | Fin z => z mod 2 ^ 32
  | _ => 0
  end.

(** [1 / a] is used by the code only to tell the sign of a zero. *)
Definition recip_positive (a : num) : bool :=
  match a with
  | PInf => true
  | Fin z => 0 <=? z
  | _ => false
  end.

End Num.

(** ToBoolean *)
Definition truthy (v : value) : bool :=
  match v with
  | VUndefined | VNull => false
  | VBool b => b
  | VNum n => Num.truthy n
  | VStr s => negb (String.eqb s EmptyString)
  | _ => true
  end.

(** [v == null] *)
Definition isNullish (v : value) : bool :=
  match v with
  | VUndefined | VNull => true
  | _ => false
  end.

Definition isUndefined (v : value) : bool :=
  match v with
  | VUndefined => true
  | _ => false
  end.

(** [isObject], line 101: functions and non-null objects. *)
Definition isObject (v : value) : bool :=
  match v with
  | VArr _ | VObj _ | VFun _ | VBoxed _ => true
  | _ => false
  end.

(** [lang_isArray] *)
Definition isArray (v : value) : bool :=
  match v with
  | VArr _ => true
  | _ => false
  end.

(** [array[index]]: a read outside the array gives [undefined]. *)
Definition arrayGetZ (array : list value) (index : Z) : value :=
  if index <? 0 then VUndefined
  else nth (Z.to_nat index) array VUndefined.

Definition arrayGet (array : list value) (index : num) : value :=
  match index with
  | Fin z => arrayGetZ array z
  | NegZero => arrayGetZ array 0
  | _ => VUndefined
  end.

Definition lengthOf (array : list value) : num := Fin (Z.of_nat (length array)).

(** The decimal numeral of an integer: [String(z)]. *)
Definition decimal (z : Z) : string := NilZero.string_of_int (Z.to_int z).

(** The keys ['0'], ['1'], ... of the indices below [length]. *)
Definition index_keys (length : nat) : list string :=
  map (fun index => decimal (Z.of_nat index)) (seq 0 length).

(** [keys(object)], line 1003: the own enumerable keys of a plain object, in
    order; the indices of an array (the arrays of the model have no holes and
    no other property of their own) and of a string, one for each character,
    which [shimKeys] collects; and no key for another primitive or for a
    function. *)
Definition object_keys (source : value) : list string :=
  match source with
  | VObj props => map fst props
  | VArr elems => index_keys (length elems)
  | VStr s | VBoxed (VStr s) => index_keys (String.length s)
  | _ => []
  end.

Fixpoint assoc (key : string) (props : list (string * value)) : option value :=
  match props with
  | [] => None
  | (k, v) :: rest => if String.eqb k key then Some v else assoc key rest
  end.

(** [utility_identity] *)
Definition identity (v : value) : value := v.

(** What a caller may pass where an iteratee is expected: a function, nothing,
    a pattern object, or a primitive used as a property key ([key] is the
    string [func + ''] that [baseCallback] makes of it). *)
Inductive callback : Type :=
| CbFun (f : value -> value)
| CbNone
| CbObject (source : value)
| CbKey (key : string).

(** ** The object store

    Wrappers, their [__iteratees__], [__views__] and [__actions__] arrays and
    the iteratee entries are JavaScript objects: they are shared by reference
    and updated in place.  The store is the list of the objects allocated so
    far; an address is a position in it. *)

Abbreviation addr := nat (only parsing).

(** The type of a lazy iteratee: the position of its method name in
    [['dropWhile', 'filter', 'map', 'takeWhile']], line 9239. *)
Inductive lazy_type : Type :=
| LAZY_DROP_WHILE_FLAG
| LAZY_FILTER_FLAG
| LAZY_MAP_FLAG
| LAZY_TAKE_WHILE_FLAG.

(** An entry of [__iteratees__], lines 9248-9255. *)
Record data : Type := Data {
  data_done : bool;
  data_count : Z;
  data_index : num;
  data_iteratee : value -> value;
  data_limit : num;
  data_type : lazy_type
}.

Inductive view_type : Type :=
| VIEW_drop
| VIEW_dropRight
| VIEW_take
| VIEW_takeRight.

(** An entry of [__views__], line 9279. *)
Record view : Type := View {
  view_size : num;
  view_type_of : view_type
}.

(** An entry of [__actions__]: the function
    [v => action.func.apply(action.thisArg, [v].concat(action.args))], for a
    [func] that returns a value and changes no object.  The action that
    [wrapperReverse], line 2733, queues on the wrapper of an array is not of
    this kind: [Array.prototype.reverse] turns the array round in place, and
    the arrays of the model are values that nothing changes.  The properties
    below that speak of what an evaluation leaves unchanged are stated for
    wrappers on which no action is pending ([array_backed]). *)
Definition action : Type := value -> value.

(** What a wrapper wraps: a plain value, or another wrapper. *)
Inductive wrapped : Type :=
| WVal (v : value)
| WRef (a : addr).

(** [LazyWrapper], line 2497 *)
Record LazyWrapper : Type := Lazy {
  lazy_wrapped : wrapped;
  lazy_actions : option addr;
  lazy_dir : Z;
  lazy_dropCount : Z;
  lazy_filtered : bool;
  lazy_iteratees : option addr;
  lazy_takeCount : num;
  lazy_views : option addr
}.

(** [LodashWrapper], line 2513 *)
Record LodashWrapper : Type := Lodash {
  lodash_wrapped : wrapped;
  lodash_actions : addr;
  lodash_chain : bool
}.

Inductive cell : Type :=
| CData (d : data)
| CIteratees (entries : list addr)
| CViews (views : list view)
| CActions (actions : list action)
| CLazy (w : LazyWrapper)
| CLodash (w : LodashWrapper).

Abbreviation heap := (list cell) (only parsing).

Inductive error : Type :=
| TypeError      (* the TypeError that JavaScript throws *)
| Unsupported    (* the run leaves the modelled fragment *)
| OutOfFuel.

Inductive outcome (A : Type) : Type :=
| Ok (a : A) (h : heap)
| Err (e : error).
Arguments Ok {A} a h.
Arguments Err {A} e.

(** Computations on the store. *)
Definition M (A : Type) : Type := heap -> outcome A.

Definition ret {A} (a : A) : M A := fun h => Ok a h.

Definition bind {A B} (m : M A) (k : A -> M B) : M B :=
  fun h => match m h with
           | Ok a h' => k a h'
           | Err e => Err e
           end.

Definition throw {A} (e : error) : M A := fun _ => Err e.

Notation "'do' x <- m ; k" := (bind m (fun x => k))
  (at level 10, x name, m at level 100, k at level 200).
Notation "m ;; k" := (bind m (fun _ => k))
  (at level 100, k at level 200, right associativity).

Definition alloc (c : cell) : M addr :=
  fun h => Ok (List.length h) (h ++ [c]).

Definition load (a : addr) : M cell :=
  fun h => match h !! a with
           | Some c => Ok c h
           | None => Err Unsupported
           end.

Definition store (a : addr) (c : cell) : M unit :=
  fun h => match h !! a with
           | Some _ => Ok tt (<[a := c]> h)
           | None => Err Unsupported
           end.

Definition getLazy (a : addr) : M LazyWrapper :=
  do c <- load a;
  match c with CLazy w => ret w | _ => throw Unsupported end.

Definition getData (a : addr) : M data :=
  do c <- load a;
  match c with CData d => ret d | _ => throw Unsupported end.

Definition getIteratees (a : addr) : M (list addr) :=
  do c <- load a;
  match c with CIteratees xs => ret xs | _ => throw Unsupported end.

Definition getViews (a : addr) : M (list view) :=
  do c <- load a;
  match c with CViews xs => ret xs | _ => throw Unsupported end.

Definition getActions (a : addr) : M (list action) :=
  do c <- load a;
  match c with CActions xs => ret xs | _ => throw Unsupported end.

Definition modifyLazy (a : addr) (f : LazyWrapper -> LazyWrapper) : M unit :=
  do w <- getLazy a; store a (CLazy (f w)).

(** Field assignments on a [LazyWrapper]. *)
Definition set_actions (x : option addr) (w : LazyWrapper) : LazyWrapper :=
  Lazy (lazy_wrapped w) x (lazy_dir w) (lazy_dropCount w) (lazy_filtered w)
       (lazy_iteratees w) (lazy_takeCount w) (lazy_views w).

Definition set_dir (x : Z) (w : LazyWrapper) : LazyWrapper :=
  Lazy (lazy_wrapped w) (lazy_actions w) x (lazy_dropCount w) (lazy_filtered w)
       (lazy_iteratees w) (lazy_takeCount w) (lazy_views w).

Definition set_filtered (x : bool) (w : LazyWrapper) : LazyWrapper :=
  Lazy (lazy_wrapped w) (lazy_actions w) (lazy_dir w) (lazy_dropCount w) x
       (lazy_iteratees w) (lazy_takeCount w) (lazy_views w).

Definition set_iteratees (x : option addr) (w : LazyWrapper) : LazyWrapper :=
  Lazy (lazy_wrapped w) (lazy_actions w) (lazy_dir w) (lazy_dropCount w) (lazy_filtered w)
       x (lazy_takeCount w) (lazy_views w).

Definition set_takeCount (x : num) (w : LazyWrapper) : LazyWrapper :=
  Lazy (lazy_wrapped w) (lazy_actions w) (lazy_dir w) (lazy_dropCount w) (lazy_filtered w)
       (lazy_iteratees w) x (lazy_views w).

Definition set_views (x : option addr) (w : LazyWrapper) : LazyWrapper :=
  Lazy (lazy_wrapped w) (lazy_actions w) (lazy_dir w) (lazy_dropCount w) (lazy_filtered w)
       (lazy_iteratees w) (lazy_takeCount w) x.

(** The progress fields of an iteratee entry, and its [limit]. *)
Definition set_progress (done : bool) (count : Z) (index : num) (d : data) : data :=
  Data done count index (data_iteratee d) (data_limit d) (data_type d).

Definition set_limit (x : num) (d : data) : data :=
  Data (data_done d) (data_count d) (data_index d) (data_iteratee d) x (data_type d).

(** ** Host behaviour that the library code relies on *)

Class Host : Type := {
  (** ToNumber on strings and on objects. *)
  ToNumberExt : value -> num;
  (** Property lookup beyond the own properties of a plain object and the
      elements of an array or a string: the prototype chain, and the other
      properties of arrays, functions, strings and boxed primitives. *)
  hostLookup : value -> string -> option value;
  (** Identity of two objects, for [===] between object references. *)
  sameRef : value -> value -> bool;
  (** [baseIsEqual(srcValue, objValue, undefined, true)], line 1261: the loose
      deep comparison, which the strict-comparable path never reaches. *)
  baseIsEqualLoose : value -> value -> bool
}.

Section Engine.

Context {host : Host}.

(** [+v] *)
Definition ToNumber (v : value) : num :=
  match v with
  | VUndefined => NaN
  | VNull => Fin 0
  | VBool b => if b then Fin 1 else Fin 0
  | VNum n => n
  | _ => ToNumberExt v
  end.

(** [+v || 0] *)
Definition ToNumberOr0 (v : value) : num :=
  let n := ToNumber v in if Num.truthy n then n else Fin 0.

(** A string that begins with a lower-case letter: no numeral does, so that
    its number is [NaN]. *)
Definition begins_with_letter (s : string) : bool :=
  match s with
  | String c _ => (97 <=? nat_of_ascii c)%nat && (nat_of_ascii c <=? 122)%nat
  | EmptyString => false
  end.

(** The sizes and counts whose number the model holds exactly: [undefined],
    [null], the booleans and the numbers of the model; a string that is the
    decimal numeral of an integer of magnitude at most [2^53], which the host
    reads as that integer; and a string that begins with a lower-case letter,
    which the host reads as [NaN].  What [+n] is of another string or of an
    object is the host's word alone, and it may be a fraction in the code. *)
Definition exact_size (n : value) : bool :=
  match n with
  | VUndefined | VNull | VBool _ | VNum _ => true
  | VStr s =>
      match ToNumberExt n with
      | Fin z => (Z.abs z <=? 2 ^ 53) && String.eqb s (decimal z)
      | NaN => begins_with_letter s
      | _ => false
      end
  | _ => false
  end.

(** [a === b] *)
Definition strictEquals (a b : value) : bool :=
  match a, b with
  | VUndefined, VUndefined => true
  | VNull, VNull => true
  | VBool x, VBool y => Bool.eqb x y
  | VNum x, VNum y => Num.eqb x y
  | VStr x, VStr y => String.eqb x y
  | (VArr _ | VObj _ | VFun _ | VBoxed _), (VArr _ | VObj _ | VFun _ | VBoxed _) =>
      sameRef a b
  | _, _ => false
  end.

(** ** Property access *)

(** [toObject], line 1323 *)
Definition toObject (v : value) : value :=
  if isObject v then v else VBoxed v.

(** The index below [length] that a key is the numeral of. *)
Definition index_of_key (key : string) (length : nat) : option nat :=
  find (fun index => String.eqb (decimal (Z.of_nat index)) key) (seq 0 length).

Definition lookupProp (o : value) (key : string) : option value :=
  match o with
  | VObj props =>
      match assoc key props with
      | Some v => Some v
      | None => hostLookup o key
      end
  | VArr elems =>
      match index_of_key key (length elems) with
      | Some index => Some (nth index elems VUndefined)
      | None => hostLookup o key
      end
  | VBoxed (VStr s) =>
      match index_of_key key (String.length s) with
      | Some index =>
          match String.get index s with
          | Some c => Some (VStr (String c EmptyString))
          | None => hostLookup o key
          end
      | None => hostLookup o key
      end
  | _ => hostLookup o key
  end.

(** [key in o] *)
Definition hasProperty (o : value) (key : string) : bool :=
  match lookupProp o key with
  | Some _ => true
  | None => false
  end.

(** [v[key]] for a [v] that is neither [null] nor [undefined]: the lookup
    goes through the object of [v]. *)
Definition getProp (v : value) (key : string) : value :=
  match lookupProp (toObject v) key with
  | Some x => x
  | None => VUndefined
  end.

(** ** The iteratee adapter *)

(** [isStrictComparable], line 1317 *)
Definition isStrictComparable (v : value) : bool :=
  strictEquals v v &&
  (if strictEquals v (VInt 0)
   then match v with VNum n => Num.recip_positive n | _ => false end
   else negb (isObject v)).

(** [baseIsMatch], line 1281.  [object] has been through [toObject]. *)
Fixpoint baseIsMatch_present (object : value) (props : list string) (values : list value)
    (strictCompareFlags : list bool) (noCustomizer : bool) : bool :=
  match props, values, strictCompareFlags with
  | key :: props', srcValue :: values', flag :: flags' =>
      if (if noCustomizer && flag
          then negb (strictEquals srcValue (getProp object key))
          else negb (hasProperty object key))
      then false
      else baseIsMatch_present object props' values' flags' noCustomizer
  | _, _, _ => true
  end.

Fixpoint baseIsMatch_equal (object : value) (props : list string) (values : list value)
    (strictCompareFlags : list bool)
    (customizer : option (value -> value -> string -> value)) : bool :=
  match props, values, strictCompareFlags with
  | key :: props', srcValue :: values', flag :: flags' =>
      let objValue := getProp object key in
      let result :=
        if (match customizer with None => true | Some _ => false end) && flag
        then negb (isUndefined objValue) || hasProperty object key
        else
          match customizer with
          | Some c =>
              let r := c objValue srcValue key in
              if isUndefined r then baseIsEqualLoose srcValue objValue else truthy r
          | None => baseIsEqualLoose srcValue objValue
          end in
      if result then baseIsMatch_equal object props' values' flags' customizer
      else false
  | _, _, _ => true
  end.

Definition baseIsMatch (object : value) (props : list string) (values : list value)
    (strictCompareFlags : list bool)
    (customizer : option (value -> value -> string -> value)) : bool :=
  let noCustomizer := match customizer with None => true | Some _ => false end in
  if baseIsMatch_present object props values strictCompareFlags noCustomizer
  then baseIsMatch_equal object props values strictCompareFlags customizer
  else false.

(** The closure that [baseMatches] returns on its single-key path,
    lines 1340-1343. *)
Definition matchesStrict (key : string) (value0 : value) (object : value) : bool :=
  negb (isNullish object) &&
  strictEquals (getProp object key) value0 &&
  (negb (isUndefined value0) || hasProperty (toObject object) key).

(** The closure that [baseMatches] returns on its general path,
    lines 1346-1356. *)
Definition matchesGeneral (source : value) (object : value) : bool :=
  let props := object_keys source in
  let values := map (fun key => getProp source key) props in
  let strictCompareFlags := map isStrictComparable values in
  negb (isNullish object) &&
  baseIsMatch (toObject object) props values strictCompareFlags None.

(** [baseMatches], line 1329 *)
Definition baseMatches (source : value) : value -> bool :=
  let props := object_keys source in
  match props with
  | [] => fun _ => true
  | [key] =>
      let value0 := getProp source key in
      if isStrictComparable value0
      then matchesStrict key value0
      else matchesGeneral source
  | _ => matchesGeneral source
  end.

(** [baseProperty], line 1383 *)
Definition baseProperty (key : string) (object : value) : value :=
  if isNullish object then VUndefined else getProp object key.

(** [baseCallback], line 1440, called without a [thisArg]. *)
Definition baseCallback (func : callback) : value -> value :=
  match func with
  | CbFun f => f
  | CbNone => identity
  | CbObject source => fun object => VBool (baseMatches source object)
  | CbKey key => baseProperty key
  end.

(** ** The eager array helpers *)

(** [baseSlice], line 14 *)
Definition baseSlice (array : list value) (start end_ : value) : list value :=
  let length := lengthOf array in
  let start := if isNullish start then Fin 0 else ToNumberOr0 start in
  let start :=
    if Num.lt start (Fin 0)
    then (if Num.gt (Num.neg start) length then Fin 0 else Num.add length start)
    else start in
  let end_ :=
    if isUndefined end_ || Num.gt (ToNumber end_) length
    then length else ToNumberOr0 end_ in
  let end_ := if Num.lt end_ (Fin 0) then Num.add end_ length else end_ in
  let length := if Num.gt start end_ then 0 else Num.toUint32 (Num.sub end_ start) in
  let start := Num.toUint32 start in
  map (fun index => arrayGetZ array (Z.of_nat index + start)) (seq 0 (Z.to_nat length)).

(** [take], line 2167, called without a guard. *)
Definition array_take (array : list value) (n : value) : list value :=
  match array with
  | [] => []
  | _ =>
      let n := if isNullish n then VInt 1 else n in
      baseSlice array (VInt 0) (if Num.lt (ToNumber n) (Fin 0) then VInt 0 else n)
  end.

(** [drop], line 679, called without a guard. *)
Definition array_drop (array : list value) (n : value) : list value :=
  match array with
  | [] => []
  | _ =>
      let n := if isNullish n then VInt 1 else n in
      baseSlice array (if Num.lt (ToNumber n) (Fin 0) then VInt 0 else n) VUndefined
  end.

(** [takeRight], line 2180 *)
Definition array_takeRight (array : list value) (n : value) : list value :=
  match array with
  | [] => []
  | _ =>
      let n := if isNullish n then VInt 1 else n in
      let n := Num.sub (lengthOf array) (ToNumberOr0 n) in
      baseSlice array (if Num.lt n (Fin 0) then VInt 0 else VNum n) VUndefined
  end.

(** [dropRight], line 692 *)
Definition array_dropRight (array : list value) (n : value) : list value :=
  match array with
  | [] => []
  | _ =>
      let n := if isNullish n then VInt 1 else n in
      let n := Num.sub (lengthOf array) (ToNumberOr0 n) in
      baseSlice array (VInt 0) (if Num.lt n (Fin 0) then VInt 0 else VNum n)
  end.

(** [slice], line 2127, with numeric or absent bounds. *)
Definition array_slice (array : list value) (start end_ : value) : list value :=
  match array with
  | [] => []
  | _ => baseSlice array start end_
  end.

(** The scan of [baseWhile] from the left: [++index < length && predicate(array[index])]. *)
Fixpoint baseWhile_left (array : list value) (predicate : value -> value)
    (index : Z) (steps : nat) : Z :=
  let index := index + 1 in
  match steps with
  | O => index
  | S steps' =>
      if (index <? Z.of_nat (length array)) && truthy (predicate (arrayGetZ array index))
      then baseWhile_left array predicate index steps'
      else index
  end.

(** The scan from the right: [index-- && predicate(array[index])]. *)
Fixpoint baseWhile_right (array : list value) (predicate : value -> value)
    (index : Z) (steps : nat) : Z :=
  match steps with
  | O => index - 1
  | S steps' =>
      if negb (index =? 0) && truthy (predicate (arrayGetZ array (index - 1)))
      then baseWhile_right array predicate (index - 1) steps'
      else index - 1
  end.

(** [baseWhile], line 1460 *)
Definition baseWhile (array : list value) (predicate : value -> value)
    (isDrop fromRight : bool) : list value :=
  let length := Z.of_nat (length array) in
  let index :=
    if fromRight then baseWhile_right array predicate length (List.length array)
    else baseWhile_left array predicate (-1) (List.length array) in
  if isDrop
  then baseSlice array (if fromRight then VInt 0 else VInt index)
                       (if fromRight then VInt (index + 1) else VInt length)
  else baseSlice array (if fromRight then VInt (index + 1) else VInt 0)
                       (if fromRight then VInt length else VInt index).

(** [dropWhile], line 1480; [takeWhile], line 2202; and the right variants *)
Definition array_dropWhile (array : list value) (predicate : callback) : list value :=
  match array with
  | [] => []
  | _ => baseWhile array (baseCallback predicate) true false
  end.

Definition array_takeWhile (array : list value) (predicate : callback) : list value :=
  match array with
  | [] => []
  | _ => baseWhile array (baseCallback predicate) false false
  end.

Definition array_dropRightWhile (array : list value) (predicate : callback) : list value :=
  match array with
  | [] => []
  | _ => baseWhile array (baseCallback predicate) true true
  end.

Definition array_takeRightWhile (array : list value) (predicate : callback) : list value :=
  match array with
  | [] => []
  | _ => baseWhile array (baseCallback predicate) false true
  end.

(** [arrayMap], line 2320, and [arrayFilter], line 3397 *)
Definition arrayMap (array : list value) (iteratee : value -> value) : list value :=
  map iteratee array.

Definition arrayFilter (array : list value) (predicate : value -> value) : list value :=
  List.filter (fun v => truthy (predicate v)) array.

(** [map], line 3086, and [filter], line 3426, on an array *)
Definition collection_map (collection : list value) (iteratee : callback) : list value :=
  arrayMap collection (baseCallback iteratee).

Definition collection_filter (collection : list value) (predicate : callback) : list value :=
  arrayFilter collection (baseCallback predicate).

(** [first], line 1595, and [last], line 1827 *)
Definition array_first (array : list value) : value := arrayGetZ array 0.

Definition array_last (array : list value) : value :=
  match array with
  | [] => VUndefined
  | _ => arrayGetZ array (Z.of_nat (length array) - 1)
  end.

(** [Array.prototype.reverse], what the eager [reverse] of a chain runs. *)
Definition array_reverse (array : list value) : list value := rev array.

(** ** Construction and copying *)

(** [new LazyWrapper(value)], line 2497 *)
Definition new_LazyWrapper (value0 : wrapped) : M addr :=
  alloc (CLazy (Lazy value0 None 1 0 false None PInf None)).

(** [arrayCopy(source)], line 2532: a new array with the same elements. *)
Definition arrayCopy (source : addr) : M addr :=
  do c <- load source;
  match c with
  | CIteratees _ | CViews _ | CActions _ => alloc c
  | _ => throw Unsupported
  end.

(** [x ? arrayCopy(x) : null] *)
Definition arrayCopy_or_null (x : option addr) : M (option addr) :=
  match x with
  | Some a => do a' <- arrayCopy a; ret (Some a')
  | None => ret None
  end.

(** [new LodashWrapper(value, chainAll, actions)], line 2513; an absent
    [actions] is a new empty array. *)
Definition new_LodashWrapper (value0 : wrapped) (chainAll : bool) (actions : option addr)
  : M addr :=
  do a <- match actions with
          | Some a => ret a
          | None => alloc (CActions [])
          end;
  alloc (CLodash (Lodash value0 a chainAll)).

(** [lazyClone], line 8799 *)
Definition lazyClone (this : addr) : M addr :=
  do w <- getLazy this;
  let actions := lazy_actions w in
  let iteratees := lazy_iteratees w in
  let views := lazy_views w in
  do result <- new_LazyWrapper (lazy_wrapped w);
  do a <- arrayCopy_or_null actions;
  modifyLazy result (set_actions a);;
  do w <- getLazy this;
  modifyLazy result (set_dir (lazy_dir w));;
  do w <- getLazy this;
  modifyLazy result (set_filtered (lazy_filtered w));;
  do i <- arrayCopy_or_null iteratees;
  modifyLazy result (set_iteratees i);;
  do w <- getLazy this;
  modifyLazy result (set_takeCount (lazy_takeCount w));;
  do v <- arrayCopy_or_null views;
  modifyLazy result (set_views v);;
  ret result.

(** [lazyReverse], line 8816 *)
Definition lazyReverse (this : addr) : M addr :=
  do w <- getLazy this;
  if lazy_filtered w then
    do result <- new_LazyWrapper (WRef this);
    modifyLazy result (set_dir (-1));;
    modifyLazy result (set_filtered true);;
    ret result
  else
    do result <- lazyClone this;
    modifyLazy result (fun r => set_dir (lazy_dir r * -1) r);;
    ret result.

(** ** The chainable methods of [LazyWrapper] *)

(** [array.push(x)] on an [__iteratees__] or a [__views__] array *)
Definition push_iteratee (array : addr) (x : addr) : M unit :=
  do xs <- getIteratees array; store array (CIteratees (xs ++ [x])).

Definition push_view (array : addr) (x : view) : M unit :=
  do xs <- getViews array; store array (CViews (xs ++ [x])).

Definition push_action (array : addr) (x : action) : M unit :=
  do xs <- getActions array; store array (CActions (xs ++ [x])).

(** [result.__iteratees__ || (result.__iteratees__ = [])] *)
Definition iteratees_of (result : addr) : M addr :=
  do r <- getLazy result;
  match lazy_iteratees r with
  | Some a => ret a
  | None =>
      do a <- alloc (CIteratees []);
      modifyLazy result (set_iteratees (Some a));;
      ret a
  end.

(** [result.__views__ || (result.__views__ = [])] *)
Definition views_of (result : addr) : M addr :=
  do r <- getLazy result;
  match lazy_views r with
  | Some a => ret a
  | None =>
      do a <- alloc (CViews []);
      modifyLazy result (set_views (Some a));;
      ret a
  end.

(** The methods [dropWhile], [filter], [map] and [takeWhile],
    lines 9239-9260, called without a [thisArg]. *)
Definition lazy_iteratee_method (type : lazy_type) (iteratee : callback) (this : addr)
  : M addr :=
  let isFilter := match type with LAZY_MAP_FLAG => false | _ => true end in
  let isDropWhile := match type with LAZY_DROP_WHILE_FLAG => true | _ => false end in
  do w <- getLazy this;
  let filtered := lazy_filtered w in
  do result <- (if filtered && isDropWhile then new_LazyWrapper (WRef this)
                else lazyClone this);
  do iteratees <- iteratees_of result;
  do entry <- alloc (CData (Data false 0 (Fin 0) (baseCallback iteratee) (Fin (-1)) type));
  push_iteratee iteratees entry;;
  modifyLazy result (set_filtered (filtered || isFilter));;
  ret result.

Definition lazy_dropWhile := lazy_iteratee_method LAZY_DROP_WHILE_FLAG.
Definition lazy_filter := lazy_iteratee_method LAZY_FILTER_FLAG.
Definition lazy_map := lazy_iteratee_method LAZY_MAP_FLAG.
Definition lazy_takeWhile := lazy_iteratee_method LAZY_TAKE_WHILE_FLAG.

(** [n == null ? 1 : nativeMax(floor(n) || 0, 0)], line 9270 *)
Definition lazy_count (n : value) : num :=
  if isNullish n then Fin 1
  else
    let f := Num.floor (ToNumber n) in
    Num.max (if Num.truthy f then f else Fin 0) (Fin 0).

(** [array_last(result.__iteratees__).limit = n], line 9275 *)
Definition set_last_limit (result : addr) (n : num) : M unit :=
  do r <- getLazy result;
  match lazy_iteratees r with
  | None => throw TypeError
  | Some a =>
      do xs <- getIteratees a;
      match last xs with
      | None => throw TypeError
      | Some entry =>
          do d <- getData entry;
          store entry (CData (set_limit n d))
      end
  end.

(** The methods [drop] ([isTake = false]) and [take] ([isTake = true]),
    lines 9263-9282. *)
Definition lazy_drop_take (isTake : bool) (n : value) (this : addr) : M addr :=
  do w <- getLazy this;
  let filtered := lazy_filtered w in
  do result <- (if filtered && negb isTake then lazy_dropWhile CbNone this
                else lazyClone this);
  let n := lazy_count n in
  (if filtered then
     if isTake
     then modifyLazy result (fun r => set_takeCount (Num.min (lazy_takeCount r) n) r)
     else set_last_limit result n
   else
     do views <- views_of result;
     do r <- getLazy result;
     let isRight := lazy_dir r <? 0 in
     push_view views
       (View n (match isTake, isRight with
                | false, false => VIEW_drop
                | false, true => VIEW_dropRight
                | true, false => VIEW_take
                | true, true => VIEW_takeRight
                end)));;
  ret result.

Definition lazy_drop := lazy_drop_take false.
Definition lazy_take := lazy_drop_take true.

(** [dropRight] and [takeRight], line 9284 *)
Definition lazy_dropRight (n : value) (this : addr) : M addr :=
  do r1 <- lazyReverse this;
  do r2 <- lazy_drop n r1;
  lazyReverse r2.

Definition lazy_takeRight (n : value) (this : addr) : M addr :=
  do r1 <- lazyReverse this;
  do r2 <- lazy_take n r1;
  lazyReverse r2.

(** [dropRightWhile] and [takeRightWhile], line 9288 *)
Definition lazy_dropRightWhile (predicate : callback) (this : addr) : M addr :=
  do r1 <- lazyReverse this;
  do r2 <- lazy_dropWhile predicate r1;
  lazyReverse r2.

Definition lazy_takeRightWhile (predicate : callback) (this : addr) : M addr :=
  do r1 <- lazyReverse this;
  do r2 <- lazy_takeWhile predicate r1;
  lazyReverse r2.

(** [initial] and [rest], line 9303 *)
Definition lazy_initial (this : addr) : M addr := lazy_dropRight (VInt 1) this.
Definition lazy_rest (this : addr) : M addr := lazy_drop (VInt 1) this.

(** [slice], line 9332 *)
Definition lazy_slice (start end_ : value) (this : addr) : M addr :=
  let start := if isNullish start then Fin 0 else ToNumberOr0 start in
  do result <- (if Num.lt start (Fin 0) then lazy_takeRight (VNum (Num.neg start)) this
                else lazy_drop (VNum start) this);
  if isUndefined end_ then ret result
  else
    let end_ := ToNumberOr0 end_ in
    if Num.lt end_ (Fin 0) then lazy_dropRight (VNum (Num.neg end_)) result
    else lazy_take (VNum (Num.sub end_ start)) result.

(** [toArray], line 9343, and [compact], line 9321 *)
Definition lazy_toArray (this : addr) : M addr := lazy_drop (VInt 0) this.
Definition lazy_compact (this : addr) : M addr := lazy_filter (CbFun identity) this.

(** ** The terminal evaluation *)

(** [getView], line 8844 *)
Definition getView_step (se : num * num) (data0 : view) : num * num :=
  let '(start, end_) := se in
  let size := view_size data0 in
  match view_type_of data0 with
  | VIEW_drop => (Num.add start size, end_)
  | VIEW_dropRight => (start, Num.sub end_ size)
  | VIEW_take => (start, Num.min end_ (Num.add start size))
  | VIEW_takeRight => (Num.max start (Num.sub end_ size), end_)
  end.

Definition getView (start end_ : num) (transforms : list view) : num * num :=
  fold_left getView_step transforms (start, end_).

(** How one pass of the inner loop of [lazyValue] leaves the outer loop. *)
Inductive pass : Type :=
| Emit (v : value)     (* falls through to [result[resIndex++] = value] *)
| ContinueOuter
| BreakOuter.

(** The visit of a drop-while entry, lines 8910-8920: the new progress fields
    and whether the element is skipped. *)
Definition dropWhile_visit (isRight : bool) (index : num) (value0 : value) (d : data)
  : data * bool :=
  let '(count, done) :=
    if data_done d &&
       (if isRight then Num.gt index (data_index d) else Num.lt index (data_index d))
    then (0, false)
    else (data_count d, data_done d) in
  if negb done then
    let limit := data_limit d in
    if Num.gt limit (Fin (-1)) then
      let done := Num.ge (Fin count) limit in
      (set_progress done (count + 1) index d, negb done)
    else
      let done := negb (truthy (data_iteratee d value0)) in
      (set_progress done count index d, negb done)
  else (set_progress done count index d, false).

(** The inner loop of [lazyValue], lines 8904-8933. *)
Fixpoint lazyIteratees (iteratees : list addr) (isRight : bool) (index : num)
    (value0 : value) : M pass :=
  match iteratees with
  | [] => ret (Emit value0)
  | a :: rest =>
      do d <- getData a;
      match data_type d with
      | LAZY_DROP_WHILE_FLAG =>
          let '(d', skip) := dropWhile_visit isRight index value0 d in
          store a (CData d');;
          if skip then ret ContinueOuter
          else lazyIteratees rest isRight index value0
      | LAZY_MAP_FLAG =>
          lazyIteratees rest isRight index (data_iteratee d value0)
      | LAZY_FILTER_FLAG =>
          if truthy (data_iteratee d value0)
          then lazyIteratees rest isRight index value0
          else ret ContinueOuter
      | LAZY_TAKE_WHILE_FLAG =>
          if truthy (data_iteratee d value0)
          then lazyIteratees rest isRight index value0
          else ret BreakOuter
      end
  end.

(** The outer loop of [lazyValue], lines 8898-8935.  [resIndex] is the length
    of [result]; [steps] bounds the number of iterations. *)
Fixpoint lazyLoop (steps : nat) (array : list value) (dir : Z) (iteratees : list addr)
    (takeCount length0 index : num) (result : list value) : M (list value) :=
  match steps with
  | O => throw OutOfFuel
  | S steps' =>
      if Num.truthy length0 && Num.lt (Fin (Z.of_nat (length result))) takeCount then
        let length0 := Num.sub length0 (Fin 1) in
        let index := Num.add index (Fin dir) in
        do p <- lazyIteratees iteratees (dir <? 0) index (arrayGet array index);
        match p with
        | Emit v => lazyLoop steps' array dir iteratees takeCount length0 index (result ++ [v])
        | ContinueOuter => lazyLoop steps' array dir iteratees takeCount length0 index result
        | BreakOuter => ret result
        end
      else ret result
  end.

(** Iterations that suffice for a loop over [length0] elements; from an
    infinite [length0] the loop need not end. *)
Definition loop_steps (length0 : num) : nat :=
  match length0 with
  | Fin z => S (Z.to_nat z)
  | PInf => O
  | _ => 1%nat
  end.

(** [baseWrapperValue], line 2765.  [value_of] is the method call [x.value()]. *)
Definition baseWrapperValue (value_of : addr -> M value) (value0 : wrapped)
    (actions : option addr) : M value :=
  do result <- match value0 with
               | WVal v => ret v
               | WRef a =>
                   do c <- load a;
                   match c with
                   | CLazy _ => value_of a
                   | _ => throw Unsupported
                   end
               end;
  match actions with
  | None => throw TypeError
  | Some a =>
      do acts <- getActions a;
      ret (fold_left (fun r (act : action) => act r) acts result)
  end.

(** [wrapperValue], line 2785 *)
Definition wrapperValue (value_of : addr -> M value) (this : addr) : M value :=
  do c <- load this;
  match c with
  | CLodash w => baseWrapperValue value_of (lodash_wrapped w) (Some (lodash_actions w))
  | _ => throw Unsupported
  end.

(** [lazyValue], line 8879 *)
Definition lazyValue (value_of : addr -> M value) (this : addr) : M value :=
  do w <- getLazy this;
  do array <- match lazy_wrapped w with
              | WRef a => value_of a
              | WVal _ => throw TypeError
              end;
  match array with
  | VArr array =>
      do w <- getLazy this;
      let dir := lazy_dir w in
      do views <- match lazy_views w with
                  | Some a => getViews a
                  | None => ret []
                  end;
      let '(start, end_) := getView (Fin 0) (lengthOf array) views in
      let length0 := Num.sub end_ start in
      let index := if dir <? 0 then end_ else Num.sub start (Fin 1) in
      let takeCount := Num.min length0 (lazy_takeCount w) in
      do iteratees <- match lazy_iteratees w with
                      | Some a => getIteratees a
                      | None => ret []
                      end;
      do result <- lazyLoop (loop_steps length0) array dir iteratees takeCount length0 index [];
      ret (VArr result)
  | _ =>
      do w <- getLazy this;
      baseWrapperValue value_of (WVal array) (lazy_actions w)
  end.

(** The method call [x.value()] on a wrapper; [fuel] bounds the nesting of
    wrappers. *)
Fixpoint value_of (fuel : nat) (this : addr) : M value :=
  match fuel with
  | O => throw OutOfFuel
  | S fuel' =>
      do c <- load this;
      match c with
      | CLazy _ => lazyValue (value_of fuel') this
      | CLodash _ => wrapperValue (value_of fuel') this
      | _ => throw Unsupported
      end
  end.

(** [first] and [last], line 9294: [this.take(1).value()[0]]. *)
Definition lazy_first (fuel : nat) (this : addr) : M value :=
  do r <- lazy_take (VInt 1) this;
  do v <- value_of fuel r;
  match v with
  | VArr xs => ret (arrayGetZ xs 0)
  | _ => throw Unsupported
  end.

Definition lazy_last (fuel : nat) (this : addr) : M value :=
  do r <- lazy_takeRight (VInt 1) this;
  do v <- value_of fuel r;
  match v with
  | VArr xs => ret (arrayGetZ xs 0)
  | _ => throw Unsupported
  end.

(** What the chain dispatcher of line 9356 builds for a method call on a plain
    array that no action is pending on: [new LazyWrapper(this)] around the
    [LodashWrapper] of the array, line 9382. *)
Definition lazy_of_array (array : list value) : M addr :=
  do l <- new_LodashWrapper (WVal (VArr array)) false None;
  new_LazyWrapper (WRef l).

(** ** Chains of calls *)

(** The chainable calls that a lazy sequence fuses. *)
Inductive chain_call : Type :=
| Call_map (iteratee : callback)
| Call_filter (predicate : callback)
| Call_take (n : value)
| Call_drop (n : value)
| Call_dropWhile (predicate : callback)
| Call_takeWhile (predicate : callback)
| Call_reverse
| Call_slice (start end_ : value).

(** The [LazyWrapper] method that a call runs. *)
Definition lazy_call (c : chain_call) (this : addr) : M addr :=
  match c with
  | Call_map iteratee => lazy_map iteratee this
  | Call_filter predicate => lazy_filter predicate this
  | Call_take n => lazy_take n this
  | Call_drop n => lazy_drop n this
  | Call_dropWhile predicate => lazy_dropWhile predicate this
  | Call_takeWhile predicate => lazy_takeWhile predicate this
  | Call_reverse => lazyReverse this
  | Call_slice start end_ => lazy_slice start end_ this
  end.

(** The eager function of the same name, which the dispatcher of line 9356
    falls back to ([lodashFunc]); for [reverse], [Array.prototype.reverse]. *)
Definition eager_call (c : chain_call) (array : list value) : list value :=
  match c with
  | Call_map iteratee => collection_map array iteratee
  | Call_filter predicate => collection_filter array predicate
  | Call_take n => array_take array n
  | Call_drop n => array_drop array n
  | Call_dropWhile predicate => array_dropWhile array predicate
  | Call_takeWhile predicate => array_takeWhile array predicate
  | Call_reverse => array_reverse array
  | Call_slice start end_ => array_slice array start end_
  end.

(** The calls [dropWhile] and [takeWhile]. *)
Definition is_while_call (c : chain_call) : bool :=
  match c with
  | Call_dropWhile _ | Call_takeWhile _ => true
  | _ => false
  end.

Fixpoint lazy_calls (calls : list chain_call) (this : addr) : M addr :=
  match calls with
  | [] => ret this
  | c :: calls' => do r <- lazy_call c this; lazy_calls calls' r
  end.

(** [reverse()] is not among the methods that line 9356 installs on
    [lodash.prototype]: it is [wrapperReverse], line 2733.  On a wrapper
    whose value is a [LazyWrapper] it calls [lazyReverse], as [lazy_call] has
    it.  Called first, on the wrapper of the array itself, it queues
    [Array.prototype.reverse], which turns the caller's array round in place
    at every [value()]; that is outside what [action] models, so a chain that
    begins with [reverse()] is not run. *)
Definition reverse_first (calls : list chain_call) : bool :=
  match calls with
  | Call_reverse :: _ => true
  | _ => false
  end.

(** A chain on an array: the wrapper it builds. *)
Definition lazy_chain (array : list value) (calls : list chain_call) : M addr :=
  if reverse_first calls then throw Unsupported
  else
    do w <- lazy_of_array array;
    lazy_calls calls w.

(** The same calls run eagerly, one at a time. *)
Definition eager_chain (array : list value) (calls : list chain_call) : list value :=
  fold_left (fun a c => eager_call c a) calls array.

(** [value()] called twice on the same wrapper. *)
Definition value_twice (fuel : nat) (this : addr) : M (value * value) :=
  do v1 <- value_of fuel this;
  do v2 <- value_of fuel this;
  ret (v1, v2).

(** [_(array). ... .value()] *)
Definition chain_value (fuel : nat) (array : list value) (calls : list chain_call)
  : M value :=
  do w <- lazy_chain array calls;
  value_of fuel w.

(** [var w = _(array). ...; [w.value(), w.value()]] *)
Definition chain_value_twice (fuel : nat) (array : list value) (calls : list chain_call)
  : M (value * value) :=
  do w <- lazy_chain array calls;
  value_twice fuel w.

(** ** More of the eager array functions *)

(** [initial], line 1764, and [rest], line 2127 *)
Definition array_initial (array : list value) : list value :=
  array_dropRight array (VInt 1).

Definition array_rest (array : list value) : list value :=
  array_drop array (VInt 1).

(** [compact], line 188 *)
Definition array_compact (array : list value) : list value :=
  List.filter truthy array.

(** [chunk], line 155, called without a guard.  [Array(n)] is an array of
    [n] holes, and an assignment at an index beyond the end extends the array
    with holes. *)
Definition new_Array {A} (n : nat) : list (option A) := replicate n None.

Definition array_set {A} (array : list (option A)) (index : nat) (x : A)
  : list (option A) :=
  if (index <? length array)%nat then <[index := Some x]> array
  else array ++ replicate (index - length array) None ++ [Some x].

(** [nativeMax(+size || 1, 1)], or [1] for an absent size *)
Definition chunk_size (size : value) : num :=
  if isNullish size then Fin 1
  else let n := ToNumber size in Num.max (if Num.truthy n then n else Fin 1) (Fin 1).

(** [ceil(length / size)] for a size that [chunk_size] returns *)
Definition chunk_count (length : Z) (size : num) : nat :=
  match size with
  | Fin z => Z.to_nat ((length + z - 1) / z)
  | _ => O
  end.

(** The loop of lines 166-168; [steps] bounds the number of iterations. *)
Fixpoint chunk_loop (steps : nat) (array : list value) (size index : num) (resIndex : Z)
    (result : list (option (list value))) : option (list (option (list value))) :=
  match steps with
  | O => None
  | S steps' =>
      if Num.lt index (lengthOf array) then
        let resIndex := resIndex + 1 in
        let piece := baseSlice array (VNum index) (VNum (Num.add index size)) in
        chunk_loop steps' array size (Num.add index size) resIndex
          (array_set result (Z.to_nat resIndex) piece)
      else Some result
  end.

Definition array_chunk (array : list value) (size : value)
  : option (list (option (list value))) :=
  let size := chunk_size size in
  chunk_loop (S (length array)) array size (Fin 0) (-1)
    (new_Array (chunk_count (Z.of_nat (length array)) size)).

(** [v !== v]: [v] is [NaN]. *)
Definition isNaN_value (v : value) : bool :=
  match v with
  | VNum NaN => true
  | _ => false
  end.

(** [indexOfNaN], line 214, on an integer [fromIndex]; [index] is the index
    before the test of the loop, [steps] bounds the number of iterations. *)
Fixpoint indexOfNaN_loop (steps : nat) (array : list value) (index : Z) (fromRight : bool)
  : option Z :=
  match steps with
  | O => None
  | S steps' =>
      if fromRight then
        if index =? 0 then Some (-1)
        else
          let index := index - 1 in
          if isNaN_value (arrayGetZ array index) then Some index
          else indexOfNaN_loop steps' array index fromRight
      else
        let index := index + 1 in
        if index <? Z.of_nat (length array) then
          if isNaN_value (arrayGetZ array index) then Some index
          else indexOfNaN_loop steps' array index fromRight
        else Some (-1)
  end.

Definition indexOfNaN (steps : nat) (array : list value) (fromIndex : Z) (fromRight : bool)
  : option Z :=
  indexOfNaN_loop steps array (fromIndex + (if fromRight then 0 else -1)) fromRight.

(** [baseIndexOf], line 229, on an integer [fromIndex] *)
Fixpoint baseIndexOf_loop (steps : nat) (array : list value) (value0 : value) (index : Z)
  : option Z :=
  match steps with
  | O => None
  | S steps' =>
      let index := index + 1 in
      if index <? Z.of_nat (length array) then
        if strictEquals (arrayGetZ array index) value0 then Some index
        else baseIndexOf_loop steps' array value0 index
      else Some (-1)
  end.

Definition baseIndexOf (steps : nat) (array : list value) (value0 : value) (fromIndex : Z)
  : option Z :=
  if isNaN_value value0 then indexOfNaN steps array fromIndex false
  else baseIndexOf_loop steps array value0 (fromIndex - 1).

(** [reject], line 3740, on an array *)
Definition collection_reject (collection : list value) (predicate : callback) : list value :=
  arrayFilter collection (fun value0 => VBool (negb (truthy (baseCallback predicate value0)))).

(** [LazyWrapper.prototype.reject], line 9325 *)
Definition lazy_reject (predicate : callback) (this : addr) : M addr :=
  lazy_filter (CbFun (fun value0 => VBool (negb (truthy (baseCallback predicate value0))))) this.

(** ** The chainable methods of [LazyWrapper.prototype] *)

(** The calls of [chain_call] and the methods that lines 9284-9330 build from
    them. *)
Inductive lazy_method : Type :=
| Method_call (c : chain_call)
| Method_takeRight (n : value)
| Method_dropRight (n : value)
| Method_takeRightWhile (predicate : callback)
| Method_dropRightWhile (predicate : callback)
| Method_initial
| Method_rest
| Method_compact
| Method_reject (predicate : callback).

Definition method_call (m : lazy_method) (this : addr) : M addr :=
  match m with
  | Method_call c => lazy_call c this
  | Method_takeRight n => lazy_takeRight n this
  | Method_dropRight n => lazy_dropRight n this
  | Method_takeRightWhile predicate => lazy_takeRightWhile predicate this
  | Method_dropRightWhile predicate => lazy_dropRightWhile predicate this
  | Method_initial => lazy_initial this
  | Method_rest => lazy_rest this
  | Method_compact => lazy_compact this
  | Method_reject predicate => lazy_reject predicate this
  end.

(** The eager function of the same name. *)
Definition method_eager (m : lazy_method) (array : list value) : list value :=
  match m with
  | Method_call c => eager_call c array
  | Method_takeRight n => array_takeRight array n
  | Method_dropRight n => array_dropRight array n
  | Method_takeRightWhile predicate => array_takeRightWhile array predicate
  | Method_dropRightWhile predicate => array_dropRightWhile array predicate
  | Method_initial => array_initial array
  | Method_rest => array_rest array
  | Method_compact => array_compact array
  | Method_reject predicate => collection_reject array predicate
  end.

Fixpoint method_calls (ms : list lazy_method) (this : addr) : M addr :=
  match ms with
  | [] => ret this
  | m :: ms' => do r <- method_call m this; method_calls ms' r
  end.

(** The chains that the model runs as the code does: a chain does not begin
    with [reverse()] (see [reverse_first]), and the sizes of its [take],
    [drop], [takeRight] and [dropRight] are exact. *)
Definition method_modelled (m : lazy_method) : bool :=
  match m with
  | Method_call (Call_take n) | Method_call (Call_drop n)
  | Method_takeRight n | Method_dropRight n => exact_size n
  | _ => true
  end.

Definition methods_reverse_first (ms : list lazy_method) : bool :=
  match ms with
  | Method_call Call_reverse :: _ => true
  | _ => false
  end.

Definition modelled (ms : list lazy_method) : bool :=
  negb (methods_reverse_first ms) && forallb method_modelled ms.

(** The wrapper that the methods [ms], one called on the result of the
    other, build on an array. *)
Definition methods_wrapper (array : list value) (ms : list lazy_method) : M addr :=
  if methods_reverse_first ms then throw Unsupported
  else
    do w <- lazy_of_array array;
    method_calls ms w.

(** [value()] of that wrapper; and the eager functions one at a time. *)
Definition methods_value (fuel : nat) (array : list value) (ms : list lazy_method)
  : M value :=
  do r <- methods_wrapper array ms;
  value_of fuel r.

Definition methods_eager (array : list value) (ms : list lazy_method) : list value :=
  fold_left (fun a m => method_eager m a) ms array.

(** [first()] and [last()], line 9294, of that wrapper. *)
Definition methods_first (fuel : nat) (array : list value) (ms : list lazy_method)
  : M value :=
  do r <- methods_wrapper array ms;
  lazy_first fuel r.

Definition methods_last (fuel : nat) (array : list value) (ms : list lazy_method)
  : M value :=
  do r <- methods_wrapper array ms;
  lazy_last fuel r.

End Engine.

(** ** Predicates on stores and wrappers *)

(** Partial correctness of a computation on the store. *)
Definition wp {A} (m : M A) (Q : A -> heap -> Prop) (h : heap) : Prop :=
  match m h with
  | Ok a h' => Q a h'
  | Err _ => True
  end.

(** Two cells that differ at most in the progress fields [done], [count] and
    [index] of an iteratee entry. *)
Definition cell_same (c c' : cell) : Prop :=
  match c, c' with
  | CData d, CData d' =>
      data_iteratee d = data_iteratee d' /\ data_limit d = data_limit d' /\
      data_type d = data_type d'
  | _, _ => c = c'
  end.

Definition same_shape (h h' : heap) : Prop := Forall2 cell_same h h'.

(** What a [LazyWrapper] describes, with its arrays read from the store. *)
Record desc : Type := Desc {
  desc_wrapped : wrapped;
  desc_actions : option (list action);
  desc_dir : Z;
  desc_filtered : bool;
  desc_iteratees : list addr;
  desc_takeCount : num;
  desc_views : list view
}.

Definition read_iteratees (h : heap) (x : option addr) : option (list addr) :=
  match x with
  | None => Some []
  | Some a => match h !! a with Some (CIteratees xs) => Some xs | _ => None end
  end.

Definition read_views (h : heap) (x : option addr) : option (list view) :=
  match x with
  | None => Some []
  | Some a => match h !! a with Some (CViews xs) => Some xs | _ => None end
  end.

Definition read_actions (h : heap) (x : option addr) : option (option (list action)) :=
  match x with
  | None => Some None
  | Some a => match h !! a with Some (CActions xs) => Some (Some xs) | _ => None end
  end.

Definition describe (h : heap) (w : LazyWrapper) : option desc :=
  match read_actions h (lazy_actions w), read_iteratees h (lazy_iteratees w),
        read_views h (lazy_views w) with
  | Some acts, Some its, Some vs =>
      Some (Desc (lazy_wrapped w) acts (lazy_dir w) (lazy_filtered w) its
                 (lazy_takeCount w) vs)
  | _, _, _ => None
  end.

(** The wrapper at [this] and its description. *)
Definition described (h : heap) (this : addr) (d : desc) : Prop :=
  exists w, h !! this = Some (CLazy w) /\ describe h w = Some d.

(** The loop of [lazyValue] on a description and the array of its source. *)
Definition lazyLoop_of (d : desc) (array : list value) : M (list value) :=
  let dir := desc_dir d in
  let '(start, end_) := getView (Fin 0) (lengthOf array) (desc_views d) in
  let length0 := Num.sub end_ start in
  let index := if dir <? 0 then end_ else Num.sub start (Fin 1) in
  let takeCount := Num.min length0 (desc_takeCount d) in
  lazyLoop (loop_steps length0) array dir (desc_iteratees d) takeCount length0 index [].

(** [lazyValue] on a description. *)
Definition lazyValue_desc (value_of0 : addr -> M value) (d : desc) : M value :=
  do array <- match desc_wrapped d with
              | WRef a => value_of0 a
              | WVal _ => throw TypeError
              end;
  match array with
  | VArr array =>
      do result <- lazyLoop_of d array;
      ret (VArr result)
  | _ =>
      match desc_actions d with
      | None => throw TypeError
      | Some acts => ret (fold_left (fun r (act : action) => act r) acts array)
      end
  end.

(** The outer loop of [lazyValue] after [k] iterations that did not leave it:
    from the length, index, result and store on the left to those on the
    right. *)
Inductive loop_reaches (array : list value) (dir : Z) (iteratees : list addr)
    (takeCount : num) :
    num -> num -> list value -> heap -> nat -> num -> num -> list value -> heap -> Prop :=
| reaches_here length0 index result h :
    loop_reaches array dir iteratees takeCount length0 index result h
      O length0 index result h
| reaches_emit length0 index result h v h1 k length1 index1 result1 h' :
    Num.truthy length0 && Num.lt (Fin (Z.of_nat (length result))) takeCount = true ->
    lazyIteratees iteratees (dir <? 0) (Num.add index (Fin dir))
      (arrayGet array (Num.add index (Fin dir))) h = Ok (Emit v) h1 ->
    loop_reaches array dir iteratees takeCount
      (Num.sub length0 (Fin 1)) (Num.add index (Fin dir)) (result ++ [v]) h1
      k length1 index1 result1 h' ->
    loop_reaches array dir iteratees takeCount length0 index result h
      (S k) length1 index1 result1 h'
| reaches_skip length0 index result h h1 k length1 index1 result1 h' :
    Num.truthy length0 && Num.lt (Fin (Z.of_nat (length result))) takeCount = true ->
    lazyIteratees iteratees (dir <? 0) (Num.add index (Fin dir))
      (arrayGet array (Num.add index (Fin dir))) h = Ok ContinueOuter h1 ->
    loop_reaches array dir iteratees takeCount
      (Num.sub length0 (Fin 1)) (Num.add index (Fin dir)) result h1
      k length1 index1 result1 h' ->
    loop_reaches array dir iteratees takeCount length0 index result h
      (S k) length1 index1 result1 h'.

(** A method call [x.value()] that touches progress fields only. *)
Definition shape_preserving (vo : addr -> M value) : Prop :=
  forall a h v h', vo a h = Ok v h' -> same_shape h h'.

(** One method call [x.value()] returns whatever another does. *)
Definition refines (vo vo' : addr -> M value) : Prop :=
  forall a h v h', vo a h = Ok v h' -> vo' a h = Ok v h'.

(** Changes to a description. *)
Definition desc_set_dir (x : Z) (d : desc) : desc :=
  Desc (desc_wrapped d) (desc_actions d) x (desc_filtered d) (desc_iteratees d)
       (desc_takeCount d) (desc_views d).

Definition desc_set_takeCount (x : num) (d : desc) : desc :=
  Desc (desc_wrapped d) (desc_actions d) (desc_dir d) (desc_filtered d) (desc_iteratees d)
       x (desc_views d).

Definition desc_add_view (v : view) (d : desc) : desc :=
  Desc (desc_wrapped d) (desc_actions d) (desc_dir d) (desc_filtered d) (desc_iteratees d)
       (desc_takeCount d) (desc_views d ++ [v]).

(** The arrays of a wrapper were allocated at or after address [n]. *)
Definition fresh_arrays (n : nat) (w : LazyWrapper) : Prop :=
  (forall a, lazy_actions w = Some a -> (n <= a)%nat) /\
  (forall a, lazy_iteratees w = Some a -> (n <= a)%nat) /\
  (forall a, lazy_views w = Some a -> (n <= a)%nat).

(** The outcome of a chainable method: the store [h'] extends [h], all of
    whose objects are unchanged; the result [r] is a new wrapper, described by
    [d'], whose arrays are new as well. *)
Definition built (h : heap) (r : addr) (h' : heap) (d' : desc) : Prop :=
  (exists ext, h' = h ++ ext) /\
  (length h <= r)%nat /\
  exists w', h' !! r = Some (CLazy w') /\ describe h' w' = Some d' /\
             fresh_arrays (length h) w'.

(** The description of the wrapper that [reverse()] returns. *)
Definition desc_reverse (this : addr) (d : desc) : desc :=
  if desc_filtered d then Desc (WRef this) None (-1) true [] PInf []
  else desc_set_dir (desc_dir d * -1) d.

(** The description of the wrapper that [take(n)] returns, [n] a count. *)
Definition desc_take (n : num) (d : desc) : desc :=
  if desc_filtered d then desc_set_takeCount (Num.min (desc_takeCount d) n) d
  else desc_add_view (View n (if desc_dir d <? 0 then VIEW_takeRight else VIEW_take)) d.

(** The description of the wrapper that [drop(n)] returns, [n] a count and
    [e] the entry that a filtered receiver gets. *)
Definition desc_drop (n : num) (this e : addr) (d : desc) : desc :=
  if desc_filtered d then Desc (WRef this) None 1 true [e] PInf []
  else desc_add_view (View n (if desc_dir d <? 0 then VIEW_dropRight else VIEW_drop)) d.

(** The description of the wrapper that [dropWhile], [filter], [map] or
    [takeWhile] returns, [e] the new entry. *)
Definition desc_iteratee (type : lazy_type) (this e : addr) (d : desc) : desc :=
  if desc_filtered d && match type with LAZY_DROP_WHILE_FLAG => true | _ => false end
  then Desc (WRef this) None 1 true [e] PInf []
  else Desc (desc_wrapped d) (desc_actions d) (desc_dir d)
            (desc_filtered d || match type with LAZY_MAP_FLAG => false | _ => true end)
            (desc_iteratees d ++ [e]) (desc_takeCount d) (desc_views d).

(** A method that, on every described receiver, builds a new wrapper. *)
Definition builds (m : addr -> M addr) : Prop :=
  forall h this d, described h this d ->
    exists r h' d', m this h = Ok r h' /\ built h r h' d'.

(** A size as [lazy_count] makes them: a non-negative integer or [Infinity]. *)
Definition count_like (n : num) : Prop :=
  n = PInf \/ exists z, 0 <= z /\ n = Fin z.

Definition is_map_entry (h : heap) (a : addr) : Prop :=
  exists d, h !! a = Some (CData d) /\ data_type d = LAZY_MAP_FLAG.

(** The invariant of the wrappers that the chainable methods build: view sizes
    are counts, and a wrapper that is not [__filtered__] holds [map]
    iteratees only. *)
Definition wf_desc (h : heap) (d : desc) : Prop :=
  Forall (fun v => count_like (view_size v)) (desc_views d) /\
  (desc_filtered d = false -> Forall (is_map_entry h) (desc_iteratees d)).

(** The bounds that [getView] computes from count-like sizes: a start that is
    an integer or [Infinity], an end that is an integer or [-Infinity]. *)
Definition view_range (se : num * num) : Prop :=
  (fst se = PInf \/ exists a, fst se = Fin a) /\
  (snd se = NInf \/ exists b, snd se = Fin b).

Definition is_entry (h : heap) (a : addr) : Prop :=
  exists d, h !! a = Some (CData d).

(** A wrapper whose value is computed from an array: the [LodashWrapper] of
    an array with no action pending, or a [LazyWrapper] that satisfies the
    invariant, whose entries are in the store and whose source is such a
    wrapper. *)
Inductive array_backed (h : heap) : addr -> Prop :=
| array_backed_lodash a array acts chain :
    h !! a = Some (CLodash (Lodash (WVal (VArr array)) acts chain)) ->
    h !! acts = Some (CActions []) ->
    array_backed h a
| array_backed_lazy a d src :
    described h a d ->
    desc_wrapped d = WRef src ->
    array_backed h src ->
    wf_desc h d ->
    Forall (is_entry h) (desc_iteratees d) ->
    array_backed h a.

(** A method that builds a new wrapper and keeps the invariants: an
    array-backed receiver gives an array-backed result, which is filtered if
    the receiver is. *)
Definition builds_wf (m : addr -> M addr) : Prop :=
  forall h this d, described h this d -> array_backed h this ->
    exists r h' d', m this h = Ok r h' /\ built h r h' d' /\ array_backed h' r /\
                    (desc_filtered d = true -> desc_filtered d' = true).

(** A host for the examples: nothing but the modelled behaviour. *)
#[global] Instance bareHost : Host :=
  {| ToNumberExt := fun _ => NaN;
     hostLookup := fun _ _ => None;
     sameRef := fun _ _ => false;
     baseIsEqualLoose := fun _ _ => false |}.

(** A host that reads the decimal numerals of the integers, for the examples
    on sizes that are strings. *)
Definition numeralHost : Host :=
  {| ToNumberExt := fun v =>
       match v with
       | VStr s =>
           match NilZero.int_of_string s with
           | Some i => if String.eqb s (decimal (Z.of_int i)) then Fin (Z.of_int i) else NaN
           | None => NaN
           end
       | _ => NaN
       end;
     hostLookup := fun _ _ => None;
     sameRef := fun _ _ => false;
     baseIsEqualLoose := fun _ _ => false |}.

(** Iteratees for the examples. *)
Definition isEven (v : value) : value :=
  match v with
  | VNum (Fin z) => VBool (z mod 2 =? 0)
  | _ => VBool false
  end.

Definition times10 (v : value) : value :=
  match v with
  | VNum (Fin z) => VInt (z * 10)
  | _ => VNum NaN
  end.

Definition always (v : value) : value := VBool true.

Definition below (k : Z) (v : value) : value :=
  match v with
  | VNum (Fin z) => VBool (z <? k)
  | _ => VBool false
  end.

Definition ints (l : list Z) : list value := map VInt l.

(** The store and the wrapper that a computation leaves, from the empty
    store. *)
Definition store_of {A} (m : M A) : heap :=
  match m [] with
  | Ok _ h => h
  | Err _ => []
  end.

Definition result_of (m : M addr) : addr :=
  match m [] with
  | Ok r _ => r
  | Err _ => O
  end.

Definition desc_at (h : heap) (this : addr) : desc :=
  match h !! this with
  | Some (CLazy w) =>
      match describe h w with
      | Some d => d
      | None => Desc (WVal VUndefined) None 1 false [] PInf []
      end
  | _ => Desc (WVal VUndefined) None 1 false [] PInf []
  end.

(** [_([1, 2, 3, 4]).dropWhile(n => n < 3)] *)
Definition sample_while : M addr :=
  lazy_chain (host := bareHost) (ints [1; 2; 3; 4]) [Call_dropWhile (CbFun (below 3))].

(** [_([1, 2, 3, 4]).map(n => n * 10)] *)
Definition sample_map : M addr :=
  lazy_chain (host := bareHost) (ints [1; 2; 3; 4]) [Call_map (CbFun times10)].

(** [_([1]).filter(n => true).drop(1)] *)
Definition sample_drop : M addr :=
  lazy_chain (host := bareHost) [VInt 1] [Call_filter (CbFun always); Call_drop (VInt 1)].

(** A lazy wrapper with a filter queued, on a source that is the number 5,
    with one deferred action. *)
Definition store_scalar : heap :=
  [ CActions [];
    CLodash (Lodash (WVal (VInt 5)) 0 false);
    CActions [times10];
    CIteratees [4%nat];
    CData (Data false 0 (Fin 0) isEven (Fin (-1)) LAZY_FILTER_FLAG);
    CLazy (Lazy (WRef 1) (Some 2%nat) 1 0 true (Some 3%nat) PInf None) ].

(** A store with one takeWhile entry, [n => n < 2]. *)
Definition store_takeWhile : heap :=
  [ CData (Data false 0 (Fin 0) (below 2) (Fin (-1)) LAZY_TAKE_WHILE_FLAG) ].

(** ** What a loop of [lazyValue] returns, as lists *)

(** The elements that the loop visits: [n] of them, from [index + dir] on in
    steps of [dir]. *)
Fixpoint walk (array : list value) (index dir : Z) (n : nat) : list value :=
  match n with
  | O => []
  | S n' => arrayGetZ array (index + dir) :: walk array (index + dir) dir n'
  end.

(** What the [map] entries [its] make of an element. *)
Fixpoint apply_maps (h : heap) (its : list addr) (v : value) : value :=
  match its with
  | [] => v
  | e :: rest =>
      match h !! e with
      | Some (CData d) => apply_maps h rest (data_iteratee d v)
      | _ => v
      end
  end.

(** The longest prefix whose elements pass [p], and what is left of the list
    without it. *)
Fixpoint prefix_while (p : value -> bool) (xs : list value) : list value :=
  match xs with
  | [] => []
  | x :: xs' => if p x then x :: prefix_while p xs' else []
  end.

Fixpoint after_prefix_while (p : value -> bool) (xs : list value) : list value :=
  match xs with
  | [] => []
  | x :: xs' => if p x then after_prefix_while p xs' else xs
  end.

(** The first elements of a list up to a count, and the others, for a count
    as [lazy_count] makes them: a non-negative integer, or [Infinity] for the
    whole list. *)
Definition count_take (c : num) (xs : list value) : list value :=
  match c with
  | Fin z => take (Z.to_nat z) xs
  | _ => xs
  end.

Definition count_drop (c : num) (xs : list value) : list value :=
  match c with
  | Fin z => drop (Z.to_nat z) xs
  | _ => []
  end.

(** The entry at [e] has type [type] and iteratee [f]. *)
Definition entry_is (h : heap) (e : addr) (type : lazy_type) (f : value -> value) : Prop :=
  exists d, h !! e = Some (CData d) /\ data_type d = type /\ data_iteratee d = f.

(** A wrapper that a chain on an array can have built: it is array-backed, a
    wrapper that is not [__filtered__] has no take count, and the direction
    is [1] or [-1]. *)
Definition sound (h : heap) (this : addr) (d : desc) : Prop :=
  described h this d /\ array_backed h this /\
  (desc_filtered d = false -> desc_takeCount d = PInf) /\
  (desc_dir d = 1 \/ desc_dir d = -1).

(** What a chain knows of the wrapper it has built: whether it is
    [__filtered__], and whether a [take] has lowered its [__takeCount__].
    [after_call] is what a call makes of the two.  It is [None] for a call
    that the fused evaluation may run differently from the eager function: a
    [filter] on a wrapper whose [__takeCount__] a [take] has lowered, a
    [slice] from a negative start to an end that is not negative, and a
    [slice] whose bounds are not integers. *)
Definition after_call (c : chain_call) (st : bool * bool) : option (bool * bool) :=
  let '(filtered, counted) := st in
  match c with
  | Call_map _ => Some (filtered, counted)
  | Call_filter _ => if counted then None else Some (true, false)
  | Call_takeWhile _ => Some (true, counted)
  | Call_take _ => Some (filtered, filtered)
  | Call_drop _ | Call_reverse => Some (filtered, false)
  | Call_dropWhile _ => Some (true, false)
  | Call_slice (VNum (Fin s)) VUndefined => Some (filtered, false)
  | Call_slice (VNum (Fin s)) (VNum (Fin e)) =>
      if e <? 0 then Some (filtered, false)
      else if s <? 0 then None
      else Some (filtered, filtered)
  | Call_slice _ _ => None
  end.

Definition after_method (m : lazy_method) (st : bool * bool) : option (bool * bool) :=
  let '(filtered, counted) := st in
  match m with
  | Method_call c => after_call c st
  | Method_takeRight _ | Method_dropRight _ | Method_initial | Method_rest =>
      Some (filtered, false)
  | Method_takeRightWhile _ | Method_dropRightWhile _ => Some (true, false)
  | Method_compact | Method_reject _ => if counted then None else Some (true, false)
  end.

Fixpoint state_after (st : bool * bool) (ms : list lazy_method) : option (bool * bool) :=
  match ms with
  | [] => Some st
  | m :: ms' =>
      match after_method m st with
      | Some st' => state_after st' ms'
      | None => None
      end
  end.

Definition fusion_safe (st : bool * bool) (ms : list lazy_method) : bool :=
  match state_after st ms with
  | Some _ => true
  | None => false
  end.

(** The method [m] fuses as [op]: on a sound receiver in state [st] it builds
    a sound wrapper in state [st'], whose value is [op] of the value of the
    receiver, with [k] more units of fuel. *)
Definition fuses (m : addr -> M addr) (op : list value -> list value)
    (st st' : bool * bool) (k : nat) : Prop :=
  forall h this d,
    sound h this d -> desc_filtered d = fst st ->
    (snd st = false -> desc_takeCount d = PInf) ->
    exists r h' d',
      m this h = Ok r h' /\ (exists ext, h' = h ++ ext) /\ sound h' r d' /\
      desc_filtered d' = fst st' /\ (snd st' = false -> desc_takeCount d' = PInf) /\
      forall t fuel xs h1,
        Z.of_nat (length xs) < 2 ^ 32 ->
        value_of fuel this (h' ++ t) = Ok (VArr xs) h1 ->
        (length (op xs) <= length xs)%nat /\
        exists h2, value_of (k + fuel) r (h' ++ t) = Ok (VArr (op xs)) h2.

(** An entry that keeps no progress between evaluations: every entry but
    those of [dropWhile], whose [done], [count] and [index] lines 8910-8920
    write. *)
Definition stateless_entry (h : heap) (e : addr) : Prop :=
  exists d, h !! e = Some (CData d) /\ data_type d <> LAZY_DROP_WHILE_FLAG.

(** A wrapper on an array with no [dropWhile] entry, in itself or in the
    wrappers that it wraps. *)
Inductive repeatable (h : heap) : addr -> Prop :=
| repeatable_lodash a array acts chain :
    h !! a = Some (CLodash (Lodash (WVal (VArr array)) acts chain)) ->
    h !! acts = Some (CActions []) ->
    repeatable h a
| repeatable_lazy a d src :
    described h a d ->
    desc_wrapped d = WRef src ->
    repeatable h src ->
    Forall (stateless_entry h) (desc_iteratees d) ->
    repeatable h a.

(** The calls that make no [dropWhile] entry, from whether the receiver is
    [__filtered__]: [drop] makes one on a filtered receiver. *)
Definition after_stateless (c : chain_call) (filtered : bool) : option bool :=
  match c with
  | Call_map _ | Call_take _ | Call_reverse => Some filtered
  | Call_filter _ | Call_takeWhile _ => Some true
  | Call_drop _ => if filtered then None else Some false
  | Call_dropWhile _ | Call_slice _ _ => None
  end.

Fixpoint keeps_no_state (filtered : bool) (calls : list chain_call) : bool :=
  match calls with
  | [] => true
  | c :: calls' =>
      match after_stateless c filtered with
      | Some filtered' => keeps_no_state filtered' calls'
      | None => false
      end
  end.

(** * Properties *)

Section Properties.

Context {host : Host}.

(** ** Computations on the store *)

Lemma bind_Ok {A B} (m : M A) (k : A -> M B) h b h2 :
  bind m k h = Ok b h2 <-> exists a h1, m h = Ok a h1 /\ k a h1 = Ok b h2.
Proof.
  unfold bind. split.
  - destruct (m h) as [a h1|e]; [eauto | discriminate].
  - intros (a & h1 & -> & Hk). exact Hk.
Qed.

Lemma bind_eq {A B} (m : M A) (k : A -> M B) h a h1 :
  m h = Ok a h1 -> bind m k h = k a h1.
Proof. unfold bind. now intros ->. Qed.

Lemma bind_ext {A B} (m : M A) (k1 k2 : A -> M B) h :
  (forall a h1, m h = Ok a h1 -> k1 a h1 = k2 a h1) -> bind m k1 h = bind m k2 h.
Proof. unfold bind. intros H. destruct (m h); auto. Qed.

Lemma load_Ok a h c h' : load a h = Ok c h' <-> h !! a = Some c /\ h' = h.
Proof.
  unfold load. destruct (h !! a) as [c0|]; split; intros H.
  - inversion H; subst; auto.
  - destruct H as [H ->]. now inversion H.
  - discriminate.
  - destruct H; discriminate.
Qed.

Lemma store_Ok a c h u h' :
  store a c h = Ok u h' <-> is_Some (h !! a) /\ h' = <[a := c]> h.
Proof.
  unfold store. destruct (h !! a) as [c0|]; split; intros H.
  - inversion H; subst; eauto.
  - destruct H as [_ ->]. now destruct u.
  - discriminate.
  - destruct H as [[? H] _]; discriminate.
Qed.

Lemma getLazy_Ok a h w h' :
  getLazy a h = Ok w h' <-> h !! a = Some (CLazy w) /\ h' = h.
Proof.
  unfold getLazy. rewrite bind_Ok. split.
  - intros (c & h1 & Hl & Hc). apply load_Ok in Hl as [Hl ->].
    destruct c; try discriminate. now inversion Hc; subst.
  - intros [Hl ->]. exists (CLazy w), h. split; [now apply load_Ok | reflexivity].
Qed.

Lemma getData_Ok a h d h' :
  getData a h = Ok d h' <-> h !! a = Some (CData d) /\ h' = h.
Proof.
  unfold getData. rewrite bind_Ok. split.
  - intros (c & h1 & Hl & Hc). apply load_Ok in Hl as [Hl ->].
    destruct c; try discriminate. now inversion Hc; subst.
  - intros [Hl ->]. exists (CData d), h. split; [now apply load_Ok | reflexivity].
Qed.

Lemma getIteratees_Ok a h xs h' :
  getIteratees a h = Ok xs h' <-> h !! a = Some (CIteratees xs) /\ h' = h.
Proof.
  unfold getIteratees. rewrite bind_Ok. split.
  - intros (c & h1 & Hl & Hc). apply load_Ok in Hl as [Hl ->].
    destruct c; try discriminate. now inversion Hc; subst.
  - intros [Hl ->]. exists (CIteratees xs), h. split; [now apply load_Ok | reflexivity].
Qed.

Lemma getViews_Ok a h xs h' :
  getViews a h = Ok xs h' <-> h !! a = Some (CViews xs) /\ h' = h.
Proof.
  unfold getViews. rewrite bind_Ok. split.
  - intros (c & h1 & Hl & Hc). apply load_Ok in Hl as [Hl ->].
    destruct c; try discriminate. now inversion Hc; subst.
  - intros [Hl ->]. exists (CViews xs), h. split; [now apply load_Ok | reflexivity].
Qed.

Lemma getActions_Ok a h xs h' :
  getActions a h = Ok xs h' <-> h !! a = Some (CActions xs) /\ h' = h.
Proof.
  unfold getActions. rewrite bind_Ok. split.
  - intros (c & h1 & Hl & Hc). apply load_Ok in Hl as [Hl ->].
    destruct c; try discriminate. now inversion Hc; subst.
  - intros [Hl ->]. exists (CActions xs), h. split; [now apply load_Ok | reflexivity].
Qed.

(** ** Evaluation touches progress fields only *)

Lemma cell_same_refl c : cell_same c c.
Proof. destruct c; simpl; auto. Qed.

Lemma cell_same_trans c1 c2 c3 : cell_same c1 c2 -> cell_same c2 c3 -> cell_same c1 c3.
Proof.
  destruct c1, c2; simpl; try discriminate; intros H1 H2; subst; auto;
    try (inversion H1; subst; exact H2).
  destruct c3; simpl in *; try discriminate.
  destruct H1 as (-> & -> & ->). exact H2.
Qed.

Lemma same_shape_refl h : same_shape h h.
Proof. apply Forall_Forall2_diag, Forall_forall. intros; apply cell_same_refl. Qed.

Lemma same_shape_trans h1 h2 h3 : same_shape h1 h2 -> same_shape h2 h3 -> same_shape h1 h3.
Proof.
  unfold same_shape. intros H12. revert h3.
  induction H12; intros h3 H23; inversion H23; subst; constructor; eauto using cell_same_trans.
Qed.

Lemma same_shape_insert h a c c' :
  h !! a = Some c -> cell_same c c' -> same_shape h (<[a := c']> h).
Proof.
  intros Hl Hc. unfold same_shape.
  rewrite <- (list_insert_id h a c Hl) at 1.
  apply Forall2_insert; [apply same_shape_refl | exact Hc].
Qed.

Lemma same_shape_lookup h h' a c :
  same_shape h h' -> h !! a = Some c -> exists c', h' !! a = Some c' /\ cell_same c c'.
Proof. intros Hs Hl. eapply Forall2_lookup_l in Hs; eauto. Qed.

Lemma same_shape_length h h' : same_shape h h' -> length h = length h'.
Proof. apply Forall2_length. Qed.

Lemma dropWhile_visit_same isRight index v d :
  cell_same (CData d) (CData (fst (dropWhile_visit isRight index v d))).
Proof.
  unfold dropWhile_visit.
  destruct (data_done d && _); simpl;
    repeat match goal with |- context [if ?b then _ else _] => destruct b end;
    simpl; auto.
Qed.

Lemma lazyIteratees_shape its isRight index v h p h' :
  lazyIteratees its isRight index v h = Ok p h' -> same_shape h h'.
Proof.
  revert v h. induction its as [|a rest IH]; intros v h H; simpl in H.
  - inversion H; subst. apply same_shape_refl.
  - apply bind_Ok in H as (d & h1 & Hd & H). apply getData_Ok in Hd as [Hd ->].
    destruct (data_type d).
    + pose proof (dropWhile_visit_same isRight index v d) as Hsame.
      destruct (dropWhile_visit isRight index v d) as [d' skip]. simpl in Hsame.
      apply bind_Ok in H as (u & h2 & Hst & H). apply store_Ok in Hst as [_ ->].
      assert (same_shape h (<[a := CData d']> h)) by (eapply same_shape_insert; eauto).
      destruct skip.
      * inversion H; subst. assumption.
      * eapply same_shape_trans; eauto.
    + destruct (truthy _); [eauto|]. inversion H; subst. apply same_shape_refl.
    + eauto.
    + destruct (truthy _); [eauto|]. inversion H; subst. apply same_shape_refl.
Qed.

Lemma lazyLoop_shape steps array dir its takeCount length0 index result h r h' :
  lazyLoop steps array dir its takeCount length0 index result h = Ok r h' ->
  same_shape h h'.
Proof.
  revert length0 index result h.
  induction steps as [|steps IH]; intros length0 index result h H; simpl in H.
  - discriminate.
  - destruct (Num.truthy length0 && _).
    + apply bind_Ok in H as (p & h1 & Hp & H).
      apply lazyIteratees_shape in Hp.
      destruct p.
      * eapply same_shape_trans; eauto.
      * eapply same_shape_trans; eauto.
      * inversion H; subst. assumption.
    + inversion H; subst. apply same_shape_refl.
Qed.

Lemma baseWrapperValue_shape vo value0 actions h v h' :
  shape_preserving vo ->
  baseWrapperValue vo value0 actions h = Ok v h' -> same_shape h h'.
Proof.
  intros Hvo H. unfold baseWrapperValue in H.
  apply bind_Ok in H as (r & h1 & Hr & H).
  assert (same_shape h h1) as Hs.
  { destruct value0 as [x|a].
    - inversion Hr; subst. apply same_shape_refl.
    - apply bind_Ok in Hr as (c & h0 & Hl & Hr). apply load_Ok in Hl as [_ ->].
      destruct c; try discriminate. eauto. }
  destruct actions as [a|]; [|discriminate].
  apply bind_Ok in H as (acts & h2 & Ha & H). apply getActions_Ok in Ha as [_ ->].
  inversion H; subst. assumption.
Qed.

Lemma lazyValue_shape vo this h v h' :
  shape_preserving vo ->
  lazyValue vo this h = Ok v h' -> same_shape h h'.
Proof.
  intros Hvo H. unfold lazyValue in H.
  apply bind_Ok in H as (w & h0 & Hw & H). apply getLazy_Ok in Hw as [Hw ->].
  apply bind_Ok in H as (array & h1 & Harr & H).
  assert (same_shape h h1) as Hs.
  { destruct (lazy_wrapped w); [discriminate | eauto]. }
  eapply same_shape_trans; [exact Hs|].
  assert (forall h2, (do w0 <- getLazy this;
                      baseWrapperValue vo (WVal array) (lazy_actions w0)) h1 = Ok v h2 ->
                     same_shape h1 h2) as Hother.
  { intros h2 H2. apply bind_Ok in H2 as (w1 & h3 & Hw1 & H2).
    apply getLazy_Ok in Hw1 as [_ ->]. eapply baseWrapperValue_shape; eauto. }
  destruct array; eauto.
  apply bind_Ok in H as (w1 & h2 & Hw1 & H). apply getLazy_Ok in Hw1 as [_ ->].
  apply bind_Ok in H as (views & h2 & Hv & H).
  assert (h2 = h1) as ->.
  { destruct (lazy_views w1); [apply getViews_Ok in Hv as [_ ->] | inversion Hv]; auto. }
  destruct (getView _ _ views) as [start end_].
  apply bind_Ok in H as (its & h2 & Hi & H).
  assert (h2 = h1) as ->.
  { destruct (lazy_iteratees w1); [apply getIteratees_Ok in Hi as [_ ->] | inversion Hi]; auto. }
  apply bind_Ok in H as (res & h2 & Hloop & H).
  inversion H; subst. eapply lazyLoop_shape; eauto.
Qed.

Lemma value_of_shape fuel : shape_preserving (value_of fuel).
Proof.
  induction fuel as [|fuel IH]; intros a h v h' H; simpl in H.
  - discriminate.
  - apply bind_Ok in H as (c & h0 & Hl & H). apply load_Ok in Hl as [_ ->].
    destruct c; try discriminate.
    + eapply lazyValue_shape; eauto.
    + unfold wrapperValue in H.
      apply bind_Ok in H as (c & h0 & Hl & H). apply load_Ok in Hl as [_ ->].
      destruct c; try discriminate. eapply baseWrapperValue_shape; eauto.
Qed.

(** ** Wrappers through their descriptions *)

Lemma getLazy_eq a h w : h !! a = Some (CLazy w) -> getLazy a h = Ok w h.
Proof. intros. now apply getLazy_Ok. Qed.

Lemma getViews_eq a h xs : h !! a = Some (CViews xs) -> getViews a h = Ok xs h.
Proof. intros. now apply getViews_Ok. Qed.

Lemma getIteratees_eq a h xs : h !! a = Some (CIteratees xs) -> getIteratees a h = Ok xs h.
Proof. intros. now apply getIteratees_Ok. Qed.

Lemma getActions_eq a h xs : h !! a = Some (CActions xs) -> getActions a h = Ok xs h.
Proof. intros. now apply getActions_Ok. Qed.

Lemma getData_eq a h d : h !! a = Some (CData d) -> getData a h = Ok d h.
Proof. intros. now apply getData_Ok. Qed.

Lemma same_shape_lookup_eq h h' a :
  same_shape h h' ->
  match h !! a with
  | Some (CData _) => exists d', h' !! a = Some (CData d')
  | o => h' !! a = o
  end.
Proof.
  intros Hs. destruct (h !! a) as [c|] eqn:Hl.
  - destruct (same_shape_lookup _ _ _ _ Hs Hl) as (c' & Hl' & Hc).
    destruct c; simpl in Hc; subst; auto.
    destruct c'; try discriminate; eauto.
  - apply lookup_ge_None in Hl. apply lookup_ge_None.
    apply same_shape_length in Hs. lia.
Qed.

Lemma same_shape_lazy h h' a w :
  same_shape h h' -> h !! a = Some (CLazy w) -> h' !! a = Some (CLazy w).
Proof. intros Hs Hl. pose proof (same_shape_lookup_eq h h' a Hs) as H. now rewrite Hl in H. Qed.

Lemma read_iteratees_shape h h' x :
  same_shape h h' -> read_iteratees h' x = read_iteratees h x.
Proof.
  intros Hs. destruct x as [a|]; simpl; auto.
  pose proof (same_shape_lookup_eq h h' a Hs) as H. revert H.
  destruct (h !! a) as [[]|]; intros H; try (rewrite H; reflexivity).
  destruct H as [d' ->]. reflexivity.
Qed.

Lemma read_views_shape h h' x :
  same_shape h h' -> read_views h' x = read_views h x.
Proof.
  intros Hs. destruct x as [a|]; simpl; auto.
  pose proof (same_shape_lookup_eq h h' a Hs) as H. revert H.
  destruct (h !! a) as [[]|]; intros H; try (rewrite H; reflexivity).
  destruct H as [d' ->]. reflexivity.
Qed.

Lemma read_actions_shape h h' x :
  same_shape h h' -> read_actions h' x = read_actions h x.
Proof.
  intros Hs. destruct x as [a|]; simpl; auto.
  pose proof (same_shape_lookup_eq h h' a Hs) as H. revert H.
  destruct (h !! a) as [[]|]; intros H; try (rewrite H; reflexivity).
  destruct H as [d' ->]. reflexivity.
Qed.

Lemma describe_shape h h' w : same_shape h h' -> describe h' w = describe h w.
Proof.
  intros Hs. unfold describe.
  now rewrite (read_actions_shape h h'), (read_iteratees_shape h h'), (read_views_shape h h').
Qed.

Lemma described_shape h h' this d :
  same_shape h h' -> described h this d -> described h' this d.
Proof.
  intros Hs (w & Hl & Hd). exists w. split.
  - eapply same_shape_lazy; eauto.
  - now rewrite (describe_shape h h').
Qed.

Lemma described_inv h this d :
  described h this d ->
  exists w, h !! this = Some (CLazy w) /\
    lazy_wrapped w = desc_wrapped d /\ lazy_dir w = desc_dir d /\
    lazy_filtered w = desc_filtered d /\ lazy_takeCount w = desc_takeCount d /\
    read_actions h (lazy_actions w) = Some (desc_actions d) /\
    read_iteratees h (lazy_iteratees w) = Some (desc_iteratees d) /\
    read_views h (lazy_views w) = Some (desc_views d).
Proof.
  intros (w & Hl & Hd). exists w. split; [assumption|].
  unfold describe in Hd.
  destruct (read_actions h _), (read_iteratees h _), (read_views h _); try discriminate.
  inversion Hd; subst; simpl. repeat split; reflexivity.
Qed.

Lemma read_views_get h x vs :
  read_views h x = Some vs ->
  match x with Some a => getViews a | None => ret [] end h = Ok vs h.
Proof.
  destruct x as [a|]; simpl.
  - destruct (h !! a) as [[]|] eqn:Hl; try discriminate.
    intros [= <-]. now apply getViews_eq.
  - now intros [= <-].
Qed.

Lemma read_iteratees_get h x its :
  read_iteratees h x = Some its ->
  match x with Some a => getIteratees a | None => ret [] end h = Ok its h.
Proof.
  destruct x as [a|]; simpl.
  - destruct (h !! a) as [[]|] eqn:Hl; try discriminate.
    intros [= <-]. now apply getIteratees_eq.
  - now intros [= <-].
Qed.

Lemma lazyValue_described vo this h d :
  shape_preserving vo -> described h this d ->
  lazyValue vo this h = lazyValue_desc vo d h.
Proof.
  intros Hvo Hd.
  destruct (described_inv _ _ _ Hd) as (w & Hl & Hw & Hdir & Hf & Htc & Ha & Hi & Hv).
  unfold lazyValue, lazyValue_desc.
  rewrite (bind_eq _ _ _ _ _ (getLazy_eq _ _ _ Hl)). rewrite Hw.
  destruct (desc_wrapped d) as [x|src]; [reflexivity|].
  apply bind_ext. intros array h1 Harr.
  assert (same_shape h h1) as Hs by eauto.
  pose proof (same_shape_lazy _ _ _ _ Hs Hl) as Hl1.
  rewrite <- (read_actions_shape h h1) in Ha by assumption.
  rewrite <- (read_iteratees_shape h h1) in Hi by assumption.
  rewrite <- (read_views_shape h h1) in Hv by assumption.
  assert ((do w0 <- getLazy this; baseWrapperValue vo (WVal array) (lazy_actions w0)) h1 =
          match desc_actions d with
          | Some acts => ret (fold_left (fun r (act : action) => act r) acts array)
          | None => throw TypeError
          end h1) as Hother.
  { rewrite (bind_eq _ _ _ _ _ (getLazy_eq _ _ _ Hl1)).
    unfold baseWrapperValue. unfold bind at 1. simpl.
    destruct (lazy_actions w) as [a|]; simpl in Ha.
    - destruct (h1 !! a) as [[]|] eqn:Hla; try discriminate.
      injection Ha as Ha. rewrite <- Ha.
      now rewrite (bind_eq _ _ _ _ _ (getActions_eq _ _ _ Hla)).
    - injection Ha as Ha. rewrite <- Ha. reflexivity. }
  destruct array; try exact Hother.
  rewrite (bind_eq _ _ _ _ _ (getLazy_eq _ _ _ Hl1)).
  rewrite (bind_eq _ _ _ _ _ (read_views_get _ _ _ Hv)).
  rewrite Hdir, Htc. unfold lazyLoop_of.
  destruct (getView (Fin 0) (lengthOf elems) (desc_views d)) as [start end_].
  rewrite (bind_eq _ _ _ _ _ (read_iteratees_get _ _ _ Hi)).
  reflexivity.
Qed.

(** ** More fuel does not change a result *)

Lemma baseWrapperValue_refines vo vo' value0 actions h v h' :
  refines vo vo' ->
  baseWrapperValue vo value0 actions h = Ok v h' ->
  baseWrapperValue vo' value0 actions h = Ok v h'.
Proof.
  intros Hr H. unfold baseWrapperValue in *.
  apply bind_Ok in H as (r & h1 & Hres & H).
  apply bind_Ok. exists r, h1. split; [|exact H].
  destruct value0 as [x|a]; [exact Hres|].
  apply bind_Ok in Hres as (c & h0 & Hl & Hres). apply bind_Ok. exists c, h0.
  split; [exact Hl|]. destruct c; try discriminate. now apply Hr.
Qed.

Lemma lazyValue_refines vo vo' this h v h' :
  refines vo vo' ->
  lazyValue vo this h = Ok v h' -> lazyValue vo' this h = Ok v h'.
Proof.
  intros Hr H. unfold lazyValue in *.
  apply bind_Ok in H as (w & h0 & Hw & H). apply bind_Ok. exists w, h0. split; [exact Hw|].
  apply bind_Ok in H as (array & h1 & Harr & H). apply bind_Ok. exists array, h1. split.
  - destruct (lazy_wrapped w); [discriminate | now apply Hr].
  - destruct array; try exact H;
      apply bind_Ok in H as (w1 & h2 & Hw1 & H); apply bind_Ok; exists w1, h2;
      (split; [exact Hw1 | eapply baseWrapperValue_refines; eauto]).
Qed.

Lemma value_of_S fuel : refines (value_of fuel) (value_of (S fuel)).
Proof.
  induction fuel as [|fuel IH]; intros a h v h' H.
  - discriminate.
  - simpl in H. apply bind_Ok in H as (c & h0 & Hl & H).
    change (value_of (S (S fuel)) a h) with
      (bind (load a) (fun c => match c with
                               | CLazy _ => lazyValue (value_of (S fuel)) a
                               | CLodash _ => wrapperValue (value_of (S fuel)) a
                               | _ => throw Unsupported
                               end) h).
    apply bind_Ok. exists c, h0. split; [exact Hl|].
    destruct c; try discriminate.
    + eapply lazyValue_refines; eauto.
    + unfold wrapperValue in *.
      apply bind_Ok in H as (c & h1 & Hl1 & H). apply bind_Ok. exists c, h1.
      split; [exact Hl1|]. destruct c; try discriminate.
      eapply baseWrapperValue_refines; eauto.
Qed.

Lemma value_of_mono fuel fuel' a h v h' :
  (fuel <= fuel')%nat -> value_of fuel a h = Ok v h' -> value_of fuel' a h = Ok v h'.
Proof.
  induction 1 as [|m Hle IH]; [auto|]. intros Hv. apply value_of_S. auto.
Qed.

(** ** A source that is not an array *)

(** C10.  When the wrapped source of a [LazyWrapper] evaluates to a value
    [v] that is not an array, [value()] is [baseWrapperValue(v, __actions__)]:
    the fold of the deferred actions over [v] when [__actions__] is an array
    (and the TypeError of [null.length] when it is [null]).  The queued
    iteratees, the views, the direction and the take count play no part. *)
Theorem lazyValue_non_array_source fuel this h w src v h1 :
  h !! this = Some (CLazy w) -> lazy_wrapped w = WRef src ->
  value_of fuel src h = Ok v h1 -> isArray v = false ->
  value_of (S fuel) this h
    = baseWrapperValue (value_of fuel) (WVal v) (lazy_actions w) h1 /\
  (forall acts, read_actions h (lazy_actions w) = Some (Some acts) ->
     value_of (S fuel) this h = Ok (fold_left (fun r (act : action) => act r) acts v) h1) /\
  (lazy_actions w = None -> value_of (S fuel) this h = Err TypeError).
Proof.
  intros Hl Hw Hsrc Harr.
  pose proof (value_of_shape fuel _ _ _ _ Hsrc) as Hs.
  pose proof (same_shape_lazy _ _ _ _ Hs Hl) as Hl1.
  assert (value_of (S fuel) this h
          = baseWrapperValue (value_of fuel) (WVal v) (lazy_actions w) h1) as Heq.
  { simpl. unfold load at 1. unfold bind at 1. rewrite Hl.
    unfold lazyValue. rewrite (bind_eq _ _ _ _ _ (getLazy_eq _ _ _ Hl)). rewrite Hw.
    rewrite (bind_eq _ _ _ _ _ Hsrc).
    destruct v; try discriminate;
      now rewrite (bind_eq _ _ _ _ _ (getLazy_eq _ _ _ Hl1)). }
  split; [exact Heq|]. split.
  - intros acts Ha. rewrite Heq.
    rewrite <- (read_actions_shape h h1) in Ha by assumption.
    unfold baseWrapperValue. unfold bind at 1. simpl.
    destruct (lazy_actions w) as [a|]; simpl in Ha; [|discriminate].
    destruct (h1 !! a) as [[]|] eqn:Hla; try discriminate.
    injection Ha as ->. now rewrite (bind_eq _ _ _ _ _ (getActions_eq _ _ _ Hla)).
  - intros Hnone. rewrite Heq, Hnone. reflexivity.
Qed.

(** ** The end of a take-while *)

Lemma lazyIteratees_app pre post isRight index v h :
  lazyIteratees (pre ++ post) isRight index v h =
  match lazyIteratees pre isRight index v h with
  | Ok (Emit v') h1 => lazyIteratees post isRight index v' h1
  | other => other
  end.
Proof.
  revert v h. induction pre as [|a pre IH]; intros v h; simpl; [reflexivity|].
  unfold bind. destruct (getData a h) as [d h0|e]; [|reflexivity].
  destruct (data_type d).
  - destruct (dropWhile_visit isRight index v d) as [d' skip].
    destruct (store a (CData d') h0) as [u h1|e]; [|reflexivity].
    destruct skip; [reflexivity | apply IH].
  - destruct (truthy _); [apply IH | reflexivity].
  - apply IH.
  - destruct (truthy _); [apply IH | reflexivity].
Qed.

(** The loop returns what it returns from any state it reaches. *)
Lemma lazyLoop_reaches array dir its takeCount length0 index result h k
    length1 index1 result1 h1 steps :
  loop_reaches array dir its takeCount length0 index result h k length1 index1 result1 h1 ->
  lazyLoop (k + steps) array dir its takeCount length0 index result h
  = lazyLoop steps array dir its takeCount length1 index1 result1 h1.
Proof.
  induction 1 as [| ? ? ? ? ? ? ? ? ? ? ? Hcond Hpass _ IH | ? ? ? ? ? ? ? ? ? ? Hcond Hpass _ IH];
    [reflexivity | |];
    cbn [Nat.add lazyLoop]; rewrite Hcond, (bind_eq _ _ _ _ _ Hpass); exact IH.
Qed.

(** C7.  Take an evaluation of the outer loop of [lazyValue] from any state
    (its start, for one), and let it reach, after [k] iterations, an element
    that passes the entries [pre] (as [v']) and then meets a takeWhile entry
    whose predicate returns a falsy value on it.  The loop ends there: its
    result is what had been emitted before this element, whatever the number
    of elements left, and no later entry is run. *)
Theorem takeWhile_failure_ends_evaluation steps array dir pre e post takeCount
    length0 index result h0 k length1 index1 result1 h v' h1 d :
  loop_reaches array dir (pre ++ e :: post) takeCount length0 index result h0
    k length1 index1 result1 h ->
  Num.truthy length1 && Num.lt (Fin (Z.of_nat (length result1))) takeCount = true ->
  lazyIteratees pre (dir <? 0) (Num.add index1 (Fin dir))
    (arrayGet array (Num.add index1 (Fin dir))) h = Ok (Emit v') h1 ->
  h1 !! e = Some (CData d) ->
  data_type d = LAZY_TAKE_WHILE_FLAG ->
  truthy (data_iteratee d v') = false ->
  lazyLoop (k + S steps) array dir (pre ++ e :: post) takeCount length0 index result h0
    = Ok result1 h1.
Proof.
  intros Hreach Hcond Hpre He Hty Hfalse.
  rewrite (lazyLoop_reaches _ _ _ _ _ _ _ _ _ _ _ _ _ _ Hreach).
  cbn [lazyLoop]. rewrite Hcond.
  unfold bind. rewrite lazyIteratees_app, Hpre. cbn [lazyIteratees].
  unfold bind. rewrite (getData_eq _ _ _ He), Hty, Hfalse. reflexivity.
Qed.

(** ** The single-key matcher *)

Lemma Num_eqb_sym a b : Num.eqb a b = Num.eqb b a.
Proof. destruct a, b; simpl; auto using Z.eqb_sym. Qed.

Lemma String_eqb_sym a b : String.eqb a b = String.eqb b a.
Proof.
  destruct (String.eqb_spec a b) as [->|Hne].
  - symmetry. apply String.eqb_refl.
  - symmetry. apply String.eqb_neq. congruence.
Qed.

Lemma isStrictComparable_primitive v :
  isStrictComparable v = true -> isObject v = false.
Proof.
  unfold isStrictComparable. destruct v; simpl; auto; rewrite ?andb_false_r; auto;
    intros H; apply andb_prop in H as [_ H]; discriminate.
Qed.

Lemma strictEquals_sym_primitive x v :
  isObject v = false -> strictEquals x v = strictEquals v x.
Proof.
  destruct v; try discriminate; intros _; destruct x; simpl; auto.
  - destruct b, b0; reflexivity.
  - apply Num_eqb_sym.
  - apply String_eqb_sym.
Qed.

Lemma strictEquals_undefined x v :
  strictEquals x v = true -> isUndefined x = isUndefined v.
Proof. destruct x, v; simpl; auto; discriminate. Qed.

Lemma toObject_idem v : toObject (toObject v) = toObject v.
Proof. unfold toObject. destruct v; reflexivity. Qed.

Lemma getProp_toObject v key : getProp (toObject v) key = getProp v key.
Proof. unfold getProp. now rewrite toObject_idem. Qed.

Lemma getProp_single key v : getProp (VObj [(key, v)]) key = v.
Proof. unfold getProp. simpl. now rewrite String.eqb_refl. Qed.

(** C8.  For a pattern object with exactly one own key whose value is
    strictly comparable, the predicate that [baseMatches] builds on its fast
    path returns, on every element, the boolean that the general path through
    [baseIsMatch] returns for the same pattern. *)
Theorem baseMatches_fast_path_agrees key value0 object :
  isStrictComparable value0 = true ->
  baseMatches (VObj [(key, value0)]) object = matchesStrict key value0 object /\
  matchesStrict key value0 object = matchesGeneral (VObj [(key, value0)]) object.
Proof.
  intros Hsc. split.
  - unfold baseMatches. cbn [object_keys map fst]. rewrite getProp_single, Hsc. reflexivity.
  - unfold matchesGeneral, matchesStrict, baseIsMatch. cbn [object_keys map fst].
    rewrite getProp_single, Hsc.
    destruct (isNullish object); [reflexivity|].
    cbn [baseIsMatch_present baseIsMatch_equal negb andb].
    rewrite getProp_toObject.
    rewrite (strictEquals_sym_primitive (getProp object key) value0)
      by now apply isStrictComparable_primitive.
    destruct (strictEquals value0 (getProp object key)) eqn:Heq; simpl; [|reflexivity].
    rewrite (strictEquals_sym_primitive value0 (getProp object key)) in Heq.
    + apply strictEquals_undefined in Heq. rewrite Heq.
      destruct (negb (isUndefined value0) || hasProperty (toObject object) key); reflexivity.
    + destruct (isObject (getProp object key)) eqn:Ho; [|reflexivity].
      exfalso. pose proof (isStrictComparable_primitive _ Hsc).
      destruct value0; try discriminate; destruct (getProp object key); discriminate.
Qed.

(** ** Sizes given to take and drop *)

Lemma lazy_count_range n : count_like (lazy_count n).
Proof.
  unfold lazy_count, count_like. destruct (isNullish n).
  - right. exists 1. split; [lia | reflexivity].
  - unfold Num.floor. destruct (ToNumber n) as [| | | |z]; simpl; auto.
    + right. exists 0. split; [lia | reflexivity].
    + right. exists 0. split; [lia | reflexivity].
    + right. exists 0. split; [lia | reflexivity].
    + destruct (z =? 0) eqn:Hz; simpl.
      * right. exists 0. split; [lia | reflexivity].
      * destruct (z <? 0) eqn:Hneg.
        -- right. exists 0. split; [lia | reflexivity].
        -- right. exists z. split; [lia | reflexivity].
Qed.

(** ** Running the methods on a store [h ++ t] *)

Lemma lookup_app_plus (h t : heap) i : (h ++ t) !! (length h + i)%nat = t !! i.
Proof. induction h; simpl; auto. Qed.

Lemma insert_app_plus (h t : heap) i c :
  <[(length h + i)%nat := c]> (h ++ t) = h ++ <[i := c]> t.
Proof. induction h; simpl; auto. now f_equal. Qed.

Lemma lookup_app_old (h t : heap) a c : h !! a = Some c -> (h ++ t) !! a = Some c.
Proof. apply lookup_app_l_Some. Qed.

Lemma alloc_plain c (h : heap) : alloc c h = Ok (length h + 0)%nat (h ++ [c]).
Proof. unfold alloc. now rewrite Nat.add_0_r. Qed.

Lemma alloc_app c (h t : heap) :
  alloc c (h ++ t) = Ok (length h + length t)%nat (h ++ (t ++ [c])).
Proof. unfold alloc. now rewrite length_app, app_assoc. Qed.

Lemma load_old a c (h t : heap) : h !! a = Some c -> load a (h ++ t) = Ok c (h ++ t).
Proof. intros H. unfold load. now rewrite (lookup_app_old _ _ _ _ H). Qed.

Lemma load_new i c (h t : heap) :
  t !! i = Some c -> load (length h + i)%nat (h ++ t) = Ok c (h ++ t).
Proof. intros H. unfold load. now rewrite lookup_app_plus, H. Qed.

Lemma store_new i c0 c (h t : heap) :
  t !! i = Some c0 -> store (length h + i)%nat c (h ++ t) = Ok tt (h ++ <[i := c]> t).
Proof. intros H. unfold store. now rewrite lookup_app_plus, H, insert_app_plus. Qed.

Lemma getLazy_old a w (h t : heap) :
  h !! a = Some (CLazy w) -> getLazy a (h ++ t) = Ok w (h ++ t).
Proof. intros H. apply getLazy_eq. now apply lookup_app_old. Qed.

Lemma getLazy_new i w (h t : heap) :
  t !! i = Some (CLazy w) -> getLazy (length h + i)%nat (h ++ t) = Ok w (h ++ t).
Proof. intros H. apply getLazy_eq. now rewrite lookup_app_plus. Qed.

Lemma getIteratees_new i xs (h t : heap) :
  t !! i = Some (CIteratees xs) -> getIteratees (length h + i)%nat (h ++ t) = Ok xs (h ++ t).
Proof. intros H. apply getIteratees_eq. now rewrite lookup_app_plus. Qed.

Lemma getViews_new i xs (h t : heap) :
  t !! i = Some (CViews xs) -> getViews (length h + i)%nat (h ++ t) = Ok xs (h ++ t).
Proof. intros H. apply getViews_eq. now rewrite lookup_app_plus. Qed.

Lemma getData_new i d (h t : heap) :
  t !! i = Some (CData d) -> getData (length h + i)%nat (h ++ t) = Ok d (h ++ t).
Proof. intros H. apply getData_eq. now rewrite lookup_app_plus. Qed.

Lemma modifyLazy_new i f w (h t : heap) :
  t !! i = Some (CLazy w) ->
  modifyLazy (length h + i)%nat f (h ++ t) = Ok tt (h ++ <[i := CLazy (f w)]> t).
Proof.
  intros H. unfold modifyLazy.
  rewrite (bind_eq _ _ _ _ _ (getLazy_new _ _ _ _ H)). now apply store_new with (c0 := CLazy w).
Qed.

Lemma push_iteratee_new i x xs (h t : heap) :
  t !! i = Some (CIteratees xs) ->
  push_iteratee (length h + i)%nat x (h ++ t) = Ok tt (h ++ <[i := CIteratees (xs ++ [x])]> t).
Proof.
  intros H. unfold push_iteratee.
  rewrite (bind_eq _ _ _ _ _ (getIteratees_new _ _ _ _ H)).
  now apply store_new with (c0 := CIteratees xs).
Qed.

Lemma push_view_new i x xs (h t : heap) :
  t !! i = Some (CViews xs) ->
  push_view (length h + i)%nat x (h ++ t) = Ok tt (h ++ <[i := CViews (xs ++ [x])]> t).
Proof.
  intros H. unfold push_view.
  rewrite (bind_eq _ _ _ _ _ (getViews_new _ _ _ _ H)).
  now apply store_new with (c0 := CViews xs).
Qed.

Lemma arrayCopy_old a c (h t : heap) :
  h !! a = Some c ->
  match c with CIteratees _ | CViews _ | CActions _ => True | _ => False end ->
  arrayCopy a (h ++ t) = Ok (length h + length t)%nat (h ++ (t ++ [c])).
Proof.
  intros H Hc. unfold arrayCopy. rewrite (bind_eq _ _ _ _ _ (load_old _ _ _ _ H)).
  destruct c; try contradiction; apply alloc_app.
Qed.

Lemma ret_eq {A} (a : A) (h : heap) : ret a h = Ok a h.
Proof. reflexivity. Qed.

(** One step of a computation whose store is [h ++ t], [t] known. *)
Ltac run_prim :=
  first
    [ lazymatch goal with |- ret _ _ = _ => apply ret_eq end
    | apply alloc_app
    | apply alloc_plain
    | apply getLazy_eq; eassumption
    | apply getLazy_old; eassumption
    | apply getLazy_new; reflexivity
    | apply modifyLazy_new; reflexivity
    | apply getIteratees_new; reflexivity
    | apply getViews_new; reflexivity
    | apply getData_new; reflexivity
    | apply push_iteratee_new; reflexivity
    | apply push_view_new; reflexivity
    | eapply store_new; reflexivity
    | (eapply arrayCopy_old; [eassumption | exact I]) ].

Ltac run_step :=
  erewrite bind_eq by run_prim;
  cbn [length app insert list_insert lookup list_lookup Nat.add last
       lazy_wrapped lazy_actions lazy_dir lazy_dropCount lazy_filtered lazy_iteratees
       lazy_takeCount lazy_views set_actions set_dir set_filtered set_iteratees
       set_takeCount set_views].

(** The copy that [x ? arrayCopy(x) : null] makes. *)
Lemma arrayCopy_or_null_old (h t : heap) x :
  (forall a, x = Some a -> exists c, h !! a = Some c /\
     match c with CIteratees _ | CViews _ | CActions _ => True | _ => False end) ->
  arrayCopy_or_null x (h ++ t) =
  match x with
  | Some a =>
      match h !! a with
      | Some c => Ok (Some (length h + length t)%nat) (h ++ (t ++ [c]))
      | None => Err Unsupported
      end
  | None => Ok None (h ++ t)
  end.
Proof.
  intros Hx. destruct x as [a|]; simpl; [|reflexivity].
  destruct (Hx a eq_refl) as (c & Hl & Hc). rewrite Hl.
  now rewrite (bind_eq _ _ _ _ _ (arrayCopy_old _ _ _ _ Hl Hc)).
Qed.

(** ** What the chainable methods build *)

Lemma read_iteratees_app h t x xs :
  read_iteratees h x = Some xs -> read_iteratees (h ++ t) x = Some xs.
Proof.
  destruct x as [a|]; simpl; auto.
  destruct (h !! a) as [c|] eqn:Hl; [|discriminate].
  now rewrite (lookup_app_old _ t _ _ Hl).
Qed.

Lemma read_views_app h t x xs :
  read_views h x = Some xs -> read_views (h ++ t) x = Some xs.
Proof.
  destruct x as [a|]; simpl; auto.
  destruct (h !! a) as [c|] eqn:Hl; [|discriminate].
  now rewrite (lookup_app_old _ t _ _ Hl).
Qed.

Lemma read_actions_app h t x xs :
  read_actions h x = Some xs -> read_actions (h ++ t) x = Some xs.
Proof.
  destruct x as [a|]; simpl; auto.
  destruct (h !! a) as [c|] eqn:Hl; [|discriminate].
  now rewrite (lookup_app_old _ t _ _ Hl).
Qed.

Lemma described_intro h this w d :
  h !! this = Some (CLazy w) ->
  lazy_wrapped w = desc_wrapped d -> lazy_dir w = desc_dir d ->
  lazy_filtered w = desc_filtered d -> lazy_takeCount w = desc_takeCount d ->
  read_actions h (lazy_actions w) = Some (desc_actions d) ->
  read_iteratees h (lazy_iteratees w) = Some (desc_iteratees d) ->
  read_views h (lazy_views w) = Some (desc_views d) ->
  described h this d.
Proof.
  intros Hl Hw Hdir Hf Htc Ha Hi Hv. exists w. split; [assumption|].
  unfold describe. rewrite Ha, Hi, Hv, Hw, Hdir, Hf, Htc. now destruct d.
Qed.

Lemma described_app h t this d : described h this d -> described (h ++ t) this d.
Proof.
  intros Hd.
  destruct (described_inv _ _ _ Hd) as (w & Hl & Hw & Hdir & Hf & Htc & Ha & Hi & Hv).
  apply described_intro with (w := w);
    auto using lookup_app_old, read_actions_app, read_iteratees_app, read_views_app.
Qed.

Lemma described_new h t i w d :
  t !! i = Some (CLazy w) -> describe (h ++ t) w = Some d ->
  described (h ++ t) (length h + i) d.
Proof. intros Hl Hd. exists w. split; [now rewrite lookup_app_plus | assumption]. Qed.

Lemma arrayCopy_or_null_some a c (h t : heap) :
  h !! a = Some c ->
  match c with CIteratees _ | CViews _ | CActions _ => True | _ => False end ->
  arrayCopy_or_null (Some a) (h ++ t)
    = Ok (Some (length h + length t)%nat) (h ++ (t ++ [c])).
Proof.
  intros H Hc. unfold arrayCopy_or_null.
  now rewrite (bind_eq _ _ _ _ _ (arrayCopy_old _ _ _ _ H Hc)).
Qed.

Lemma arrayCopy_or_null_none (h : heap) : arrayCopy_or_null None h = Ok None h.
Proof. reflexivity. Qed.

Ltac run_copy :=
  first
    [ erewrite bind_eq by (eapply arrayCopy_or_null_some; [eassumption | exact I])
    | erewrite bind_eq by apply arrayCopy_or_null_none ];
  cbn [length app insert list_insert lookup list_lookup Nat.add last
       lazy_wrapped lazy_actions lazy_dir lazy_dropCount lazy_filtered lazy_iteratees
       lazy_takeCount lazy_views set_actions set_dir set_filtered set_iteratees
       set_takeCount set_views].

(** [lazyClone]: a new wrapper, with arrays of its own, that describes what
    the receiver describes. *)
Lemma lazyClone_spec h this d :
  described h this d ->
  exists w' ext,
    lazyClone this h = Ok (length h + 0)%nat (h ++ CLazy w' :: ext) /\
    describe (h ++ CLazy w' :: ext) w' = Some d /\
    fresh_arrays (length h) w'.
Proof.
  intros Hd.
  destruct (described_inv _ _ _ Hd) as (w & Hl & Hw & Hdir & Hf & Htc & Ha & Hi & Hv).
  unfold lazyClone, new_LazyWrapper.
  destruct (lazy_actions w) as [aa|] eqn:Eaa; simpl in Ha;
    [destruct (h !! aa) as [[]|] eqn:Haa; try discriminate|];
  (destruct (lazy_iteratees w) as [ai|] eqn:Eai; simpl in Hi;
    [destruct (h !! ai) as [[]|] eqn:Hai; try discriminate|]);
  (destruct (lazy_views w) as [av|] eqn:Eav; simpl in Hv;
    [destruct (h !! av) as [[]|] eqn:Hav; try discriminate|]);
  injection Ha as Ha; injection Hi as Hi; injection Hv as Hv;
  do 2 eexists; (split; [|split]).
  all: try (run_step; rewrite ?Eaa, ?Eai, ?Eav; repeat (run_step || run_copy); reflexivity).
  all: try (unfold describe; cbn;
            rewrite ?lookup_app_plus; cbn;
            rewrite Ha, Hi, Hv, Hw, Hdir, Hf, Htc; now destruct d).
  all: unfold fresh_arrays; cbn; repeat split; intros a Hfresh; inversion Hfresh; lia.
Qed.

Lemma bind_assoc {A B C} (m : M A) (f : A -> M B) (k : B -> M C) h :
  bind (bind m f) k h = bind m (fun x => bind (f x) k) h.
Proof. unfold bind. destruct (m h); reflexivity. Qed.

Ltac run := repeat (rewrite bind_assoc || run_step || run_copy).

(** The case analysis on the three arrays of a described wrapper. *)
Ltac described_cases Hd w :=
  let Hl := fresh "Hl" in let Hw := fresh "Hw" in let Hdir := fresh "Hdir" in
  let Hf := fresh "Hf" in let Htc := fresh "Htc" in
  let Ha := fresh "Ha" in let Hi := fresh "Hi" in let Hv := fresh "Hv" in
  let aa := fresh "aa" in let ai := fresh "ai" in let av := fresh "av" in
  let Eaa := fresh "Eaa" in let Eai := fresh "Eai" in let Eav := fresh "Eav" in
  let Haa := fresh "Haa" in let Hai := fresh "Hai" in let Hav := fresh "Hav" in
  destruct (described_inv _ _ _ Hd) as (w & Hl & Hw & Hdir & Hf & Htc & Ha & Hi & Hv);
  destruct (lazy_actions w) as [aa|] eqn:Eaa; simpl in Ha;
    [match type of Ha with context [?h !! aa] =>
       destruct (h !! aa) as [[]|] eqn:Haa; try discriminate end|];
  (destruct (lazy_iteratees w) as [ai|] eqn:Eai; simpl in Hi;
    [match type of Hi with context [?h !! ai] =>
       destruct (h !! ai) as [[]|] eqn:Hai; try discriminate end|]);
  (destruct (lazy_views w) as [av|] eqn:Eav; simpl in Hv;
    [match type of Hv with context [?h !! av] =>
       destruct (h !! av) as [[]|] eqn:Hav; try discriminate end|]);
  injection Ha as Ha; injection Hi as Hi; injection Hv as Hv.

Ltac solve_built :=
  unfold built; split; [eexists; reflexivity|]; split; [lia|];
  eexists; split; [rewrite lookup_app_plus; reflexivity|]; split;
  [ unfold describe; cbn; rewrite ?lookup_app_plus; cbn
  | unfold fresh_arrays; cbn; repeat split;
    let a := fresh "a" in let H := fresh "H" in intros a H; inversion H; lia ].

Lemma lazyReverse_spec h this d :
  described h this d ->
  exists r h', lazyReverse this h = Ok r h' /\ built h r h' (desc_reverse this d).
Proof.
  intros Hd. unfold desc_reverse.
  described_cases Hd w; unfold lazyReverse, lazyClone, new_LazyWrapper;
    rewrite (bind_eq _ _ _ _ _ (getLazy_eq _ _ _ Hl));
    rewrite Hf; destruct (desc_filtered d) eqn:Hfd;
    do 2 eexists; (split; [run; rewrite ?Eaa, ?Eai, ?Eav; run; reflexivity|]);
    solve_built.
  all: rewrite ?Hw, ?Hdir, ?Hf, ?Htc, <- ?Ha, <- ?Hi, <- ?Hv; try reflexivity.
  all: destruct d; simpl in *; subst; reflexivity.
Qed.


Lemma lazy_take_spec n h this d :
  described h this d ->
  exists r h', lazy_take n this h = Ok r h' /\
               built h r h' (desc_take (lazy_count n) d).
Proof.
  intros Hd. unfold desc_take.
  described_cases Hd w;
    unfold lazy_take, lazy_drop_take, lazyClone, new_LazyWrapper, views_of;
    rewrite (bind_eq _ _ _ _ _ (getLazy_eq _ _ _ Hl));
    rewrite Hf; destruct (desc_filtered d) eqn:Hfd; cbn [andb negb];
    do 2 eexists; (split; [run; rewrite ?Eaa, ?Eai, ?Eav; run; reflexivity|]);
    solve_built.
  all: try (rewrite Hdir; destruct (desc_dir d <? 0)).
  all: rewrite ?Hw, ?Hdir, ?Hf, ?Htc, <- ?Ha, <- ?Hi, <- ?Hv; try reflexivity.
  all: destruct d; simpl in *; subst; reflexivity.
Qed.

Lemma lazy_iteratee_method_spec type cb h this d :
  described h this d ->
  exists r h' e,
    lazy_iteratee_method type cb this h = Ok r h' /\
    built h r h' (desc_iteratee type this e d) /\
    (length h <= e)%nat /\
    h' !! e = Some (CData (Data false 0 (Fin 0) (baseCallback cb) (Fin (-1)) type)).
Proof.
  intros Hd. unfold desc_iteratee.
  described_cases Hd w;
    unfold lazy_iteratee_method, iteratees_of, lazyClone, new_LazyWrapper;
    rewrite (bind_eq _ _ _ _ _ (getLazy_eq _ _ _ Hl));
    rewrite Hf; destruct (desc_filtered d) eqn:Hfd; destruct type; cbn [andb negb orb];
    do 3 eexists;
    (split; [repeat (run; rewrite ?Eaa, ?Eai, ?Eav, ?Hf; cbn [andb negb orb]);
             reflexivity|]);
    (split;
     [ solve_built;
       rewrite ?Hw, ?Hdir, ?Hf, ?Htc, <- ?Ha, <- ?Hi, <- ?Hv; try reflexivity;
       destruct d; simpl in *; subst; reflexivity
     | split; [lia | rewrite lookup_app_plus; reflexivity] ]).
Qed.

Lemma lazy_drop_spec n h this d :
  described h this d ->
  exists r h' e,
    lazy_drop n this h = Ok r h' /\
    built h r h' (desc_drop (lazy_count n) this e d) /\
    (desc_filtered d = true ->
     (length h <= e)%nat /\
     h' !! e = Some (CData (Data false 0 (Fin 0) identity (lazy_count n)
                                 LAZY_DROP_WHILE_FLAG))).
Proof.
  intros Hd. unfold desc_drop.
  described_cases Hd w;
    unfold lazy_drop, lazy_drop_take, lazy_dropWhile, lazy_iteratee_method, iteratees_of,
      set_last_limit, lazyClone, new_LazyWrapper, views_of;
    rewrite (bind_eq _ _ _ _ _ (getLazy_eq _ _ _ Hl));
    rewrite Hf; destruct (desc_filtered d) eqn:Hfd; cbn [andb negb orb];
    do 3 eexists;
    (split; [repeat (run; rewrite ?Eaa, ?Eai, ?Eav, ?Hf; cbn [andb negb orb]);
             reflexivity|]);
    (split;
     [ solve_built;
       try (rewrite Hdir; destruct (desc_dir d <? 0));
       rewrite ?Hw, ?Hdir, ?Hf, ?Htc, <- ?Ha, <- ?Hi, <- ?Hv; try reflexivity;
       destruct d; simpl in *; subst; reflexivity
     | first [ discriminate
             | intros _; split; [lia | rewrite lookup_app_plus; reflexivity] ] ]).
  Unshelve. all: exact O.
Qed.

(** ** Every chainable call builds a new wrapper *)

Lemma built_described h r h' d' : built h r h' d' -> described h' r d'.
Proof. intros (_ & _ & w' & Hl & Hd & _). exists w'. auto. Qed.

Lemma built_trans h r1 h1 d1 r2 h2 d2 :
  built h r1 h1 d1 -> built h1 r2 h2 d2 -> built h r2 h2 d2.
Proof.
  intros ([e1 ->] & Hr1 & _) ([e2 ->] & Hr2 & w' & Hl & Hd & Hfa & Hfi & Hfv).
  rewrite length_app in *.
  split; [exists (e1 ++ e2); now rewrite app_assoc|]. split; [lia|].
  exists w'. split; [assumption|]. split; [assumption|].
  repeat split; intros a Ha.
  - specialize (Hfa a Ha). lia.
  - specialize (Hfi a Ha). lia.
  - specialize (Hfv a Ha). lia.
Qed.

Lemma builds_compose f g : builds f -> builds g -> builds (fun this => do r <- f this; g r).
Proof.
  intros Hf Hg h this d Hd.
  destruct (Hf h this d Hd) as (r1 & h1 & d1 & Hrun1 & Hb1).
  destruct (Hg h1 r1 d1 (built_described _ _ _ _ Hb1)) as (r2 & h2 & d2 & Hrun2 & Hb2).
  exists r2, h2, d2. split.
  - now rewrite (bind_eq _ _ _ _ _ Hrun1).
  - eapply built_trans; eauto.
Qed.

Lemma builds_reverse : builds lazyReverse.
Proof. intros h this d Hd. destruct (lazyReverse_spec h this d Hd) as (r & h' & H). eauto. Qed.

Lemma builds_take n : builds (lazy_take n).
Proof. intros h this d Hd. destruct (lazy_take_spec n h this d Hd) as (r & h' & H). eauto. Qed.

Lemma builds_drop n : builds (lazy_drop n).
Proof.
  intros h this d Hd.
  destruct (lazy_drop_spec n h this d Hd) as (r & h' & e & Hrun & Hb & _). eauto.
Qed.

Lemma builds_iteratee type cb : builds (lazy_iteratee_method type cb).
Proof.
  intros h this d Hd.
  destruct (lazy_iteratee_method_spec type cb h this d Hd) as (r & h' & e & Hrun & Hb & _).
  eauto.
Qed.

Lemma builds_takeRight n : builds (lazy_takeRight n).
Proof.
  unfold lazy_takeRight.
  apply builds_compose; [apply builds_reverse|].
  apply builds_compose; [apply builds_take | apply builds_reverse].
Qed.

Lemma builds_dropRight n : builds (lazy_dropRight n).
Proof.
  unfold lazy_dropRight.
  apply builds_compose; [apply builds_reverse|].
  apply builds_compose; [apply builds_drop | apply builds_reverse].
Qed.

Lemma builds_slice start end_ : builds (lazy_slice start end_).
Proof.
  intros h this d Hd. unfold lazy_slice.
  set (s := if isNullish start then Fin 0 else ToNumberOr0 start).
  assert (builds (fun this => if Num.lt s (Fin 0) then lazy_takeRight (VNum (Num.neg s)) this
                              else lazy_drop (VNum s) this)) as Hfirst.
  { destruct (Num.lt s (Fin 0)); [apply builds_takeRight | apply builds_drop]. }
  destruct (Hfirst h this d Hd) as (r1 & h1 & d1 & Hrun1 & Hb1).
  rewrite (bind_eq _ _ _ _ _ Hrun1).
  destruct (isUndefined end_).
  - exists r1, h1, d1. split; [reflexivity | assumption].
  - assert (builds (fun r => if Num.lt (ToNumberOr0 end_) (Fin 0)
                             then lazy_dropRight (VNum (Num.neg (ToNumberOr0 end_))) r
                             else lazy_take (VNum (Num.sub (ToNumberOr0 end_) s)) r)) as Hsecond.
    { destruct (Num.lt (ToNumberOr0 end_) (Fin 0)); [apply builds_dropRight | apply builds_take]. }
    destruct (Hsecond h1 r1 d1 (built_described _ _ _ _ Hb1)) as (r2 & h2 & d2 & Hrun2 & Hb2).
    exists r2, h2, d2. split; [exact Hrun2 | eapply built_trans; eauto].
Qed.

Lemma builds_call c : builds (lazy_call c).
Proof.
  destruct c; simpl.
  - apply builds_iteratee.
  - apply builds_iteratee.
  - apply builds_take.
  - apply builds_drop.
  - apply builds_iteratee.
  - apply builds_iteratee.
  - apply builds_reverse.
  - apply builds_slice.
Qed.

(** The part of C6 on the chainable calls.  On every described receiver,
    each chainable call returns a new wrapper [r] in a store [h'] that extends
    the store [h] of the call: every object of [h] (the receiver, its arrays,
    its entries) is unchanged, and the arrays of [r] are new.  The evaluation
    of a wrapper on which no action is pending then changes nothing in the
    store but the [done], [count] and [index] fields of iteratee entries. *)
Lemma chain_call_leaves_receiver_unchanged c h this d :
  described h this d ->
  exists r h' d',
    lazy_call c this h = Ok r h' /\
    built h r h' d' /\
    (forall fuel a v h'',
       array_backed h' a -> value_of fuel a h' = Ok v h'' -> same_shape h' h'').
Proof.
  intros Hd. destruct (builds_call c h this d Hd) as (r & h' & d' & Hrun & Hb).
  exists r, h', d'. split; [assumption|]. split; [assumption|].
  intros fuel a v h'' _ Hv. eapply value_of_shape; eauto.
Qed.

(** ** Reversal *)

Lemma value_of_described fuel h this d :
  described h this d ->
  value_of (S fuel) this h = lazyValue_desc (value_of fuel) d h.
Proof.
  intros Hd. pose proof Hd as (w & Hl & _).
  cbn [value_of]. unfold load at 1. unfold bind at 1. rewrite Hl.
  apply lazyValue_described; [apply value_of_shape | assumption].
Qed.

Lemma arrayGet_nat xs k : arrayGet xs (Fin (Z.of_nat k)) = nth k xs VUndefined.
Proof.
  unfold arrayGet, arrayGetZ.
  destruct (Z.of_nat k <? 0) eqn:Hneg; [apply Z.ltb_lt in Hneg; lia|].
  now rewrite Nat2Z.id.
Qed.

Lemma take_S_nth (xs : list value) k :
  (k < length xs)%nat -> take (S k) xs = take k xs ++ [nth k xs VUndefined].
Proof.
  intros Hk. destruct (lookup_lt_is_Some_2 xs k Hk) as [x Hx].
  rewrite (take_S_r xs k x Hx). f_equal. f_equal.
  symmetry. now apply nth_lookup_Some.
Qed.

(** The loop of a wrapper that only reverses: no iteratee, direction [-1]. *)
Lemma lazyLoop_reverse k : forall steps xs acc h,
  (length acc + k = length xs)%nat -> (k < steps)%nat ->
  lazyLoop steps xs (-1) [] (Fin (Z.of_nat (length xs)))
    (Fin (Z.of_nat k)) (Fin (Z.of_nat k)) acc h
  = Ok (acc ++ rev (take k xs)) h.
Proof.
  induction k as [|k IH]; intros steps xs acc h Hlen Hsteps;
    (destruct steps as [|steps]; [lia|]); cbn [lazyLoop].
  - simpl. now rewrite app_nil_r.
  - assert (Num.truthy (Fin (Z.of_nat (S k))) = true) as ->.
    { unfold Num.truthy. apply negb_true_iff, Z.eqb_neq. lia. }
    assert (Num.lt (Fin (Z.of_nat (length acc))) (Fin (Z.of_nat (length xs))) = true) as ->.
    { unfold Num.lt. apply Z.ltb_lt. lia. }
    cbn [andb].
    assert (Num.sub (Fin (Z.of_nat (S k))) (Fin 1) = Fin (Z.of_nat k)) as ->.
    { unfold Num.sub, Num.neg, Num.add. change (1 =? 0) with false. cbn iota. f_equal. lia. }
    assert (Num.add (Fin (Z.of_nat (S k))) (Fin (-1)) = Fin (Z.of_nat k)) as ->.
    { unfold Num.add. f_equal. lia. }
    cbn [lazyIteratees]. unfold bind, ret. rewrite arrayGet_nat.
    rewrite IH by (rewrite ?length_app; simpl; lia).
    rewrite (take_S_nth xs k) by lia.
    rewrite rev_app_distr. simpl. now rewrite <- app_assoc.
Qed.

Lemma value_of_reversing fuel h r src xs h1 :
  described h r (Desc (WRef src) None (-1) true [] PInf []) ->
  value_of fuel src h = Ok (VArr xs) h1 ->
  value_of (S fuel) r h = Ok (VArr (rev xs)) h1.
Proof.
  intros Hd Hsrc. rewrite (value_of_described _ _ _ _ Hd).
  unfold lazyValue_desc. cbn [desc_wrapped desc_dir desc_views desc_takeCount desc_iteratees].
  rewrite (bind_eq _ _ _ _ _ Hsrc). unfold lazyLoop_of.
  cbn [desc_wrapped desc_dir desc_views desc_takeCount desc_iteratees].
  cbn [getView fold_left]. unfold lengthOf.
  assert (Num.sub (Fin (Z.of_nat (length xs))) (Fin 0) = Fin (Z.of_nat (length xs))) as ->
    by reflexivity.
  change (-1 <? 0) with true. cbn iota.
  assert (Num.min (Fin (Z.of_nat (length xs))) PInf = Fin (Z.of_nat (length xs))) as ->
    by reflexivity.
  unfold loop_steps. rewrite Nat2Z.id.
  rewrite (bind_eq _ _ _ _ _ (lazyLoop_reverse (length xs) _ xs [] h1 eq_refl (Nat.lt_succ_diag_r _))).
  rewrite firstn_all. reflexivity.
Qed.

(** [reverse()] on a filtered pipeline returns a wrapper around it, whose
    value is the value of the pipeline, reversed. *)
Lemma lazyReverse_filtered_value h this d :
  described h this d -> desc_filtered d = true ->
  exists r h',
    lazyReverse this h = Ok r h' /\
    forall fuel xs h1,
      value_of fuel this h' = Ok (VArr xs) h1 ->
      value_of (S fuel) r h' = Ok (VArr (rev xs)) h1.
Proof.
  intros Hd Hf. destruct (lazyReverse_spec h this d Hd) as (r & h' & Hrun & Hb).
  exists r, h'. split; [assumption|].
  intros fuel xs h1 Hv. apply built_described in Hb.
  unfold desc_reverse in Hb. rewrite Hf in Hb.
  eapply value_of_reversing; eauto.
Qed.

(** A while-method leaves a filtered wrapper. *)
Lemma while_sets_filtered type this e d :
  type = LAZY_DROP_WHILE_FLAG \/ type = LAZY_TAKE_WHILE_FLAG ->
  desc_filtered (desc_iteratee type this e d) = true.
Proof.
  unfold desc_iteratee. intros [-> | ->]; destruct (desc_filtered d); reflexivity.
Qed.

(** [reverse()] twice gives a wrapper with the value of the pipeline. *)
Lemma lazyReverse_twice_value h this d :
  described h this d ->
  exists r1 h1 r2 h2,
    lazyReverse this h = Ok r1 h1 /\
    lazyReverse r1 h1 = Ok r2 h2 /\
    forall fuel xs h3,
      value_of fuel this h2 = Ok (VArr xs) h3 ->
      value_of (S (S fuel)) r2 h2 = Ok (VArr xs) h3.
Proof.
  intros Hd.
  destruct (lazyReverse_spec h this d Hd) as (r1 & h1 & Hrun1 & Hb1).
  pose proof (built_described _ _ _ _ Hb1) as Hd1.
  destruct (lazyReverse_spec h1 r1 _ Hd1) as (r2 & h2 & Hrun2 & Hb2).
  pose proof (built_described _ _ _ _ Hb2) as Hd2.
  exists r1, h1, r2, h2. split; [assumption|]. split; [assumption|].
  intros fuel xs h3 Hv.
  destruct Hb1 as ([e1 ->] & _). destruct Hb2 as ([e2 ->] & _).
  pose proof (described_app _ e1 _ _ Hd) as Hd'.
  pose proof (described_app _ e2 _ _ Hd') as Hd''.
  pose proof (described_app _ e2 _ _ Hd1) as Hd1'.
  unfold desc_reverse in Hd1', Hd2. destruct (desc_filtered d) eqn:Hf.
  - cbn [desc_filtered] in Hd2.
    pose proof (value_of_reversing _ _ _ _ _ _ Hd1' Hv) as Hv1.
    pose proof (value_of_reversing _ _ _ _ _ _ Hd2 Hv1) as Hv2.
    now rewrite rev_involutive in Hv2.
  - cbn [desc_set_dir desc_filtered] in Hd2. rewrite Hf in Hd2.
    assert (desc_set_dir (desc_dir (desc_set_dir (desc_dir d * -1) d) * -1)
                         (desc_set_dir (desc_dir d * -1) d) = d) as Heq.
    { destruct d; unfold desc_set_dir; simpl. f_equal. lia. }
    rewrite Heq in Hd2.
    destruct fuel as [|fuel]; [discriminate|].
    rewrite (value_of_described _ _ _ _ Hd'') in Hv.
    apply (value_of_mono (S fuel)); [lia|].
    now rewrite (value_of_described _ _ _ _ Hd2).
Qed.

(** ** The take count *)

Lemma Num_lt_min (k : Z) (a b : num) :
  Num.lt (Fin k) (Num.min a b) = Num.lt (Fin k) a && Num.lt (Fin k) b.
Proof.
  destruct a as [| | | |x], b as [| | | |y]; simpl;
    rewrite ?andb_true_r, ?andb_false_r; auto;
    repeat match goal with
           | |- context [if ?c then _ else _] => destruct c eqn:?
           end; simpl;
    repeat match goal with
           | H : (_ <? _) = true |- _ => apply Z.ltb_lt in H
           | H : (_ <? _) = false |- _ => apply Z.ltb_ge in H
           | |- context [?p <? ?q] => destruct (Z.ltb_spec p q)
           end; simpl; auto; try lia.
Qed.

Lemma lazyLoop_extends steps : forall arr dir its T len idx acc h res h1,
  lazyLoop steps arr dir its T len idx acc h = Ok res h1 ->
  exists out, res = acc ++ out.
Proof.
  induction steps as [|steps IH]; intros arr dir its T len idx acc h res h1 H;
    cbn [lazyLoop] in H; [discriminate|].
  destruct (Num.truthy len && _).
  - apply bind_Ok in H as (p & h0 & _ & H). destruct p.
    + apply IH in H as [out ->]. exists ([v] ++ out). now rewrite app_assoc.
    + eauto.
    + inversion H; subst. exists []. now rewrite app_nil_r.
  - inversion H; subst. exists []. now rewrite app_nil_r.
Qed.

Lemma take_prefix_exact (acc out : list value) z :
  Z.of_nat (length acc) = z -> take (Z.to_nat z) (acc ++ out) = acc.
Proof.
  intros <-. rewrite Nat2Z.id. now rewrite take_app_length.
Qed.

(** With a smaller take count, the loop returns a prefix of what it returns
    with the larger one. *)
Lemma lazyLoop_take_prefix z T T' steps : forall arr dir its len idx acc h res h1,
  (forall k, Num.lt (Fin (Z.of_nat k)) T' = Num.lt (Fin (Z.of_nat k)) T && (Z.of_nat k <? z)) ->
  lazyLoop steps arr dir its T len idx acc h = Ok res h1 ->
  exists h2,
    lazyLoop steps arr dir its T' len idx acc h
    = Ok (if Z.of_nat (length acc) <? z then take (Z.to_nat z) res else acc) h2.
Proof.
  induction steps as [|steps IH]; intros arr dir its len idx acc h res h1 HT H;
    cbn [lazyLoop] in *; [discriminate|].
  rewrite (HT (length acc)).
  destruct (Z.of_nat (length acc) <? z) eqn:Hz;
    [apply Z.ltb_lt in Hz | rewrite !andb_false_r; eauto].
  rewrite andb_true_r.
  destruct (Num.truthy len && Num.lt (Fin (Z.of_nat (length acc))) T).
  - apply bind_Ok in H as (p & h0 & Hp & H). rewrite (bind_eq _ _ _ _ _ Hp). destruct p.
    + destruct (lazyLoop_extends _ _ _ _ _ _ _ _ _ _ _ H) as [out Hout].
      destruct (IH _ _ _ _ _ _ _ _ _ HT H) as [h2 IH2]. exists h2. rewrite IH2.
      rewrite length_app. simpl length.
      destruct (Z.of_nat (length acc + 1) <? z) eqn:Hz1; [reflexivity|].
      apply Z.ltb_ge in Hz1. subst res. f_equal.
      symmetry. apply take_prefix_exact. rewrite length_app. simpl. lia.
    + destruct (IH _ _ _ _ _ _ _ _ _ HT H) as [h2 IH2]. exists h2. rewrite IH2.
      apply Z.ltb_lt in Hz. now rewrite Hz.
    + inversion H; subst. exists h1. unfold ret. f_equal.
      rewrite take_ge; [reflexivity | lia].
  - inversion H; subst. exists h1. unfold ret. f_equal.
    rewrite take_ge; [reflexivity | lia].
Qed.

Lemma lazyIteratees_maps its : forall isRight index v h,
  Forall (is_map_entry h) its ->
  exists v', lazyIteratees its isRight index v h = Ok (Emit v') h.
Proof.
  induction its as [|a its IH]; intros isRight index v h Hall; cbn [lazyIteratees].
  - eexists. reflexivity.
  - inversion Hall as [|? ? (d & Hl & Hty) Hrest]; subst.
    rewrite (bind_eq _ _ _ _ _ (getData_eq _ _ _ Hl)). rewrite Hty. now apply IH.
Qed.

(** On [map] iteratees only, the same holds when the view is cut as well. *)
Lemma lazyLoop_take_prefix_maps z T T' steps : forall arr dir its l l' idx acc h res h1,
  Forall (is_map_entry h) its ->
  (forall k, Num.lt (Fin (Z.of_nat k)) T' = Num.lt (Fin (Z.of_nat k)) T && (Z.of_nat k <? z)) ->
  (forall k, Num.lt (Fin (Z.of_nat k)) T = true -> Z.of_nat k < Z.of_nat (length acc) + l) ->
  (forall k, Num.lt (Fin (Z.of_nat k)) T' = true -> Z.of_nat k < Z.of_nat (length acc) + l') ->
  lazyLoop steps arr dir its T (Fin l) idx acc h = Ok res h1 ->
  exists h2,
    lazyLoop steps arr dir its T' (Fin l') idx acc h
    = Ok (if Z.of_nat (length acc) <? z then take (Z.to_nat z) res else acc) h2.
Proof.
  induction steps as [|steps IH]; intros arr dir its l l' idx acc h res h1 Hmaps HT Hl Hl' H;
    cbn [lazyLoop] in *; [discriminate|].
  destruct (Num.lt (Fin (Z.of_nat (length acc))) T') eqn:HT'.
  - pose proof (Hl' _ HT') as Hpos'.
    rewrite HT in HT'. apply andb_prop in HT' as [HTacc Hz].
    pose proof (Hl _ HTacc) as Hpos. rewrite HTacc in H.
    assert (Num.truthy (Fin l) = true) as Htl
      by (unfold Num.truthy; apply negb_true_iff, Z.eqb_neq; lia).
    assert (Num.truthy (Fin l') = true) as Htl'
      by (unfold Num.truthy; apply negb_true_iff, Z.eqb_neq; lia).
    rewrite Htl in H. rewrite Htl'. cbn [andb] in *. rewrite Hz.
    destruct (lazyIteratees_maps its (dir <? 0) (Num.add idx (Fin dir))
                (arrayGet arr (Num.add idx (Fin dir))) h Hmaps) as [v' Hv'].
    assert (forall x, Num.sub (Fin x) (Fin 1) = Fin (x - 1)) as Hsub by reflexivity.
    rewrite Hsub in H. rewrite Hsub.
    rewrite (bind_eq _ _ _ _ _ Hv') in H. rewrite (bind_eq _ _ _ _ _ Hv').
    cbn beta iota in H. cbn beta iota.
    destruct (lazyLoop_extends _ _ _ _ _ _ _ _ _ _ _ H) as [out Hout].
    destruct (IH arr dir its (l - 1) (l' - 1) (Num.add idx (Fin dir)) (acc ++ [v']) h res h1
                 Hmaps HT) as [h2 IH2].
    + intros k Hk. specialize (Hl k Hk). rewrite length_app. simpl. lia.
    + intros k Hk. specialize (Hl' k Hk). rewrite length_app. simpl. lia.
    + exact H.
    + exists h2. rewrite IH2. rewrite length_app. simpl length.
      destruct (Z.of_nat (length acc + 1) <? z) eqn:Hz1; [reflexivity|].
      apply Z.ltb_ge in Hz1. apply Z.ltb_lt in Hz. subst res. f_equal.
      symmetry. apply take_prefix_exact. rewrite length_app. simpl. lia.
  - rewrite andb_false_r. exists h. unfold ret. f_equal.
    destruct (Z.of_nat (length acc) <? z) eqn:Hz; [|reflexivity].
    rewrite HT, Hz, andb_true_r in HT'. rewrite HT', andb_false_r in H.
    inversion H; subst. apply Z.ltb_lt in Hz. rewrite take_ge; [reflexivity | lia].
Qed.

Lemma getView_app start end_ vs v :
  getView start end_ (vs ++ [v]) = getView_step (getView start end_ vs) v.
Proof. unfold getView. now rewrite fold_left_app. Qed.

Lemma getView_step_range se v :
  count_like (view_size v) -> view_range se -> view_range (getView_step se v).
Proof.
  destruct se as [s e], v as [size ty]. unfold view_range, getView_step. simpl.
  intros [-> | (z & Hz & ->)] [[-> | [a ->]] [-> | [b ->]]];
    destruct ty; simpl; eauto;
    repeat match goal with
           | |- context [if ?c then _ else _] => destruct c
           end; eauto 6.
Qed.

Lemma getView_range vs : forall se,
  Forall (fun v => count_like (view_size v)) vs -> view_range se ->
  view_range (fold_left getView_step vs se).
Proof.
  induction vs as [|v vs IH]; intros se Hall Hse; simpl; [assumption|].
  inversion Hall; subst. apply IH; [assumption|]. now apply getView_step_range.
Qed.

Lemma is_map_entry_app h t a : is_map_entry h a -> is_map_entry (h ++ t) a.
Proof. intros (d & Hl & Hty). exists d. split; [now apply lookup_app_old | assumption]. Qed.

Lemma is_map_entry_shape h h' a : same_shape h h' -> is_map_entry h a -> is_map_entry h' a.
Proof.
  intros Hs (d & Hl & Hty).
  destruct (same_shape_lookup _ _ _ _ Hs Hl) as (c' & Hl' & Hc).
  destruct c'; simpl in Hc; try discriminate.
  destruct Hc as (_ & _ & Hty'). exists d0. split; [assumption | congruence].
Qed.

(** Once the steps suffice for the elements left, their number is irrelevant. *)
Lemma lazyLoop_steps_irrelevant n : forall steps1 steps2 arr dir its T idx acc h,
  (n < steps1)%nat -> (n < steps2)%nat ->
  lazyLoop steps1 arr dir its T (Fin (Z.of_nat n)) idx acc h
  = lazyLoop steps2 arr dir its T (Fin (Z.of_nat n)) idx acc h.
Proof.
  induction n as [|n IH]; intros steps1 steps2 arr dir its T idx acc h H1 H2;
    (destruct steps1 as [|steps1]; [lia|]); (destruct steps2 as [|steps2]; [lia|]);
    cbn [lazyLoop].
  - reflexivity.
  - destruct (Num.truthy _ && _); [|reflexivity].
    assert (Num.sub (Fin (Z.of_nat (S n))) (Fin 1) = Fin (Z.of_nat n)) as ->.
    { unfold Num.sub, Num.neg, Num.add. change (1 =? 0) with false. cbn iota. f_equal. lia. }
    apply bind_ext. intros p h1 _.
    destruct p; [apply IH; lia | apply IH; lia | reflexivity].
Qed.

(** A loop whose take count is not positive returns at once. *)
Lemma lazyLoop_nothing steps arr dir its T len idx h :
  Num.lt (Fin 0) T = false ->
  lazyLoop (S steps) arr dir its T len idx [] h = Ok [] h.
Proof.
  intros HT. cbn [lazyLoop].
  change (Z.of_nat (length (@nil value))) with 0. now rewrite HT, andb_false_r.
Qed.

Lemma Num_sub_Fin x y : Num.sub (Fin x) (Fin y) = Fin (x - y).
Proof.
  unfold Num.sub, Num.neg. destruct (Z.eqb_spec y 0) as [->|Hy]; simpl; f_equal; lia.
Qed.

Lemma Num_sub_NInf_Fin x : Num.sub NInf (Fin x) = NInf.
Proof. unfold Num.sub, Num.neg. destruct (x =? 0); reflexivity. Qed.

Lemma Num_min_Fin x y : Num.min (Fin x) (Fin y) = Fin (Z.min x y).
Proof. unfold Num.min, Num.lt. destruct (Z.ltb_spec y x); f_equal; lia. Qed.

Lemma Num_max_Fin x y : Num.max (Fin x) (Fin y) = Fin (Z.max x y).
Proof. unfold Num.max, Num.lt. destruct (Z.ltb_spec x y); f_equal; lia. Qed.

Lemma take_of_count (xs : list value) z :
  0 <= z -> (if 0 <? z then take (Z.to_nat z) xs else []) = take (Z.to_nat z) xs.
Proof.
  intros Hz. destruct (Z.ltb_spec 0 z); [reflexivity|].
  replace z with 0 by lia. reflexivity.
Qed.

(** The two loops on a view with integer bounds, [map] iteratees only. *)
Lemma lazyLoop_cut_view z l tc arr dir its idx h xs h1 :
  Forall (is_map_entry h) its -> 0 <= z ->
  lazyLoop (loop_steps (Fin l)) arr dir its (Num.min (Fin l) tc) (Fin l) idx [] h
    = Ok xs h1 ->
  exists h2,
    lazyLoop (loop_steps (Fin (Z.min l z))) arr dir its (Num.min (Fin (Z.min l z)) tc)
      (Fin (Z.min l z)) idx [] h
    = Ok (take (Z.to_nat z) xs) h2.
Proof.
  intros Hmaps Hz Hrun.
  destruct (lazyLoop_take_prefix_maps z (Num.min (Fin l) tc) (Num.min (Fin (Z.min l z)) tc)
              (loop_steps (Fin l)) arr dir its l (Z.min l z) idx [] h xs h1 Hmaps)
    as [h2 Hrun2]; try assumption.
  - intros k. rewrite !Num_lt_min.
    destruct (Num.lt (Fin (Z.of_nat k)) tc); rewrite ?andb_true_r, ?andb_false_r;
      [|reflexivity].
    unfold Num.lt.
    destruct (Z.ltb_spec (Z.of_nat k) (Z.min l z)), (Z.ltb_spec (Z.of_nat k) l),
      (Z.ltb_spec (Z.of_nat k) z); simpl; try lia; reflexivity.
  - intros k. rewrite Num_lt_min. intros Hk. apply andb_prop in Hk as [Hk _].
    apply Z.ltb_lt in Hk. simpl. lia.
  - intros k. rewrite Num_lt_min. intros Hk. apply andb_prop in Hk as [Hk _].
    apply Z.ltb_lt in Hk. simpl. lia.
  - change (Z.of_nat (length (@nil value))) with 0 in Hrun2.
    rewrite take_of_count in Hrun2 by assumption.
    exists h2. rewrite <- Hrun2.
    destruct (Z.le_gt_cases 0 (Z.min l z)) as [Hpos|Hneg].
    + rewrite <- (Z2Nat.id (Z.min l z)) by assumption.
      apply lazyLoop_steps_irrelevant; unfold loop_steps; rewrite ?Nat2Z.id; lia.
    + replace (Z.min l z) with l by lia. reflexivity.
Qed.

Lemma view_range_initial arr : view_range (Fin 0, lengthOf arr).
Proof. split; right; eexists; reflexivity. Qed.

(** The loop of [take(n)] against the loop of its receiver. *)
Lemma lazyLoop_of_take z d arr h xs h1 :
  Forall (fun v => count_like (view_size v)) (desc_views d) ->
  (desc_filtered d = false -> Forall (is_map_entry h) (desc_iteratees d)) ->
  0 <= z ->
  lazyLoop_of d arr h = Ok xs h1 ->
  exists h2, lazyLoop_of (desc_take (Fin z) d) arr h = Ok (take (Z.to_nat z) xs) h2.
Proof.
  intros Hviews Hmaps Hz Hrun. unfold lazyLoop_of, desc_take in *.
  destruct (desc_filtered d) eqn:Hf.
  - cbn [desc_set_takeCount desc_dir desc_views desc_takeCount desc_iteratees].
    destruct (getView (Fin 0) (lengthOf arr) (desc_views d)) as [s e].
    eapply lazyLoop_take_prefix in Hrun as [h2 Hrun2].
    + exists h2. rewrite Hrun2.
      change (Z.of_nat (length (@nil value))) with 0. now rewrite take_of_count.
    + intros k. rewrite !Num_lt_min. unfold Num.lt at 5. now rewrite !andb_assoc.
  - specialize (Hmaps eq_refl).
    cbn [desc_add_view desc_dir desc_views desc_takeCount desc_iteratees].
    rewrite getView_app.
    pose proof (getView_range (desc_views d) _ Hviews (view_range_initial arr)) as Hrange.
    fold (getView (Fin 0) (lengthOf arr) (desc_views d)) in Hrange.
    destruct (getView (Fin 0) (lengthOf arr) (desc_views d)) as [s e].
    destruct Hrange as [[Hs | [a Hs]] [He | [b He]]]; simpl in Hs, He; subst s e.
    + (* start Infinity, end -Infinity *)
      change (Num.sub NInf PInf) with NInf in Hrun. cbn [loop_steps] in Hrun.
      rewrite lazyLoop_nothing in Hrun by (rewrite Num_lt_min; reflexivity).
      inversion Hrun; subst. exists h1. rewrite take_nil.
      destruct (desc_dir d <? 0); cbn [getView_step view_size view_type_of].
      * rewrite Num_sub_NInf_Fin. change (Num.max PInf NInf) with PInf.
        change (Num.sub NInf PInf) with NInf.
        apply lazyLoop_nothing; rewrite Num_lt_min; reflexivity.
      * change (Num.min NInf (Num.add PInf (Fin z))) with NInf.
        change (Num.sub NInf PInf) with NInf.
        apply lazyLoop_nothing; rewrite Num_lt_min; reflexivity.
    + (* start Infinity *)
      change (Num.sub (Fin b) PInf) with NInf in Hrun. cbn [loop_steps] in Hrun.
      rewrite lazyLoop_nothing in Hrun by (rewrite Num_lt_min; reflexivity).
      inversion Hrun; subst. exists h1. rewrite take_nil.
      destruct (desc_dir d <? 0); cbn [getView_step view_size view_type_of].
      * rewrite Num_sub_Fin. change (Num.max PInf (Fin (b - z))) with PInf.
        change (Num.sub (Fin b) PInf) with NInf.
        apply lazyLoop_nothing; rewrite Num_lt_min; reflexivity.
      * change (Num.min (Fin b) (Num.add PInf (Fin z))) with (Fin b).
        change (Num.sub (Fin b) PInf) with NInf.
        apply lazyLoop_nothing; rewrite Num_lt_min; reflexivity.
    + (* end -Infinity *)
      rewrite Num_sub_NInf_Fin in Hrun. cbn [loop_steps] in Hrun.
      rewrite lazyLoop_nothing in Hrun by (rewrite Num_lt_min; reflexivity).
      inversion Hrun; subst. exists h1. rewrite take_nil.
      destruct (desc_dir d <? 0); cbn [getView_step view_size view_type_of].
      * rewrite Num_sub_NInf_Fin. change (Num.max (Fin a) NInf) with (Fin a).
        rewrite Num_sub_NInf_Fin.
        apply lazyLoop_nothing; rewrite Num_lt_min; reflexivity.
      * change (Num.min NInf (Num.add (Fin a) (Fin z))) with NInf.
        rewrite Num_sub_NInf_Fin.
        apply lazyLoop_nothing; rewrite Num_lt_min; reflexivity.
    + (* integer bounds *)
      rewrite Num_sub_Fin in Hrun.
      destruct (lazyLoop_cut_view z _ _ _ _ _ _ _ _ _ Hmaps Hz Hrun) as [h2 Hrun2].
      exists h2. rewrite <- Hrun2.
      destruct (desc_dir d <? 0); cbn [getView_step view_size view_type_of].
      * rewrite Num_sub_Fin, Num_max_Fin, Num_sub_Fin.
        replace (b - Z.max a (b - z)) with (Z.min (b - a) z) by lia. reflexivity.
      * change (Num.add (Fin a) (Fin z)) with (Fin (a + z)).
        rewrite Num_min_Fin, Num_sub_Fin.
        replace (Z.min b (a + z) - a) with (Z.min (b - a) z) by lia. reflexivity.
Qed.

Lemma desc_take_wrapped n d : desc_wrapped (desc_take n d) = desc_wrapped d.
Proof. unfold desc_take. destruct (desc_filtered d); reflexivity. Qed.

(** The value of [take(n)] is the first [z] elements of the value of the
    pipeline, [z] the count of [n]. *)
Lemma lazy_take_value h this d n z :
  described h this d -> wf_desc h d -> lazy_count n = Fin z ->
  exists r h',
    lazy_take n this h = Ok r h' /\
    forall fuel src arr h0 xs h1,
      desc_wrapped d = WRef src ->
      value_of fuel src h' = Ok (VArr arr) h0 ->
      value_of (S fuel) this h' = Ok (VArr xs) h1 ->
      exists ys h2,
        value_of (S fuel) r h' = Ok (VArr ys) h2 /\
        ys = take (Z.to_nat z) xs /\
        Z.of_nat (length ys) <= z /\
        (Z.of_nat (length ys) = z <-> z <= Z.of_nat (length xs)).
Proof.
  intros Hd [Hviews Hmaps] Hn.
  assert (0 <= z) as Hz.
  { destruct (lazy_count_range n) as [Hinf | (z' & Hz' & Heq)]; rewrite Hn in *;
      [discriminate | now inversion Heq; subst]. }
  destruct (lazy_take_spec n h this d Hd) as (r & h' & Hrun & Hb).
  exists r, h'. split; [assumption|].
  intros fuel src arr h0 xs h1 Hsrc Harr Hxs.
  pose proof (built_described _ _ _ _ Hb) as Hdr. rewrite Hn in Hdr.
  destruct Hb as ([ext ->] & _).
  pose proof (described_app _ ext _ _ Hd) as Hd'.
  rewrite (value_of_described _ _ _ _ Hd') in Hxs.
  rewrite (value_of_described _ _ _ _ Hdr).
  unfold lazyValue_desc in *. rewrite desc_take_wrapped. rewrite Hsrc in *.
  rewrite (bind_eq _ _ _ _ _ Harr) in Hxs. rewrite (bind_eq _ _ _ _ _ Harr).
  apply bind_Ok in Hxs as (res & h2 & Hloop & Hret).
  inversion Hret; subst res h2.
  pose proof (value_of_shape _ _ _ _ _ Harr) as Hshape.
  destruct (lazyLoop_of_take z d arr h0 xs h1 Hviews) as [h2 Hloop2]; try assumption.
  { intros Hf. specialize (Hmaps Hf).
    eapply Forall_impl; [exact Hmaps|]. intros a Ha.
    eapply is_map_entry_shape; [exact Hshape|]. now apply is_map_entry_app. }
  exists (take (Z.to_nat z) xs), h2. split.
  { now rewrite (bind_eq _ _ _ _ _ Hloop2). }
  split; [reflexivity|].
  rewrite length_take. split; [lia|]. split; lia.
Qed.

(** ** Array-backed wrappers *)

Lemma wf_desc_app h t d : wf_desc h d -> wf_desc (h ++ t) d.
Proof.
  intros [Hv Hm]. split; [assumption|]. intros Hf.
  eapply Forall_impl; [exact (Hm Hf)|]. intros a. apply is_map_entry_app.
Qed.

Lemma wf_desc_shape h h' d : same_shape h h' -> wf_desc h d -> wf_desc h' d.
Proof.
  intros Hs [Hv Hm]. split; [assumption|]. intros Hf.
  eapply Forall_impl; [exact (Hm Hf)|]. intros a. now apply is_map_entry_shape.
Qed.

Lemma is_entry_app h t a : is_entry h a -> is_entry (h ++ t) a.
Proof. intros [d Hl]. exists d. now apply lookup_app_old. Qed.

Lemma is_entry_shape h h' a : same_shape h h' -> is_entry h a -> is_entry h' a.
Proof.
  intros Hs [d Hl]. pose proof (same_shape_lookup_eq h h' a Hs) as H.
  rewrite Hl in H. exact H.
Qed.

Lemma entries_app h t its : Forall (is_entry h) its -> Forall (is_entry (h ++ t)) its.
Proof. intros H. eapply Forall_impl; [exact H|]. intros a. apply is_entry_app. Qed.

Lemma entries_shape h h' its :
  same_shape h h' -> Forall (is_entry h) its -> Forall (is_entry h') its.
Proof. intros Hs H. eapply Forall_impl; [exact H|]. intros a. now apply is_entry_shape. Qed.

Lemma array_backed_app h t a : array_backed h a -> array_backed (h ++ t) a.
Proof.
  induction 1 as [a array acts chain Hl Ha | a d src Hd Hsrc _ IH Hwf Hent].
  - eapply array_backed_lodash; eauto using lookup_app_old.
  - eapply array_backed_lazy;
      eauto using described_app, wf_desc_app, entries_app.
Qed.

Lemma array_backed_shape h h' a : same_shape h h' -> array_backed h a -> array_backed h' a.
Proof.
  intros Hs. induction 1 as [a array acts chain Hl Ha | a d src Hd Hsrc _ IH Hwf Hent].
  - pose proof (same_shape_lookup_eq h h' a Hs) as H1. rewrite Hl in H1.
    pose proof (same_shape_lookup_eq h h' acts Hs) as H2. rewrite Ha in H2.
    eapply array_backed_lodash; eauto.
  - eapply array_backed_lazy;
      eauto using described_shape, wf_desc_shape, entries_shape.
Qed.

Lemma described_fun h this d1 d2 : described h this d1 -> described h this d2 -> d1 = d2.
Proof. intros (w1 & Hl1 & Hd1) (w2 & Hl2 & Hd2). congruence. Qed.

Lemma array_backed_inv h this d :
  described h this d -> array_backed h this ->
  exists src, desc_wrapped d = WRef src /\ array_backed h src /\ wf_desc h d /\
              Forall (is_entry h) (desc_iteratees d).
Proof.
  intros Hd Hab. destruct Hab as [a array acts chain Hl _ | a d0 src Hd0 Hsrc Hab Hwf Hent].
  - destruct Hd as (w & Hl' & _). congruence.
  - rewrite (described_fun _ _ _ _ Hd Hd0). eauto.
Qed.

(** ** Evaluation ends with an array *)

Lemma store_eq a c c0 (h : heap) : h !! a = Some c0 -> store a c h = Ok tt (<[a := c]> h).
Proof. unfold store. now intros ->. Qed.

Lemma lazyIteratees_total its : forall isRight index v h,
  Forall (is_entry h) its -> exists p h', lazyIteratees its isRight index v h = Ok p h'.
Proof.
  induction its as [|a its IH]; intros isRight index v h Hall; cbn [lazyIteratees].
  - eexists _, _. reflexivity.
  - inversion Hall as [|? ? [d Hl] Hrest]; subst.
    rewrite (bind_eq _ _ _ _ _ (getData_eq _ _ _ Hl)).
    destruct (data_type d).
    + pose proof (dropWhile_visit_same isRight index v d) as Hsame.
      destruct (dropWhile_visit isRight index v d) as [d' skip]. simpl in Hsame.
      rewrite (bind_eq _ _ _ _ _ (store_eq a (CData d') _ h Hl)).
      destruct skip; [eexists _, _; reflexivity|].
      apply IH. eapply entries_shape; [|exact Hrest].
      eapply same_shape_insert; eauto.
    + destruct (truthy _); [now apply IH | eexists _, _; reflexivity].
    + now apply IH.
    + destruct (truthy _); [now apply IH | eexists _, _; reflexivity].
Qed.

Lemma lazyLoop_total n : forall steps arr dir its T idx acc h,
  (n < steps)%nat -> Forall (is_entry h) its ->
  exists res h', lazyLoop steps arr dir its T (Fin (Z.of_nat n)) idx acc h = Ok res h'.
Proof.
  induction n as [|n IH]; intros steps arr dir its T idx acc h Hsteps Hent;
    (destruct steps as [|steps]; [lia|]); cbn [lazyLoop].
  - change (Num.truthy (Fin (Z.of_nat 0))) with false. cbn [andb]. eexists _, _. reflexivity.
  - destruct (Num.truthy _ && _); [|eexists _, _; reflexivity].
    assert (Num.sub (Fin (Z.of_nat (S n))) (Fin 1) = Fin (Z.of_nat n)) as ->.
    { rewrite Num_sub_Fin. f_equal. lia. }
    destruct (lazyIteratees_total its (dir <? 0) (Num.add idx (Fin dir))
                (arrayGet arr (Num.add idx (Fin dir))) h Hent) as (p & h1 & Hp).
    rewrite (bind_eq _ _ _ _ _ Hp).
    pose proof (entries_shape _ _ _ (lazyIteratees_shape _ _ _ _ _ _ _ Hp) Hent) as Hent1.
    destruct p; [apply IH | apply IH | eexists _, _; reflexivity]; auto; lia.
Qed.

Lemma lazyLoop_of_total d arr h :
  Forall (fun v => count_like (view_size v)) (desc_views d) ->
  Forall (is_entry h) (desc_iteratees d) ->
  exists res h', lazyLoop_of d arr h = Ok res h'.
Proof.
  intros Hviews Hent. unfold lazyLoop_of.
  pose proof (getView_range (desc_views d) _ Hviews (view_range_initial arr)) as Hrange.
  fold (getView (Fin 0) (lengthOf arr) (desc_views d)) in Hrange.
  destruct (getView (Fin 0) (lengthOf arr) (desc_views d)) as [s e].
  destruct Hrange as [[Hs | [a Hs]] [He | [b He]]]; simpl in Hs, He; subst s e.
  - change (Num.sub NInf PInf) with NInf. cbn [loop_steps].
    eexists _, _. apply lazyLoop_nothing. rewrite Num_lt_min. reflexivity.
  - change (Num.sub (Fin b) PInf) with NInf. cbn [loop_steps].
    eexists _, _. apply lazyLoop_nothing. rewrite Num_lt_min. reflexivity.
  - rewrite Num_sub_NInf_Fin. cbn [loop_steps].
    eexists _, _. apply lazyLoop_nothing. rewrite Num_lt_min. reflexivity.
  - rewrite Num_sub_Fin. destruct (Z.le_gt_cases 0 (b - a)) as [Hpos | Hneg].
    + rewrite <- (Z2Nat.id (b - a)) by assumption.
      apply lazyLoop_total; [|assumption]. unfold loop_steps. rewrite Nat2Z.id. lia.
    + unfold loop_steps. eexists _, _. apply lazyLoop_nothing.
      rewrite Num_lt_min. unfold Num.lt at 1.
      destruct (Z.ltb_spec 0 (b - a)); [lia | reflexivity].
Qed.

(** The value of an array-backed wrapper is an array, and enough fuel gives
    it. *)
Lemma array_backed_value h a :
  array_backed h a -> exists fuel xs h', value_of fuel a h = Ok (VArr xs) h'.
Proof.
  induction 1 as [a array acts chain Hl Ha | a d src Hd Hsrc _ IH Hwf Hent].
  - exists 1%nat, array, h.
    assert (load a h = Ok (CLodash (Lodash (WVal (VArr array)) acts chain)) h) as Hload
      by now apply load_Ok.
    cbn [value_of]. rewrite (bind_eq _ _ _ _ _ Hload).
    unfold wrapperValue. rewrite (bind_eq _ _ _ _ _ Hload).
    unfold baseWrapperValue. cbn [lodash_wrapped lodash_actions].
    rewrite (bind_eq _ _ _ _ _ (ret_eq _ h)).
    now rewrite (bind_eq _ _ _ _ _ (getActions_eq _ _ _ Ha)).
  - destruct IH as (fuel & arr & h1 & Harr).
    pose proof (value_of_shape _ _ _ _ _ Harr) as Hs.
    destruct (lazyLoop_of_total d arr h1 (proj1 Hwf) (entries_shape _ _ _ Hs Hent))
      as (res & h2 & Hloop).
    exists (S fuel), res, h2. rewrite (value_of_described _ _ _ _ Hd).
    unfold lazyValue_desc. rewrite Hsrc. rewrite (bind_eq _ _ _ _ _ Harr).
    now rewrite (bind_eq _ _ _ _ _ Hloop).
Qed.

Lemma array_backed_value_array h a fuel v h' :
  array_backed h a -> value_of fuel a h = Ok v h' -> exists xs, v = VArr xs.
Proof.
  intros Hab Hv. destruct (array_backed_value h a Hab) as (fuel0 & xs & h0 & Hxs).
  apply (value_of_mono _ (Nat.max fuel fuel0)) in Hv; [|lia].
  apply (value_of_mono _ (Nat.max fuel fuel0)) in Hxs; [|lia].
  exists xs. congruence.
Qed.

(** ** The invariants along a chain *)

Ltac backed_start Hd Hab :=
  let src := fresh "src" in let Hsrc := fresh "Hsrc" in let Habs := fresh "Habs" in
  let Hv := fresh "Hv" in let Hm := fresh "Hm" in let Hent := fresh "Hent" in
  destruct (array_backed_inv _ _ _ Hd Hab) as (src & Hsrc & Habs & [Hv Hm] & Hent).

Lemma builds_wf_reverse : builds_wf lazyReverse.
Proof.
  intros h this d Hd Hab. backed_start Hd Hab.
  destruct (lazyReverse_spec h this d Hd) as (r & h' & Hrun & Hb).
  exists r, h', (desc_reverse this d). split; [assumption|]. split; [assumption|].
  pose proof (built_described _ _ _ _ Hb) as Hdr. destruct Hb as ([ext ->] & _).
  apply (array_backed_app _ ext) in Hab, Habs. apply (entries_app _ ext) in Hent.
  unfold desc_reverse in *. destruct (desc_filtered d) eqn:Hf.
  - split; [|reflexivity].
    eapply array_backed_lazy; [exact Hdr | reflexivity | exact Hab | | constructor].
    split; simpl; [constructor | discriminate].
  - split; [|intros; discriminate].
    eapply array_backed_lazy; [exact Hdr | exact Hsrc | exact Habs | | exact Hent].
    split; simpl; [assumption|]. intros _.
    eapply Forall_impl; [exact (Hm eq_refl)|]. intros a. apply is_map_entry_app.
Qed.

Lemma builds_wf_take n : builds_wf (lazy_take n).
Proof.
  intros h this d Hd Hab. backed_start Hd Hab.
  destruct (lazy_take_spec n h this d Hd) as (r & h' & Hrun & Hb).
  exists r, h', (desc_take (lazy_count n) d). split; [assumption|]. split; [assumption|].
  pose proof (built_described _ _ _ _ Hb) as Hdr. destruct Hb as ([ext ->] & _).
  apply (array_backed_app _ ext) in Hab, Habs. apply (entries_app _ ext) in Hent.
  unfold desc_take in *. destruct (desc_filtered d) eqn:Hf.
  - split; [|intros _; exact Hf].
    eapply array_backed_lazy; [exact Hdr | exact Hsrc | exact Habs | | exact Hent].
    split; simpl; [assumption | congruence].
  - split; [|intros; discriminate].
    eapply array_backed_lazy; [exact Hdr | exact Hsrc | exact Habs | | exact Hent].
    split; simpl.
    + apply Forall_app; split; [assumption|]. constructor; [|constructor].
      apply lazy_count_range.
    + intros _. eapply Forall_impl; [exact (Hm eq_refl)|]. intros a. apply is_map_entry_app.
Qed.

Lemma builds_wf_drop n : builds_wf (lazy_drop n).
Proof.
  intros h this d Hd Hab. backed_start Hd Hab.
  destruct (lazy_drop_spec n h this d Hd) as (r & h' & e & Hrun & Hb & He).
  exists r, h', (desc_drop (lazy_count n) this e d). split; [assumption|]. split; [assumption|].
  pose proof (built_described _ _ _ _ Hb) as Hdr. destruct Hb as ([ext ->] & _).
  apply (array_backed_app _ ext) in Hab, Habs. apply (entries_app _ ext) in Hent.
  unfold desc_drop in *. destruct (desc_filtered d) eqn:Hf.
  - split; [|reflexivity]. destruct (He eq_refl) as [_ Hle].
    eapply array_backed_lazy; [exact Hdr | reflexivity | exact Hab | | ].
    + split; simpl; [constructor | discriminate].
    + constructor; [eexists; exact Hle | constructor].
  - split; [|intros; discriminate].
    eapply array_backed_lazy; [exact Hdr | exact Hsrc | exact Habs | | exact Hent].
    split; simpl.
    + apply Forall_app; split; [assumption|]. constructor; [|constructor].
      apply lazy_count_range.
    + intros _. eapply Forall_impl; [exact (Hm eq_refl)|]. intros a. apply is_map_entry_app.
Qed.

Lemma builds_wf_iteratee type cb : builds_wf (lazy_iteratee_method type cb).
Proof.
  intros h this d Hd Hab. backed_start Hd Hab.
  destruct (lazy_iteratee_method_spec type cb h this d Hd) as (r & h' & e & Hrun & Hb & _ & He).
  exists r, h', (desc_iteratee type this e d). split; [assumption|]. split; [assumption|].
  pose proof (built_described _ _ _ _ Hb) as Hdr. destruct Hb as ([ext ->] & _).
  apply (array_backed_app _ ext) in Hab, Habs. apply (entries_app _ ext) in Hent.
  assert (is_entry (h ++ ext) e) as Hee by (eexists; exact He).
  assert (type = LAZY_MAP_FLAG -> is_map_entry (h ++ ext) e) as Hme.
  { intros ->. eexists. split; [exact He | reflexivity]. }
  unfold desc_iteratee in *.
  destruct (desc_filtered d && _) eqn:Hnew.
  - split; [|reflexivity].
    eapply array_backed_lazy; [exact Hdr | reflexivity | exact Hab | | ].
    + split; simpl; [constructor | discriminate].
    + constructor; [exact Hee | constructor].
  - split; [|simpl; intros ->; reflexivity].
    eapply array_backed_lazy; [exact Hdr | exact Hsrc | exact Habs | | ].
    + split; simpl; [assumption|]. intros Hor. apply orb_false_elim in Hor as [Hf Hty].
      apply Forall_app. split.
      * eapply Forall_impl; [exact (Hm Hf)|]. intros a. apply is_map_entry_app.
      * constructor; [|constructor]. apply Hme. destruct type; try discriminate; reflexivity.
    + simpl. apply Forall_app. split; [exact Hent|]. constructor; [exact Hee | constructor].
Qed.

Lemma builds_wf_compose f g :
  builds_wf f -> builds_wf g -> builds_wf (fun this => do r <- f this; g r).
Proof.
  intros Hf Hg h this d Hd Hab.
  destruct (Hf h this d Hd Hab) as (r1 & h1 & d1 & Hrun1 & Hb1 & Hab1 & Hf1).
  destruct (Hg h1 r1 d1 (built_described _ _ _ _ Hb1) Hab1)
    as (r2 & h2 & d2 & Hrun2 & Hb2 & Hab2 & Hf2).
  exists r2, h2, d2. split; [|split; [|split]].
  - now rewrite (bind_eq _ _ _ _ _ Hrun1).
  - eapply built_trans; eauto.
  - assumption.
  - auto.
Qed.

Lemma builds_wf_takeRight n : builds_wf (lazy_takeRight n).
Proof.
  unfold lazy_takeRight.
  apply builds_wf_compose; [apply builds_wf_reverse|].
  apply builds_wf_compose; [apply builds_wf_take | apply builds_wf_reverse].
Qed.

Lemma builds_wf_dropRight n : builds_wf (lazy_dropRight n).
Proof.
  unfold lazy_dropRight.
  apply builds_wf_compose; [apply builds_wf_reverse|].
  apply builds_wf_compose; [apply builds_wf_drop | apply builds_wf_reverse].
Qed.

Lemma builds_wf_slice start end_ : builds_wf (lazy_slice start end_).
Proof.
  intros h this d Hd Hab. unfold lazy_slice.
  set (s := if isNullish start then Fin 0 else ToNumberOr0 start).
  assert (builds_wf (fun this => if Num.lt s (Fin 0)
                                 then lazy_takeRight (VNum (Num.neg s)) this
                                 else lazy_drop (VNum s) this)) as Hfirst.
  { destruct (Num.lt s (Fin 0)); [apply builds_wf_takeRight | apply builds_wf_drop]. }
  destruct (Hfirst h this d Hd Hab) as (r1 & h1 & d1 & Hrun1 & Hb1 & Hab1 & Hf1).
  rewrite (bind_eq _ _ _ _ _ Hrun1).
  destruct (isUndefined end_).
  - exists r1, h1, d1. split; [reflexivity | auto].
  - assert (builds_wf (fun r => if Num.lt (ToNumberOr0 end_) (Fin 0)
                                then lazy_dropRight (VNum (Num.neg (ToNumberOr0 end_))) r
                                else lazy_take (VNum (Num.sub (ToNumberOr0 end_) s)) r))
      as Hsecond.
    { destruct (Num.lt (ToNumberOr0 end_) (Fin 0));
        [apply builds_wf_dropRight | apply builds_wf_take]. }
    destruct (Hsecond h1 r1 d1 (built_described _ _ _ _ Hb1) Hab1)
      as (r2 & h2 & d2 & Hrun2 & Hb2 & Hab2 & Hf2).
    exists r2, h2, d2.
    split; [exact Hrun2 | split; [eapply built_trans; eauto | auto]].
Qed.

Lemma builds_wf_call c : builds_wf (lazy_call c).
Proof.
  destruct c; simpl.
  - apply builds_wf_iteratee.
  - apply builds_wf_iteratee.
  - apply builds_wf_take.
  - apply builds_wf_drop.
  - apply builds_wf_iteratee.
  - apply builds_wf_iteratee.
  - apply builds_wf_reverse.
  - apply builds_wf_slice.
Qed.

(** A while-call builds a filtered wrapper. *)
Lemma while_call_filtered c h this d :
  is_while_call c = true -> described h this d ->
  exists r h' d', lazy_call c this h = Ok r h' /\ built h r h' d' /\ desc_filtered d' = true.
Proof.
  intros Hc Hd. destruct c; try discriminate; simpl;
    unfold lazy_dropWhile, lazy_takeWhile;
    match goal with
    | |- context [lazy_iteratee_method ?ty ?cb] =>
        destruct (lazy_iteratee_method_spec ty cb h this d Hd) as (r & h' & e & Hrun & Hb & _)
    end;
    exists r, h'; eexists; (split; [exact Hrun|]); (split; [exact Hb|]);
    apply while_sets_filtered; auto.
Qed.

Lemma lazy_calls_wf calls : forall h this d,
  described h this d -> array_backed h this ->
  exists r h' d', lazy_calls calls this h = Ok r h' /\ described h' r d' /\
                  array_backed h' r /\ (desc_filtered d = true -> desc_filtered d' = true).
Proof.
  induction calls as [|c calls IH]; intros h this d Hd Hab; cbn [lazy_calls].
  - exists this, h, d. auto.
  - destruct (builds_wf_call c h this d Hd Hab) as (r1 & h1 & d1 & Hrun1 & Hb1 & Hab1 & Hf1).
    rewrite (bind_eq _ _ _ _ _ Hrun1).
    destruct (IH h1 r1 d1 (built_described _ _ _ _ Hb1) Hab1)
      as (r & h' & d' & Hrun & Hd' & Hab' & Hf').
    exists r, h', d'. repeat split; auto.
Qed.

Lemma lazy_calls_app calls1 calls2 this h :
  lazy_calls (calls1 ++ calls2) this h
  = bind (lazy_calls calls1 this) (lazy_calls calls2) h.
Proof.
  revert this h. induction calls1 as [|c calls1 IH]; intros this h; cbn [lazy_calls app].
  - reflexivity.
  - rewrite bind_assoc. apply bind_ext. intros r h1 _. apply IH.
Qed.

Lemma lazy_of_array_spec array h :
  lazy_of_array array h
  = Ok (length h + 2)%nat
       (h ++ [CActions []; CLodash (Lodash (WVal (VArr array)) (length h + 0) false);
              CLazy (Lazy (WRef (length h + 1)) None 1 0 false None PInf None)]).
Proof.
  unfold lazy_of_array, new_LodashWrapper, new_LazyWrapper. cbn iota.
  run. apply alloc_app.
Qed.

Lemma lazy_of_array_backed array h r h' :
  lazy_of_array array h = Ok r h' ->
  described h' r (Desc (WRef (length h + 1)) None 1 false [] PInf []) /\ array_backed h' r.
Proof.
  rewrite lazy_of_array_spec. intros [= <- <-].
  assert (described
            (h ++ [CActions []; CLodash (Lodash (WVal (VArr array)) (length h + 0) false);
                   CLazy (Lazy (WRef (length h + 1)) None 1 0 false None PInf None)])
            (length h + 2) (Desc (WRef (length h + 1)) None 1 false [] PInf [])) as Hd.
  { eexists. split; [rewrite lookup_app_plus; reflexivity | reflexivity]. }
  split; [exact Hd|].
  eapply array_backed_lazy; [exact Hd | reflexivity | | split; simpl; auto | constructor].
  eapply array_backed_lodash; rewrite lookup_app_plus; reflexivity.
Qed.

(** Every chain of calls on an array that does not begin with [reverse()]
    builds an array-backed wrapper. *)
Lemma lazy_chain_wf array calls h :
  reverse_first calls = false ->
  exists r h' d',
    lazy_chain array calls h = Ok r h' /\ described h' r d' /\ array_backed h' r.
Proof.
  intros Hfirst. unfold lazy_chain. rewrite Hfirst.
  rewrite (bind_eq _ _ _ _ _ (lazy_of_array_spec array h)).
  destruct (lazy_of_array_backed array h _ _ (lazy_of_array_spec array h)) as [Hd Hab].
  destruct (lazy_calls_wf calls _ _ _ Hd Hab) as (r & h' & d' & Hrun & Hd' & Hab' & _).
  eauto 6.
Qed.

(** A chain that holds a [dropWhile] or a [takeWhile] builds a filtered
    wrapper. *)
Lemma lazy_chain_with_while array calls1 c calls2 h :
  reverse_first (calls1 ++ c :: calls2) = false ->
  is_while_call c = true ->
  exists r h' d',
    lazy_chain array (calls1 ++ c :: calls2) h = Ok r h' /\ described h' r d' /\
    array_backed h' r /\ desc_filtered d' = true.
Proof.
  intros Hfirst Hc. unfold lazy_chain. rewrite Hfirst.
  rewrite (bind_eq _ _ _ _ _ (lazy_of_array_spec array h)).
  destruct (lazy_of_array_backed array h _ _ (lazy_of_array_spec array h)) as [Hd Hab].
  rewrite lazy_calls_app.
  destruct (lazy_calls_wf calls1 _ _ _ Hd Hab) as (r1 & h1 & d1 & Hrun1 & Hd1 & Hab1 & _).
  rewrite (bind_eq _ _ _ _ _ Hrun1). cbn [lazy_calls].
  destruct (while_call_filtered c h1 r1 d1 Hc Hd1) as (r2 & h2 & d2 & Hrun2 & Hb2 & Hf2).
  destruct (builds_wf_call c h1 r1 d1 Hd1 Hab1) as (r2' & h2' & d2' & Hrun2' & Hb2' & Hab2 & _).
  rewrite Hrun2 in Hrun2'. injection Hrun2' as <- <-.
  rewrite (bind_eq _ _ _ _ _ Hrun2).
  pose proof (built_described _ _ _ _ Hb2) as Hd2.
  destruct (lazy_calls_wf calls2 _ _ _ Hd2 Hab2) as (r & h' & d' & Hrun & Hd' & Hab' & Hf').
  exists r, h', d'. repeat split; auto.
Qed.

(** ** Reversal, twice, and the take count on array-backed wrappers *)

Lemma dropWhile_visit_reset (isRight : bool) index v e :
  data_done e = true ->
  (if isRight then Num.gt index (data_index e) else Num.lt index (data_index e)) = true ->
  dropWhile_visit isRight index v e
  = dropWhile_visit isRight index v (set_progress false 0 (data_index e) e).
Proof.
  intros Hdone Hback. unfold dropWhile_visit.
  cbn [set_progress data_done data_count data_index data_limit data_iteratee data_type].
  rewrite Hdone, Hback. cbn [andb negb].
  destruct (Num.gt (data_limit e) (Fin (-1))); reflexivity.
Qed.

(** C3, as the code has it.  A pipeline that holds a dropWhile or a
    takeWhile is [__filtered__] (lemma [lazy_chain_with_while]).  [reverse()]
    on a filtered, array-backed pipeline returns a wrapper around it; the
    pipeline has a value, an array, and the value of the wrapper is this array
    reversed: the while-predicate is evaluated from the same end as without
    the [reverse()].  The progress of a drop-while entry is reset when the
    entry is done and the index visited lies before the index it recorded. *)
Theorem reverse_of_filtered_pipeline h this d :
  described h this d -> array_backed h this -> desc_filtered d = true ->
  (exists r h',
     lazyReverse this h = Ok r h' /\
     (exists fuel xs h1,
        value_of fuel this h' = Ok (VArr xs) h1 /\
        value_of (S fuel) r h' = Ok (VArr (rev xs)) h1) /\
     (forall fuel xs h1,
        value_of fuel this h' = Ok (VArr xs) h1 ->
        value_of (S fuel) r h' = Ok (VArr (rev xs)) h1)) /\
  (forall (isRight : bool) index v e,
     data_done e = true ->
     (if isRight then Num.gt index (data_index e) else Num.lt index (data_index e)) = true ->
     dropWhile_visit isRight index v e
     = dropWhile_visit isRight index v (set_progress false 0 (data_index e) e)).
Proof.
  intros Hd Hab Hf. split; [|apply dropWhile_visit_reset].
  destruct (lazyReverse_filtered_value h this d Hd Hf) as (r & h' & Hrun & Hall).
  exists r, h'. split; [assumption|]. split; [|assumption].
  destruct (lazyReverse_spec h this d Hd) as (r0 & h0 & Hrun0 & ([ext Hext] & _)).
  rewrite Hrun in Hrun0. injection Hrun0 as <- <-. subst h'.
  destruct (array_backed_value _ _ (array_backed_app h ext this Hab)) as (fuel & xs & h1 & Hv).
  exists fuel, xs, h1. auto.
Qed.

(** C5.  [reverse()] twice on an array-backed pipeline gives a wrapper with
    the value of the pipeline: both have a value, and it is the same array. *)
Theorem reverse_twice_is_identity h this d :
  described h this d -> array_backed h this ->
  exists r1 h1 r2 h2,
    lazyReverse this h = Ok r1 h1 /\
    lazyReverse r1 h1 = Ok r2 h2 /\
    (exists fuel xs h3,
       value_of fuel this h2 = Ok (VArr xs) h3 /\
       value_of fuel r2 h2 = Ok (VArr xs) h3) /\
    (forall fuel xs h3,
       value_of fuel this h2 = Ok (VArr xs) h3 ->
       value_of (S (S fuel)) r2 h2 = Ok (VArr xs) h3).
Proof.
  intros Hd Hab.
  destruct (lazyReverse_twice_value h this d Hd) as (r1 & h1 & r2 & h2 & Hrun1 & Hrun2 & Hall).
  exists r1, h1, r2, h2. split; [assumption|]. split; [assumption|]. split; [|assumption].
  destruct (lazyReverse_spec h this d Hd) as (r1' & h1' & Hrun1' & Hb1).
  rewrite Hrun1 in Hrun1'. injection Hrun1' as <- <-.
  destruct (lazyReverse_spec h1 r1 _ (built_described _ _ _ _ Hb1))
    as (r2' & h2' & Hrun2' & ([e2 He2] & _)).
  rewrite Hrun2 in Hrun2'. injection Hrun2' as <- <-.
  destruct Hb1 as ([e1 He1] & _). subst h1 h2.
  destruct (array_backed_value _ _
              (array_backed_app _ e2 this (array_backed_app h e1 this Hab)))
    as (fuel & xs & h3 & Hv).
  exists (S (S fuel)), xs, h3. split; [|auto].
  apply (value_of_mono fuel); [lia | assumption].
Qed.

(** [take(n)] against its receiver.  For an array-backed pipeline and a
    count [z] that [take] is called with: the pipeline and the result of
    [take(n)] have values, and the value of [take(n)] is the first [z]
    elements of the value of the pipeline; its length is at most [z], and is
    [z] exactly when the pipeline supplies at least [z] elements. *)
Lemma take_is_prefix_of_value h this d n z :
  described h this d -> array_backed h this -> lazy_count n = Fin z ->
  exists r h',
    lazy_take n this h = Ok r h' /\
    (exists fuel xs h1 ys h2,
       value_of fuel this h' = Ok (VArr xs) h1 /\
       value_of fuel r h' = Ok (VArr ys) h2 /\
       ys = take (Z.to_nat z) xs /\
       Z.of_nat (length ys) <= z /\
       (Z.of_nat (length ys) = z <-> z <= Z.of_nat (length xs))) /\
    (forall fuel xs h1,
       value_of fuel this h' = Ok (VArr xs) h1 ->
       exists h2, value_of fuel r h' = Ok (VArr (take (Z.to_nat z) xs)) h2).
Proof.
  intros Hd Hab Hn.
  destruct (array_backed_inv _ _ _ Hd Hab) as (src & Hsrc & Habs & Hwf & _).
  destruct (lazy_take_value h this d n z Hd Hwf Hn) as (r & h' & Hrun & Hval).
  exists r, h'. split; [assumption|].
  destruct (lazy_take_spec n h this d Hd) as (r0 & h0 & Hrun0 & ([ext Hext] & _)).
  rewrite Hrun in Hrun0. injection Hrun0 as <- <-. subst h'.
  apply (array_backed_app _ ext) in Hab, Habs.
  pose proof (described_app _ ext _ _ Hd) as Hd'.
  assert (forall fuel xs h1,
            value_of fuel this (h ++ ext) = Ok (VArr xs) h1 ->
            exists h2, value_of fuel r (h ++ ext) = Ok (VArr (take (Z.to_nat z) xs)) h2)
    as Hall.
  { intros fuel xs h1 Hxs. destruct fuel as [|fuel]; [discriminate|].
    pose proof Hxs as Hxs'. rewrite (value_of_described _ _ _ _ Hd') in Hxs'.
    unfold lazyValue_desc in Hxs'. rewrite Hsrc in Hxs'.
    apply bind_Ok in Hxs' as (v & h0 & Hv & _).
    destruct (array_backed_value_array _ _ _ _ _ Habs Hv) as [arr ->].
    destruct (Hval fuel src arr h0 xs h1 Hsrc Hv Hxs) as (ys & h2 & Hys & -> & _).
    eauto. }
  split; [|exact Hall].
  destruct (array_backed_value _ _ Hab) as (fuel & xs & h1 & Hxs).
  destruct (Hall fuel xs h1 Hxs) as [h2 Hys].
  exists fuel, xs, h1, (take (Z.to_nat z) xs), h2.
  split; [assumption|]. split; [assumption|]. split; [reflexivity|].
  assert (0 <= z) as Hz.
  { destruct (lazy_count_range n) as [Hinf | (z' & Hz' & Heq)]; rewrite Hn in *;
      [discriminate | now inversion Heq; subst]. }
  rewrite length_take. split; [lia|]. split; lia.
Qed.

(** ** Fusion of filter, map and take *)

Lemma value_of_lodash_array fuel h a array acts chain :
  h !! a = Some (CLodash (Lodash (WVal (VArr array)) acts chain)) ->
  h !! acts = Some (CActions []) ->
  value_of (S fuel) a h = Ok (VArr array) h.
Proof.
  intros Hl Ha.
  assert (load a h = Ok (CLodash (Lodash (WVal (VArr array)) acts chain)) h) as Hload
    by now apply load_Ok.
  cbn [value_of]. rewrite (bind_eq _ _ _ _ _ Hload).
  unfold wrapperValue. rewrite (bind_eq _ _ _ _ _ Hload).
  unfold baseWrapperValue. cbn [lodash_wrapped lodash_actions].
  rewrite (bind_eq _ _ _ _ _ (ret_eq _ h)).
  now rewrite (bind_eq _ _ _ _ _ (getActions_eq _ _ _ Ha)).
Qed.

(** The loop of [lazyValue] on a filter entry followed by a map entry. *)
Lemma lazyLoop_filter_map f g e1 e2 d1 d2 A t h :
  h !! e1 = Some (CData d1) -> data_type d1 = LAZY_FILTER_FLAG -> data_iteratee d1 = f ->
  h !! e2 = Some (CData d2) -> data_type d2 = LAZY_MAP_FLAG -> data_iteratee d2 = g ->
  forall k i acc steps,
    (i + k = length A)%nat -> (k < steps)%nat ->
    lazyLoop steps A 1 [e1; e2] (Fin t) (Fin (Z.of_nat k)) (Fin (Z.of_nat i - 1)) acc h
    = Ok (acc ++ take (Z.to_nat (t - Z.of_nat (length acc)))
                   (map g (List.filter (fun v => truthy (f v)) (drop i A)))) h.
Proof.
  intros He1 Ht1 Hf He2 Ht2 Hg.
  induction k as [|k IH]; intros i acc steps Hik Hsteps;
    (destruct steps as [|steps]; [lia|]); cbn [lazyLoop].
  - change (Num.truthy (Fin (Z.of_nat 0))) with false. cbn [andb].
    rewrite drop_ge by lia. cbn [List.filter map]. rewrite take_nil, app_nil_r. reflexivity.
  - assert (Num.truthy (Fin (Z.of_nat (S k))) = true) as ->.
    { unfold Num.truthy. apply negb_true_iff, Z.eqb_neq. lia. }
    cbn [andb]. unfold Num.lt.
    destruct (Z.ltb_spec (Z.of_nat (length acc)) t) as [Hlt | Hge].
    + rewrite Num_sub_Fin.
      replace (Z.of_nat (S k) - 1) with (Z.of_nat k) by lia.
      change (Num.add (Fin (Z.of_nat i - 1)) (Fin 1)) with (Fin (Z.of_nat i - 1 + 1)).
      replace (Z.of_nat i - 1 + 1) with (Z.of_nat i) by lia.
      change (1 <? 0) with false.
      rewrite arrayGet_nat.
      assert (i < length A)%nat as Hi by lia.
      destruct (lookup_lt_is_Some_2 A i Hi) as [x Hx].
      rewrite (nth_lookup_Some A i VUndefined x Hx).
      rewrite (drop_S A x i Hx).
      assert (lazyIteratees [e1; e2] false (Fin (Z.of_nat i)) x h
              = Ok (if truthy (f x) then Emit (g x) else ContinueOuter) h) as Hpass.
      { cbn [lazyIteratees].
        rewrite (bind_eq _ _ _ _ _ (getData_eq _ _ _ He1)). rewrite Ht1, Hf.
        destruct (truthy (f x)); [|reflexivity].
        rewrite (bind_eq _ _ _ _ _ (getData_eq _ _ _ He2)). rewrite Ht2, Hg. reflexivity. }
      rewrite (bind_eq _ _ _ _ _ Hpass).
      cbn [List.filter].
      replace (Z.of_nat i) with (Z.of_nat (S i) - 1) by lia.
      destruct (truthy (f x)).
      * rewrite IH by lia. f_equal.
        rewrite length_app. cbn [length map].
        replace (Z.to_nat (t - Z.of_nat (length acc)))
          with (S (Z.to_nat (t - Z.of_nat (length acc + 1)))) by lia.
        cbn [take]. now rewrite <- app_assoc.
      * now rewrite IH by lia.
    + unfold ret. f_equal.
      replace (Z.to_nat (t - Z.of_nat (length acc))) with O by lia.
      now rewrite take_0, app_nil_r.
Qed.

Lemma seq_arrayGetZ (xs : list value) k :
  (k <= length xs)%nat ->
  map (fun index => arrayGetZ xs (Z.of_nat index + 0)) (seq 0 k) = take k xs.
Proof.
  intros Hk. apply list_eq. intros i.
  rewrite list_lookup_fmap. destruct (Nat.lt_ge_cases i k) as [Hi | Hi].
  - rewrite lookup_take_lt by assumption.
    rewrite (lookup_seq_lt 0 k i Hi). cbn [fmap option_fmap option_map Nat.add].
    unfold arrayGetZ. destruct (Z.ltb_spec (Z.of_nat i + 0) 0); [lia|].
    replace (Z.to_nat (Z.of_nat i + 0)) with i by lia.
    destruct (lookup_lt_is_Some_2 xs i ltac:(lia)) as [x Hx].
    rewrite Hx. f_equal. now apply nth_lookup_Some.
  - rewrite lookup_take_ge by assumption.
    rewrite (lookup_seq_ge 0 k i Hi). reflexivity.
Qed.

Lemma Num_lt_Fin x y : Num.lt (Fin x) (Fin y) = (x <? y).
Proof. reflexivity. Qed.

Lemma ToNumberOr0_Fin z : ToNumberOr0 (VNum (Fin z)) = Fin z.
Proof.
  unfold ToNumberOr0. cbn [ToNumber]. unfold Num.truthy.
  destruct (Z.eqb_spec z 0) as [->|]; reflexivity.
Qed.

(** [baseSlice(array, 0, z)] is the prefix of length [z]. *)
Lemma baseSlice_prefix (xs : list value) z :
  0 <= z -> Z.of_nat (length xs) < 2 ^ 32 ->
  baseSlice xs (VInt 0) (VInt z) = take (Z.to_nat z) xs.
Proof.
  intros Hz Hlen. unfold baseSlice, VInt, lengthOf.
  cbn [isNullish isUndefined orb]. rewrite !ToNumberOr0_Fin. cbn [ToNumber].
  unfold Num.gt. rewrite !Num_lt_Fin. rewrite Z.ltb_irrefl.
  destruct (Z.ltb_spec (Z.of_nat (length xs)) z) as [Hbig | Hsmall]; rewrite !Num_lt_Fin.
  - destruct (Z.ltb_spec (Z.of_nat (length xs)) 0); [lia|].
    rewrite Num_sub_Fin. unfold Num.toUint32.
    rewrite Z.sub_0_r, Z.mod_0_l by lia. rewrite Z.mod_small by lia.
    rewrite !Num_lt_Fin.
    destruct (Z.ltb_spec (Z.of_nat (length xs)) 0); [lia|].
    rewrite Nat2Z.id, seq_arrayGetZ by lia.
    rewrite firstn_all, take_ge by lia. reflexivity.
  - destruct (Z.ltb_spec z 0); [lia|].
    rewrite Num_sub_Fin. unfold Num.toUint32.
    rewrite Z.sub_0_r, Z.mod_0_l by lia. rewrite Z.mod_small by lia.
    rewrite !Num_lt_Fin.
    destruct (Z.ltb_spec z 0); [lia|].
    apply seq_arrayGetZ. lia.
Qed.

Lemma baseSlice_end (xs : list value) s e1 e2 :
  (if isUndefined e1 || Num.gt (ToNumber e1) (lengthOf xs)
   then lengthOf xs else ToNumberOr0 e1)
  = (if isUndefined e2 || Num.gt (ToNumber e2) (lengthOf xs)
     then lengthOf xs else ToNumberOr0 e2) ->
  baseSlice xs s e1 = baseSlice xs s e2.
Proof. unfold baseSlice. now intros ->. Qed.

(** The eager [take] returns the first elements, as many as the count that
    the lazy [take] computes from the same argument. *)
Lemma array_take_count (xs : list value) n :
  Z.of_nat (length xs) < 2 ^ 32 ->
  array_take xs n
  = match lazy_count n with
    | Fin z => take (Z.to_nat z) xs
    | _ => xs
    end.
Proof.
  intros Hlen. unfold array_take, lazy_count.
  destruct xs as [|x xs'] eqn:Hxs.
  { destruct (isNullish n); [reflexivity|].
    destruct (Num.max _ _); try reflexivity. now rewrite take_nil. }
  rewrite <- Hxs in *. clear Hxs.
  destruct (isNullish n) eqn:Hnull.
  { change (Num.lt (ToNumber (VInt 1)) (Fin 0)) with false. cbn iota.
    apply baseSlice_prefix; lia. }
  assert (isUndefined n = false) as Hundef by (destruct n; try reflexivity; discriminate).
  assert (Num.lt (Fin (Z.of_nat (length xs))) (Fin 0) = false) as Hnonneg
    by (rewrite Num_lt_Fin; apply Z.ltb_ge; lia).
  unfold Num.floor.
  destruct (ToNumber n) as [| | | |z] eqn:Hn; cbn [Num.lt Num.truthy].
  - (* NaN *)
    change (Num.max (Fin 0) (Fin 0)) with (Fin 0). cbn iota.
    rewrite <- (baseSlice_prefix xs 0) by lia. apply baseSlice_end.
    rewrite Hundef, Hn. unfold ToNumberOr0. rewrite Hn. unfold VInt. cbn [isUndefined ToNumber orb].
    unfold Num.gt, lengthOf. rewrite Hnonneg. reflexivity.
  - (* Infinity *)
    change (Num.max PInf (Fin 0)) with PInf. cbn iota.
    rewrite <- (take_ge xs (Z.to_nat (Z.of_nat (length xs)))) at 2 by lia.
    rewrite <- (baseSlice_prefix xs (Z.of_nat (length xs))) by lia. apply baseSlice_end.
    rewrite Hundef, Hn. unfold VInt. cbn [isUndefined ToNumber orb].
    unfold Num.gt, lengthOf. rewrite Num_lt_Fin, Z.ltb_irrefl, ToNumberOr0_Fin.
    reflexivity.
  - (* -Infinity *)
    change (Num.max NInf (Fin 0)) with (Fin 0). cbn iota. apply baseSlice_prefix; lia.
  - (* -0 *)
    change (0 <? 0) with false. cbn iota. change (Num.max (Fin 0) (Fin 0)) with (Fin 0).
    cbn iota.
    rewrite <- (baseSlice_prefix xs 0) by lia. apply baseSlice_end.
    rewrite Hundef, Hn. unfold ToNumberOr0. rewrite Hn. unfold VInt. cbn [isUndefined ToNumber orb].
    unfold Num.gt, lengthOf. rewrite Hnonneg.
    change (Num.lt (Fin (Z.of_nat (length xs))) NegZero) with (Z.of_nat (length xs) <? 0).
    destruct (Z.ltb_spec (Z.of_nat (length xs)) 0); [lia | reflexivity].
  - destruct (Z.ltb_spec z 0) as [Hneg | Hpos].
    + assert (Num.max (if negb (z =? 0) then Fin z else Fin 0) (Fin 0) = Fin 0) as ->.
      { destruct (Z.eqb_spec z 0); [reflexivity|]. cbn [negb]. rewrite Num_max_Fin. f_equal. lia. }
      apply baseSlice_prefix; lia.
    + assert (Num.max (if negb (z =? 0) then Fin z else Fin 0) (Fin 0) = Fin z) as ->.
      { destruct (Z.eqb_spec z 0) as [->|]; [reflexivity|]. cbn [negb].
        rewrite Num_max_Fin. f_equal. lia. }
      rewrite <- (baseSlice_prefix xs z) by lia. apply baseSlice_end.
      rewrite Hundef, Hn. unfold ToNumberOr0. rewrite Hn. unfold VInt. cbn [isUndefined ToNumber orb].
      reflexivity.
Qed.

(** The chain of the example, on every array: the fused evaluation of
    [filter(f).map(g).take(n)] returns what the three eager calls return. *)
Lemma fusion_filter_map_take (A : list value) (f g : value -> value) (n : value) h :
  Z.of_nat (length A) < 2 ^ 32 ->
  exists h',
    chain_value 3 A [Call_filter (CbFun f); Call_map (CbFun g); Call_take n] h
    = Ok (VArr (eager_chain A [Call_filter (CbFun f); Call_map (CbFun g); Call_take n])) h'.
Proof.
  intros Hlen. unfold chain_value, lazy_chain, eager_chain.
  cbn [fold_left eager_call lazy_calls lazy_call reverse_first].
  rewrite bind_assoc. rewrite (bind_eq _ _ _ _ _ (lazy_of_array_spec A h)).
  destruct (lazy_of_array_backed A h _ _ (lazy_of_array_spec A h)) as [Hd0 _].
  set (h0 := h ++ _) in *.
  assert (h0 !! (length h + 1)%nat
          = Some (CLodash (Lodash (WVal (VArr A)) (length h + 0) false))) as Hsrc
    by (unfold h0; rewrite lookup_app_plus; reflexivity).
  assert (h0 !! (length h + 0)%nat = Some (CActions [])) as Hacts
    by (unfold h0; rewrite lookup_app_plus; reflexivity).
  unfold lazy_filter, lazy_map.
  destruct (lazy_iteratee_method_spec LAZY_FILTER_FLAG (CbFun f) _ _ _ Hd0)
    as (r1 & h1 & e1 & Hrun1 & Hb1 & _ & He1).
  rewrite !bind_assoc. rewrite (bind_eq _ _ _ _ _ Hrun1).
  pose proof (built_described _ _ _ _ Hb1) as Hd1. destruct Hb1 as ([x1 ->] & _).
  destruct (lazy_iteratee_method_spec LAZY_MAP_FLAG (CbFun g) _ _ _ Hd1)
    as (r2 & h2 & e2 & Hrun2 & Hb2 & _ & He2).
  rewrite !bind_assoc. rewrite (bind_eq _ _ _ _ _ Hrun2).
  pose proof (built_described _ _ _ _ Hb2) as Hd2. destruct Hb2 as ([x2 ->] & _).
  destruct (lazy_take_spec n _ _ _ Hd2) as (r3 & h3 & Hrun3 & Hb3).
  rewrite !bind_assoc. rewrite (bind_eq _ _ _ _ _ Hrun3).
  rewrite (bind_eq _ _ _ _ _ (ret_eq _ h3)).
  pose proof (built_described _ _ _ _ Hb3) as Hd3. destruct Hb3 as ([x3 ->] & _).
  rewrite (value_of_described _ _ _ _ Hd3).
  unfold desc_iteratee, desc_take in *.
  cbn [desc_filtered desc_wrapped desc_actions desc_dir desc_iteratees desc_takeCount
       desc_views andb orb app desc_set_takeCount] in *.
  unfold lazyValue_desc.
  cbn [desc_filtered desc_wrapped desc_actions desc_dir desc_iteratees desc_takeCount
       desc_views].
  assert (value_of 2 (length h + 1) (((h0 ++ x1) ++ x2) ++ x3)
          = Ok (VArr A) (((h0 ++ x1) ++ x2) ++ x3)) as Hvalue.
  { apply (value_of_lodash_array 1 _ _ A (length h + 0)%nat false);
      do 3 apply lookup_app_old; assumption. }
  rewrite (bind_eq _ _ _ _ _ Hvalue).
  unfold lazyLoop_of, desc_set_takeCount.
  cbn [desc_filtered desc_wrapped desc_actions desc_dir desc_iteratees desc_takeCount
       desc_views getView fold_left].
  unfold lengthOf. rewrite Num_sub_Fin, Z.sub_0_r.
  change (1 <? 0) with false. cbn iota. rewrite Num_sub_Fin.
  unfold loop_steps. rewrite Nat2Z.id.
  assert (exists t, Num.min (Fin (Z.of_nat (length A))) (Num.min PInf (lazy_count n)) = Fin t /\
            take (Z.to_nat t) (collection_map (collection_filter A (CbFun f)) (CbFun g))
            = array_take (collection_map (collection_filter A (CbFun f)) (CbFun g)) n)
    as (t & -> & Heager).
  { assert (Z.of_nat (length (collection_map (collection_filter A (CbFun f)) (CbFun g)))
            <= Z.of_nat (length A)) as Hle.
    { unfold collection_map, collection_filter, arrayMap, arrayFilter.
      rewrite length_map. pose proof (filter_length_le (fun v => truthy (baseCallback (CbFun f) v)) A).
      lia. }
    rewrite array_take_count by lia.
    destruct (lazy_count_range n) as [-> | (z & Hz & ->)].
    - exists (Z.of_nat (length A)). split; [reflexivity|]. apply take_ge. lia.
    - exists (Z.min (Z.of_nat (length A)) z). split.
      + change (Num.min PInf (Fin z)) with (Fin z). apply Num_min_Fin.
      + destruct (Z.le_ge_cases (Z.of_nat (length A)) z).
        * rewrite Z.min_l by lia. rewrite !take_ge by lia. reflexivity.
        * now rewrite Z.min_r by lia. }
  pose proof (lazyLoop_filter_map f g e1 e2 _ _ A t
                (((h0 ++ x1) ++ x2) ++ x3)
                (lookup_app_old _ _ _ _ (lookup_app_old _ _ _ _ He1)) eq_refl eq_refl
                (lookup_app_old _ _ _ _ He2) eq_refl eq_refl
                (length A) O [] (S (length A)) eq_refl (Nat.lt_succ_diag_r _)) as Hloop.
  change (Z.of_nat 0 - 1) with (0 - 1) in Hloop.
  eexists. rewrite (bind_eq _ _ _ _ _ Hloop).
  unfold ret. f_equal. f_equal. rewrite <- Heager.
  cbn [app length]. rewrite Z.sub_0_r. rewrite drop_0. reflexivity.
Qed.

End Properties.

(** * The properties on examples *)

(** C1, on the code.  The example of the specification holds:
    [_([1,2,3,4,5,6]).filter(even).map(x10).take(2).value()] is [[20, 40]],
    as the eager calls give (and so does every chain of this shape, lemma
    [fusion_filter_map_take]).  But [_([1,2,3,4]).filter(n => true).take(2)
    .filter(even).value()] is [[2, 4]], where the eager calls, one at a time,
    give [[2]]: a [take] on a filtered wrapper only lowers [__takeCount__],
    which [lazyValue] counts against the elements that pass every iteratee,
    the later [filter] included. *)
Theorem fusion_differs_when_filter_follows_take :
  (exists h,
     chain_value 3 (ints [1; 2; 3; 4; 5; 6])
       [Call_filter (CbFun isEven); Call_map (CbFun times10); Call_take (VInt 2)] []
     = Ok (VArr (ints [20; 40])) h) /\
  eager_chain (ints [1; 2; 3; 4; 5; 6])
    [Call_filter (CbFun isEven); Call_map (CbFun times10); Call_take (VInt 2)]
  = ints [20; 40] /\
  (exists h,
     chain_value 3 (ints [1; 2; 3; 4])
       [Call_filter (CbFun always); Call_take (VInt 2); Call_filter (CbFun isEven)] []
     = Ok (VArr (ints [2; 4])) h) /\
  eager_chain (ints [1; 2; 3; 4])
    [Call_filter (CbFun always); Call_take (VInt 2); Call_filter (CbFun isEven)]
  = ints [2].
Proof.
  split; [eexists; vm_compute; reflexivity|].
  split; [vm_compute; reflexivity|].
  split; [eexists; vm_compute; reflexivity|].
  vm_compute; reflexivity.
Qed.

(** C2, on the code.  [var w = _([1]).filter(n => true).drop(1)]: the first
    [w.value()] is [[]], the second is [[1]].  The entry that [drop(1)]
    queues keeps the [count] that the first evaluation left in it. *)
Theorem second_value_differs :
  exists h,
    chain_value_twice 3 [VInt 1]
      [Call_filter (CbFun always); Call_drop (VInt 1)] []
    = Ok (VArr [], VArr [VInt 1]) h.
Proof. eexists; vm_compute; reflexivity. Qed.

(** C3, the claim as stated fails: [_([1,2,3,4]).dropWhile(n => n < 3)
    .reverse().value()] is [[4, 3]], the reverse of what [dropWhile] leaves
    when it drops from the head.  Evaluating the predicate from the opposite
    end (dropping from the tail inward) leaves all four elements. *)
Lemma reverse_does_not_turn_the_while :
  (exists h,
     chain_value 4 (ints [1; 2; 3; 4])
       [Call_dropWhile (CbFun (below 3)); Call_reverse] []
     = Ok (VArr (ints [4; 3])) h) /\
  array_reverse (array_dropRightWhile (ints [1; 2; 3; 4]) (CbFun (below 3)))
  = ints [4; 3; 2; 1] /\
  array_dropWhile (array_reverse (ints [1; 2; 3; 4])) (CbFun (below 3))
  = ints [4; 3; 2; 1] /\
  ints [4; 3] <> ints [4; 3; 2; 1].
Proof.
  split; [eexists; vm_compute; reflexivity|].
  split; [vm_compute; reflexivity|].
  split; [vm_compute; reflexivity|].
  discriminate.
Qed.

Lemma sample_while_described :
  described (store_of sample_while) (result_of sample_while)
    (desc_at (store_of sample_while) (result_of sample_while)).
Proof. eexists. split; vm_compute; reflexivity. Qed.

Lemma sample_map_described :
  described (store_of sample_map) (result_of sample_map)
    (desc_at (store_of sample_map) (result_of sample_map)).
Proof. eexists. split; vm_compute; reflexivity. Qed.

Lemma sample_while_backed :
  array_backed (store_of sample_while) (result_of sample_while).
Proof.
  destruct (lazy_chain_wf (host := bareHost) (ints [1; 2; 3; 4])
              [Call_dropWhile (CbFun (below 3))] [] eq_refl)
    as (r & h' & d' & Hrun & _ & Hab).
  unfold store_of, result_of, sample_while. now rewrite Hrun.
Qed.

Lemma sample_map_backed :
  array_backed (store_of sample_map) (result_of sample_map).
Proof.
  destruct (lazy_chain_wf (host := bareHost) (ints [1; 2; 3; 4])
              [Call_map (CbFun times10)] [] eq_refl)
    as (r & h' & d' & Hrun & _ & Hab).
  unfold store_of, result_of, sample_map. now rewrite Hrun.
Qed.

Lemma reverse_of_filtered_pipeline_witness :
  desc_filtered (desc_at (store_of sample_while) (result_of sample_while)) = true /\
  exists r h',
    lazyReverse (result_of sample_while) (store_of sample_while) = Ok r h' /\
    (exists fuel xs h1,
       value_of fuel (result_of sample_while) h' = Ok (VArr xs) h1 /\
       value_of (S fuel) r h' = Ok (VArr (rev xs)) h1) /\
    (forall fuel xs h1,
       value_of fuel (result_of sample_while) h' = Ok (VArr xs) h1 ->
       value_of (S fuel) r h' = Ok (VArr (rev xs)) h1).
Proof.
  split; [reflexivity|].
  apply (reverse_of_filtered_pipeline _ _ _ sample_while_described sample_while_backed).
  reflexivity.
Defined.

Lemma reverse_twice_is_identity_witness :
  exists r1 h1 r2 h2,
    lazyReverse (result_of sample_map) (store_of sample_map) = Ok r1 h1 /\
    lazyReverse r1 h1 = Ok r2 h2 /\
    (exists fuel xs h3,
       value_of fuel (result_of sample_map) h2 = Ok (VArr xs) h3 /\
       value_of fuel r2 h2 = Ok (VArr xs) h3) /\
    (forall fuel xs h3,
       value_of fuel (result_of sample_map) h2 = Ok (VArr xs) h3 ->
       value_of (S (S fuel)) r2 h2 = Ok (VArr xs) h3).
Proof.
  exact (reverse_twice_is_identity _ _ _ sample_map_described sample_map_backed).
Defined.

(** C6, on the code.  The progress fields are not reset when an evaluation
    starts.  In [var w = _([1]).filter(n => true).drop(1)] the entry that
    [drop(1)] queues (the object at address 8) starts with [count] 0 and
    [done] false.  The first [w.value()] returns [[]] and changes the store in
    progress fields only: it leaves that entry with [count] 1 and [done]
    false.  The second [w.value()] starts from the entry as the first left
    it, drops nothing and returns [[1]]. *)
Theorem progress_is_not_reset :
  exists d0 h2 d2 h3,
    store_of sample_drop !! 8%nat = Some (CData d0) /\
    data_type d0 = LAZY_DROP_WHILE_FLAG /\ data_count d0 = 0 /\ data_done d0 = false /\
    value_of 3 (result_of sample_drop) (store_of sample_drop) = Ok (VArr []) h2 /\
    same_shape (store_of sample_drop) h2 /\
    h2 !! 8%nat = Some (CData d2) /\
    data_count d2 = 1 /\ data_done d2 = false /\
    value_of 3 (result_of sample_drop) h2 = Ok (VArr [VInt 1]) h3.
Proof.
  do 4 eexists.
  split; [vm_compute; reflexivity|].
  split; [reflexivity|]. split; [reflexivity|]. split; [reflexivity|].
  split; [vm_compute; reflexivity|].
  split; [vm_compute; repeat constructor|].
  split; [vm_compute; reflexivity|].
  split; [reflexivity|]. split; [reflexivity|].
  vm_compute. reflexivity.
Qed.

Lemma takeWhile_failure_ends_evaluation_witness :
  lazyLoop (1 + 4) (ints [1; 2; 3]) 1 ([] ++ [O]) (Fin 3) (Fin 3) (Fin (-1)) [] store_takeWhile
  = Ok [VInt 1] store_takeWhile.
Proof.
  apply (takeWhile_failure_ends_evaluation 3 (ints [1; 2; 3]) 1 [] O []
           (Fin 3) (Fin 3) (Fin (-1)) [] store_takeWhile 1 (Fin 2) (Fin 0) [VInt 1]
           store_takeWhile (VInt 2) store_takeWhile
           (Data false 0 (Fin 0) (below 2) (Fin (-1)) LAZY_TAKE_WHILE_FLAG));
    try reflexivity.
  eapply reaches_emit; [reflexivity | reflexivity | apply reaches_here].
Defined.

Lemma baseMatches_fast_path_agrees_witness :
  isStrictComparable (VInt 1) = true /\
  baseMatches (VObj [("a"%string, VInt 1)])
    (VObj [("a"%string, VInt 1); ("b"%string, VInt 2)])
  = matchesStrict "a" (VInt 1) (VObj [("a"%string, VInt 1); ("b"%string, VInt 2)]) /\
  matchesStrict "a" (VInt 1)
    (VObj [("a"%string, VInt 1); ("b"%string, VInt 2)])
  = matchesGeneral (VObj [("a"%string, VInt 1)])
      (VObj [("a"%string, VInt 1); ("b"%string, VInt 2)]).
Proof.
  split; [reflexivity|].
  apply (baseMatches_fast_path_agrees). reflexivity.
Defined.

Lemma lazyValue_non_array_source_witness :
  value_of 2 5 store_scalar = Ok (VInt 50) store_scalar.
Proof.
  apply (proj1 (proj2 (lazyValue_non_array_source 1 5 store_scalar
                         (Lazy (WRef 1) (Some 2%nat) 1 0 true (Some 3%nat) PInf None)
                         1%nat (VInt 5) store_scalar eq_refl eq_refl eq_refl eq_refl))
               [times10]).
  reflexivity.
Defined.

(** * Further properties of the code *)

Section Further.

Context {host : Host}.

(** ** Slices *)

Lemma seq_arrayGetZ_from (xs : list value) lo k :
  0 <= lo -> (Z.to_nat lo + k <= length xs)%nat ->
  map (fun index => arrayGetZ xs (Z.of_nat index + lo)) (seq 0 k)
  = take k (drop (Z.to_nat lo) xs).
Proof.
  intros Hlo Hk. apply list_eq. intros i.
  rewrite list_lookup_fmap. destruct (Nat.lt_ge_cases i k) as [Hi | Hi].
  - rewrite lookup_take_lt by assumption. rewrite lookup_drop.
    rewrite (lookup_seq_lt 0 k i Hi). cbn [fmap option_fmap option_map Nat.add].
    unfold arrayGetZ. destruct (Z.ltb_spec (Z.of_nat i + lo) 0); [lia|].
    replace (Z.to_nat (Z.of_nat i + lo)) with (Z.to_nat lo + i)%nat by lia.
    destruct (lookup_lt_is_Some_2 xs (Z.to_nat lo + i) ltac:(lia)) as [x Hx].
    rewrite Hx. f_equal. now apply nth_lookup_Some.
  - rewrite lookup_take_ge by assumption.
    rewrite (lookup_seq_ge 0 k i Hi). reflexivity.
Qed.

(** [baseSlice] once its bounds are normalised to integers [lo] and [hi]. *)
Lemma baseSlice_core (xs : list value) start end_ lo hi :
  Z.of_nat (length xs) < 2 ^ 32 -> 0 <= lo -> hi <= Z.of_nat (length xs) ->
  (let length := lengthOf xs in
   let start := if isNullish start then Fin 0 else ToNumberOr0 start in
   if Num.lt start (Fin 0)
   then (if Num.gt (Num.neg start) length then Fin 0 else Num.add length start)
   else start) = Fin lo ->
  (let length := lengthOf xs in
   let end_ := if isUndefined end_ || Num.gt (ToNumber end_) length
               then length else ToNumberOr0 end_ in
   if Num.lt end_ (Fin 0) then Num.add end_ length else end_) = Fin hi ->
  baseSlice xs start end_ = take (Z.to_nat (hi - lo)) (drop (Z.to_nat lo) xs).
Proof.
  intros Hlen Hlo Hhi Hs He. unfold baseSlice. cbv zeta in *. rewrite Hs, He.
  unfold Num.gt. rewrite Num_lt_Fin, Num_sub_Fin. unfold Num.toUint32.
  destruct (Z.ltb_spec hi lo) as [Hlt | Hge].
  - replace (Z.to_nat (hi - lo)) with O by lia. reflexivity.
  - rewrite (Z.mod_small (hi - lo)) by lia. rewrite (Z.mod_small lo) by lia.
    apply seq_arrayGetZ_from; lia.
Qed.

(** A start beyond every index gives the empty slice. *)
Lemma baseSlice_start_inf (xs : list value) start end_ hi :
  (let length := lengthOf xs in
   let start := if isNullish start then Fin 0 else ToNumberOr0 start in
   if Num.lt start (Fin 0)
   then (if Num.gt (Num.neg start) length then Fin 0 else Num.add length start)
   else start) = PInf ->
  (let length := lengthOf xs in
   let end_ := if isUndefined end_ || Num.gt (ToNumber end_) length
               then length else ToNumberOr0 end_ in
   if Num.lt end_ (Fin 0) then Num.add end_ length else end_) = Fin hi ->
  baseSlice xs start end_ = [].
Proof.
  intros Hs He. unfold baseSlice. cbv zeta in *. rewrite Hs, He. reflexivity.
Qed.

Lemma Num_gt_Fin x y : Num.gt (Fin x) (Fin y) = (y <? x).
Proof. reflexivity. Qed.

(** The start and the end that [baseSlice] makes of integer arguments. *)
Lemma baseSlice_start_int (xs : list value) s :
  (let length := lengthOf xs in
   let start := if isNullish (VInt s) then Fin 0 else ToNumberOr0 (VInt s) in
   if Num.lt start (Fin 0)
   then (if Num.gt (Num.neg start) length then Fin 0 else Num.add length start)
   else start)
  = Fin (if s <? 0 then Z.max (Z.of_nat (length xs) + s) 0 else s).
Proof.
  cbv zeta. unfold VInt, lengthOf. cbn [isNullish]. rewrite ToNumberOr0_Fin, Num_lt_Fin.
  destruct (Z.ltb_spec s 0) as [Hneg | Hpos]; [|reflexivity].
  unfold Num.neg. destruct (Z.eqb_spec s 0); [lia|].
  rewrite Num_gt_Fin. destruct (Z.ltb_spec (Z.of_nat (length xs)) (- s)).
  - f_equal. lia.
  - change (Num.add (Fin (Z.of_nat (length xs))) (Fin s)) with (Fin (Z.of_nat (length xs) + s)).
    f_equal. lia.
Qed.

Lemma baseSlice_end_int (xs : list value) e :
  (let length := lengthOf xs in
   let end_ := if isUndefined (VInt e) || Num.gt (ToNumber (VInt e)) length
               then length else ToNumberOr0 (VInt e) in
   if Num.lt end_ (Fin 0) then Num.add end_ length else end_)
  = Fin (if e <? 0 then e + Z.of_nat (length xs) else Z.min e (Z.of_nat (length xs))).
Proof.
  cbv zeta. unfold VInt, lengthOf. cbn [isUndefined orb ToNumber].
  rewrite ToNumberOr0_Fin, Num_gt_Fin.
  destruct (Z.ltb_spec (Z.of_nat (length xs)) e) as [Hbig | Hsmall]; rewrite Num_lt_Fin.
  - destruct (Z.ltb_spec (Z.of_nat (length xs)) 0); [lia|].
    destruct (Z.ltb_spec e 0); [lia|]. f_equal. lia.
  - destruct (Z.ltb_spec e 0); [reflexivity|]. f_equal. lia.
Qed.

Lemma baseSlice_end_undefined (xs : list value) :
  (let length := lengthOf xs in
   let end_ := if isUndefined VUndefined || Num.gt (ToNumber VUndefined) length
               then length else ToNumberOr0 VUndefined in
   if Num.lt end_ (Fin 0) then Num.add end_ length else end_)
  = Fin (Z.of_nat (length xs)).
Proof.
  cbv zeta. unfold lengthOf. cbn [isUndefined orb]. rewrite Num_lt_Fin.
  destruct (Z.ltb_spec (Z.of_nat (length xs)) 0); [lia | reflexivity].
Qed.

(** [baseSlice] on integer bounds. *)
Lemma baseSlice_int (xs : list value) (s e : Z) :
  Z.of_nat (length xs) < 2 ^ 32 ->
  let len := Z.of_nat (length xs) in
  let lo := if s <? 0 then Z.max (len + s) 0 else s in
  let hi := if e <? 0 then e + len else Z.min e len in
  baseSlice xs (VInt s) (VInt e) = take (Z.to_nat (hi - lo)) (drop (Z.to_nat lo) xs) /\
  baseSlice xs (VInt s) VUndefined = drop (Z.to_nat lo) xs.
Proof.
  intros Hlen len lo hi. split.
  - apply baseSlice_core;
      [assumption | | | apply baseSlice_start_int | apply baseSlice_end_int];
      unfold lo, hi, len;
      repeat match goal with |- context [?a <? ?b] => destruct (Z.ltb_spec a b) end; lia.
  - rewrite (baseSlice_core xs (VInt s) VUndefined lo len);
      [ | assumption | | lia | apply baseSlice_start_int | apply baseSlice_end_undefined].
    + apply take_ge. rewrite length_drop. lia.
    + unfold lo, len. destruct (Z.ltb_spec s 0); lia.
Qed.

(** X1.  [baseSlice] on integer bounds returns the elements at the positions
    from [lo] up to, not including, [hi]: a negative start counts from the
    end and stops at the first element, a negative end counts from the end,
    an end beyond the array is the length; an absent end is the length. *)
Theorem baseSlice_is_segment (xs : list value) (s e : Z) :
  Z.of_nat (length xs) < 2 ^ 32 ->
  let len := Z.of_nat (length xs) in
  let lo := if s <? 0 then Z.max (len + s) 0 else s in
  let hi := if e <? 0 then e + len else Z.min e len in
  baseSlice xs (VInt s) (VInt e) = take (Z.to_nat (hi - lo)) (drop (Z.to_nat lo) xs) /\
  baseSlice xs (VInt s) VUndefined = drop (Z.to_nat lo) xs.
Proof.
  intros Hlen len lo hi. split.
  - apply baseSlice_core;
      [assumption | | | apply baseSlice_start_int | apply baseSlice_end_int];
      unfold lo, hi, len;
      repeat match goal with |- context [?a <? ?b] => destruct (Z.ltb_spec a b) end; lia.
  - rewrite (baseSlice_core xs (VInt s) VUndefined lo len);
      [ | assumption | | lia | apply baseSlice_start_int | apply baseSlice_end_undefined].
    + apply take_ge. rewrite length_drop. lia.
    + unfold lo, len. destruct (Z.ltb_spec s 0); lia.
Qed.

(** ** take, drop and their right variants *)

Lemma baseSlice_start_nonneg (xs : list value) n z :
  isNullish n = false -> ToNumberOr0 n = Fin z -> 0 <= z ->
  (let length := lengthOf xs in
   let start := if isNullish n then Fin 0 else ToNumberOr0 n in
   if Num.lt start (Fin 0)
   then (if Num.gt (Num.neg start) length then Fin 0 else Num.add length start)
   else start) = Fin z.
Proof.
  intros Hnull Hn Hz. cbv zeta. rewrite Hnull, Hn, Num_lt_Fin.
  destruct (Z.ltb_spec z 0); [lia | reflexivity].
Qed.

Lemma baseSlice_start_posinf (xs : list value) n :
  isNullish n = false -> ToNumberOr0 n = PInf ->
  (let length := lengthOf xs in
   let start := if isNullish n then Fin 0 else ToNumberOr0 n in
   if Num.lt start (Fin 0)
   then (if Num.gt (Num.neg start) length then Fin 0 else Num.add length start)
   else start) = PInf.
Proof. intros Hnull Hn. cbv zeta. rewrite Hnull, Hn. reflexivity. Qed.

Lemma baseSlice_end_nonneg (xs : list value) n z :
  isUndefined n = false -> ToNumber n = Fin z -> 0 <= z ->
  (let length := lengthOf xs in
   let end_ := if isUndefined n || Num.gt (ToNumber n) length
               then length else ToNumberOr0 n in
   if Num.lt end_ (Fin 0) then Num.add end_ length else end_)
  = Fin (Z.min z (Z.of_nat (length xs))).
Proof.
  intros Hundef Hn Hz. cbv zeta. rewrite Hundef, Hn. cbn [orb]. unfold lengthOf.
  rewrite Num_gt_Fin. unfold ToNumberOr0. rewrite Hn.
  assert ((if Num.truthy (Fin z) then Fin z else Fin 0) = Fin z) as ->.
  { unfold Num.truthy. destruct (Z.eqb_spec z 0) as [->|]; reflexivity. }
  destruct (Z.ltb_spec (Z.of_nat (length xs)) z); rewrite Num_lt_Fin.
  - destruct (Z.ltb_spec (Z.of_nat (length xs)) 0); [lia|]. f_equal. lia.
  - destruct (Z.ltb_spec z 0); [lia|]. f_equal. lia.
Qed.

Lemma drop_from_start (xs : list value) start z :
  Z.of_nat (length xs) < 2 ^ 32 -> isNullish start = false ->
  ToNumberOr0 start = Fin z -> 0 <= z ->
  baseSlice xs start VUndefined = drop (Z.to_nat z) xs.
Proof.
  intros Hlen Hnull Hn Hz.
  rewrite (baseSlice_core xs start VUndefined z (Z.of_nat (length xs)));
    [ | assumption | assumption | lia | now apply baseSlice_start_nonneg
      | apply baseSlice_end_undefined ].
  apply take_ge. rewrite length_drop. lia.
Qed.

Lemma isNullish_isUndefined n : isNullish n = false -> isUndefined n = false.
Proof. destruct n; try reflexivity; discriminate. Qed.

(** The eager [drop] skips as many elements as the lazy [drop] counts from
    the same argument. *)
Lemma array_drop_count (xs : list value) n :
  Z.of_nat (length xs) < 2 ^ 32 ->
  array_drop xs n
  = match lazy_count n with
    | Fin z => drop (Z.to_nat z) xs
    | _ => []
    end.
Proof.
  intros Hlen. unfold array_drop, lazy_count.
  destruct xs as [|x xs'] eqn:Hxs.
  { destruct (isNullish n); [reflexivity|].
    destruct (Num.max _ _); try reflexivity. now rewrite drop_nil. }
  rewrite <- Hxs in *. clear Hxs.
  destruct (isNullish n) eqn:Hnull.
  { change (Num.lt (ToNumber (VInt 1)) (Fin 0)) with false. cbn iota.
    apply drop_from_start; try assumption; try reflexivity; try lia. }
  unfold Num.floor.
  destruct (ToNumber n) as [| | | |z] eqn:Hn; cbn [Num.lt Num.truthy].
  - change (Num.max (Fin 0) (Fin 0)) with (Fin 0). cbn iota.
    apply drop_from_start; try assumption; [|lia]. unfold ToNumberOr0. now rewrite Hn.
  - change (Num.max PInf (Fin 0)) with PInf. cbn iota.
    apply (baseSlice_start_inf xs n VUndefined (Z.of_nat (length xs)));
      [|apply baseSlice_end_undefined].
    apply baseSlice_start_posinf; [assumption|]. unfold ToNumberOr0. now rewrite Hn.
  - change (Num.max NInf (Fin 0)) with (Fin 0). cbn iota.
    apply drop_from_start; try assumption; try reflexivity; try lia.
  - change (0 <? 0) with false. cbn iota. change (Num.max (Fin 0) (Fin 0)) with (Fin 0).
    cbn iota.
    apply drop_from_start; try assumption; [|lia]. unfold ToNumberOr0. now rewrite Hn.
  - destruct (Z.ltb_spec z 0) as [Hneg | Hpos].
    + assert (Num.max (if negb (z =? 0) then Fin z else Fin 0) (Fin 0) = Fin 0) as ->.
      { destruct (Z.eqb_spec z 0); [reflexivity|]. cbn [negb]. rewrite Num_max_Fin. f_equal. lia. }
      apply drop_from_start; try assumption; try reflexivity; try lia.
    + assert (Num.max (if negb (z =? 0) then Fin z else Fin 0) (Fin 0) = Fin z) as ->.
      { destruct (Z.eqb_spec z 0) as [->|]; [reflexivity|]. cbn [negb].
        rewrite Num_max_Fin. f_equal. lia. }
      apply drop_from_start; try assumption.
      unfold ToNumberOr0. rewrite Hn. unfold Num.truthy.
      destruct (Z.eqb_spec z 0) as [->|]; reflexivity.
Qed.

(** X2.  [take(array, n)] and [drop(array, n)] split the array at the same
    place, for every exact size [n]: the first is the prefix and the second
    the rest, and the place is the count that the lazy methods compute from
    [n].  (On a size with a fractional part the two do not: [take] of [1.5]
    stops after one element and [drop] of [1.5] starts at the third.) *)
Theorem take_drop_partition (xs : list value) (n : value) :
  Z.of_nat (length xs) < 2 ^ 32 ->
  exact_size n = true ->
  array_take xs n ++ array_drop xs n = xs /\
  (forall z, lazy_count n = Fin z ->
     array_take xs n = take (Z.to_nat z) xs /\ array_drop xs n = drop (Z.to_nat z) xs) /\
  (lazy_count n = PInf -> array_take xs n = xs /\ array_drop xs n = []).
Proof.
  intros Hlen _. rewrite array_take_count, array_drop_count by assumption.
  destruct (lazy_count_range n) as [-> | (z & Hz & ->)].
  - split; [apply app_nil_r|]. split; [discriminate | auto].
  - split; [apply take_drop|]. split; [|discriminate].
    intros z' [= <-]. auto.
Qed.

Lemma ToNumberOr0_cases v :
  ToNumberOr0 v = PInf \/ ToNumberOr0 v = NInf \/ exists z, ToNumberOr0 v = Fin z.
Proof.
  unfold ToNumberOr0. destruct (ToNumber v) as [| | | |z]; cbn [Num.truthy]; eauto.
  destruct (negb (z =? 0)); eauto.
Qed.

Lemma take_to_end (xs : list value) end_ z :
  Z.of_nat (length xs) < 2 ^ 32 -> isUndefined end_ = false ->
  ToNumber end_ = Fin z -> 0 <= z ->
  baseSlice xs (VInt 0) end_ = take (Z.to_nat z) xs.
Proof.
  intros Hlen Hundef Hn Hz.
  rewrite (baseSlice_core xs (VInt 0) end_ 0 (Z.min z (Z.of_nat (length xs))));
    [ | assumption | lia | lia | apply (baseSlice_start_int xs 0)
      | now apply baseSlice_end_nonneg ].
  rewrite drop_0, Z.sub_0_r.
  destruct (Z.le_ge_cases z (Z.of_nat (length xs))).
  - now rewrite Z.min_l by lia.
  - rewrite Z.min_r by lia. rewrite !take_ge by lia. reflexivity.
Qed.

Lemma take_to_posinf (xs : list value) :
  Z.of_nat (length xs) < 2 ^ 32 ->
  baseSlice xs (VInt 0) (VNum PInf) = xs.
Proof.
  intros Hlen.
  rewrite (baseSlice_core xs (VInt 0) (VNum PInf) 0 (Z.of_nat (length xs)));
    [ | assumption | lia | lia | apply (baseSlice_start_int xs 0) | ].
  - rewrite drop_0, Z.sub_0_r. apply take_ge. lia.
  - cbv zeta. unfold lengthOf. cbn [isUndefined ToNumber orb Num.gt Num.lt]. cbn iota.
    destruct (Z.ltb_spec (Z.of_nat (length xs)) 0); [lia | reflexivity].
Qed.

(** The place at which [takeRight] and [dropRight] split the array. *)
Lemma right_split (xs : list value) n :
  Z.of_nat (length xs) < 2 ^ 32 ->
  exists m : nat,
    array_dropRight xs n = take m xs /\ array_takeRight xs n = drop m xs /\
    (forall z, ToNumberOr0 (if isNullish n then VInt 1 else n) = Fin z ->
               m = Z.to_nat (Z.of_nat (length xs) - z)) /\
    (ToNumberOr0 (if isNullish n then VInt 1 else n) = PInf -> m = O) /\
    (ToNumberOr0 (if isNullish n then VInt 1 else n) = NInf -> m = length xs).
Proof.
  intros Hlen. unfold array_dropRight, array_takeRight.
  destruct xs as [|x xs'] eqn:Hxs.
  { destruct (ToNumberOr0_cases (if isNullish n then VInt 1 else n))
      as [Hk | [Hk | [z Hk]]].
    - exists O. repeat split. rewrite Hk. discriminate.
    - exists O. repeat split. rewrite Hk. discriminate.
    - exists (Z.to_nat (Z.of_nat (length (@nil value)) - z)).
      rewrite take_nil, drop_nil. rewrite Hk.
      repeat split; [now intros z' [= <-] | discriminate | discriminate]. }
  rewrite <- Hxs in *. clear Hxs. cbv zeta.
  set (n1 := if isNullish n then VInt 1 else n). unfold lengthOf.
  destruct (ToNumberOr0_cases n1) as [Hk | [Hk | [z Hk]]]; rewrite Hk.
  - exists O. change (Num.sub (Fin (Z.of_nat (length xs))) PInf) with NInf.
    cbn [Num.lt]. split; [|split; [|repeat split; discriminate]].
    + rewrite (take_to_end xs (VInt 0) 0); auto; lia.
    + rewrite (drop_from_start xs (VInt 0) 0); auto; lia.
  - exists (length xs). change (Num.sub (Fin (Z.of_nat (length xs))) NInf) with PInf.
    cbn [Num.lt]. split; [|split; [|repeat split; discriminate]].
    + rewrite take_to_posinf by assumption. now rewrite firstn_all.
    + rewrite drop_all.
      apply (baseSlice_start_inf xs (VNum PInf) VUndefined (Z.of_nat (length xs)));
        [reflexivity | apply baseSlice_end_undefined].
  - exists (Z.to_nat (Z.of_nat (length xs) - z)). rewrite Num_sub_Fin, Num_lt_Fin.
    split; [|split; [|repeat split; [now intros z' [= <-] | discriminate | discriminate]]].
    + destruct (Z.ltb_spec (Z.of_nat (length xs) - z) 0).
      * rewrite (take_to_end xs (VInt 0) 0); auto; try lia.
        f_equal. lia.
      * now apply take_to_end.
    + destruct (Z.ltb_spec (Z.of_nat (length xs) - z) 0).
      * rewrite (drop_from_start xs (VInt 0) 0); auto; try lia.
        f_equal. lia.
      * apply drop_from_start; auto. apply ToNumberOr0_Fin.
Qed.

Lemma dropRight_takeRight_split (xs : list value) :
  Z.of_nat (length xs) < 2 ^ 32 ->
  array_dropRight xs (VInt 1) = take (Z.to_nat (Z.of_nat (length xs) - 1)) xs /\
  array_takeRight xs (VInt 1) = drop (Z.to_nat (Z.of_nat (length xs) - 1)) xs.
Proof.
  intros Hlen. destruct (right_split xs (VInt 1) Hlen) as (m & Hd & Ht & Hm & _).
  rewrite Hd, Ht, (Hm 1); [auto|]. reflexivity.
Qed.

(** X3.  [dropRight(array, n)] and [takeRight(array, n)] split the array at
    the same place, for every exact size [n]; for an integer [z] the second
    is the last [z] elements (all of them when [z] exceeds the length, none
    when [z] is not positive). *)
Theorem dropRight_takeRight_partition (xs : list value) (n : value) :
  Z.of_nat (length xs) < 2 ^ 32 ->
  exact_size n = true ->
  array_dropRight xs n ++ array_takeRight xs n = xs /\
  (forall z, n = VInt z ->
     array_takeRight xs n = drop (Z.to_nat (Z.of_nat (length xs) - z)) xs /\
     array_dropRight xs n = take (Z.to_nat (Z.of_nat (length xs) - z)) xs).
Proof.
  intros Hlen _. destruct (right_split xs n Hlen) as (m & Hd & Ht & Hm & _).
  rewrite Hd, Ht. split; [apply take_drop|].
  intros z ->. rewrite (Hm z); [auto|]. apply ToNumberOr0_Fin.
Qed.

(** ** takeWhile, dropWhile and their right variants *)

Lemma arrayGetZ_lookup (xs : list value) (j : nat) x :
  xs !! j = Some x -> arrayGetZ xs (Z.of_nat j) = x.
Proof.
  intros Hx. unfold arrayGetZ. destruct (Z.ltb_spec (Z.of_nat j) 0); [lia|].
  rewrite Nat2Z.id. now apply nth_lookup_Some.
Qed.

(** The scan from the left stops at the first element that fails the
    predicate, or at the length. *)
Lemma baseWhile_left_stops (xs : list value) (f : value -> value) :
  forall steps j,
    (j + steps = length xs)%nat ->
    Forall (fun v => truthy (f v) = true) (take j xs) ->
    exists k : nat,
      (k <= length xs)%nat /\
      baseWhile_left xs f (Z.of_nat j - 1) steps = Z.of_nat k /\
      Forall (fun v => truthy (f v) = true) (take k xs) /\
      (forall x, xs !! k = Some x -> truthy (f x) = false).
Proof.
  induction steps as [|steps IH]; intros j Hj Hpass; cbn [baseWhile_left].
  - exists j. split; [lia|]. split; [lia|]. split; [assumption|].
    intros x Hx. apply lookup_lt_Some in Hx. lia.
  - replace (Z.of_nat j - 1 + 1) with (Z.of_nat j) by lia.
    destruct (Z.ltb_spec (Z.of_nat j) (Z.of_nat (length xs))); [|lia].
    destruct (lookup_lt_is_Some_2 xs j ltac:(lia)) as [x Hx].
    rewrite (arrayGetZ_lookup xs j x Hx). cbn [andb].
    destruct (truthy (f x)) eqn:Hfx.
    + replace (Z.of_nat j) with (Z.of_nat (S j) - 1) by lia.
      apply IH; [lia|]. rewrite (take_S_r xs j x Hx).
      apply Forall_app. split; [assumption|]. now constructor.
    + exists j. split; [lia|]. split; [reflexivity|]. split; [assumption|].
      intros x' Hx'. congruence.
Qed.

(** The scan from the right stops below the last element that fails the
    predicate, or below the first element. *)
Lemma baseWhile_right_stops (xs : list value) (f : value -> value) :
  forall j,
    (j <= length xs)%nat ->
    Forall (fun v => truthy (f v) = true) (drop j xs) ->
    exists r : nat,
      (r <= j)%nat /\
      baseWhile_right xs f (Z.of_nat j) j = Z.of_nat r - 1 /\
      Forall (fun v => truthy (f v) = true) (drop r xs) /\
      (forall x, (0 < r)%nat -> xs !! (r - 1)%nat = Some x -> truthy (f x) = false).
Proof.
  induction j as [|j IH]; intros Hj Hpass; cbn [baseWhile_right].
  - exists O. split; [lia|]. split; [reflexivity|]. split; [assumption|]. intros; lia.
  - destruct (Z.eqb_spec (Z.of_nat (S j)) 0); [lia|]. cbn [negb andb].
    replace (Z.of_nat (S j) - 1) with (Z.of_nat j) by lia.
    destruct (lookup_lt_is_Some_2 xs j ltac:(lia)) as [x Hx].
    rewrite (arrayGetZ_lookup xs j x Hx).
    destruct (truthy (f x)) eqn:Hfx.
    + destruct IH as (r & Hr & Hrun & Hdrop & Hfail); [lia | |].
      * rewrite (drop_S xs x j Hx). now constructor.
      * exists r. split; [lia|]. auto.
    + exists (S j). split; [lia|]. split; [lia|]. split; [assumption|].
      intros x' _ Hx'. replace (S j - 1)%nat with j in Hx' by lia. congruence.
Qed.

(** The place at which [takeWhile] and [dropWhile] split the array. *)
Lemma while_split (xs : list value) (predicate : callback) :
  Z.of_nat (length xs) < 2 ^ 32 ->
  exists k : nat,
    array_takeWhile xs predicate = take k xs /\
    array_dropWhile xs predicate = drop k xs /\
    Forall (fun v => truthy (baseCallback predicate v) = true) (take k xs) /\
    (forall x, xs !! k = Some x -> truthy (baseCallback predicate x) = false).
Proof.
  intros Hlen. unfold array_takeWhile, array_dropWhile.
  destruct xs as [|x0 xs'] eqn:Hxs.
  { exists O. repeat split; [constructor | discriminate]. }
  rewrite <- Hxs in *. clear Hxs. unfold baseWhile. cbn iota.
  destruct (baseWhile_left_stops xs (baseCallback predicate) (length xs) O eq_refl
              (Forall_nil_2 _)) as (k & Hk & Hrun & Hpass & Hfail).
  change (Z.of_nat 0 - 1) with (-1) in Hrun. rewrite Hrun.
  assert (baseSlice xs (VInt 0) (VInt (Z.of_nat k)) = take k xs) as ->.
  { rewrite take_to_end with (z := Z.of_nat k); auto; try lia. now rewrite Nat2Z.id. }
  assert (baseSlice xs (VInt (Z.of_nat k)) (VInt (Z.of_nat (length xs))) = drop k xs) as ->.
  { rewrite (baseSlice_core xs _ _ (Z.of_nat k) (Z.of_nat (length xs)));
      [ | assumption | lia | lia | | ].
    - rewrite Nat2Z.id. apply take_ge. rewrite length_drop. lia.
    - rewrite baseSlice_start_int. destruct (Z.ltb_spec (Z.of_nat k) 0); [lia | reflexivity].
    - rewrite baseSlice_end_int.
      destruct (Z.ltb_spec (Z.of_nat (length xs)) 0); [lia|]. f_equal. lia. }
  exists k. auto.
Qed.

(** X4.  [takeWhile] and [dropWhile] split the array at the first element
    that fails the predicate: every element of the first passes it, and the
    second, when it is not empty, starts with an element that fails it. *)
Theorem takeWhile_dropWhile_partition (xs : list value) (predicate : callback) :
  Z.of_nat (length xs) < 2 ^ 32 ->
  array_takeWhile xs predicate ++ array_dropWhile xs predicate = xs /\
  Forall (fun v => truthy (baseCallback predicate v) = true) (array_takeWhile xs predicate) /\
  (forall x rest, array_dropWhile xs predicate = x :: rest ->
                  truthy (baseCallback predicate x) = false).
Proof.
  intros Hlen.
  destruct (while_split xs predicate Hlen) as (k & -> & -> & Hpass & Hfail).
  split; [apply take_drop|]. split; [assumption|].
  intros x rest Hdrop. apply Hfail.
  rewrite <- (Nat.add_0_r k), <- lookup_drop, Hdrop. reflexivity.
Qed.

(** The place at which [dropRightWhile] and [takeRightWhile] split the array. *)
Lemma right_while_split (xs : list value) (predicate : callback) :
  Z.of_nat (length xs) < 2 ^ 32 ->
  exists r : nat,
    (r <= length xs)%nat /\
    array_dropRightWhile xs predicate = take r xs /\
    array_takeRightWhile xs predicate = drop r xs /\
    Forall (fun v => truthy (baseCallback predicate v) = true) (drop r xs) /\
    (forall x, (0 < r)%nat -> xs !! (r - 1)%nat = Some x ->
               truthy (baseCallback predicate x) = false).
Proof.
  intros Hlen. unfold array_takeRightWhile, array_dropRightWhile.
  destruct xs as [|x0 xs'] eqn:Hxs.
  { exists O. split; [cbn; lia|]. repeat split; [constructor | intros; lia]. }
  rewrite <- Hxs in *. clear Hxs. unfold baseWhile. cbn iota.
  destruct (baseWhile_right_stops xs (baseCallback predicate) (length xs) (le_n _))
    as (r & Hr & Hrun & Hpass & Hfail).
  { rewrite drop_all. constructor. }
  rewrite Hrun. replace (Z.of_nat r - 1 + 1) with (Z.of_nat r) by lia.
  assert (baseSlice xs (VInt 0) (VInt (Z.of_nat r)) = take r xs) as ->.
  { rewrite take_to_end with (z := Z.of_nat r); auto; try lia. now rewrite Nat2Z.id. }
  assert (baseSlice xs (VInt (Z.of_nat r)) (VInt (Z.of_nat (length xs))) = drop r xs) as ->.
  { rewrite (baseSlice_core xs _ _ (Z.of_nat r) (Z.of_nat (length xs)));
      [ | assumption | lia | lia | | ].
    - rewrite Nat2Z.id. apply take_ge. rewrite length_drop. lia.
    - rewrite baseSlice_start_int. destruct (Z.ltb_spec (Z.of_nat r) 0); [lia | reflexivity].
    - rewrite baseSlice_end_int.
      destruct (Z.ltb_spec (Z.of_nat (length xs)) 0); [lia|]. f_equal. lia. }
  exists r. auto 6.
Qed.

(** X5.  [dropRightWhile] and [takeRightWhile] split the array after the
    last element that fails the predicate: every element of the second passes
    it, and the first, when it is not empty, ends with an element that fails
    it. *)
Theorem dropRightWhile_takeRightWhile_partition (xs : list value) (predicate : callback) :
  Z.of_nat (length xs) < 2 ^ 32 ->
  array_dropRightWhile xs predicate ++ array_takeRightWhile xs predicate = xs /\
  Forall (fun v => truthy (baseCallback predicate v) = true)
         (array_takeRightWhile xs predicate) /\
  (forall init x, array_dropRightWhile xs predicate = init ++ [x] ->
                  truthy (baseCallback predicate x) = false).
Proof.
  intros Hlen.
  destruct (right_while_split xs predicate Hlen) as (r & Hr & -> & -> & Hpass & Hfail).
  split; [apply take_drop|]. split; [assumption|].
  intros init x Htake.
  assert (length (take r xs) = S (length init)) as Hlen_take
    by (rewrite Htake, length_app; cbn [length]; lia).
  rewrite length_take in Hlen_take.
  apply Hfail; [lia|].
  assert (take r xs !! (r - 1)%nat = Some x) as Hx.
  { rewrite Htake. replace (r - 1)%nat with (length init + 0)%nat by lia.
    rewrite lookup_app_r by lia. replace (length init + 0 - length init)%nat with O by lia.
    reflexivity. }
  rewrite lookup_take_lt in Hx by lia. exact Hx.
Qed.

(** ** first, last, initial and rest *)

(** X6.  On an array that is not empty, [first] and [rest] take it apart at
    its head, and [initial] and [last] at its end; on the empty array [first]
    and [last] are [undefined], [rest] and [initial] are empty. *)
Theorem first_rest_initial_last (xs : list value) :
  Z.of_nat (length xs) < 2 ^ 32 ->
  match xs with
  | [] =>
      array_first xs = VUndefined /\ array_last xs = VUndefined /\
      array_rest xs = [] /\ array_initial xs = []
  | _ =>
      array_first xs :: array_rest xs = xs /\
      array_initial xs ++ [array_last xs] = xs
  end.
Proof.
  intros Hlen. destruct xs as [|x xs'] eqn:Hxs; [repeat split|].
  rewrite <- Hxs in *.
  assert (xs <> []) as Hne by (rewrite Hxs; discriminate).
  assert (0 < length xs)%nat as Hpos by (rewrite Hxs; cbn [length]; lia).
  clear Hxs. split.
  - unfold array_rest. rewrite array_drop_count by assumption.
    change (lazy_count (VInt 1)) with (Fin 1). change (Z.to_nat 1) with 1%nat.
    unfold array_first, arrayGetZ. cbn [Z.ltb Z.compare Z.to_nat].
    destruct xs; [contradiction | reflexivity].
  - unfold array_initial.
    destruct (dropRight_takeRight_split xs Hlen) as [Hinit Hlast].
    rewrite Hinit.
    replace (Z.to_nat (Z.of_nat (length xs) - 1)) with (length xs - 1)%nat by lia.
    unfold array_last. destruct xs as [|y ys] eqn:Hxs; [contradiction|].
    rewrite <- Hxs in *.
    replace (Z.of_nat (length xs) - 1) with (Z.of_nat (length xs - 1)) by lia.
    destruct (lookup_lt_is_Some_2 xs (length xs - 1) ltac:(lia)) as [z Hz].
    rewrite (arrayGetZ_lookup xs _ z Hz).
    rewrite <- (take_drop (length xs - 1) xs) at 3. f_equal.
    rewrite (drop_S xs z (length xs - 1) Hz). rewrite drop_ge by lia. reflexivity.
Qed.

(** ** An iteratee queued after the others *)

Lemma entry_is_shape h h' e type f :
  same_shape h h' -> entry_is h e type f -> entry_is h' e type f.
Proof.
  intros Hs (d & Hl & Hty & Hf).
  destruct (same_shape_lookup _ _ _ _ Hs Hl) as (c' & Hl' & Hc).
  destruct c'; simpl in Hc; try discriminate.
  destruct Hc as (Hi & _ & Hty'). exists d0. split; [assumption|]. split; congruence.
Qed.

Lemma entry_is_app h t e type f : entry_is h e type f -> entry_is (h ++ t) e type f.
Proof. intros (d & Hl & H). exists d. split; [now apply lookup_app_old | assumption]. Qed.

Lemma lazyIteratees_map_entry e g isRight index v h :
  entry_is h e LAZY_MAP_FLAG g ->
  lazyIteratees [e] isRight index v h = Ok (Emit (g v)) h.
Proof.
  intros (d & Hl & Hty & Hf). cbn [lazyIteratees].
  rewrite (bind_eq _ _ _ _ _ (getData_eq _ _ _ Hl)). rewrite Hty, Hf. reflexivity.
Qed.

Lemma lazyIteratees_filter_entry e f isRight index v h :
  entry_is h e LAZY_FILTER_FLAG f ->
  lazyIteratees [e] isRight index v h
  = Ok (if truthy (f v) then Emit v else ContinueOuter) h.
Proof.
  intros (d & Hl & Hty & Hf). cbn [lazyIteratees].
  rewrite (bind_eq _ _ _ _ _ (getData_eq _ _ _ Hl)). rewrite Hty, Hf.
  destruct (truthy (f v)); reflexivity.
Qed.

Lemma lazyIteratees_takeWhile_entry e f isRight index v h :
  entry_is h e LAZY_TAKE_WHILE_FLAG f ->
  lazyIteratees [e] isRight index v h
  = Ok (if truthy (f v) then Emit v else BreakOuter) h.
Proof.
  intros (d & Hl & Hty & Hf). cbn [lazyIteratees].
  rewrite (bind_eq _ _ _ _ _ (getData_eq _ _ _ Hl)). rewrite Hty, Hf.
  destruct (truthy (f v)); reflexivity.
Qed.

(** A [map] entry queued last maps what the loop returns. *)
Lemma lazyLoop_snoc_map arr dir its e g T :
  forall steps len idx acc h res h1,
    entry_is h e LAZY_MAP_FLAG g ->
    lazyLoop steps arr dir its T len idx acc h = Ok res h1 ->
    lazyLoop steps arr dir (its ++ [e]) T len idx (map g acc) h = Ok (map g res) h1.
Proof.
  induction steps as [|steps IH]; intros len idx acc h res h1 He H;
    cbn [lazyLoop] in *; [discriminate|].
  rewrite length_map. destruct (Num.truthy len && _); [|now inversion H].
  apply bind_Ok in H as (p & h0 & Hp & H).
  pose proof (entry_is_shape _ _ _ _ _ (lazyIteratees_shape _ _ _ _ _ _ _ Hp) He) as He0.
  unfold bind at 1. rewrite lazyIteratees_app, Hp. destruct p.
  - rewrite (lazyIteratees_map_entry e g _ _ _ _ He0).
    change (map g acc ++ [g v]) with (map g acc ++ map g [v]). rewrite <- map_app.
    now apply IH.
  - now apply IH.
  - now inversion H.
Qed.

(** A [takeWhile] entry queued last cuts what the loop returns at the first
    element that fails its predicate. *)
Lemma lazyLoop_snoc_takeWhile arr dir its e f T :
  forall steps len idx acc h res h1,
    entry_is h e LAZY_TAKE_WHILE_FLAG f ->
    lazyLoop steps arr dir its T len idx acc h = Ok res h1 ->
    exists h2,
      lazyLoop steps arr dir (its ++ [e]) T len idx acc h
      = Ok (acc ++ prefix_while (fun v => truthy (f v)) (drop (length acc) res)) h2.
Proof.
  induction steps as [|steps IH]; intros len idx acc h res h1 He H;
    cbn [lazyLoop] in *; [discriminate|].
  destruct (Num.truthy len && _).
  - apply bind_Ok in H as (p & h0 & Hp & H).
    pose proof (entry_is_shape _ _ _ _ _ (lazyIteratees_shape _ _ _ _ _ _ _ Hp) He) as He0.
    unfold bind at 1. rewrite lazyIteratees_app, Hp. destruct p.
    + rewrite (lazyIteratees_takeWhile_entry e f _ _ _ _ He0).
      destruct (lazyLoop_extends _ _ _ _ _ _ _ _ _ _ _ H) as [out Hout].
      assert (drop (length acc) res = v :: out) as Hdrop.
      { rewrite Hout, <- app_assoc. now rewrite drop_app_length. }
      rewrite Hdrop. cbn [prefix_while].
      destruct (truthy (f v)).
      * destruct (IH _ _ _ _ _ _ He0 H) as [h2 IH2]. exists h2. rewrite IH2.
        f_equal. rewrite <- app_assoc. cbn [app]. do 2 f_equal.
        rewrite Hout. rewrite drop_app_length. reflexivity.
      * exists h0. unfold ret. now rewrite app_nil_r.
    + destruct (IH _ _ _ _ _ _ He0 H) as [h2 IH2]. exists h2. exact IH2.
    + inversion H; subst. exists h1. unfold ret.
      rewrite drop_all. cbn [prefix_while]. now rewrite app_nil_r.
  - inversion H; subst. exists h1. unfold ret.
    rewrite drop_all. cbn [prefix_while]. now rewrite app_nil_r.
Qed.

(** A [filter] entry queued last filters what the loop returns, when the
    take count does not end the loop. *)
Lemma lazyLoop_snoc_filter arr dir its e f t :
  forall steps l idx acc acc' h res h1,
    entry_is h e LAZY_FILTER_FLAG f ->
    0 <= l -> Z.of_nat (length acc) + l <= t -> (length acc' <= length acc)%nat ->
    lazyLoop steps arr dir its (Fin t) (Fin l) idx acc h = Ok res h1 ->
    lazyLoop steps arr dir (its ++ [e]) (Fin t) (Fin l) idx acc' h
    = Ok (acc' ++ List.filter (fun v => truthy (f v)) (drop (length acc) res)) h1.
Proof.
  induction steps as [|steps IH]; intros l idx acc acc' h res h1 He Hl Ht Hacc H;
    cbn [lazyLoop] in *; [discriminate|].
  rewrite !Num_lt_Fin in *. unfold Num.truthy in *.
  destruct (Z.eqb_spec l 0) as [-> | Hpos]; cbn [negb andb] in *.
  - inversion H; subst. unfold ret. rewrite drop_all. cbn [List.filter].
    now rewrite app_nil_r.
  - destruct (Z.ltb_spec (Z.of_nat (length acc)) t); [|lia].
    destruct (Z.ltb_spec (Z.of_nat (length acc')) t); [|lia].
    rewrite Num_sub_Fin in *.
    apply bind_Ok in H as (p & h0 & Hp & H).
    pose proof (entry_is_shape _ _ _ _ _ (lazyIteratees_shape _ _ _ _ _ _ _ Hp) He) as He0.
    unfold bind at 1. rewrite lazyIteratees_app, Hp. destruct p.
    + rewrite (lazyIteratees_filter_entry e f _ _ _ _ He0).
      destruct (lazyLoop_extends _ _ _ _ _ _ _ _ _ _ _ H) as [out Hout].
      assert (drop (length acc) res = v :: out) as Hdrop.
      { rewrite Hout, <- app_assoc. now rewrite drop_app_length. }
      assert (drop (length (acc ++ [v])) res = out) as Hdrop'.
      { rewrite Hout. now rewrite drop_app_length. }
      rewrite Hdrop. cbn [List.filter].
      destruct (truthy (f v)).
      * rewrite (IH (l - 1) _ (acc ++ [v]) (acc' ++ [v]) h0 res h1 He0);
          try assumption; try lia.
        -- rewrite Hdrop'. now rewrite <- app_assoc.
        -- rewrite length_app. cbn [length]. lia.
        -- rewrite !length_app. cbn [length]. lia.
      * rewrite (IH (l - 1) _ (acc ++ [v]) acc' h0 res h1 He0);
          try assumption; try lia.
        -- now rewrite Hdrop'.
        -- rewrite length_app. cbn [length]. lia.
        -- rewrite length_app. cbn [length]. lia.
    + apply (IH (l - 1) _ acc acc' h0 res h1 He0); try assumption; lia.
    + inversion H; subst. unfold ret. rewrite drop_all. cbn [List.filter].
      now rewrite app_nil_r.
Qed.

(** ** The value of a wrapper and of what a call makes of it *)

Lemma value_of_lazy_inv fuel h this d xs h1 :
  described h this d -> array_backed h this ->
  value_of (S fuel) this h = Ok (VArr xs) h1 ->
  exists src arr h0,
    desc_wrapped d = WRef src /\ value_of fuel src h = Ok (VArr arr) h0 /\
    lazyLoop_of d arr h0 = Ok xs h1.
Proof.
  intros Hd Hab Hxs.
  destruct (array_backed_inv _ _ _ Hd Hab) as (src & Hsrc & Habs & _).
  rewrite (value_of_described _ _ _ _ Hd) in Hxs.
  unfold lazyValue_desc in Hxs. rewrite Hsrc in Hxs.
  apply bind_Ok in Hxs as (v & h0 & Hv & Hxs).
  destruct (array_backed_value_array _ _ _ _ _ Habs Hv) as [arr ->].
  apply bind_Ok in Hxs as (res & h2 & Hloop & Hret). inversion Hret; subst.
  eauto 6.
Qed.

Lemma value_of_lazy_intro fuel h r d src arr h0 ys h2 :
  described h r d -> desc_wrapped d = WRef src ->
  value_of fuel src h = Ok (VArr arr) h0 ->
  lazyLoop_of d arr h0 = Ok ys h2 ->
  value_of (S fuel) r h = Ok (VArr ys) h2.
Proof.
  intros Hd Hsrc Harr Hloop. rewrite (value_of_described _ _ _ _ Hd).
  unfold lazyValue_desc. rewrite Hsrc, (bind_eq _ _ _ _ _ Harr).
  now rewrite (bind_eq _ _ _ _ _ Hloop).
Qed.

Lemma sound_described h this d : sound h this d -> described h this d.
Proof. now intros [H _]. Qed.

Lemma sound_app h t this d : sound h this d -> sound (h ++ t) this d.
Proof.
  intros (Hd & Hab & Htc & Hdir).
  repeat split; auto using described_app, array_backed_app.
Qed.

(** The view of a wrapper is a range of [l >= 0] positions, or the loop on
    it returns at once. *)
Lemma view_cases vs arr :
  Forall (fun v => count_like (view_size v)) vs ->
  exists s e,
    getView (Fin 0) (lengthOf arr) vs = (s, e) /\
    ((exists a b, s = Fin a /\ e = Fin b /\ a <= b) \/
     (forall dir its tc idx h,
        lazyLoop (loop_steps (Num.sub e s)) arr dir its (Num.min (Num.sub e s) tc)
          (Num.sub e s) idx [] h = Ok [] h)).
Proof.
  intros Hviews.
  pose proof (getView_range vs _ Hviews (view_range_initial arr)) as Hrange.
  fold (getView (Fin 0) (lengthOf arr) vs) in Hrange.
  destruct (getView (Fin 0) (lengthOf arr) vs) as [s e].
  exists s, e. split; [reflexivity|].
  destruct Hrange as [[Hs | [a Hs]] [He | [b He]]]; simpl in Hs, He; subst s e.
  - right. intros. change (Num.sub NInf PInf) with NInf. cbn [loop_steps].
    apply lazyLoop_nothing. rewrite Num_lt_min. reflexivity.
  - right. intros. change (Num.sub (Fin b) PInf) with NInf. cbn [loop_steps].
    apply lazyLoop_nothing. rewrite Num_lt_min. reflexivity.
  - right. intros. rewrite Num_sub_NInf_Fin. cbn [loop_steps].
    apply lazyLoop_nothing. rewrite Num_lt_min. reflexivity.
  - destruct (Z.le_gt_cases a b) as [Hpos | Hneg].
    + left. eauto.
    + right. intros. rewrite Num_sub_Fin. unfold loop_steps.
      apply lazyLoop_nothing. rewrite Num_lt_min. unfold Num.lt at 1.
      destruct (Z.ltb_spec 0 (b - a)); [lia | reflexivity].
Qed.

(** What [dropWhile], [filter], [map] and [takeWhile] build on a receiver
    that they clone. *)
Lemma iteratee_method_cloned type cb h this d :
  described h this d ->
  desc_filtered d && match type with LAZY_DROP_WHILE_FLAG => true | _ => false end = false ->
  exists r h' e,
    lazy_iteratee_method type cb this h = Ok r h' /\
    (exists ext, h' = h ++ ext) /\
    described h' r
      (Desc (desc_wrapped d) (desc_actions d) (desc_dir d)
            (desc_filtered d || match type with LAZY_MAP_FLAG => false | _ => true end)
            (desc_iteratees d ++ [e]) (desc_takeCount d) (desc_views d)) /\
    h' !! e = Some (CData (Data false 0 (Fin 0) (baseCallback cb) (Fin (-1)) type)).
Proof.
  intros Hd Hclone.
  destruct (lazy_iteratee_method_spec type cb h this d Hd) as (r & h' & e & Hrun & Hb & _ & He).
  exists r, h', e. split; [assumption|]. split; [apply Hb|]. split; [|assumption].
  apply built_described in Hb. unfold desc_iteratee in Hb. now rewrite Hclone in Hb.
Qed.

(** The value of [map(iteratee)] is the eager [map] of the value of its
    receiver. *)
Lemma lazy_map_local cb h this d :
  described h this d -> array_backed h this ->
  exists r h',
    lazy_map cb this h = Ok r h' /\
    forall t fuel xs h1,
      value_of fuel this (h' ++ t) = Ok (VArr xs) h1 ->
      value_of fuel r (h' ++ t) = Ok (VArr (collection_map xs cb)) h1.
Proof.
  intros Hd Hab.
  destruct (iteratee_method_cloned LAZY_MAP_FLAG cb h this d Hd)
    as (r & h' & e & Hrun & [ext ->] & Hdr & He).
  { now rewrite andb_false_r. }
  exists r, (h ++ ext). split; [exact Hrun|].
  intros t fuel xs h1 Hxs. destruct fuel as [|fuel]; [discriminate|].
  pose proof (described_app _ t _ _ (described_app _ ext _ _ Hd)) as Hd'.
  pose proof (array_backed_app _ t _ (array_backed_app _ ext _ Hab)) as Hab'.
  destruct (value_of_lazy_inv _ _ _ _ _ _ Hd' Hab' Hxs) as (src & arr & h0 & Hsrc & Harr & Hloop).
  eapply value_of_lazy_intro; [apply described_app, Hdr | exact Hsrc | exact Harr |].
  unfold lazyLoop_of in *.
  cbn [desc_dir desc_views desc_iteratees desc_takeCount].
  destruct (getView (Fin 0) (lengthOf arr) (desc_views d)) as [s en].
  apply (lazyLoop_snoc_map _ _ _ e (baseCallback cb)) in Hloop; [exact Hloop|].
  eapply entry_is_shape; [exact (value_of_shape _ _ _ _ _ Harr)|].
  apply entry_is_app. eexists. split; [exact He|]. split; reflexivity.
Qed.

(** The value of [takeWhile(predicate)] is the eager [takeWhile] of the value
    of its receiver. *)
Lemma lazy_takeWhile_prefix cb h this d :
  described h this d -> array_backed h this ->
  exists r h',
    lazy_takeWhile cb this h = Ok r h' /\
    forall t fuel xs h1,
      value_of fuel this (h' ++ t) = Ok (VArr xs) h1 ->
      exists h2,
        value_of fuel r (h' ++ t)
        = Ok (VArr (prefix_while (fun v => truthy (baseCallback cb v)) xs)) h2.
Proof.
  intros Hd Hab.
  destruct (iteratee_method_cloned LAZY_TAKE_WHILE_FLAG cb h this d Hd)
    as (r & h' & e & Hrun & [ext ->] & Hdr & He).
  { now rewrite andb_false_r. }
  exists r, (h ++ ext). split; [exact Hrun|].
  intros t fuel xs h1 Hxs. destruct fuel as [|fuel]; [discriminate|].
  pose proof (described_app _ t _ _ (described_app _ ext _ _ Hd)) as Hd'.
  pose proof (array_backed_app _ t _ (array_backed_app _ ext _ Hab)) as Hab'.
  destruct (value_of_lazy_inv _ _ _ _ _ _ Hd' Hab' Hxs) as (src & arr & h0 & Hsrc & Harr & Hloop).
  assert (entry_is h0 e LAZY_TAKE_WHILE_FLAG (baseCallback cb)) as He0.
  { eapply entry_is_shape; [exact (value_of_shape _ _ _ _ _ Harr)|].
    apply entry_is_app. eexists. split; [exact He|]. split; reflexivity. }
  unfold lazyLoop_of in Hloop.
  destruct (getView (Fin 0) (lengthOf arr) (desc_views d)) as [s en] eqn:Hview.
  destruct (lazyLoop_snoc_takeWhile _ _ _ e (baseCallback cb) _ _ _ _ _ _ _ _ He0 Hloop)
    as [h2 Hloop2].
  exists h2.
  eapply value_of_lazy_intro; [apply described_app, Hdr | exact Hsrc | exact Harr |].
  unfold lazyLoop_of. cbn [desc_dir desc_views desc_iteratees desc_takeCount].
  rewrite Hview. exact Hloop2.
Qed.

(** The value of [filter(predicate)] is the eager [filter] of the value of
    its receiver, when the receiver has no take count. *)
Lemma lazy_filter_local cb h this d :
  described h this d -> array_backed h this -> desc_takeCount d = PInf ->
  exists r h',
    lazy_filter cb this h = Ok r h' /\
    forall t fuel xs h1,
      value_of fuel this (h' ++ t) = Ok (VArr xs) h1 ->
      value_of fuel r (h' ++ t) = Ok (VArr (collection_filter xs cb)) h1.
Proof.
  intros Hd Hab Htc.
  destruct (iteratee_method_cloned LAZY_FILTER_FLAG cb h this d Hd)
    as (r & h' & e & Hrun & [ext ->] & Hdr & He).
  { now rewrite andb_false_r. }
  exists r, (h ++ ext). split; [exact Hrun|].
  intros t fuel xs h1 Hxs. destruct fuel as [|fuel]; [discriminate|].
  pose proof (described_app _ t _ _ (described_app _ ext _ _ Hd)) as Hd'.
  pose proof (array_backed_app _ t _ (array_backed_app _ ext _ Hab)) as Hab'.
  destruct (value_of_lazy_inv _ _ _ _ _ _ Hd' Hab' Hxs) as (src & arr & h0 & Hsrc & Harr & Hloop).
  assert (entry_is h0 e LAZY_FILTER_FLAG (baseCallback cb)) as He0.
  { eapply entry_is_shape; [exact (value_of_shape _ _ _ _ _ Harr)|].
    apply entry_is_app. eexists. split; [exact He|]. split; reflexivity. }
  eapply value_of_lazy_intro; [apply described_app, Hdr | exact Hsrc | exact Harr |].
  destruct (array_backed_inv _ _ _ Hd Hab) as (_ & _ & _ & [Hviews _] & _).
  unfold lazyLoop_of in *. cbn [desc_dir desc_views desc_iteratees desc_takeCount].
  destruct (view_cases (desc_views d) arr Hviews)
    as (s & en & Hview & [(a & b & -> & -> & Hab0) | Hnone]); rewrite Hview in *.
  - rewrite Num_sub_Fin, Htc in *.
    change (Num.min (Fin (b - a)) PInf) with (Fin (b - a)) in *.
    rewrite (lazyLoop_snoc_filter _ _ _ e (baseCallback cb) (b - a) _ (b - a) _ [] []
               h0 xs h1 He0); auto; try lia.
    cbn [length Z.of_nat]. lia.
  - rewrite Hnone in Hloop. inversion Hloop; subst. apply Hnone.
Qed.

(** ** Evaluation leaves the rest of the store alone *)

Lemma insert_app_old (h t : heap) a c :
  (a < length h)%nat -> <[a := c]> (h ++ t) = <[a := c]> h ++ t.
Proof. intros Ha. now apply insert_app_l. Qed.

Lemma lazyIteratees_frame its : forall isRight index v h t p h1,
  Forall (is_entry h) its ->
  lazyIteratees its isRight index v (h ++ t) = Ok p h1 ->
  exists h', h1 = h' ++ t /\ same_shape h h' /\
             lazyIteratees its isRight index v h = Ok p h'.
Proof.
  induction its as [|a its IH]; intros isRight index v h t p h1 Hent H;
    cbn [lazyIteratees] in *.
  - inversion H; subst. exists h. split; [reflexivity|]. split; [apply same_shape_refl|].
    reflexivity.
  - inversion Hent as [|? ? [d Hl] Hrest]; subst.
    pose proof (lookup_app_old h t a _ Hl) as Hl'.
    rewrite (bind_eq _ _ _ _ _ (getData_eq _ _ _ Hl')) in H.
    rewrite (bind_eq _ _ _ _ _ (getData_eq _ _ _ Hl)).
    destruct (data_type d).
    + pose proof (dropWhile_visit_same isRight index v d) as Hsame.
      destruct (dropWhile_visit isRight index v d) as [d' skip]. simpl in Hsame.
      rewrite (bind_eq _ _ _ _ _ (store_eq a (CData d') _ _ Hl')) in H.
      rewrite (bind_eq _ _ _ _ _ (store_eq a (CData d') _ _ Hl)).
      rewrite insert_app_old in H by (eapply lookup_lt_Some; eauto).
      assert (same_shape h (<[a := CData d']> h)) as Hs
        by (eapply same_shape_insert; eauto).
      destruct skip.
      * inversion H; subst. eexists. split; [reflexivity|]. split; [exact Hs | reflexivity].
      * destruct (IH isRight index v _ t p h1 (entries_shape _ _ _ Hs Hrest) H)
          as (h' & -> & Hs' & Hrun).
        exists h'. split; [reflexivity|].
        split; [eapply same_shape_trans; eauto | exact Hrun].
    + destruct (truthy _); [now apply IH|].
      inversion H; subst. exists h. split; [reflexivity|].
      split; [apply same_shape_refl | reflexivity].
    + now apply IH.
    + destruct (truthy _); [now apply IH|].
      inversion H; subst. exists h. split; [reflexivity|].
      split; [apply same_shape_refl | reflexivity].
Qed.

Lemma lazyLoop_frame arr dir its T : forall steps len idx acc h t res h1,
  Forall (is_entry h) its ->
  lazyLoop steps arr dir its T len idx acc (h ++ t) = Ok res h1 ->
  exists h', h1 = h' ++ t /\ same_shape h h' /\
             lazyLoop steps arr dir its T len idx acc h = Ok res h'.
Proof.
  induction steps as [|steps IH]; intros len idx acc h t res h1 Hent H;
    cbn [lazyLoop] in *; [discriminate|].
  destruct (Num.truthy len && _).
  - apply bind_Ok in H as (p & h0 & Hp & H).
    destruct (lazyIteratees_frame _ _ _ _ _ _ _ _ Hent Hp) as (h0' & -> & Hs0 & Hp').
    rewrite (bind_eq _ _ _ _ _ Hp').
    destruct p.
    + destruct (IH _ _ _ _ _ _ _ (entries_shape _ _ _ Hs0 Hent) H) as (h' & -> & Hs & Hrun).
      exists h'. split; [reflexivity|]. split; [eapply same_shape_trans; eauto | exact Hrun].
    + destruct (IH _ _ _ _ _ _ _ (entries_shape _ _ _ Hs0 Hent) H) as (h' & -> & Hs & Hrun).
      exists h'. split; [reflexivity|]. split; [eapply same_shape_trans; eauto | exact Hrun].
    + inversion H; subst. exists h0'. split; [reflexivity|]. split; [exact Hs0 | reflexivity].
  - inversion H; subst. exists h. split; [reflexivity|].
    split; [apply same_shape_refl | reflexivity].
Qed.

(** The evaluation of an array-backed wrapper in a larger store is its
    evaluation in the store it lives in: it reads and writes nothing else. *)
Lemma value_of_frame h a :
  array_backed h a ->
  forall fuel t v h1,
    value_of fuel a (h ++ t) = Ok v h1 ->
    exists h', h1 = h' ++ t /\ same_shape h h' /\ value_of fuel a h = Ok v h'.
Proof.
  induction 1 as [a array acts chain Hl Ha | a d src Hd Hsrc Habs IH Hwf Hent];
    intros fuel t v h1 Hv; (destruct fuel as [|fuel]; [discriminate|]).
  - rewrite (value_of_lodash_array fuel (h ++ t) a array acts chain) in Hv
      by (now apply lookup_app_old).
    inversion Hv; subst. exists h. split; [reflexivity|]. split; [apply same_shape_refl|].
    now apply value_of_lodash_array with (acts := acts) (chain := chain).
  - rewrite (value_of_described _ _ _ _ (described_app _ t _ _ Hd)) in Hv.
    rewrite (value_of_described _ _ _ _ Hd).
    unfold lazyValue_desc in *. rewrite Hsrc in *.
    apply bind_Ok in Hv as (v0 & h0 & Hv0 & Hv).
    destruct (IH _ _ _ _ Hv0) as (h0' & -> & Hs0 & Hv0').
    rewrite (bind_eq _ _ _ _ _ Hv0').
    destruct (array_backed_value_array _ _ _ _ _ Habs Hv0') as [arr ->].
    apply bind_Ok in Hv as (res & h2 & Hloop & Hret). inversion Hret; subst.
    unfold lazyLoop_of in *.
    destruct (getView (Fin 0) (lengthOf arr) (desc_views d)) as [s e].
    destruct (lazyLoop_frame _ _ _ _ _ _ _ _ _ _ _ _ (entries_shape _ _ _ Hs0 Hent) Hloop)
      as (h' & -> & Hs & Hrun).
    exists h'. split; [reflexivity|]. split; [eapply same_shape_trans; eauto|].
    now rewrite (bind_eq _ _ _ _ _ Hrun).
Qed.

(** ** Loops on [map] entries, and on a drop-while entry after them *)

Lemma apply_maps_shape h h' its v :
  same_shape h h' -> apply_maps h' its v = apply_maps h its v.
Proof.
  intros Hs. revert v. induction its as [|e its IH]; intros v; cbn [apply_maps]; [reflexivity|].
  pose proof (same_shape_lookup_eq h h' e Hs) as H.
  destruct (h !! e) as [c|] eqn:Hl.
  - destruct c; try (rewrite H; reflexivity).
    destruct (same_shape_lookup _ _ _ _ Hs Hl) as (c' & Hl' & Hc).
    rewrite Hl'. destruct c'; simpl in Hc; try discriminate.
    destruct Hc as (-> & _). apply IH.
  - now rewrite H.
Qed.

Lemma lazyIteratees_apply_maps its : forall isRight index v h,
  Forall (is_map_entry h) its ->
  lazyIteratees its isRight index v h = Ok (Emit (apply_maps h its v)) h.
Proof.
  induction its as [|a its IH]; intros isRight index v h Hall;
    cbn [lazyIteratees apply_maps]; [reflexivity|].
  inversion Hall as [|? ? (d & Hl & Hty) Hrest]; subst.
  rewrite (bind_eq _ _ _ _ _ (getData_eq _ _ _ Hl)). rewrite Hty, Hl. now apply IH.
Qed.

Lemma maps_shape h h' its :
  same_shape h h' -> Forall (is_map_entry h) its -> Forall (is_map_entry h') its.
Proof. intros Hs H. eapply Forall_impl; [exact H|]. intros a. now apply is_map_entry_shape. Qed.

(** A loop on [map] entries, when the take count does not end it: every
    element that it visits is emitted, mapped. *)
Lemma lazyLoop_maps_walk arr dir its t h :
  Forall (is_map_entry h) its ->
  forall n steps idx acc,
    (n < steps)%nat -> Z.of_nat (length acc) + Z.of_nat n <= t ->
    lazyLoop steps arr dir its (Fin t) (Fin (Z.of_nat n)) (Fin idx) acc h
    = Ok (acc ++ map (apply_maps h its) (walk arr idx dir n)) h.
Proof.
  intros Hmaps. induction n as [|n IH]; intros steps idx acc Hsteps Ht;
    (destruct steps as [|steps]; [lia|]); cbn [lazyLoop walk map].
  - change (Num.truthy (Fin (Z.of_nat 0))) with false. cbn [andb]. now rewrite app_nil_r.
  - assert (Num.truthy (Fin (Z.of_nat (S n))) = true) as ->.
    { unfold Num.truthy. apply negb_true_iff, Z.eqb_neq. lia. }
    rewrite Num_lt_Fin. destruct (Z.ltb_spec (Z.of_nat (length acc)) t); [|lia].
    cbn [andb]. rewrite Num_sub_Fin.
    replace (Z.of_nat (S n) - 1) with (Z.of_nat n) by lia.
    change (Num.add (Fin idx) (Fin dir)) with (Fin (idx + dir)). cbn [arrayGet].
    rewrite (bind_eq _ _ _ _ _ (lazyIteratees_apply_maps its _ _ _ h Hmaps)).
    rewrite IH by (rewrite ?length_app; cbn [length]; lia).
    now rewrite <- app_assoc.
Qed.

(** One visit of the entries [its ++ [e]], [e] a drop-while entry. *)
Lemma lazyIteratees_maps_drop its e de isRight index v h :
  Forall (is_map_entry h) its ->
  h !! e = Some (CData de) -> data_type de = LAZY_DROP_WHILE_FLAG ->
  lazyIteratees (its ++ [e]) isRight index v h
  = Ok (if snd (dropWhile_visit isRight index (apply_maps h its v) de)
        then ContinueOuter else Emit (apply_maps h its v))
       (<[e := CData (fst (dropWhile_visit isRight index (apply_maps h its v) de))]> h).
Proof.
  intros Hmaps He Hty. rewrite lazyIteratees_app, (lazyIteratees_apply_maps its _ _ _ h Hmaps).
  cbn [lazyIteratees]. rewrite (bind_eq _ _ _ _ _ (getData_eq _ _ _ He)). rewrite Hty.
  destruct (dropWhile_visit isRight index (apply_maps h its v) de) as [d' skip].
  rewrite (bind_eq _ _ _ _ _ (store_eq e (CData d') _ _ He)). cbn [fst snd].
  destruct skip; reflexivity.
Qed.

Lemma insert_entry_shape h e de d' :
  h !! e = Some (CData de) -> cell_same (CData de) (CData d') ->
  same_shape h (<[e := CData d']> h).
Proof. intros. eapply same_shape_insert; eauto. Qed.

(** The loop once the drop-while entry is done: nothing more is dropped. *)
Lemma lazyLoop_entry_done arr dir its e t :
  dir = 1 \/ dir = -1 ->
  forall n steps idx acc h de i0,
    Forall (is_map_entry h) its ->
    h !! e = Some (CData de) -> data_type de = LAZY_DROP_WHILE_FLAG ->
    data_done de = true -> data_index de = Fin i0 ->
    (dir = 1 -> i0 <= idx) -> (dir = -1 -> idx <= i0) ->
    (n < steps)%nat -> Z.of_nat (length acc) + Z.of_nat n <= t ->
    exists h2,
      lazyLoop steps arr dir (its ++ [e]) (Fin t) (Fin (Z.of_nat n)) (Fin idx) acc h
      = Ok (acc ++ map (apply_maps h its) (walk arr idx dir n)) h2.
Proof.
  intros Hdir. induction n as [|n IH];
    intros steps idx acc h de i0 Hmaps He Hty Hdone Hidx Hup Hdown Hsteps Ht;
    (destruct steps as [|steps]; [lia|]); cbn [lazyLoop walk map].
  - change (Num.truthy (Fin (Z.of_nat 0))) with false. cbn [andb].
    exists h. now rewrite app_nil_r.
  - assert (Num.truthy (Fin (Z.of_nat (S n))) = true) as ->.
    { unfold Num.truthy. apply negb_true_iff, Z.eqb_neq. lia. }
    rewrite Num_lt_Fin. destruct (Z.ltb_spec (Z.of_nat (length acc)) t); [|lia].
    cbn [andb]. rewrite Num_sub_Fin.
    replace (Z.of_nat (S n) - 1) with (Z.of_nat n) by lia.
    change (Num.add (Fin idx) (Fin dir)) with (Fin (idx + dir)). cbn [arrayGet].
    rewrite (bind_eq _ _ _ _ _ (lazyIteratees_maps_drop its e de _ _ _ h Hmaps He Hty)).
    set (v' := apply_maps h its (arrayGetZ arr (idx + dir))).
    assert (dropWhile_visit (dir <? 0) (Fin (idx + dir)) v' de
            = (set_progress true (data_count de) (Fin (idx + dir)) de, false)) as Hvisit.
    { unfold dropWhile_visit. rewrite Hdone, Hidx. cbn [andb].
      assert ((if dir <? 0 then Num.gt (Fin (idx + dir)) (Fin i0)
               else Num.lt (Fin (idx + dir)) (Fin i0)) = false) as ->.
      { destruct Hdir as [-> | ->].
        - change (1 <? 0) with false. rewrite Num_lt_Fin. apply Z.ltb_ge. specialize (Hup eq_refl). lia.
        - change (-1 <? 0) with true. rewrite Num_gt_Fin. apply Z.ltb_ge.
          specialize (Hdown eq_refl). lia. }
      reflexivity. }
    rewrite Hvisit. cbn [fst snd].
    set (de' := set_progress true (data_count de) (Fin (idx + dir)) de).
    assert (same_shape h (<[e := CData de']> h)) as Hs.
    { eapply insert_entry_shape; [exact He|]. simpl. auto. }
    destruct (IH steps (idx + dir) (acc ++ [v']) (<[e := CData de']> h) de' (idx + dir))
      as [h2 IH2]; try reflexivity; try lia.
    + eapply maps_shape; eauto.
    + apply list_lookup_insert_eq. eapply lookup_lt_Some; eauto.
    + exact Hty.
    + rewrite length_app. cbn [length]. lia.
    + exists h2. rewrite IH2. f_equal. rewrite <- app_assoc. cbn [app]. do 2 f_equal.
      apply map_ext. intros a. now apply apply_maps_shape.
Qed.

(** The loop on a drop-while entry that counts: it drops the elements that
    its limit still asks for. *)
Lemma lazyLoop_entry_count arr dir its e t z :
  dir = 1 \/ dir = -1 -> 0 <= z ->
  forall n steps idx acc h de,
    Forall (is_map_entry h) its ->
    h !! e = Some (CData de) -> data_type de = LAZY_DROP_WHILE_FLAG ->
    data_done de = false -> data_limit de = Fin z ->
    (n < steps)%nat -> Z.of_nat (length acc) + Z.of_nat n <= t ->
    exists h2,
      lazyLoop steps arr dir (its ++ [e]) (Fin t) (Fin (Z.of_nat n)) (Fin idx) acc h
      = Ok (acc ++ drop (Z.to_nat (z - data_count de))
                     (map (apply_maps h its) (walk arr idx dir n))) h2.
Proof.
  intros Hdir Hz. induction n as [|n IH];
    intros steps idx acc h de Hmaps He Hty Hdone Hlim Hsteps Ht;
    (destruct steps as [|steps]; [lia|]); cbn [lazyLoop walk map].
  - change (Num.truthy (Fin (Z.of_nat 0))) with false. cbn [andb].
    exists h. now rewrite drop_nil, app_nil_r.
  - assert (Num.truthy (Fin (Z.of_nat (S n))) = true) as ->.
    { unfold Num.truthy. apply negb_true_iff, Z.eqb_neq. lia. }
    rewrite Num_lt_Fin. destruct (Z.ltb_spec (Z.of_nat (length acc)) t); [|lia].
    cbn [andb]. rewrite Num_sub_Fin.
    replace (Z.of_nat (S n) - 1) with (Z.of_nat n) by lia.
    change (Num.add (Fin idx) (Fin dir)) with (Fin (idx + dir)). cbn [arrayGet].
    rewrite (bind_eq _ _ _ _ _ (lazyIteratees_maps_drop its e de _ _ _ h Hmaps He Hty)).
    set (v' := apply_maps h its (arrayGetZ arr (idx + dir))).
    assert (dropWhile_visit (dir <? 0) (Fin (idx + dir)) v' de
            = (set_progress (negb (data_count de <? z)) (data_count de + 1)
                 (Fin (idx + dir)) de, data_count de <? z)) as Hvisit.
    { unfold dropWhile_visit. rewrite Hdone, Hlim. cbn [andb negb].
      rewrite Num_gt_Fin. destruct (Z.ltb_spec (-1) z); [|lia].
      unfold Num.ge. rewrite Num_lt_Fin. now rewrite negb_involutive. }
    rewrite Hvisit. cbn [fst snd].
    set (de' := set_progress _ _ _ de).
    assert (same_shape h (<[e := CData de']> h)) as Hs.
    { eapply insert_entry_shape; [exact He|]. simpl. auto. }
    assert ((<[e := CData de']> h) !! e = Some (CData de')) as He'
      by (apply list_lookup_insert_eq; eapply lookup_lt_Some; eauto).
    assert (forall l, map (apply_maps (<[e := CData de']> h) its) l
                      = map (apply_maps h its) l) as Hsame
      by (intros l; apply map_ext; intros a; now apply apply_maps_shape).
    destruct (Z.ltb_spec (data_count de) z) as [Hlt | Hge].
    + destruct (IH steps (idx + dir) acc (<[e := CData de']> h) de')
        as [h2 IH2]; try reflexivity; try lia; try assumption.
      * eapply maps_shape; eauto.
      * exists h2. rewrite IH2. f_equal. f_equal. rewrite Hsame.
        unfold de'. cbn [set_progress data_count].
        replace (Z.to_nat (z - data_count de))
          with (S (Z.to_nat (z - (data_count de + 1)))) by lia.
        reflexivity.
    + destruct (lazyLoop_entry_done arr dir its e t Hdir n steps (idx + dir) (acc ++ [v'])
                  (<[e := CData de']> h) de' (idx + dir))
        as [h2 Hrun]; try reflexivity; try lia; try assumption.
      * eapply maps_shape; eauto.
      * rewrite length_app. cbn [length]. lia.
      * exists h2. rewrite Hrun. f_equal. rewrite Hsame.
        replace (Z.to_nat (z - data_count de)) with O by lia.
        rewrite drop_0, <- app_assoc. reflexivity.
Qed.

(** With no limit to its count, the entry drops every element. *)
Lemma lazyLoop_entry_count_all arr dir its e t :
  forall n steps idx acc h de,
    Forall (is_map_entry h) its ->
    h !! e = Some (CData de) -> data_type de = LAZY_DROP_WHILE_FLAG ->
    data_done de = false -> data_limit de = PInf ->
    (n < steps)%nat ->
    exists h2,
      lazyLoop steps arr dir (its ++ [e]) (Fin t) (Fin (Z.of_nat n)) (Fin idx) acc h
      = Ok acc h2.
Proof.
  induction n as [|n IH]; intros steps idx acc h de Hmaps He Hty Hdone Hlim Hsteps;
    (destruct steps as [|steps]; [lia|]); cbn [lazyLoop].
  - change (Num.truthy (Fin (Z.of_nat 0))) with false. cbn [andb]. exists h. reflexivity.
  - destruct (Num.truthy _ && _); [|exists h; reflexivity].
    rewrite Num_sub_Fin. replace (Z.of_nat (S n) - 1) with (Z.of_nat n) by lia.
    change (Num.add (Fin idx) (Fin dir)) with (Fin (idx + dir)). cbn [arrayGet].
    rewrite (bind_eq _ _ _ _ _ (lazyIteratees_maps_drop its e de _ _ _ h Hmaps He Hty)).
    set (v' := apply_maps h its (arrayGetZ arr (idx + dir))).
    assert (dropWhile_visit (dir <? 0) (Fin (idx + dir)) v' de
            = (set_progress false (data_count de + 1) (Fin (idx + dir)) de, true)) as Hvisit.
    { unfold dropWhile_visit. rewrite Hdone, Hlim. reflexivity. }
    rewrite Hvisit. cbn [fst snd].
    set (de' := set_progress _ _ _ de).
    assert (same_shape h (<[e := CData de']> h)) as Hs.
    { eapply insert_entry_shape; [exact He|]. simpl. auto. }
    apply (IH steps (idx + dir) acc (<[e := CData de']> h) de'); try reflexivity; try lia.
    + eapply maps_shape; eauto.
    + apply list_lookup_insert_eq. eapply lookup_lt_Some; eauto.
    + exact Hty.
    + exact Hlim.
Qed.

(** The loop on a drop-while entry with a predicate: it drops the elements
    up to the first whose mapped value fails the predicate. *)
Lemma lazyLoop_entry_predicate arr dir its e t :
  dir = 1 \/ dir = -1 ->
  forall n steps idx acc h de,
    Forall (is_map_entry h) its ->
    h !! e = Some (CData de) -> data_type de = LAZY_DROP_WHILE_FLAG ->
    data_done de = false -> data_limit de = Fin (-1) ->
    (n < steps)%nat -> Z.of_nat (length acc) + Z.of_nat n <= t ->
    exists h2,
      lazyLoop steps arr dir (its ++ [e]) (Fin t) (Fin (Z.of_nat n)) (Fin idx) acc h
      = Ok (acc ++ after_prefix_while (fun v => truthy (data_iteratee de v))
                     (map (apply_maps h its) (walk arr idx dir n))) h2.
Proof.
  intros Hdir. induction n as [|n IH];
    intros steps idx acc h de Hmaps He Hty Hdone Hlim Hsteps Ht;
    (destruct steps as [|steps]; [lia|]); cbn [lazyLoop walk map].
  - change (Num.truthy (Fin (Z.of_nat 0))) with false. cbn [andb].
    exists h. cbn [after_prefix_while]. now rewrite app_nil_r.
  - assert (Num.truthy (Fin (Z.of_nat (S n))) = true) as ->.
    { unfold Num.truthy. apply negb_true_iff, Z.eqb_neq. lia. }
    rewrite Num_lt_Fin. destruct (Z.ltb_spec (Z.of_nat (length acc)) t); [|lia].
    cbn [andb]. rewrite Num_sub_Fin.
    replace (Z.of_nat (S n) - 1) with (Z.of_nat n) by lia.
    change (Num.add (Fin idx) (Fin dir)) with (Fin (idx + dir)). cbn [arrayGet].
    rewrite (bind_eq _ _ _ _ _ (lazyIteratees_maps_drop its e de _ _ _ h Hmaps He Hty)).
    set (v' := apply_maps h its (arrayGetZ arr (idx + dir))).
    assert (dropWhile_visit (dir <? 0) (Fin (idx + dir)) v' de
            = (set_progress (negb (truthy (data_iteratee de v'))) (data_count de)
                 (Fin (idx + dir)) de, truthy (data_iteratee de v'))) as Hvisit.
    { unfold dropWhile_visit. rewrite Hdone, Hlim. cbn [andb negb].
      change (Num.gt (Fin (-1)) (Fin (-1))) with false. cbn iota.
      now rewrite negb_involutive. }
    rewrite Hvisit. cbn [fst snd after_prefix_while].
    set (de' := set_progress _ _ _ de).
    assert (same_shape h (<[e := CData de']> h)) as Hs.
    { eapply insert_entry_shape; [exact He|]. simpl. auto. }
    assert ((<[e := CData de']> h) !! e = Some (CData de')) as He'
      by (apply list_lookup_insert_eq; eapply lookup_lt_Some; eauto).
    assert (forall l, map (apply_maps (<[e := CData de']> h) its) l
                      = map (apply_maps h its) l) as Hsame
      by (intros l; apply map_ext; intros a; now apply apply_maps_shape).
    destruct (truthy (data_iteratee de v')) eqn:Hp.
    + destruct (IH steps (idx + dir) acc (<[e := CData de']> h) de')
        as [h2 IH2]; try reflexivity; try lia; try assumption.
      * eapply maps_shape; eauto.
      * exists h2. rewrite IH2. now rewrite Hsame.
    + destruct (lazyLoop_entry_done arr dir its e t Hdir n steps (idx + dir) (acc ++ [v'])
                  (<[e := CData de']> h) de' (idx + dir))
        as [h2 Hrun]; try reflexivity; try lia; try assumption.
      * eapply maps_shape; eauto.
      * rewrite length_app. cbn [length]. lia.
      * exists h2. rewrite Hrun. f_equal. rewrite Hsame.
        rewrite <- app_assoc. reflexivity.
Qed.

(** ** The elements that a loop visits *)

Lemma walk_length arr idx dir n : length (walk arr idx dir n) = n.
Proof. revert idx. induction n as [|n IH]; intros idx; cbn [walk length]; auto. Qed.

Lemma walk_forward arr : forall n s,
  (s + n <= length arr)%nat ->
  walk arr (Z.of_nat s - 1) 1 n = take n (drop s arr).
Proof.
  induction n as [|n IH]; intros s Hs; cbn [walk]; [reflexivity|].
  replace (Z.of_nat s - 1 + 1) with (Z.of_nat s) by lia.
  destruct (lookup_lt_is_Some_2 arr s ltac:(lia)) as [x Hx].
  rewrite (arrayGetZ_lookup arr s x Hx).
  replace (Z.of_nat s) with (Z.of_nat (S s) - 1) by lia.
  rewrite IH by lia. rewrite (drop_S arr x s Hx). reflexivity.
Qed.

Lemma walk_all (xs : list value) : walk xs (-1) 1 (length xs) = xs.
Proof.
  pose proof (walk_forward xs (length xs) O ltac:(lia)) as H.
  change (Z.of_nat 0 - 1) with (-1) in H. rewrite H, drop_0. apply firstn_all.
Qed.

Lemma walk_snoc arr dir : forall n idx,
  walk arr idx dir (S n)
  = walk arr idx dir n ++ [arrayGetZ arr (idx + dir * Z.of_nat (S n))].
Proof.
  induction n as [|n IH]; intros idx.
  - cbn [walk app]. do 2 f_equal. lia.
  - change (walk arr idx dir (S (S n)))
      with (arrayGetZ arr (idx + dir) :: walk arr (idx + dir) dir (S n)).
    rewrite IH.
    change (walk arr idx dir (S n))
      with (arrayGetZ arr (idx + dir) :: walk arr (idx + dir) dir n).
    cbn [app]. do 4 f_equal. rewrite !Nat2Z.inj_succ. ring.
Qed.

(** Walking down from the end visits what walking up from the start visits,
    in the opposite order. *)
Lemma walk_backward arr : forall n s,
  walk arr (s + Z.of_nat n) (-1) n = rev (walk arr (s - 1) 1 n).
Proof.
  induction n as [|n IH]; intros s; [reflexivity|].
  rewrite (walk_snoc arr 1 n). rewrite rev_app_distr.
  change (walk arr (s + Z.of_nat (S n)) (-1) (S n))
    with (arrayGetZ arr (s + Z.of_nat (S n) + -1)
            :: walk arr (s + Z.of_nat (S n) + -1) (-1) n).
  cbn [rev app].
  f_equal; [f_equal; lia|].
  replace (s + Z.of_nat (S n) + -1) with (s + Z.of_nat n) by lia. apply IH.
Qed.

Lemma walk_drop arr dir : forall z n idx,
  (z <= n)%nat ->
  walk arr (idx + dir * Z.of_nat z) dir (n - z) = drop z (walk arr idx dir n).
Proof.
  induction z as [|z IH]; intros n idx Hz.
  - rewrite Z.mul_0_r, Z.add_0_r, Nat.sub_0_r. reflexivity.
  - destruct n as [|n]; [lia|]. cbn [walk drop Nat.sub].
    rewrite <- IH by lia. f_equal. rewrite Nat2Z.inj_succ. ring.
Qed.

(** ** The value of a wrapper that is not filtered *)

(** The loop of a wrapper with [map] entries only and no take count: the
    elements of its view, in its direction, mapped. *)
Lemma lazyLoop_of_unfiltered d arr h :
  Forall (is_map_entry h) (desc_iteratees d) -> desc_takeCount d = PInf ->
  forall a b,
    getView (Fin 0) (lengthOf arr) (desc_views d) = (Fin a, Fin b) -> a <= b ->
    lazyLoop_of d arr h
    = Ok (map (apply_maps h (desc_iteratees d))
            (walk arr (if desc_dir d <? 0 then b else a - 1) (desc_dir d)
               (Z.to_nat (b - a)))) h.
Proof.
  intros Hmaps Htc a b Hview Hab. unfold lazyLoop_of. rewrite Hview, Htc.
  rewrite !Num_sub_Fin. change (Num.min (Fin (b - a)) PInf) with (Fin (b - a)).
  unfold loop_steps.
  rewrite <- (Z2Nat.id (b - a)) at 2 3 by lia.
  assert ((if desc_dir d <? 0 then Fin b else Fin (a - 1))
          = Fin (if desc_dir d <? 0 then b else a - 1)) as ->
    by (destruct (desc_dir d <? 0); reflexivity).
  rewrite (lazyLoop_maps_walk arr (desc_dir d) (desc_iteratees d)
             (Z.of_nat (Z.to_nat (b - a))) h Hmaps);
    [reflexivity | lia | cbn [length]; lia].
Qed.

(** ** reverse, drop, dropWhile and take on any wrapper *)

Lemma sound_inv h this d :
  sound h this d ->
  exists src,
    desc_wrapped d = WRef src /\ array_backed h src /\
    Forall (fun v => count_like (view_size v)) (desc_views d) /\
    (desc_filtered d = false ->
     Forall (is_map_entry h) (desc_iteratees d) /\ desc_takeCount d = PInf) /\
    (desc_dir d = 1 \/ desc_dir d = -1).
Proof.
  intros (Hd & Hab & Htc & Hdir).
  destruct (array_backed_inv _ _ _ Hd Hab) as (src & Hsrc & Habs & [Hviews Hmaps] & _).
  exists src. repeat split; auto.
Qed.

(** The value of [reverse()] is the value of its receiver, reversed. *)
Lemma lazyReverse_local h this d :
  sound h this d ->
  exists r h',
    lazyReverse this h = Ok r h' /\
    forall t fuel xs h1,
      value_of fuel this (h' ++ t) = Ok (VArr xs) h1 ->
      exists h2, value_of (S fuel) r (h' ++ t) = Ok (VArr (rev xs)) h2.
Proof.
  intros Hsound. pose proof Hsound as (Hd & Hab & _).
  destruct (sound_inv _ _ _ Hsound) as (src & Hsrc & Habs & Hviews & Hunf & Hdir).
  destruct (lazyReverse_spec h this d Hd) as (r & h' & Hrun & Hb).
  exists r, h'. split; [exact Hrun|].
  pose proof (built_described _ _ _ _ Hb) as Hdr. destruct Hb as ([ext ->] & _).
  intros t fuel xs h1 Hxs. unfold desc_reverse in Hdr.
  destruct (desc_filtered d) eqn:Hf.
  - exists h1. eapply value_of_reversing; [apply described_app, Hdr | exact Hxs].
  - destruct (Hunf eq_refl) as [Hmaps Htc].
    destruct fuel as [|fuel]; [discriminate|].
    pose proof (described_app _ t _ _ (described_app _ ext _ _ Hd)) as Hd'.
    pose proof (array_backed_app _ t _ (array_backed_app _ ext _ Hab)) as Hab'.
    destruct (value_of_lazy_inv _ _ _ _ _ _ Hd' Hab' Hxs)
      as (src' & arr & h0 & Hsrc' & Harr & Hloop).
    assert (Forall (is_map_entry h0) (desc_iteratees d)) as Hmaps0.
    { eapply maps_shape; [exact (value_of_shape _ _ _ _ _ Harr)|].
      eapply Forall_impl; [exact Hmaps|]. intros a Ha.
      now apply is_map_entry_app, is_map_entry_app. }
    assert (exists h2, lazyLoop_of (desc_set_dir (desc_dir d * -1) d) arr h0
                       = Ok (rev xs) h2) as [h2 Hloop2].
    { destruct (view_cases (desc_views d) arr Hviews)
        as (s & en & Hview & [(a & b & -> & -> & Hab0) | Hnone]).
      - rewrite (lazyLoop_of_unfiltered d arr h0 Hmaps0 Htc a b Hview Hab0) in Hloop.
        inversion Hloop; subst. eexists.
        rewrite (lazyLoop_of_unfiltered (desc_set_dir (desc_dir d * -1) d) arr _
                   Hmaps0 Htc a b Hview Hab0).
        cbn [desc_set_dir desc_dir desc_iteratees]. f_equal. rewrite <- map_rev. f_equal.
        destruct Hdir as [-> | ->].
        + change (1 <? 0) with false. change (1 * -1 <? 0) with true. cbn iota.
          change (1 * -1) with (-1).
          replace b with (a + Z.of_nat (Z.to_nat (b - a))) at 1 by lia.
          apply walk_backward.
        + change (-1 <? 0) with true. change (-1 * -1 <? 0) with false. cbn iota.
          change (-1 * -1) with 1.
          replace b with (a + Z.of_nat (Z.to_nat (b - a))) at 2 by lia.
          rewrite walk_backward. now rewrite rev_involutive.
      - unfold lazyLoop_of in *. cbn [desc_set_dir desc_dir desc_views desc_iteratees
                                        desc_takeCount].
        rewrite Hview in *. rewrite Hnone in Hloop. inversion Hloop; subst.
        eexists. apply Hnone. }
    exists h2. apply (value_of_mono (S fuel)); [lia|].
    eapply value_of_lazy_intro; [apply described_app, Hdr | | exact Harr | exact Hloop2].
    exact Hsrc'.
Qed.

Lemma lazyLoop_of_nothing d arr h p :
  getView (Fin 0) (lengthOf arr) (desc_views d) = p ->
  Num.sub (snd p) (fst p) = NInf \/ (exists l, Num.sub (snd p) (fst p) = Fin l /\ l <= 0) ->
  lazyLoop_of d arr h = Ok [] h.
Proof.
  intros Hview Hlen. unfold lazyLoop_of. rewrite Hview. destruct p as [s e].
  cbn [fst snd] in Hlen.
  destruct Hlen as [-> | (l & -> & Hl)].
  - cbn [loop_steps]. apply lazyLoop_nothing. rewrite Num_lt_min. reflexivity.
  - unfold loop_steps. apply lazyLoop_nothing. rewrite Num_lt_min. unfold Num.lt at 1.
    destruct (Z.ltb_spec 0 l); [lia | reflexivity].
Qed.

Ltac view_step :=
  cbn [getView_step view_size view_type_of Z.ltb Z.compare fst snd];
  repeat change (Num.add (Fin ?a) (Fin ?z)) with (Fin (a + z));
  rewrite ?Num_sub_Fin, ?Num_sub_NInf_Fin.

(** The loop of [drop(n)] on a wrapper that is not filtered, against the loop
    of its receiver. *)
Lemma lazyLoop_of_drop d arr h cnt xs h1 :
  Forall (is_map_entry h) (desc_iteratees d) -> desc_takeCount d = PInf ->
  Forall (fun v => count_like (view_size v)) (desc_views d) ->
  desc_dir d = 1 \/ desc_dir d = -1 -> count_like cnt ->
  lazyLoop_of d arr h = Ok xs h1 ->
  lazyLoop_of (desc_add_view
                 (View cnt (if desc_dir d <? 0 then VIEW_dropRight else VIEW_drop)) d) arr h
  = Ok (match cnt with Fin z => drop (Z.to_nat z) xs | _ => [] end) h.
Proof.
  intros Hmaps Htc Hviews Hdir Hcnt Hrun.
  set (d' := desc_add_view _ d).
  pose proof (getView_range (desc_views d) _ Hviews (view_range_initial arr)) as Hrange.
  fold (getView (Fin 0) (lengthOf arr) (desc_views d)) in Hrange.
  destruct (getView (Fin 0) (lengthOf arr) (desc_views d)) as [s e] eqn:Hview.
  assert (getView (Fin 0) (lengthOf arr) (desc_views d')
          = getView_step (s, e)
              (View cnt (if desc_dir d <? 0 then VIEW_dropRight else VIEW_drop))) as Hview'.
  { unfold d'. cbn [desc_add_view desc_views]. now rewrite getView_app, Hview. }
  destruct Hcnt as [-> | (z & Hz & ->)].
  { (* no element is left *)
    apply (lazyLoop_of_nothing d' arr h _ Hview'). left.
    destruct Hrange as [[Hs | [a Hs]] [He | [b He]]]; simpl in Hs, He; subst s e;
      destruct Hdir as [-> | ->]; view_step; reflexivity. }
  destruct Hrange as [[Hs | [a Hs]] [He | [b He]]]; simpl in Hs, He; subst s e.
  - rewrite (lazyLoop_of_nothing d arr h _ Hview) in Hrun by (left; reflexivity).
    inversion Hrun; subst. rewrite drop_nil.
    apply (lazyLoop_of_nothing d' arr _ _ Hview'). left.
    destruct Hdir as [-> | ->]; view_step; reflexivity.
  - rewrite (lazyLoop_of_nothing d arr h _ Hview) in Hrun by (left; reflexivity).
    inversion Hrun; subst. rewrite drop_nil.
    apply (lazyLoop_of_nothing d' arr _ _ Hview'). left.
    destruct Hdir as [-> | ->]; view_step; reflexivity.
  - rewrite (lazyLoop_of_nothing d arr h _ Hview) in Hrun
      by (left; view_step; reflexivity).
    inversion Hrun; subst. rewrite drop_nil.
    apply (lazyLoop_of_nothing d' arr _ _ Hview'). left.
    destruct Hdir as [-> | ->]; view_step; reflexivity.
  - destruct (Z.le_gt_cases a b) as [Hab | Hab].
    + rewrite (lazyLoop_of_unfiltered d arr h Hmaps Htc a b Hview Hab) in Hrun.
      inversion Hrun; subst h1. clear Hrun.
      assert (length xs = Z.to_nat (b - a)) as Hlen
        by (subst xs; now rewrite length_map, walk_length).
      destruct Hdir as [Hdir | Hdir]; rewrite Hdir in *;
        cbn [getView_step view_size view_type_of Z.ltb Z.compare] in Hview'.
      * change (Num.add (Fin a) (Fin z)) with (Fin (a + z)) in Hview'.
        destruct (Z.le_gt_cases (a + z) b) as [Hfit | Hover].
        -- rewrite (lazyLoop_of_unfiltered d' arr h Hmaps Htc (a + z) b Hview' Hfit).
           f_equal. subst xs. rewrite skipn_map. f_equal.
           unfold d'. cbn [desc_add_view desc_dir]. rewrite Hdir.
           change (1 <? 0) with false. cbn iota.
           rewrite <- (walk_drop arr 1 (Z.to_nat z) (Z.to_nat (b - a)) (a - 1)) by lia.
           f_equal; lia.
        -- rewrite (lazyLoop_of_nothing d' arr h _ Hview')
             by (right; view_step; eexists; split; [reflexivity | lia]).
           f_equal. symmetry. apply drop_ge. rewrite ?length_map, ?walk_length, ?Hlen. lia.
      * rewrite Num_sub_Fin in Hview'.
        destruct (Z.le_gt_cases a (b - z)) as [Hfit | Hover].
        -- rewrite (lazyLoop_of_unfiltered d' arr h Hmaps Htc a (b - z) Hview' Hfit).
           f_equal. subst xs. rewrite skipn_map. f_equal.
           unfold d'. cbn [desc_add_view desc_dir]. rewrite Hdir.
           change (-1 <? 0) with true. cbn iota.
           rewrite <- (walk_drop arr (-1) (Z.to_nat z) (Z.to_nat (b - a)) b) by lia.
           f_equal; lia.
        -- rewrite (lazyLoop_of_nothing d' arr h _ Hview')
             by (right; view_step; eexists; split; [reflexivity | lia]).
           f_equal. symmetry. apply drop_ge. rewrite ?length_map, ?walk_length, ?Hlen. lia.
    + rewrite (lazyLoop_of_nothing d arr h _ Hview) in Hrun
        by (right; view_step; eexists; split; [reflexivity | lia]).
      inversion Hrun; subst. rewrite drop_nil.
      apply (lazyLoop_of_nothing d' arr _ _ Hview'). right.
      destruct Hdir as [-> | ->]; view_step; eexists; (split; [reflexivity | lia]).
Qed.

(** An entry made after the receiver is not touched by the evaluation of the
    receiver. *)
Lemma fresh_entry_kept h ext t this fuel xs h1 e c :
  array_backed h this ->
  value_of fuel this ((h ++ ext) ++ t) = Ok (VArr xs) h1 ->
  (length h <= e)%nat -> (h ++ ext) !! e = Some c ->
  h1 !! e = Some c.
Proof.
  intros Hab Hv He Hc. rewrite <- app_assoc in Hv.
  destruct (value_of_frame h this Hab _ _ _ _ Hv) as (h0 & -> & Hs & _).
  apply same_shape_length in Hs.
  rewrite lookup_app_r in Hc by lia. rewrite lookup_app_r by lia.
  rewrite <- Hs. now apply lookup_app_old.
Qed.

(** The value of [drop(n)] is the value of its receiver without its first
    [n] elements. *)
Lemma lazy_drop_local n h this d :
  sound h this d ->
  exists r h',
    lazy_drop n this h = Ok r h' /\
    forall t fuel xs h1,
      value_of fuel this (h' ++ t) = Ok (VArr xs) h1 ->
      exists h2, value_of (S fuel) r (h' ++ t)
                 = Ok (VArr (match lazy_count n with
                             | Fin z => drop (Z.to_nat z) xs
                             | _ => []
                             end)) h2.
Proof.
  intros Hsound. pose proof Hsound as (Hd & Hab & _).
  destruct (sound_inv _ _ _ Hsound) as (src & Hsrc & Habs & Hviews & Hunf & Hdir).
  destruct (lazy_drop_spec n h this d Hd) as (r & h' & e & Hrun & Hb & Hfresh).
  exists r, h'. split; [exact Hrun|].
  pose proof (built_described _ _ _ _ Hb) as Hdr. destruct Hb as ([ext ->] & _).
  intros t fuel xs h1 Hxs. unfold desc_drop in Hdr.
  destruct (desc_filtered d) eqn:Hf.
  - destruct (Hfresh eq_refl) as [He Hcell].
    pose proof (fresh_entry_kept _ _ _ _ _ _ _ _ _ Hab Hxs He Hcell) as He1.
    assert (exists h2, lazyLoop_of (Desc (WRef this) None 1 true [e] PInf []) xs h1
                       = Ok (match lazy_count n with
                             | Fin z => drop (Z.to_nat z) xs
                             | _ => []
                             end) h2) as [h2 Hloop].
    { unfold lazyLoop_of. cbn [desc_dir desc_views desc_iteratees desc_takeCount getView
                                fold_left].
      unfold lengthOf. rewrite Num_sub_Fin, Z.sub_0_r. change (1 <? 0) with false. cbn iota.
      change (Num.min (Fin ?l) PInf) with (Fin l). unfold loop_steps.
      rewrite Nat2Z.id. change (Num.sub (Fin 0) (Fin 1)) with (Fin (-1)).
      destruct (lazy_count_range n) as [Hc | (z & Hz & Hc)]; rewrite Hc in *.
      - apply (lazyLoop_entry_count_all xs 1 [] e _ (length xs) _ (-1) [] h1 _
                 (Forall_nil_2 _) He1); try reflexivity. lia.
      - destruct (lazyLoop_entry_count xs 1 [] e (Z.of_nat (length xs)) z (or_introl eq_refl)
                    Hz (length xs) (S (length xs)) (-1) [] h1 _ (Forall_nil_2 _) He1)
          as [h2 H2]; try reflexivity; try (cbn [length]; lia).
        exists h2. cbn [app] in H2. rewrite H2. cbn [app data_count apply_maps].
        rewrite Z.sub_0_r, walk_all. now rewrite map_id. }
    exists h2. eapply value_of_lazy_intro; [apply described_app, Hdr | reflexivity
                                            | exact Hxs | exact Hloop].
  - destruct (Hunf eq_refl) as [Hmaps Htc].
    destruct fuel as [|fuel]; [discriminate|].
    pose proof (described_app _ t _ _ (described_app _ ext _ _ Hd)) as Hd'.
    pose proof (array_backed_app _ t _ (array_backed_app _ ext _ Hab)) as Hab'.
    destruct (value_of_lazy_inv _ _ _ _ _ _ Hd' Hab' Hxs)
      as (src' & arr & h0 & Hsrc' & Harr & Hloop).
    assert (Forall (is_map_entry h0) (desc_iteratees d)) as Hmaps0.
    { eapply maps_shape; [exact (value_of_shape _ _ _ _ _ Harr)|].
      eapply Forall_impl; [exact Hmaps|]. intros a Ha.
      now apply is_map_entry_app, is_map_entry_app. }
    pose proof (lazyLoop_of_drop d arr h0 (lazy_count n) xs h1 Hmaps0 Htc Hviews Hdir
                  (lazy_count_range n) Hloop) as Hloop2.
    exists h0. apply (value_of_mono (S fuel)); [lia|].
    eapply value_of_lazy_intro; [apply described_app, Hdr | | exact Harr | exact Hloop2].
    exact Hsrc'.
Qed.

(** The value of [dropWhile(predicate)] is the value of its receiver without
    its longest prefix of elements that pass the predicate. *)
Lemma lazy_dropWhile_local cb h this d :
  sound h this d ->
  exists r h',
    lazy_dropWhile cb this h = Ok r h' /\
    forall t fuel xs h1,
      value_of fuel this (h' ++ t) = Ok (VArr xs) h1 ->
      exists h2, value_of (S fuel) r (h' ++ t)
                 = Ok (VArr (after_prefix_while (fun v => truthy (baseCallback cb v)) xs)) h2.
Proof.
  intros Hsound. pose proof Hsound as (Hd & Hab & _).
  destruct (sound_inv _ _ _ Hsound) as (src & Hsrc & Habs & Hviews & Hunf & Hdir).
  destruct (lazy_iteratee_method_spec LAZY_DROP_WHILE_FLAG cb h this d Hd)
    as (r & h' & e & Hrun & Hb & He & Hcell).
  exists r, h'. split; [exact Hrun|].
  pose proof (built_described _ _ _ _ Hb) as Hdr. destruct Hb as ([ext ->] & _).
  intros t fuel xs h1 Hxs. unfold desc_iteratee in Hdr. rewrite andb_true_r in Hdr.
  destruct (desc_filtered d) eqn:Hf.
  - pose proof (fresh_entry_kept _ _ _ _ _ _ _ _ _ Hab Hxs He Hcell) as He1.
    assert (exists h2, lazyLoop_of (Desc (WRef this) None 1 true [e] PInf []) xs h1
                       = Ok (after_prefix_while (fun v => truthy (baseCallback cb v)) xs) h2)
      as [h2 Hloop].
    { unfold lazyLoop_of. cbn [desc_dir desc_views desc_iteratees desc_takeCount getView
                                fold_left].
      unfold lengthOf. rewrite Num_sub_Fin, Z.sub_0_r. change (1 <? 0) with false. cbn iota.
      change (Num.min (Fin ?l) PInf) with (Fin l). unfold loop_steps.
      rewrite Nat2Z.id. change (Num.sub (Fin 0) (Fin 1)) with (Fin (-1)).
      destruct (lazyLoop_entry_predicate xs 1 [] e (Z.of_nat (length xs)) (or_introl eq_refl)
                  (length xs) (S (length xs)) (-1) [] h1 _ (Forall_nil_2 _) He1)
        as [h2 H2]; try reflexivity; try (cbn [length]; lia).
      exists h2. cbn [app] in H2. rewrite H2. cbn [app data_iteratee apply_maps].
      rewrite walk_all. now rewrite map_id. }
    exists h2. eapply value_of_lazy_intro; [apply described_app, Hdr | reflexivity
                                            | exact Hxs | exact Hloop].
  - destruct (Hunf eq_refl) as [Hmaps Htc].
    destruct fuel as [|fuel]; [discriminate|].
    pose proof (described_app _ t _ _ (described_app _ ext _ _ Hd)) as Hd'.
    pose proof (array_backed_app _ t _ (array_backed_app _ ext _ Hab)) as Hab'.
    destruct (value_of_lazy_inv _ _ _ _ _ _ Hd' Hab' Hxs)
      as (src' & arr & h0 & Hsrc' & Harr & Hloop).
    assert (src' = src) as -> by congruence.
    pose proof (fresh_entry_kept _ _ _ _ _ _ _ _ _ Habs Harr He Hcell) as He0.
    assert (Forall (is_map_entry h0) (desc_iteratees d)) as Hmaps0.
    { eapply maps_shape; [exact (value_of_shape _ _ _ _ _ Harr)|].
      eapply Forall_impl; [exact Hmaps|]. intros a Ha.
      now apply is_map_entry_app, is_map_entry_app. }
    set (dr := Desc _ _ _ _ _ _ _) in Hdr.
    assert (exists h2, lazyLoop_of dr arr h0
                       = Ok (after_prefix_while (fun v => truthy (baseCallback cb v)) xs) h2)
      as [h2 Hloop2].
    { destruct (view_cases (desc_views d) arr Hviews)
        as (s & en & Hview & [(a & b & -> & -> & Hab0) | Hnone]).
      - rewrite (lazyLoop_of_unfiltered d arr h0 Hmaps0 Htc a b Hview Hab0) in Hloop.
        inversion Hloop; subst h1. clear Hloop.
        unfold lazyLoop_of, dr. cbn [desc_dir desc_views desc_iteratees desc_takeCount].
        rewrite Hview, Htc, !Num_sub_Fin.
        change (Num.min (Fin (b - a)) PInf) with (Fin (b - a)). unfold loop_steps.
        destruct (lazyLoop_entry_predicate arr (desc_dir d) (desc_iteratees d) e (b - a) Hdir
                    (Z.to_nat (b - a)) (S (Z.to_nat (b - a)))
                    (if desc_dir d <? 0 then b else a - 1) [] h0 _ Hmaps0 He0)
          as [h2 H2]; try reflexivity; try (cbn [length]; lia).
        exists h2. rewrite Z2Nat.id in H2 by lia.
        replace (if desc_dir d <? 0 then Fin b else Fin (a - 1))
          with (Fin (if desc_dir d <? 0 then b else a - 1))
          by (destruct (desc_dir d <? 0); reflexivity).
        rewrite H2. cbn [app data_iteratee]. subst xs. reflexivity.
      - unfold lazyLoop_of in *. unfold dr.
        cbn [desc_dir desc_views desc_iteratees desc_takeCount].
        rewrite Hview in *. rewrite Hnone in Hloop. inversion Hloop; subst.
        eexists. apply Hnone. }
    exists h2. apply (value_of_mono (S fuel)); [lia|].
    eapply value_of_lazy_intro; [apply described_app, Hdr | | exact Harr | exact Hloop2].
    exact Hsrc.
Qed.

(** [take(Infinity)] takes every element. *)
Lemma lazyLoop_of_take_all d arr h :
  Forall (fun v => count_like (view_size v)) (desc_views d) ->
  lazyLoop_of (desc_take PInf d) arr h = lazyLoop_of d arr h.
Proof.
  intros Hviews. unfold lazyLoop_of, desc_take.
  destruct (desc_filtered d).
  - cbn [desc_set_takeCount desc_dir desc_views desc_takeCount desc_iteratees].
    replace (Num.min (desc_takeCount d) PInf) with (desc_takeCount d)
      by (destruct (desc_takeCount d); reflexivity).
    reflexivity.
  - cbn [desc_add_view desc_dir desc_views desc_takeCount desc_iteratees].
    rewrite getView_app.
    pose proof (getView_range (desc_views d) _ Hviews (view_range_initial arr)) as Hrange.
    fold (getView (Fin 0) (lengthOf arr) (desc_views d)) in Hrange.
    destruct (getView (Fin 0) (lengthOf arr) (desc_views d)) as [s e].
    destruct Hrange as [[Hs | [a Hs]] [He | [b He]]]; simpl in Hs, He; subst s e;
      destruct (desc_dir d <? 0); reflexivity.
Qed.

(** The value of [take(n)] is the first [n] elements of the value of its
    receiver. *)
Lemma lazy_take_local n h this d :
  described h this d -> array_backed h this ->
  exists r h',
    lazy_take n this h = Ok r h' /\
    forall t fuel xs h1,
      value_of fuel this (h' ++ t) = Ok (VArr xs) h1 ->
      exists h2, value_of fuel r (h' ++ t)
                 = Ok (VArr (match lazy_count n with
                             | Fin z => take (Z.to_nat z) xs
                             | _ => xs
                             end)) h2.
Proof.
  intros Hd Hab.
  destruct (array_backed_inv _ _ _ Hd Hab) as (src & Hsrc & Habs & [Hviews Hmaps] & _).
  destruct (lazy_take_spec n h this d Hd) as (r & h' & Hrun & Hb).
  exists r, h'. split; [exact Hrun|].
  pose proof (built_described _ _ _ _ Hb) as Hdr. destruct Hb as ([ext ->] & _).
  intros t fuel xs h1 Hxs. destruct fuel as [|fuel]; [discriminate|].
  pose proof (described_app _ t _ _ (described_app _ ext _ _ Hd)) as Hd'.
  pose proof (array_backed_app _ t _ (array_backed_app _ ext _ Hab)) as Hab'.
  destruct (value_of_lazy_inv _ _ _ _ _ _ Hd' Hab' Hxs)
    as (src' & arr & h0 & Hsrc' & Harr & Hloop).
  assert (exists h2, lazyLoop_of (desc_take (lazy_count n) d) arr h0
                     = Ok (match lazy_count n with
                           | Fin z => take (Z.to_nat z) xs
                           | _ => xs
                           end) h2) as [h2 Hloop2].
  { destruct (lazy_count_range n) as [Hc | (z & Hz & Hc)]; rewrite Hc.
    - exists h1. now rewrite lazyLoop_of_take_all.
    - apply (lazyLoop_of_take z d arr h0 xs h1); try assumption.
      intros Hf. eapply maps_shape; [exact (value_of_shape _ _ _ _ _ Harr)|].
      eapply Forall_impl; [exact (Hmaps Hf)|]. intros a Ha.
      now apply is_map_entry_app, is_map_entry_app. }
  exists h2.
  eapply value_of_lazy_intro; [apply described_app, Hdr | | exact Harr | exact Hloop2].
  now rewrite desc_take_wrapped.
Qed.

(** ** The fused evaluation and the eager functions *)

Lemma prefix_while_take (p : value -> bool) : forall xs k,
  Forall (fun v => p v = true) (take k xs) ->
  (forall x, xs !! k = Some x -> p x = false) ->
  prefix_while p xs = take k xs /\ after_prefix_while p xs = drop k xs.
Proof.
  induction xs as [|x xs IH]; intros k Hpass Hfail.
  - now rewrite take_nil, drop_nil.
  - destruct k as [|k]; cbn [prefix_while after_prefix_while take drop].
    + rewrite (Hfail x eq_refl). auto.
    + cbn [take] in Hpass. inversion Hpass as [|? ? Hx Hrest]; subst. rewrite Hx.
      destruct (IH k Hrest) as [-> ->]; [|auto]. intros y Hy. now apply Hfail.
Qed.

(** [takeWhile] and [dropWhile] as functions on lists. *)
Lemma array_while_prefix (xs : list value) (predicate : callback) :
  Z.of_nat (length xs) < 2 ^ 32 ->
  array_takeWhile xs predicate
  = prefix_while (fun v => truthy (baseCallback predicate v)) xs /\
  array_dropWhile xs predicate
  = after_prefix_while (fun v => truthy (baseCallback predicate v)) xs.
Proof.
  intros Hlen. destruct (while_split xs predicate Hlen) as (k & -> & -> & Hpass & Hfail).
  destruct (prefix_while_take (fun v => truthy (baseCallback predicate v)) xs k Hpass Hfail)
    as [-> ->].
  auto.
Qed.

(** What a call builds on a sound receiver is sound. *)
Lemma call_result c h this d r h' d' :
  sound h this d -> lazy_call c this h = Ok r h' -> built h r h' d' ->
  (desc_filtered d' = false -> desc_takeCount d' = PInf) ->
  (desc_dir d' = 1 \/ desc_dir d' = -1) ->
  sound h' r d'.
Proof.
  intros (Hd & Hab & _) Hrun Hb Htc Hdir.
  destruct (builds_wf_call c h this d Hd Hab) as (r2 & h2 & d2 & Hrun2 & _ & Hab2 & _).
  rewrite Hrun in Hrun2. inversion Hrun2; subst r2 h2.
  split; [exact (built_described _ _ _ _ Hb)|]. auto.
Qed.

Ltac same_run H1 H2 :=
  let E := fresh in
  pose proof H2 as E; rewrite H1 in E; inversion E; subst; clear E.

(** ** The methods one at a time *)

Lemma fuses_map cb st : fuses (lazy_map cb) (fun xs => collection_map xs cb) st st 1.
Proof.
  intros h this d Hsound Hf Hk. pose proof Hsound as (Hd & Hab & Hunf & Hdir).
  destruct (lazy_map_local cb h this d Hd Hab) as (r & h' & Hrun & Hval).
  destruct (lazy_iteratee_method_spec LAZY_MAP_FLAG cb h this d Hd)
    as (r2 & h2 & e & Hrun2 & Hb & _).
  unfold lazy_map in *. same_run Hrun Hrun2.
  exists r2, h2, (desc_iteratee LAZY_MAP_FLAG this e d).
  split; [exact Hrun|]. split; [apply Hb|].
  unfold desc_iteratee in *. rewrite andb_false_r in *.
  split; [apply (call_result (Call_map cb) h this d); auto; cbn; rewrite orb_false_r; auto|].
  cbn [desc_filtered desc_takeCount]. rewrite orb_false_r.
  split; [exact Hf|]. split; [exact Hk|].
  intros t fuel xs h1 Hlen Hxs. split.
  - unfold collection_map, arrayMap. now rewrite length_map.
  - exists h1. apply (value_of_mono fuel); [lia|]. exact (Hval t fuel xs h1 Hxs).
Qed.

Lemma fuses_filter cb filtered :
  fuses (lazy_filter cb) (fun xs => collection_filter xs cb) (filtered, false) (true, false) 1.
Proof.
  intros h this d Hsound Hf Hk. pose proof Hsound as (Hd & Hab & Hunf & Hdir).
  cbn [fst snd] in *.
  destruct (lazy_filter_local cb h this d Hd Hab (Hk eq_refl)) as (r & h' & Hrun & Hval).
  destruct (lazy_iteratee_method_spec LAZY_FILTER_FLAG cb h this d Hd)
    as (r2 & h2 & e & Hrun2 & Hb & _).
  unfold lazy_filter in *. same_run Hrun Hrun2.
  exists r2, h2, (desc_iteratee LAZY_FILTER_FLAG this e d).
  split; [exact Hrun|]. split; [apply Hb|].
  unfold desc_iteratee in *. rewrite andb_false_r in *.
  split; [apply (call_result (Call_filter cb) h this d); auto; cbn; auto|].
  cbn [desc_filtered desc_takeCount]. rewrite orb_true_r.
  split; [reflexivity|]. split; [intros _; now apply Hk|].
  intros t fuel xs h1 Hlen Hxs. split.
  - unfold collection_filter, arrayFilter. apply filter_length_le.
  - exists h1. apply (value_of_mono fuel); [lia|]. exact (Hval t fuel xs h1 Hxs).
Qed.

Lemma fuses_take n filtered counted :
  fuses (lazy_take n) (fun xs => array_take xs n) (filtered, counted) (filtered, filtered) 1.
Proof.
  intros h this d Hsound Hf Hk. pose proof Hsound as (Hd & Hab & Hunf & Hdir).
  cbn [fst snd] in *.
  destruct (lazy_take_local n h this d Hd Hab) as (r & h' & Hrun & Hval).
  destruct (lazy_take_spec n h this d Hd) as (r2 & h2 & Hrun2 & Hb).
  same_run Hrun Hrun2.
  exists r2, h2, (desc_take (lazy_count n) d).
  split; [exact Hrun|]. split; [apply Hb|].
  assert (desc_filtered (desc_take (lazy_count n) d) = desc_filtered d) as Hf'
    by (unfold desc_take; destruct (desc_filtered d) eqn:E; cbn; auto).
  assert (desc_filtered d = false -> desc_takeCount (desc_take (lazy_count n) d) = PInf)
    as Htc'.
  { intros E. unfold desc_take. rewrite E. cbn. auto. }
  split.
  { apply (call_result (Call_take n) h this d); auto.
    - rewrite Hf'. exact Htc'.
    - unfold desc_take; destruct (desc_filtered d); cbn; auto. }
  split; [congruence|]. split; [intros E; apply Htc'; congruence|].
  intros t fuel xs h1 Hlen Hxs. rewrite array_take_count by assumption. split.
  - destruct (lazy_count n); try lia. rewrite length_take. lia.
  - destruct (Hval t fuel xs h1 Hxs) as [h3 H3]. exists h3.
    apply (value_of_mono fuel); [lia | exact H3].
Qed.

Lemma fuses_drop n filtered counted :
  fuses (lazy_drop n) (fun xs => array_drop xs n) (filtered, counted) (filtered, false) 1.
Proof.
  intros h this d Hsound Hf Hk. pose proof Hsound as (Hd & Hab & Hunf & Hdir).
  cbn [fst snd] in *.
  destruct (lazy_drop_local n h this d Hsound) as (r & h' & Hrun & Hval).
  destruct (lazy_drop_spec n h this d Hd) as (r2 & h2 & e & Hrun2 & Hb & _).
  same_run Hrun Hrun2.
  exists r2, h2, (desc_drop (lazy_count n) this e d).
  split; [exact Hrun|]. split; [apply Hb|].
  assert (desc_filtered (desc_drop (lazy_count n) this e d) = desc_filtered d) as Hf'
    by (unfold desc_drop; destruct (desc_filtered d) eqn:E; cbn; auto).
  assert (desc_takeCount (desc_drop (lazy_count n) this e d) = PInf) as Htc'.
  { unfold desc_drop. destruct (desc_filtered d) eqn:E; cbn; auto. }
  split.
  { apply (call_result (Call_drop n) h this d); auto.
    unfold desc_drop; destruct (desc_filtered d); cbn; auto. }
  split; [congruence|]. split; [auto|].
  intros t fuel xs h1 Hlen Hxs. rewrite array_drop_count by assumption. split.
  - destruct (lazy_count n); cbn [length]; try lia. rewrite length_drop. lia.
  - exact (Hval t fuel xs h1 Hxs).
Qed.

Lemma fuses_dropWhile cb st :
  fuses (lazy_dropWhile cb) (fun xs => array_dropWhile xs cb) st (true, false) 1.
Proof.
  intros h this d Hsound Hf Hk. pose proof Hsound as (Hd & Hab & Hunf & Hdir).
  cbn [fst snd] in *.
  destruct (lazy_dropWhile_local cb h this d Hsound) as (r & h' & Hrun & Hval).
  destruct (lazy_iteratee_method_spec LAZY_DROP_WHILE_FLAG cb h this d Hd)
    as (r2 & h2 & e & Hrun2 & Hb & _).
  unfold lazy_dropWhile in *. same_run Hrun Hrun2.
  exists r2, h2, (desc_iteratee LAZY_DROP_WHILE_FLAG this e d).
  split; [exact Hrun|]. split; [apply Hb|].
  unfold desc_iteratee in *. rewrite andb_true_r in *.
  split.
  { apply (call_result (Call_dropWhile cb) h this d); auto;
      destruct (desc_filtered d); cbn; auto. }
  split; [destruct (desc_filtered d); reflexivity|].
  split; [intros _; destruct (desc_filtered d); cbn; auto|].
  intros t fuel xs h1 Hlen Hxs.
  destruct (while_split xs cb Hlen) as (j & _ & Hj & _).
  destruct (array_while_prefix xs cb Hlen) as [_ Hdrop]. split.
  - rewrite Hj, length_drop. lia.
  - rewrite Hdrop. exact (Hval t fuel xs h1 Hxs).
Qed.

Lemma fuses_takeWhile cb filtered counted :
  fuses (lazy_takeWhile cb) (fun xs => array_takeWhile xs cb)
    (filtered, counted) (true, counted) 1.
Proof.
  intros h this d Hsound Hf Hk. pose proof Hsound as (Hd & Hab & Hunf & Hdir).
  cbn [fst snd] in *.
  destruct (lazy_takeWhile_prefix cb h this d Hd Hab) as (r & h' & Hrun & Hval).
  destruct (lazy_iteratee_method_spec LAZY_TAKE_WHILE_FLAG cb h this d Hd)
    as (r2 & h2 & e & Hrun2 & Hb & _).
  unfold lazy_takeWhile in *. same_run Hrun Hrun2.
  exists r2, h2, (desc_iteratee LAZY_TAKE_WHILE_FLAG this e d).
  split; [exact Hrun|]. split; [apply Hb|].
  unfold desc_iteratee in *. rewrite andb_false_r in *.
  split.
  { apply (call_result (Call_takeWhile cb) h this d); auto.
    cbn [desc_filtered]. rewrite orb_true_r. discriminate. }
  cbn [desc_filtered desc_takeCount]. rewrite orb_true_r.
  split; [reflexivity|]. split; [exact Hk|].
  intros t fuel xs h1 Hlen Hxs.
  destruct (while_split xs cb Hlen) as (j & Hj & _).
  destruct (array_while_prefix xs cb Hlen) as [Htake _]. split.
  - rewrite Hj, length_take. lia.
  - rewrite Htake. destruct (Hval t fuel xs h1 Hxs) as [h3 H3]. exists h3.
    apply (value_of_mono fuel); [lia | exact H3].
Qed.

Lemma fuses_reverse filtered counted :
  fuses lazyReverse array_reverse (filtered, counted) (filtered, false) 1.
Proof.
  intros h this d Hsound Hf Hk. pose proof Hsound as (Hd & Hab & Hunf & Hdir).
  cbn [fst snd] in *.
  destruct (lazyReverse_local h this d Hsound) as (r & h' & Hrun & Hval).
  destruct (lazyReverse_spec h this d Hd) as (r2 & h2 & Hrun2 & Hb).
  same_run Hrun Hrun2.
  exists r2, h2, (desc_reverse this d).
  split; [exact Hrun|]. split; [apply Hb|].
  assert (desc_filtered (desc_reverse this d) = desc_filtered d) as Hf'
    by (unfold desc_reverse; destruct (desc_filtered d) eqn:E; cbn; auto).
  assert (desc_takeCount (desc_reverse this d) = PInf) as Htc'.
  { unfold desc_reverse. destruct (desc_filtered d) eqn:E; cbn; auto. }
  split.
  { apply (call_result Call_reverse h this d); auto.
    unfold desc_reverse; destruct (desc_filtered d); cbn; auto.
    destruct Hdir as [-> | ->]; auto. }
  split; [congruence|]. split; [auto|].
  intros t fuel xs h1 Hlen Hxs. unfold array_reverse. split.
  - now rewrite length_rev.
  - exact (Hval t fuel xs h1 Hxs).
Qed.

(** ** Methods made of others *)

Lemma fuses_compose m1 m2 op1 op2 st st1 st2 k1 k2 :
  fuses m1 op1 st st1 k1 -> fuses m2 op2 st1 st2 k2 ->
  fuses (fun this => do r <- m1 this; m2 r) (fun xs => op2 (op1 xs)) st st2 (k2 + k1).
Proof.
  intros H1 H2 h this d Hsound Hf Hk.
  destruct (H1 h this d Hsound Hf Hk)
    as (r1 & h1 & d1 & Hrun1 & [ext1 ->] & Hsound1 & Hf1 & Hk1 & Hval1).
  destruct (H2 (h ++ ext1) r1 d1 Hsound1 Hf1 Hk1)
    as (r & h' & d' & Hrun & [ext2 ->] & Hsound' & Hf' & Hk' & Hval).
  exists r, ((h ++ ext1) ++ ext2), d'. split; [now rewrite (bind_eq _ _ _ _ _ Hrun1)|].
  split; [exists (ext1 ++ ext2); now rewrite app_assoc|].
  split; [exact Hsound'|]. split; [exact Hf'|]. split; [exact Hk'|].
  intros t fuel xs h2 Hlen Hxs.
  rewrite <- (app_assoc (h ++ ext1)) in Hxs.
  destruct (Hval1 (ext2 ++ t) fuel xs h2 Hlen Hxs) as (Hle & h3 & H3).
  rewrite app_assoc in H3.
  assert (Z.of_nat (length (op1 xs)) < 2 ^ 32) as Hlen' by lia.
  destruct (Hval t (k1 + fuel)%nat (op1 xs) h3 Hlen' H3) as (Hle' & h4 & H4).
  split; [lia|]. exists h4. now rewrite <- Nat.add_assoc.
Qed.

Lemma fuses_ext m m' op op' st st' k k' :
  (forall this h, m' this h = m this h) ->
  (forall xs, Z.of_nat (length xs) < 2 ^ 32 -> op' xs = op xs) ->
  (k <= k')%nat ->
  fuses m op st st' k -> fuses m' op' st st' k'.
Proof.
  intros Hm Hop Hkk H h this d Hsound Hf Hk.
  destruct (H h this d Hsound Hf Hk) as (r & h' & d' & Hrun & Hext & Hsound' & Hf' & Hk' & Hval).
  exists r, h', d'. rewrite Hm. repeat (split; [assumption|]).
  intros t fuel xs h1 Hlen Hxs. rewrite (Hop xs Hlen).
  destruct (Hval t fuel xs h1 Hlen Hxs) as (Hle & h2 & H2).
  split; [exact Hle|]. exists h2. apply (value_of_mono (k + fuel)); [lia | exact H2].
Qed.

(** ** The eager functions that count or scan from the right *)

Lemma lazy_count_ToNumberOr0 n :
  lazy_count n = Num.max (ToNumberOr0 (if isNullish n then VInt 1 else n)) (Fin 0).
Proof. unfold lazy_count, ToNumberOr0, Num.floor. destruct (isNullish n); reflexivity. Qed.

Lemma lazy_count_Fin z : lazy_count (VNum (Fin z)) = Fin (Z.max z 0).
Proof.
  rewrite lazy_count_ToNumberOr0. cbn [isNullish]. now rewrite ToNumberOr0_Fin, Num_max_Fin.
Qed.

(** [takeRight] and [dropRight] by the count that the lazy methods compute. *)
Lemma right_count (xs : list value) n :
  Z.of_nat (length xs) < 2 ^ 32 ->
  array_takeRight xs n
  = match lazy_count n with
    | Fin c => drop (length xs - Z.to_nat c) xs
    | _ => xs
    end /\
  array_dropRight xs n
  = match lazy_count n with
    | Fin c => take (length xs - Z.to_nat c) xs
    | _ => []
    end.
Proof.
  intros Hlen. destruct (right_split xs n Hlen) as (m & -> & -> & Hfin & Hinf & Hninf).
  rewrite lazy_count_ToNumberOr0.
  destruct (ToNumberOr0_cases (if isNullish n then VInt 1 else n)) as [Hk | [Hk | [z Hk]]];
    rewrite Hk in *.
  - rewrite (Hinf eq_refl). change (Num.max PInf (Fin 0)) with PInf. now rewrite drop_0.
  - rewrite (Hninf eq_refl). change (Num.max NInf (Fin 0)) with (Fin 0).
    cbn iota. change (Z.to_nat 0) with O. now rewrite Nat.sub_0_r.
  - rewrite (Hfin z eq_refl), Num_max_Fin.
    destruct (Z.le_gt_cases 0 z).
    + replace (Z.to_nat (Z.of_nat (length xs) - z))
        with (length xs - Z.to_nat (Z.max z 0))%nat by lia.
      auto.
    + replace (Z.to_nat (Z.max z 0)) with O by lia. rewrite Nat.sub_0_r.
      rewrite !drop_ge, !take_ge by lia. auto.
Qed.

(** They are [take] and [drop] on the reversed array, reversed. *)
Lemma right_as_reverse (xs : list value) n :
  Z.of_nat (length xs) < 2 ^ 32 ->
  array_takeRight xs n = rev (array_take (rev xs) n) /\
  array_dropRight xs n = rev (array_drop (rev xs) n).
Proof.
  intros Hlen. destruct (right_count xs n Hlen) as [-> ->].
  rewrite array_take_count, array_drop_count by (now rewrite length_rev).
  destruct (lazy_count n); rewrite ?rev_involutive; auto.
  now rewrite firstn_rev, skipn_rev, !rev_involutive.
Qed.

Lemma rev_lookup (xs : list value) i :
  (i < length xs)%nat -> rev xs !! i = xs !! (length xs - S i)%nat.
Proof. intros Hi. rewrite rev_alt. now apply (reverse_lookup xs i). Qed.

Lemma right_while_as_reverse (xs : list value) (predicate : callback) :
  Z.of_nat (length xs) < 2 ^ 32 ->
  array_takeRightWhile xs predicate = rev (array_takeWhile (rev xs) predicate) /\
  array_dropRightWhile xs predicate = rev (array_dropWhile (rev xs) predicate).
Proof.
  intros Hlen.
  destruct (right_while_split xs predicate Hlen) as (r & Hr & -> & -> & Hpass & Hfail).
  destruct (array_while_prefix (rev xs) predicate) as [-> ->]; [now rewrite length_rev|].
  destruct (prefix_while_take (fun v => truthy (baseCallback predicate v)) (rev xs)
              (length xs - r)) as [-> ->].
  - rewrite firstn_rev. replace (length xs - (length xs - r))%nat with r by lia.
    now apply Forall_rev.
  - intros x Hx. destruct (Nat.eq_dec r O) as [-> | Hpos].
    + rewrite Nat.sub_0_r in Hx. apply lookup_lt_Some in Hx. rewrite length_rev in Hx. lia.
    + rewrite rev_lookup in Hx by lia. apply Hfail; [lia|].
      replace (r - 1)%nat with (length xs - S (length xs - r))%nat by lia. exact Hx.
  - rewrite firstn_rev, skipn_rev, !rev_involutive.
    replace (length xs - (length xs - r))%nat with r by lia. auto.
Qed.

(** ** takeRight, dropRight and the like *)

Lemma fuses_takeRight n filtered counted :
  fuses (lazy_takeRight n) (fun xs => array_takeRight xs n)
    (filtered, counted) (filtered, false) 3.
Proof.
  eapply fuses_ext;
    [ | | | exact (fuses_compose _ _ _ _ _ _ _ _ _
                     (fuses_compose _ _ _ _ _ _ _ _ _
                        (fuses_reverse filtered counted) (fuses_take n filtered false))
                     (fuses_reverse filtered filtered)) ].
  - intros this h. unfold lazy_takeRight. now rewrite bind_assoc.
  - intros xs Hlen. now destruct (right_as_reverse xs n Hlen) as [-> _].
  - lia.
Qed.

Lemma fuses_dropRight n filtered counted :
  fuses (lazy_dropRight n) (fun xs => array_dropRight xs n)
    (filtered, counted) (filtered, false) 3.
Proof.
  eapply fuses_ext;
    [ | | | exact (fuses_compose _ _ _ _ _ _ _ _ _
                     (fuses_compose _ _ _ _ _ _ _ _ _
                        (fuses_reverse filtered counted) (fuses_drop n filtered false))
                     (fuses_reverse filtered false)) ].
  - intros this h. unfold lazy_dropRight. now rewrite bind_assoc.
  - intros xs Hlen. now destruct (right_as_reverse xs n Hlen) as [_ ->].
  - lia.
Qed.

Lemma fuses_takeRightWhile cb filtered counted :
  fuses (lazy_takeRightWhile cb) (fun xs => array_takeRightWhile xs cb)
    (filtered, counted) (true, false) 3.
Proof.
  eapply fuses_ext;
    [ | | | exact (fuses_compose _ _ _ _ _ _ _ _ _
                     (fuses_compose _ _ _ _ _ _ _ _ _
                        (fuses_reverse filtered counted) (fuses_takeWhile cb filtered false))
                     (fuses_reverse true false)) ].
  - intros this h. unfold lazy_takeRightWhile. now rewrite bind_assoc.
  - intros xs Hlen. now destruct (right_while_as_reverse xs cb Hlen) as [-> _].
  - lia.
Qed.

Lemma fuses_dropRightWhile cb filtered counted :
  fuses (lazy_dropRightWhile cb) (fun xs => array_dropRightWhile xs cb)
    (filtered, counted) (true, false) 3.
Proof.
  eapply fuses_ext;
    [ | | | exact (fuses_compose _ _ _ _ _ _ _ _ _
                     (fuses_compose _ _ _ _ _ _ _ _ _
                        (fuses_reverse filtered counted) (fuses_dropWhile cb (filtered, false)))
                     (fuses_reverse true false)) ].
  - intros this h. unfold lazy_dropRightWhile. now rewrite bind_assoc.
  - intros xs Hlen. now destruct (right_while_as_reverse xs cb Hlen) as [_ ->].
  - lia.
Qed.

(** ** initial, rest, compact and reject *)

Lemma fuses_initial filtered counted :
  fuses lazy_initial array_initial (filtered, counted) (filtered, false) 3.
Proof. exact (fuses_dropRight (VInt 1) filtered counted). Qed.

Lemma fuses_rest filtered counted :
  fuses lazy_rest array_rest (filtered, counted) (filtered, false) 1.
Proof. exact (fuses_drop (VInt 1) filtered counted). Qed.

Lemma fuses_compact filtered :
  fuses lazy_compact array_compact (filtered, false) (true, false) 1.
Proof. exact (fuses_filter (CbFun identity) filtered). Qed.

Lemma fuses_reject cb filtered :
  fuses (lazy_reject cb) (fun xs => collection_reject xs cb) (filtered, false) (true, false) 1.
Proof.
  exact (fuses_filter (CbFun (fun v => VBool (negb (truthy (baseCallback cb v))))) filtered).
Qed.

(** ** slice on integer bounds *)

Lemma array_slice_int (xs : list value) (s e : Z) :
  Z.of_nat (length xs) < 2 ^ 32 ->
  let len := Z.of_nat (length xs) in
  let lo := if s <? 0 then Z.max (len + s) 0 else s in
  let hi := if e <? 0 then e + len else Z.min e len in
  array_slice xs (VInt s) (VInt e) = take (Z.to_nat (hi - lo)) (drop (Z.to_nat lo) xs) /\
  array_slice xs (VInt s) VUndefined = drop (Z.to_nat lo) xs.
Proof.
  intros Hlen. unfold array_slice. destruct xs as [|x xs'] eqn:Hxs.
  - cbv zeta. now rewrite drop_nil, take_nil.
  - rewrite <- Hxs in *. now apply baseSlice_int.
Qed.

Lemma Num_neg_Fin z : z <> 0 -> Num.neg (Fin z) = Fin (- z).
Proof. intros Hz. unfold Num.neg. destruct (Z.eqb_spec z 0); [contradiction | reflexivity]. Qed.

(** [slice] as the calls that the lazy method makes. *)
Lemma slice_as_calls (xs : list value) (s e : Z) :
  Z.of_nat (length xs) < 2 ^ 32 ->
  (0 <= s -> array_slice xs (VInt s) VUndefined = array_drop xs (VNum (Fin s))) /\
  (s < 0 -> array_slice xs (VInt s) VUndefined
            = array_takeRight xs (VNum (Num.neg (Fin s)))) /\
  (0 <= s -> 0 <= e ->
   array_slice xs (VInt s) (VInt e)
   = array_take (array_drop xs (VNum (Fin s))) (VNum (Num.sub (Fin e) (Fin s)))) /\
  (0 <= s -> e < 0 ->
   array_slice xs (VInt s) (VInt e)
   = array_dropRight (array_drop xs (VNum (Fin s))) (VNum (Num.neg (Fin e)))) /\
  (s < 0 -> e < 0 ->
   array_slice xs (VInt s) (VInt e)
   = array_dropRight (array_takeRight xs (VNum (Num.neg (Fin s)))) (VNum (Num.neg (Fin e)))).
Proof.
  intros Hlen. destruct (array_slice_int xs s e Hlen) as [Hse Hs]. cbv zeta in Hse, Hs.
  rewrite Hse, Hs. clear Hse Hs.
  assert (forall z, array_drop xs (VNum (Fin z)) = drop (Z.to_nat (Z.max z 0)) xs) as Hdrop.
  { intros z. rewrite array_drop_count by assumption. now rewrite lazy_count_Fin. }
  assert (forall z, array_takeRight xs (VNum (Fin z))
                    = drop (length xs - Z.to_nat (Z.max z 0)) xs) as HtakeR.
  { intros z. destruct (right_count xs (VNum (Fin z)) Hlen) as [-> _].
    now rewrite lazy_count_Fin. }
  assert (forall (l : list value) z,
            (length l <= length xs)%nat ->
            array_dropRight l (VNum (Fin z)) = take (length l - Z.to_nat (Z.max z 0)) l)
    as HdropR.
  { intros l z Hl. destruct (right_count l (VNum (Fin z))) as [_ ->]; [lia|].
    now rewrite lazy_count_Fin. }
  assert (forall (l : list value) z,
            (length l <= length xs)%nat ->
            array_take l (VNum (Fin z)) = take (Z.to_nat (Z.max z 0)) l) as Htake.
  { intros l z Hl. rewrite array_take_count by lia. now rewrite lazy_count_Fin. }
  repeat split.
  - intros Hpos. destruct (Z.ltb_spec s 0); [lia|]. rewrite Hdrop. f_equal. lia.
  - intros Hneg. destruct (Z.ltb_spec s 0); [|lia].
    rewrite Num_neg_Fin by lia. rewrite HtakeR. f_equal. lia.
  - intros Hs He. destruct (Z.ltb_spec s 0); [lia|]. destruct (Z.ltb_spec e 0); [lia|].
    rewrite Num_sub_Fin, Hdrop, Htake by (rewrite length_drop; lia).
    replace (Z.to_nat (Z.max s 0)) with (Z.to_nat s) by lia.
    destruct (Z.le_gt_cases e (Z.of_nat (length xs))).
    + f_equal. lia.
    + rewrite !take_ge by (rewrite length_drop; lia). reflexivity.
  - intros Hs He. destruct (Z.ltb_spec s 0); [lia|]. destruct (Z.ltb_spec e 0); [|lia].
    rewrite Num_neg_Fin by lia. rewrite Hdrop, HdropR by (rewrite length_drop; lia).
    replace (Z.to_nat (Z.max s 0)) with (Z.to_nat s) by lia.
    f_equal. rewrite length_drop. lia.
  - intros Hs He. destruct (Z.ltb_spec s 0); [|lia]. destruct (Z.ltb_spec e 0); [|lia].
    rewrite !Num_neg_Fin by lia. rewrite HtakeR, HdropR by (rewrite length_drop; lia).
    replace (Z.to_nat (Z.max (Z.of_nat (length xs) + s) 0))
      with (length xs - Z.to_nat (Z.max (- s) 0))%nat by lia.
    f_equal. rewrite length_drop. lia.
Qed.

Lemma bind_ret_r {A} (m : M A) h : bind m ret h = m h.
Proof. unfold bind, ret. destruct (m h); reflexivity. Qed.

Lemma lazy_slice_int (s e : Z) this h :
  lazy_slice (VNum (Fin s)) VUndefined this h
  = (if s <? 0 then lazy_takeRight (VNum (Num.neg (Fin s))) this
     else lazy_drop (VNum (Fin s)) this) h /\
  lazy_slice (VNum (Fin s)) (VNum (Fin e)) this h
  = (do result <- (if s <? 0 then lazy_takeRight (VNum (Num.neg (Fin s))) this
                   else lazy_drop (VNum (Fin s)) this);
     if e <? 0 then lazy_dropRight (VNum (Num.neg (Fin e))) result
     else lazy_take (VNum (Num.sub (Fin e) (Fin s))) result) h.
Proof.
  unfold lazy_slice. cbn [isNullish isUndefined]. rewrite !ToNumberOr0_Fin, !Num_lt_Fin.
  split; [apply bind_ret_r | reflexivity].
Qed.

Lemma fuses_slice s e st st' :
  after_call (Call_slice s e) st = Some st' ->
  fuses (lazy_slice s e) (fun xs => array_slice xs s e) st st' 6.
Proof.
  destruct st as [filtered counted].
  destruct s as [| | |n| | | | |]; try (intros H; discriminate H).
  destruct n as [| | | |s]; try (intros H; discriminate H).
  destruct e as [| | |n| | | | |]; try (intros H; discriminate H).
  - (* no end *)
    cbn [after_call]. intros [= <-].
    destruct (Z.ltb_spec s 0) as [Hneg | Hpos].
    + eapply fuses_ext; [ | | | exact (fuses_takeRight (VNum (Num.neg (Fin s)))
                                         filtered counted) ].
      * intros this h. destruct (lazy_slice_int s 0 this h) as [-> _].
        destruct (Z.ltb_spec s 0); [reflexivity | lia].
      * intros xs Hlen. now apply (slice_as_calls xs s 0 Hlen).
      * lia.
    + eapply fuses_ext; [ | | | exact (fuses_drop (VNum (Fin s)) filtered counted) ].
      * intros this h. destruct (lazy_slice_int s 0 this h) as [-> _].
        destruct (Z.ltb_spec s 0); [lia | reflexivity].
      * intros xs Hlen. now apply (slice_as_calls xs s 0 Hlen).
      * lia.
  - destruct n as [| | | |e]; try (intros H; discriminate H). cbn [after_call].
    destruct (Z.ltb_spec e 0) as [Heneg | Hepos].
    + intros [= <-]. destruct (Z.ltb_spec s 0) as [Hneg | Hpos].
      * eapply fuses_ext;
          [ | | | exact (fuses_compose _ _ _ _ _ _ _ _ _
                           (fuses_takeRight (VNum (Num.neg (Fin s))) filtered counted)
                           (fuses_dropRight (VNum (Num.neg (Fin e))) filtered false)) ].
        -- intros this h. destruct (lazy_slice_int s e this h) as [_ ->].
           destruct (Z.ltb_spec s 0); [|lia]. destruct (Z.ltb_spec e 0); [reflexivity | lia].
        -- intros xs Hlen. now apply (slice_as_calls xs s e Hlen).
        -- lia.
      * eapply fuses_ext;
          [ | | | exact (fuses_compose _ _ _ _ _ _ _ _ _
                           (fuses_drop (VNum (Fin s)) filtered counted)
                           (fuses_dropRight (VNum (Num.neg (Fin e))) filtered false)) ].
        -- intros this h. destruct (lazy_slice_int s e this h) as [_ ->].
           destruct (Z.ltb_spec s 0); [lia|]. destruct (Z.ltb_spec e 0); [reflexivity | lia].
        -- intros xs Hlen. now apply (slice_as_calls xs s e Hlen).
        -- lia.
    + destruct (Z.ltb_spec s 0) as [Hneg | Hpos]; [discriminate|]. intros [= <-].
      eapply fuses_ext;
        [ | | | exact (fuses_compose _ _ _ _ _ _ _ _ _
                         (fuses_drop (VNum (Fin s)) filtered counted)
                         (fuses_take (VNum (Num.sub (Fin e) (Fin s))) filtered false)) ].
      * intros this h. destruct (lazy_slice_int s e this h) as [_ ->].
        destruct (Z.ltb_spec s 0); [lia|]. destruct (Z.ltb_spec e 0); [lia | reflexivity].
      * intros xs Hlen. now apply (slice_as_calls xs s e Hlen).
      * lia.
Qed.

(** ** Chains of methods *)

Lemma fuses_call c st st' :
  after_call c st = Some st' -> fuses (lazy_call c) (eager_call c) st st' 6.
Proof.
  destruct st as [filtered counted].
  destruct c as [cb | cb | n | n | cb | cb | | s e]; cbn [after_call].
  - intros [= <-]. eapply fuses_ext; [ | | | exact (fuses_map cb (filtered, counted))];
      [reflexivity | reflexivity | lia].
  - destruct counted; [discriminate|]. intros [= <-].
    eapply fuses_ext; [ | | | exact (fuses_filter cb filtered)];
      [reflexivity | reflexivity | lia].
  - intros [= <-]. eapply fuses_ext; [ | | | exact (fuses_take n filtered counted)];
      [reflexivity | reflexivity | lia].
  - intros [= <-]. eapply fuses_ext; [ | | | exact (fuses_drop n filtered counted)];
      [reflexivity | reflexivity | lia].
  - intros [= <-]. eapply fuses_ext; [ | | | exact (fuses_dropWhile cb (filtered, counted))];
      [reflexivity | reflexivity | lia].
  - intros [= <-]. eapply fuses_ext; [ | | | exact (fuses_takeWhile cb filtered counted)];
      [reflexivity | reflexivity | lia].
  - intros [= <-]. eapply fuses_ext; [ | | | exact (fuses_reverse filtered counted)];
      [reflexivity | reflexivity | lia].
  - exact (fuses_slice s e (filtered, counted) st').
Qed.

Lemma fuses_method m st st' :
  after_method m st = Some st' -> fuses (method_call m) (method_eager m) st st' 6.
Proof.
  destruct st as [filtered counted].
  destruct m as [c | n | n | cb | cb | | | | cb]; cbn [after_method].
  - exact (fuses_call c (filtered, counted) st').
  - intros [= <-]. eapply fuses_ext; [ | | | exact (fuses_takeRight n filtered counted)];
      [reflexivity | reflexivity | lia].
  - intros [= <-]. eapply fuses_ext; [ | | | exact (fuses_dropRight n filtered counted)];
      [reflexivity | reflexivity | lia].
  - intros [= <-]. eapply fuses_ext; [ | | | exact (fuses_takeRightWhile cb filtered counted)];
      [reflexivity | reflexivity | lia].
  - intros [= <-]. eapply fuses_ext; [ | | | exact (fuses_dropRightWhile cb filtered counted)];
      [reflexivity | reflexivity | lia].
  - intros [= <-]. eapply fuses_ext; [ | | | exact (fuses_initial filtered counted)];
      [reflexivity | reflexivity | lia].
  - intros [= <-]. eapply fuses_ext; [ | | | exact (fuses_rest filtered counted)];
      [reflexivity | reflexivity | lia].
  - destruct counted; [discriminate|]. intros [= <-].
    eapply fuses_ext; [ | | | exact (fuses_compact filtered)];
      [reflexivity | reflexivity | lia].
  - destruct counted; [discriminate|]. intros [= <-].
    eapply fuses_ext; [ | | | exact (fuses_reject cb filtered)];
      [reflexivity | reflexivity | lia].
Qed.

Lemma fuses_ret st : fuses ret (fun xs => xs) st st 0.
Proof.
  intros h this d Hsound Hf Hk. exists this, h, d.
  split; [reflexivity|]. split; [exists []; now rewrite app_nil_r|].
  repeat (split; [assumption|]).
  intros t fuel xs h1 _ Hxs. split; [lia|]. exists h1. exact Hxs.
Qed.

Lemma method_calls_fused_state ms : forall st st',
  state_after st ms = Some st' ->
  fuses (method_calls ms) (fun xs => methods_eager xs ms) st st' (6 * length ms).
Proof.
  induction ms as [|m ms IH]; intros st st' Hsafe; cbn [state_after] in Hsafe.
  - inversion Hsafe; subst. apply fuses_ret.
  - destruct (after_method m st) as [st1|] eqn:Hm; [|discriminate].
    eapply fuses_ext; [ | | | exact (fuses_compose _ _ _ _ _ _ _ _ _
                                       (fuses_method m st st1 Hm) (IH st1 st' Hsafe))];
      [reflexivity | reflexivity | cbn [length]; lia].
Qed.

Lemma method_calls_fused ms st :
  fusion_safe st ms = true ->
  exists st', fuses (method_calls ms) (fun xs => methods_eager xs ms) st st' (6 * length ms).
Proof.
  unfold fusion_safe. destruct (state_after st ms) as [st'|] eqn:Hst; [|discriminate].
  intros _. exists st'. now apply method_calls_fused_state.
Qed.

(** The wrapper of an array, and its value. *)
Lemma lazy_of_array_sound (A : list value) h :
  exists w h0,
    lazy_of_array A h = Ok w h0 /\
    sound h0 w (Desc (WRef (length h + 1)) None 1 false [] PInf []) /\
    forall t, value_of 2 w (h0 ++ t) = Ok (VArr A) (h0 ++ t).
Proof.
  destruct (lazy_of_array_backed A h _ _ (lazy_of_array_spec A h)) as [Hd Hab].
  eexists _, _. split; [apply lazy_of_array_spec|]. split.
  { split; [exact Hd|]. split; [exact Hab|]. cbn. auto. }
  intros t. set (h0 := h ++ _) in *.
  eapply value_of_lazy_intro; [apply described_app, Hd | reflexivity | |].
  - apply (value_of_lodash_array 0 _ _ A (length h + 0)%nat false);
      apply lookup_app_old; unfold h0; rewrite lookup_app_plus; reflexivity.
  - rewrite (lazyLoop_of_unfiltered (Desc (WRef (length h + 1)) None 1 false [] PInf [])
               A (h0 ++ t) (Forall_nil_2 _) eq_refl 0
               (Z.of_nat (length A)) eq_refl ltac:(lia)).
    cbn [desc_dir desc_iteratees]. change (1 <? 0) with false. cbn iota.
    rewrite Z.sub_0_r, Nat2Z.id. change (0 - 1) with (-1). rewrite walk_all.
    cbn [apply_maps]. now rewrite map_id.
Qed.

(** What a method that fuses returns on the wrapper of an array. *)
Lemma fuses_on_array m op st' k (A : list value) h :
  Z.of_nat (length A) < 2 ^ 32 ->
  fuses m op (false, false) st' k ->
  exists r h' h2,
    (do w <- lazy_of_array A; m w) h = Ok r h' /\
    value_of (k + 2) r h' = Ok (VArr (op A)) h2.
Proof.
  intros Hlen Hm.
  destruct (lazy_of_array_sound A h) as (w & h0 & Hw & Hsound & Hval).
  destruct (Hm h0 w _ Hsound eq_refl (fun _ => eq_refl))
    as (r & h' & d' & Hrun & _ & _ & _ & _ & Hr).
  destruct (Hr [] 2%nat A (h' ++ [])) as (_ & h2 & H2); [assumption | |].
  - destruct (Hm h0 w _ Hsound eq_refl (fun _ => eq_refl))
      as (r2 & h2 & d2 & Hrun2 & [ext ->] & _).
    same_run Hrun Hrun2. rewrite <- app_assoc. apply Hval.
  - rewrite app_nil_r in H2. exists r, h', h2.
    split; [now rewrite (bind_eq _ _ _ _ _ Hw) | exact H2].
Qed.

(** ** A take before a filter *)

(** The loop of [filter(predicate)] against the loop of its receiver, when
    no take count stops it. *)
Lemma lazyLoop_of_filter d arr h e f xs h1 :
  entry_is h e LAZY_FILTER_FLAG f ->
  Forall (fun v => count_like (view_size v)) (desc_views d) ->
  desc_takeCount d = PInf ->
  lazyLoop_of d arr h = Ok xs h1 ->
  lazyLoop_of (Desc (desc_wrapped d) (desc_actions d) (desc_dir d) true
                    (desc_iteratees d ++ [e]) PInf (desc_views d)) arr h
  = Ok (arrayFilter xs f) h1.
Proof.
  intros He Hviews Htc Hloop. unfold arrayFilter.
  unfold lazyLoop_of in *. cbn [desc_dir desc_views desc_iteratees desc_takeCount].
  destruct (view_cases (desc_views d) arr Hviews)
    as (s & en & Hview & [(a & b & -> & -> & Hab0) | Hnone]); rewrite Hview in *.
  - rewrite Num_sub_Fin, Htc in *.
    change (Num.min (Fin (b - a)) PInf) with (Fin (b - a)) in *.
    rewrite (lazyLoop_snoc_filter _ _ _ e f (b - a) _ (b - a) _ [] []
               h xs h1 He); auto; try lia.
    cbn [length Z.of_nat]. lia.
  - rewrite Hnone in Hloop. inversion Hloop; subst. apply Hnone.
Qed.

(** [take(n)] and then [filter(predicate)] on a filtered wrapper with no take
    count: the wrapper that the two build counts what the filter lets
    through. *)
Lemma fuses_take_filter n cb :
  fuses (fun this => do r <- lazy_take n this; lazy_filter cb r)
        (fun xs => array_take (collection_filter xs cb) n) (true, false) (true, true) 1.
Proof.
  intros h this d Hsound Hf Hk. cbn [fst snd] in *.
  pose proof Hsound as (Hd & Hab & _). specialize (Hk eq_refl).
  destruct (sound_inv _ _ _ Hsound) as (src & Hsrc & Habs & Hviews & _ & Hdir).
  destruct (fuses_take n true false h this d Hsound Hf (fun _ => Hk))
    as (r1 & h1 & d1 & Hrun1 & [ext1 ->] & Hsound1 & Hf1 & _ & _).
  cbn [fst snd] in Hf1. pose proof Hsound1 as (Hd1 & Hab1 & _).
  destruct (lazy_take_spec n h this d Hd) as (r1' & h1' & Hrun1' & Hb1).
  same_run Hrun1 Hrun1'. apply built_described in Hb1.
  pose proof (described_fun _ _ _ _ Hd1 Hb1) as ->. clear Hb1.
  destruct (lazy_iteratee_method_spec LAZY_FILTER_FLAG cb _ _ _ Hd1)
    as (r & h' & e & Hrun & Hb & _ & He).
  pose proof (built_described _ _ _ _ Hb) as Hdr.
  unfold desc_iteratee in Hdr. rewrite andb_false_r in Hdr.
  unfold desc_take in Hdr, Hf1. rewrite Hf in Hdr, Hf1.
  cbn [desc_set_takeCount desc_wrapped desc_actions desc_dir desc_filtered desc_iteratees
       desc_takeCount desc_views] in Hdr.
  rewrite Hf, Hk in Hdr. cbn [orb] in Hdr.
  assert (array_backed h' r) as Habr.
  { destruct (builds_wf_call (Call_filter cb) _ _ _ Hd1 Hab1)
      as (r2 & h2 & d2 & Hrun2 & _ & Hab2 & _).
    cbn [lazy_call] in Hrun2. unfold lazy_filter in Hrun2. now same_run Hrun Hrun2. }
  destruct Hb as ([ext2 Hext2] & _). subst h'.
  exists r, ((h ++ ext1) ++ ext2). eexists.
  split; [now rewrite (bind_eq _ _ _ _ _ Hrun1)|].
  split; [exists (ext1 ++ ext2); now rewrite app_assoc|].
  split.
  { split; [exact Hdr|]. split; [exact Habr|]. split; [discriminate | exact Hdir]. }
  split; [reflexivity|]. split; [discriminate|].
  intros t fuel xs hx Hlen Hxs.
  assert (length (collection_filter xs cb) <= length xs)%nat as Hle
    by (unfold collection_filter, arrayFilter; apply filter_length_le).
  rewrite array_take_count by lia. split.
  { destruct (lazy_count n); try lia. rewrite length_take. lia. }
  destruct fuel as [|fuel]; [discriminate|].
  pose proof (described_app _ t _ _
                (described_app _ ext2 _ _ (described_app _ ext1 _ _ Hd))) as Hd'.
  pose proof (array_backed_app _ t _
                (array_backed_app _ ext2 _ (array_backed_app _ ext1 _ Hab))) as Hab'.
  destruct (value_of_lazy_inv _ _ _ _ _ _ Hd' Hab' Hxs)
    as (src' & arr & h0 & Hsrc' & Harr & Hloop).
  assert (entry_is h0 e LAZY_FILTER_FLAG (baseCallback cb)) as He0.
  { eapply entry_is_shape; [exact (value_of_shape _ _ _ _ _ Harr)|].
    apply entry_is_app. eexists. split; [exact He|]. split; reflexivity. }
  pose proof (lazyLoop_of_filter d arr h0 e (baseCallback cb) xs hx He0 Hviews Hk Hloop)
    as Hloop_f.
  fold (collection_filter xs cb) in Hloop_f.
  assert (exists h2,
            lazyLoop_of (Desc (desc_wrapped d) (desc_actions d) (desc_dir d) true
                              (desc_iteratees d ++ [e]) (Num.min PInf (lazy_count n))
                              (desc_views d)) arr h0
            = Ok (match lazy_count n with
                  | Fin z => take (Z.to_nat z) (collection_filter xs cb)
                  | _ => collection_filter xs cb
                  end) h2) as [h2 Hloop2].
  { destruct (lazy_count_range n) as [-> | (z & Hz & ->)].
    - exists hx. exact Hloop_f.
    - set (df := Desc _ _ _ true _ PInf _) in Hloop_f.
      assert (desc_filtered df = false -> Forall (is_map_entry h0) (desc_iteratees df))
        as Hmaps by discriminate.
      destruct (lazyLoop_of_take z df arr h0 _ hx Hviews Hmaps Hz Hloop_f) as [h2 H2].
      exists h2. exact H2. }
  exists h2. apply (value_of_mono (S fuel)); [lia|].
  eapply value_of_lazy_intro; [apply described_app, Hdr | exact Hsrc' | exact Harr |].
  exact Hloop2.
Qed.

Lemma bind_assoc3 {A B C D} (m : M A) (f : A -> M B) (g : B -> M C) (k : C -> M D) h :
  bind m (fun a => bind (f a) (fun b => bind (g b) k)) h
  = bind (bind m (fun a => bind (f a) g)) k h.
Proof.
  unfold bind. destruct (m h) as [a h1|]; [|reflexivity]. destruct (f a h1); reflexivity.
Qed.

(** ** Chains that the model runs as the code does *)

Lemma modelled_first ms : modelled ms = true -> methods_reverse_first ms = false.
Proof.
  unfold modelled. destruct (methods_reverse_first ms); [discriminate | reflexivity].
Qed.

Lemma methods_wrapper_eq (A : list value) ms h :
  methods_reverse_first ms = false ->
  methods_wrapper A ms h = (do w <- lazy_of_array A; method_calls ms w) h.
Proof. intros Hfirst. unfold methods_wrapper. now rewrite Hfirst. Qed.

Lemma methods_first_app ms ms' :
  methods_reverse_first ms = false -> methods_reverse_first ms' = false ->
  methods_reverse_first (ms ++ ms') = false.
Proof. destruct ms as [|m ms]; [auto | intros Hm _; exact Hm]. Qed.

Lemma methods_value_mono fuel fuel' (A : list value) ms h v h' :
  (fuel <= fuel')%nat ->
  methods_value fuel A ms h = Ok v h' -> methods_value fuel' A ms h = Ok v h'.
Proof.
  intros Hle. unfold methods_value. intros Hv.
  apply bind_Ok in Hv as (r & h0 & Hrun & Hv).
  rewrite (bind_eq _ _ _ _ _ Hrun). now apply (value_of_mono fuel).
Qed.

(** A chain that fuses safely: its value is what the eager functions return,
    which is no longer than the array. *)
Lemma methods_value_fused (A : list value) ms h :
  Z.of_nat (length A) < 2 ^ 32 ->
  methods_reverse_first ms = false ->
  fusion_safe (false, false) ms = true ->
  (length (methods_eager A ms) <= length A)%nat /\
  exists h',
    methods_value (6 * length ms + 2) A ms h = Ok (VArr (methods_eager A ms)) h'.
Proof.
  intros Hlen Hfirst Hsafe. destruct (method_calls_fused ms _ Hsafe) as [st' Hms]. split.
  - destruct (lazy_of_array_sound A h) as (w & h0 & _ & Hsound & Hval).
    destruct (Hms h0 w _ Hsound eq_refl (fun _ => eq_refl))
      as (r & h' & d' & _ & [ext ->] & _ & _ & _ & Hr).
    destruct (Hr [] 2%nat A ((h0 ++ ext) ++ []) Hlen) as [Hle _]; [|exact Hle].
    rewrite <- app_assoc. apply Hval.
  - destruct (fuses_on_array _ _ _ _ A h Hlen Hms) as (r & h' & h2 & Hrun & Hval).
    exists h2. unfold methods_value.
    rewrite <- (methods_wrapper_eq A ms h Hfirst) in Hrun.
    now rewrite (bind_eq _ _ _ _ _ Hrun).
Qed.

Lemma state_after_app ms ms' : forall st,
  state_after st (ms ++ ms')
  = match state_after st ms with
    | Some st' => state_after st' ms'
    | None => None
    end.
Proof.
  induction ms as [|m ms IH]; intros st; cbn [state_after app]; [reflexivity|].
  destruct (after_method m st); [apply IH | reflexivity].
Qed.

Lemma methods_eager_app (A : list value) ms ms' :
  methods_eager A (ms ++ ms') = methods_eager (methods_eager A ms) ms'.
Proof. unfold methods_eager. apply fold_left_app. Qed.

(** X7.  A chain of [LazyWrapper] methods on an array that fuses safely
    returns what the eager functions of the same names return, one after the
    other: the fused evaluation of [lazyValue] changes nothing that a caller
    can see.  A chain fuses safely when it has no [filter], [compact] or
    [reject] on a wrapper whose [__takeCount__] an earlier [take] has lowered,
    and no [slice] other than on integer bounds that are not a negative start
    with a non-negative end.  The chain is one that the model runs as the
    code does ([modelled]): it does not begin with [reverse()], and the sizes
    of its [take], [drop], [takeRight] and [dropRight] are exact; on a size
    with a fractional part the lazy [drop] rounds down where the eager one
    does not, and the two differ. *)
Theorem fused_methods_agree_with_eager (A : list value) (ms : list lazy_method) h :
  Z.of_nat (length A) < 2 ^ 32 ->
  modelled ms = true ->
  fusion_safe (false, false) ms = true ->
  exists h',
    methods_value (6 * length ms + 2) A ms h = Ok (VArr (methods_eager A ms)) h'.
Proof.
  intros Hlen Hmod Hsafe. destruct (method_calls_fused ms _ Hsafe) as [st' Hms].
  destruct (fuses_on_array _ _ _ _ A h Hlen Hms) as (r & h' & h2 & Hrun & Hval).
  exists h2. unfold methods_value.
  rewrite <- (methods_wrapper_eq A ms h (modelled_first ms Hmod)) in Hrun.
  now rewrite (bind_eq _ _ _ _ _ Hrun).
Qed.

Lemma method_calls_app ms1 ms2 this h :
  method_calls (ms1 ++ ms2) this h = bind (method_calls ms1 this) (method_calls ms2) h.
Proof.
  revert this h. induction ms1 as [|m ms1 IH]; intros this h; cbn [method_calls app].
  - reflexivity.
  - rewrite bind_assoc. apply bind_ext. intros r h1 _. apply IH.
Qed.

(** X8.  Where the fused evaluation leaves the eager functions: a [take(n)]
    on a filtered wrapper only lowers [__takeCount__], which counts the
    elements that reach the result, so that in [....take(n).filter(predicate)]
    the take is applied after the filter.  After a chain that fuses safely and
    leaves a filtered wrapper with no take count, [take(n)] and then
    [filter(predicate)] return the first [n] elements that pass the
    predicate, where the eager functions return those of the first [n]
    elements that pass it.  The chain is one that the model runs as the code
    does, and the size [n] is exact. *)
Theorem take_before_filter_is_applied_after (A : list value) (ms : list lazy_method)
    (n : value) (predicate : callback) h :
  Z.of_nat (length A) < 2 ^ 32 ->
  modelled ms = true ->
  exact_size n = true ->
  state_after (false, false) ms = Some (true, false) ->
  (exists h',
     methods_value (6 * length ms + 3) A
       (ms ++ [Method_call (Call_take n); Method_call (Call_filter predicate)]) h
     = Ok (VArr (array_take (collection_filter (methods_eager A ms) predicate) n)) h') /\
  methods_eager A (ms ++ [Method_call (Call_take n); Method_call (Call_filter predicate)])
  = collection_filter (array_take (methods_eager A ms) n) predicate.
Proof.
  intros Hlen Hmod _ Hst. split.
  - pose proof (fuses_compose _ _ _ _ _ _ _ _ _
                  (method_calls_fused_state ms _ _ Hst) (fuses_take_filter n predicate))
      as Hfuses.
    destruct (fuses_on_array _ _ _ _ A h Hlen Hfuses) as (r & h' & h2 & Hrun & Hval).
    exists h2. unfold methods_value.
    assert (methods_wrapper A (ms ++ [Method_call (Call_take n);
                                      Method_call (Call_filter predicate)]) h
            = Ok r h') as Hrun'.
    { rewrite methods_wrapper_eq
        by (apply methods_first_app; [now apply modelled_first | reflexivity]).
      rewrite <- Hrun. apply bind_ext. intros w h0 _. rewrite method_calls_app.
      apply bind_ext. intros r0 h1 _. cbn [method_calls method_call lazy_call].
      apply bind_ext. intros r1 h3 _. apply bind_ret_r. }
    rewrite (bind_eq _ _ _ _ _ Hrun').
    apply (value_of_mono (1 + 6 * length ms + 2)); [lia | exact Hval].
  - unfold methods_eager. now rewrite fold_left_app.
Qed.

(** X9.  [first()] and [last()] at the end of a chain that fuses safely,
    and that the model runs as the code does, return the first and the last
    element of what the eager functions return, [undefined] when that is
    empty. *)
Theorem fused_first_and_last (A : list value) (ms : list lazy_method) h :
  Z.of_nat (length A) < 2 ^ 32 ->
  modelled ms = true ->
  fusion_safe (false, false) ms = true ->
  exists h1 h2,
    methods_first (6 * length ms + 5) A ms h = Ok (array_first (methods_eager A ms)) h1 /\
    methods_last (6 * length ms + 5) A ms h = Ok (array_last (methods_eager A ms)) h2.
Proof.
  intros Hlen Hmod Hsafe.
  destruct (method_calls_fused ms _ Hsafe) as [[filtered counted] Hms].
  pose proof (modelled_first ms Hmod) as Hfirst0.
  assert (length (methods_eager A ms) <= length A)%nat as Hle.
  { destruct (lazy_of_array_sound A h) as (w & h0 & _ & Hsound & Hval).
    destruct (Hms h0 w _ Hsound eq_refl (fun _ => eq_refl))
      as (r & h' & d' & _ & [ext ->] & _ & _ & _ & Hr).
    destruct (Hr [] 2%nat A ((h0 ++ ext) ++ []) Hlen) as [Hle _]; [|exact Hle].
    rewrite <- app_assoc. apply Hval. }
  pose proof (fuses_compose _ _ _ _ _ _ _ _ _ Hms (fuses_take (VInt 1) filtered counted))
    as Hfirst.
  pose proof (fuses_compose _ _ _ _ _ _ _ _ _ Hms (fuses_takeRight (VInt 1) filtered counted))
    as Hlast.
  destruct (fuses_on_array _ _ _ _ A h Hlen Hfirst) as (r1 & h1 & h1' & Hrun1 & Hval1).
  destruct (fuses_on_array _ _ _ _ A h Hlen Hlast) as (r2 & h2 & h2' & Hrun2 & Hval2).
  apply (value_of_mono _ (6 * length ms + 5)) in Hval1; [|lia].
  apply (value_of_mono _ (6 * length ms + 5)) in Hval2; [|lia].
  exists h1', h2'. unfold methods_first, methods_last, lazy_first, lazy_last.
  rewrite <- (bind_assoc (methods_wrapper A ms) (lazy_take (VInt 1))).
  rewrite <- (bind_assoc (methods_wrapper A ms) (lazy_takeRight (VInt 1))).
  assert (forall (m : addr -> M addr) r h0,
            (do w <- lazy_of_array A; do r0 <- method_calls ms w; m r0) h = Ok r h0 ->
            (do r0 <- methods_wrapper A ms; m r0) h = Ok r h0) as Hwrap.
  { intros m r h0 <-. unfold bind at 1 3. rewrite (methods_wrapper_eq A ms h Hfirst0).
    unfold bind. destruct (lazy_of_array A h); reflexivity. }
  apply Hwrap in Hrun1, Hrun2. split.
  - rewrite (bind_eq _ _ _ _ _ Hrun1), (bind_eq _ _ _ _ _ Hval1). unfold ret. f_equal.
    rewrite array_take_count by lia. change (lazy_count (VInt 1)) with (Fin 1).
    destruct (methods_eager A ms); reflexivity.
  - rewrite (bind_eq _ _ _ _ _ Hrun2), (bind_eq _ _ _ _ _ Hval2). unfold ret. f_equal.
    destruct (right_count (methods_eager A ms) (VInt 1)) as [-> _]; [lia|].
    change (lazy_count (VInt 1)) with (Fin 1). cbn iota. change (Z.to_nat 1) with 1%nat.
    unfold array_last. destruct (methods_eager A ms) as [|y ys] eqn:Hxs; [reflexivity|].
    rewrite <- Hxs. assert (0 < length (methods_eager A ms))%nat as Hpos
      by (rewrite Hxs; cbn [length]; lia).
    clear Hxs. set (xs := methods_eager A ms) in *.
    destruct (lookup_lt_is_Some_2 xs (length xs - 1) ltac:(lia)) as [z Hz].
    rewrite (drop_S xs z (length xs - 1) Hz).
    replace (Z.of_nat (length xs) - 1) with (Z.of_nat (length xs - 1)) by lia.
    now rewrite (arrayGetZ_lookup xs _ z Hz).
Qed.

(** ** The take count, from the source array *)

Lemma builds_wf_method m : builds_wf (method_call m).
Proof.
  destruct m; cbn [method_call].
  - apply builds_wf_call.
  - apply builds_wf_takeRight.
  - apply builds_wf_dropRight.
  - unfold lazy_takeRightWhile.
    apply builds_wf_compose; [apply builds_wf_reverse|].
    apply builds_wf_compose; [apply builds_wf_iteratee | apply builds_wf_reverse].
  - unfold lazy_dropRightWhile.
    apply builds_wf_compose; [apply builds_wf_reverse|].
    apply builds_wf_compose; [apply builds_wf_iteratee | apply builds_wf_reverse].
  - apply builds_wf_dropRight.
  - apply builds_wf_drop.
  - apply builds_wf_iteratee.
  - apply builds_wf_iteratee.
Qed.

Lemma method_calls_wf ms : forall h this d,
  described h this d -> array_backed h this ->
  exists r h' d', method_calls ms this h = Ok r h' /\ described h' r d' /\ array_backed h' r.
Proof.
  induction ms as [|m ms IH]; intros h this d Hd Hab; cbn [method_calls].
  - exists this, h, d. auto.
  - destruct (builds_wf_method m h this d Hd Hab) as (r1 & h1 & d1 & Hrun1 & Hb1 & Hab1 & _).
    rewrite (bind_eq _ _ _ _ _ Hrun1).
    exact (IH h1 r1 d1 (built_described _ _ _ _ Hb1) Hab1).
Qed.

Lemma take_keeps_safe ms n :
  fusion_safe (false, false) ms = true ->
  fusion_safe (false, false) (ms ++ [Method_call (Call_take n)]) = true.
Proof.
  unfold fusion_safe. rewrite state_after_app.
  destruct (state_after (false, false) ms) as [[filtered counted]|]; [|discriminate].
  reflexivity.
Qed.

Lemma drop_keeps_safe ms n :
  fusion_safe (false, false) ms = true ->
  fusion_safe (false, false) (ms ++ [Method_call (Call_drop n)]) = true.
Proof.
  unfold fusion_safe. rewrite state_after_app.
  destruct (state_after (false, false) ms) as [[filtered counted]|]; [|discriminate].
  reflexivity.
Qed.

(** C4.  For every chain [ms] on an array that the model runs as the code
    does, and every integer [z >= 0]: the chain has a value [xs], the chain
    followed by [take(z)] has a value [ys], and [ys] is the first [z] elements
    of [xs]; its length is at most [z], and is [z] exactly when [xs] has at
    least [z] elements.  When the chain fuses safely, [xs] is what the eager
    functions make of the array, one after the other: the elements of the
    source that the filters let through, in order. *)
Theorem take_count_bound (A : list value) (ms : list lazy_method) (z : Z) h :
  Z.of_nat (length A) < 2 ^ 32 ->
  modelled ms = true ->
  0 <= z ->
  exists fuel xs h1 ys h2,
    methods_value fuel A ms h = Ok (VArr xs) h1 /\
    methods_value fuel A (ms ++ [Method_call (Call_take (VInt z))]) h = Ok (VArr ys) h2 /\
    ys = take (Z.to_nat z) xs /\
    Z.of_nat (length ys) <= z /\
    (Z.of_nat (length ys) = z <-> z <= Z.of_nat (length xs)) /\
    (fusion_safe (false, false) ms = true -> xs = methods_eager A ms).
Proof.
  intros Hlen Hmod Hz. pose proof (modelled_first ms Hmod) as Hfirst.
  destruct (lazy_of_array_backed A h _ _ (lazy_of_array_spec A h)) as [Hd0 Hab0].
  destruct (method_calls_wf ms _ _ _ Hd0 Hab0) as (r1 & h1' & d1 & Hrun1 & Hd1 & Hab1).
  assert (lazy_count (VInt z) = Fin z) as Hcount.
  { unfold VInt. rewrite lazy_count_Fin. f_equal. lia. }
  destruct (take_is_prefix_of_value h1' r1 d1 (VInt z) z Hd1 Hab1 Hcount)
    as (r & h' & Hrun & _ & Hall).
  destruct (lazy_take_spec (VInt z) h1' r1 d1 Hd1) as (r0 & h0 & Hrun0 & ([ext Hext] & _)).
  same_run Hrun Hrun0.
  destruct (array_backed_value _ _ (array_backed_app _ ext _ Hab1)) as (fuel0 & xs & hx & Hxs).
  destruct (value_of_frame h1' r1 Hab1 _ _ _ _ Hxs) as (hx' & -> & _ & Hxs').
  set (fuel := Nat.max fuel0 (6 * length ms + 2)).
  apply (value_of_mono _ fuel) in Hxs; [|lia].
  apply (value_of_mono _ fuel) in Hxs'; [|lia].
  destruct (Hall fuel xs _ Hxs) as [h2 Hys].
  assert (methods_wrapper A ms h = Ok r1 h1') as Hw.
  { rewrite methods_wrapper_eq by assumption.
    now rewrite (bind_eq _ _ _ _ _ (lazy_of_array_spec A h)). }
  assert (methods_wrapper A (ms ++ [Method_call (Call_take (VInt z))]) h
          = Ok r0 (h1' ++ ext)) as Hw'.
  { rewrite methods_wrapper_eq by (apply methods_first_app; [assumption | reflexivity]).
    rewrite (bind_eq _ _ _ _ _ (lazy_of_array_spec A h)).
    rewrite method_calls_app, (bind_eq _ _ _ _ _ Hrun1).
    cbn [method_calls method_call lazy_call]. now rewrite (bind_eq _ _ _ _ _ Hrun). }
  exists fuel, xs, hx', (take (Z.to_nat z) xs), h2.
  split; [unfold methods_value; now rewrite (bind_eq _ _ _ _ _ Hw)|].
  split; [unfold methods_value; now rewrite (bind_eq _ _ _ _ _ Hw')|].
  split; [reflexivity|]. rewrite length_take.
  split; [lia|]. split; [lia|].
  intros Hsafe. destruct (methods_value_fused A ms h Hlen Hfirst Hsafe) as [_ [h3 H3]].
  apply (methods_value_mono _ fuel) in H3; [|lia].
  unfold methods_value in H3. rewrite (bind_eq _ _ _ _ _ Hw), Hxs' in H3.
  now inversion H3.
Qed.

(** ** Sizes given to take and drop, eagerly and in a chain *)

Lemma lazy_count_cases n :
  (isNullish n = true -> lazy_count n = Fin 1) /\
  (isNullish n = false ->
   match ToNumber n with
   | Fin z => lazy_count n = Fin (Z.max z 0)
   | PInf => lazy_count n = PInf
   | _ => lazy_count n = Fin 0
   end).
Proof.
  unfold lazy_count, Num.floor. split; intros ->; [reflexivity|].
  destruct (ToNumber n) as [| | | |z]; try reflexivity.
  cbn [Num.truthy]. destruct (Z.eqb_spec z 0) as [->|Hz]; [reflexivity|].
  cbn [negb]. apply Num_max_Fin.
Qed.

Lemma same_count_same_call m n this :
  lazy_count m = lazy_count n ->
  lazy_take m this = lazy_take n this /\ lazy_drop m this = lazy_drop n this.
Proof.
  intros Heq. unfold lazy_take, lazy_drop, lazy_drop_take. now rewrite Heq.
Qed.

(** C9.  A size given to [take] or [drop] is never refused: it is made into
    a count, and the result is cut at the count.  The count is [1] for a size
    that is [null] or [undefined], [0] for a size whose number is [NaN],
    negative or [-Infinity], the number itself for an integer that is not
    negative ([true] counts as [1], the numeral ['2'] as [2]), and the whole
    array for [Infinity] and for every count beyond the length.  The eager
    [take] returns the elements before the count and the eager [drop] the
    others; in a chain, [take] and [drop] return the same of the value of the
    chain before them.  Two sizes with the same count behave alike, so that
    [take(array, -5)] is [take(array, 0)].  The size is exact: sizes with a
    fractional part are outside the model. *)
Theorem size_is_coerced (array : list value) (n : value) (ms : list lazy_method) h :
  Z.of_nat (length array) < 2 ^ 32 ->
  exact_size n = true ->
  count_like (lazy_count n) /\
  (isNullish n = true -> lazy_count n = Fin 1) /\
  (isNullish n = false ->
   match ToNumber n with
   | Fin z => lazy_count n = Fin (Z.max z 0)
   | PInf => lazy_count n = PInf
   | _ => lazy_count n = Fin 0
   end) /\
  array_take array n = count_take (lazy_count n) array /\
  array_drop array n = count_drop (lazy_count n) array /\
  (modelled ms = true -> fusion_safe (false, false) ms = true ->
   exists h1 h2,
     methods_value (6 * length ms + 8) array (ms ++ [Method_call (Call_take n)]) h
     = Ok (VArr (count_take (lazy_count n) (methods_eager array ms))) h1 /\
     methods_value (6 * length ms + 8) array (ms ++ [Method_call (Call_drop n)]) h
     = Ok (VArr (count_drop (lazy_count n) (methods_eager array ms))) h2) /\
  (forall m, exact_size m = true -> lazy_count m = lazy_count n ->
     array_take array m = array_take array n /\
     array_drop array m = array_drop array n /\
     forall this, lazy_take m this = lazy_take n this /\ lazy_drop m this = lazy_drop n this).
Proof.
  intros Hlen Hexact.
  split; [apply lazy_count_range|].
  split; [apply lazy_count_cases|]. split; [apply lazy_count_cases|].
  split; [now apply array_take_count|]. split; [now apply array_drop_count|].
  split.
  - intros Hmod Hsafe. pose proof (modelled_first ms Hmod) as Hfirst.
    destruct (methods_value_fused array ms h Hlen Hfirst Hsafe) as [Hle _].
    destruct (methods_value_fused array (ms ++ [Method_call (Call_take n)]) h Hlen
                (methods_first_app ms [Method_call (Call_take n)] Hfirst eq_refl)
                (take_keeps_safe ms n Hsafe))
      as [_ [h1 H1]].
    destruct (methods_value_fused array (ms ++ [Method_call (Call_drop n)]) h Hlen
                (methods_first_app ms [Method_call (Call_drop n)] Hfirst eq_refl)
                (drop_keeps_safe ms n Hsafe))
      as [_ [h2 H2]].
    rewrite methods_eager_app in H1, H2.
    cbn [methods_eager fold_left method_eager eager_call] in H1, H2.
    rewrite array_take_count in H1 by lia. rewrite array_drop_count in H2 by lia.
    rewrite length_app in H1, H2. cbn [length] in H1, H2.
    replace (6 * (length ms + 1) + 2)%nat with (6 * length ms + 8)%nat in H1, H2 by lia.
    exists h1, h2. split; [exact H1 | exact H2].
  - intros m _ Heq. rewrite !array_take_count, !array_drop_count by assumption.
    rewrite Heq. split; [reflexivity|]. split; [reflexivity|].
    intros this. now apply same_count_same_call.
Qed.

(** X10.  The eager functions that work from the right are the ones that work
    from the left on the reversed array, reversed again: what the lazy
    methods [takeRight], [dropRight], [takeRightWhile] and [dropRightWhile]
    are made of.  The size [n] is exact. *)
Theorem from_the_right_is_reversed (xs : list value) (n : value) (predicate : callback) :
  Z.of_nat (length xs) < 2 ^ 32 ->
  exact_size n = true ->
  array_takeRight xs n = array_reverse (array_take (array_reverse xs) n) /\
  array_dropRight xs n = array_reverse (array_drop (array_reverse xs) n) /\
  array_takeRightWhile xs predicate
  = array_reverse (array_takeWhile (array_reverse xs) predicate) /\
  array_dropRightWhile xs predicate
  = array_reverse (array_dropWhile (array_reverse xs) predicate).
Proof.
  intros Hlen _. unfold array_reverse.
  destruct (right_as_reverse xs n Hlen) as [-> ->].
  destruct (right_while_as_reverse xs predicate Hlen) as [-> ->].
  auto.
Qed.

(** X11.  [slice] on integer bounds is what the lazy [slice] makes of it:
    [drop] for a start that is not negative and [takeRight] for a negative
    one, then [take] of the difference for an end that is not negative and
    [dropRight] for a negative one; but not for a negative start with an end
    that is not negative, where [slice] counts the end from the front and
    [take] from the start. *)
Theorem slice_in_drops_and_takes (xs : list value) (s e : Z) :
  Z.of_nat (length xs) < 2 ^ 32 ->
  (0 <= s -> array_slice xs (VInt s) VUndefined = array_drop xs (VInt s)) /\
  (s < 0 -> array_slice xs (VInt s) VUndefined = array_takeRight xs (VInt (- s))) /\
  (0 <= s -> 0 <= e ->
   array_slice xs (VInt s) (VInt e) = array_take (array_drop xs (VInt s)) (VInt (e - s))) /\
  (0 <= s -> e < 0 ->
   array_slice xs (VInt s) (VInt e) = array_dropRight (array_drop xs (VInt s)) (VInt (- e))) /\
  (s < 0 -> e < 0 ->
   array_slice xs (VInt s) (VInt e)
   = array_dropRight (array_takeRight xs (VInt (- s))) (VInt (- e))).
Proof.
  intros Hlen. destruct (slice_as_calls xs s e Hlen) as (H1 & H2 & H3 & H4 & H5).
  unfold VInt in *. rewrite Num_sub_Fin in H3.
  repeat split.
  - exact H1.
  - intros Hs. rewrite <- (Num_neg_Fin s) by lia. auto.
  - exact H3.
  - intros Hs He. rewrite <- (Num_neg_Fin e) by lia. auto.
  - intros Hs He. rewrite <- (Num_neg_Fin s), <- (Num_neg_Fin e) by lia. auto.
Qed.

(** X12.  The evaluation of an array-backed wrapper (the wrapper of an array
    on which no action is pending, and what the [LazyWrapper] methods build
    on it) reads and writes its own cells only: in a larger store it returns
    the same value and leaves the rest of the store as it is; of its own
    cells it changes at most the progress fields of the entries, so that the
    wrapper is as well built after the evaluation as before.  A wrapper with
    a pending action, such as the one that a chain beginning with [reverse()]
    builds, is not array-backed: its evaluation turns the caller's array
    round. *)
Theorem evaluation_is_local h a fuel t v h1 :
  array_backed h a ->
  value_of fuel a (h ++ t) = Ok v h1 ->
  exists h',
    h1 = h' ++ t /\ same_shape h h' /\ value_of fuel a h = Ok v h' /\
    array_backed h' a /\ array_backed h1 a.
Proof.
  intros Hab Hv. destruct (value_of_frame h a Hab _ _ _ _ Hv) as (h' & -> & Hs & Hrun).
  exists h'. repeat split; auto.
  - now apply (array_backed_shape h).
  - now apply array_backed_app, (array_backed_shape h).
Qed.

(** ** Evaluations that leave no trace *)

Lemma lazyIteratees_stateless its : forall isRight index v h p h',
  Forall (stateless_entry h) its ->
  lazyIteratees its isRight index v h = Ok p h' -> h' = h.
Proof.
  induction its as [|a its IH]; intros isRight index v h p h' Hent H;
    cbn [lazyIteratees] in H.
  - now inversion H.
  - inversion Hent as [|? ? (d & Hl & Hty) Hrest]; subst.
    rewrite (bind_eq _ _ _ _ _ (getData_eq _ _ _ Hl)) in H.
    destruct (data_type d); [contradiction | | |].
    + destruct (truthy _); [eauto | now inversion H].
    + eauto.
    + destruct (truthy _); [eauto | now inversion H].
Qed.

Lemma lazyLoop_stateless arr dir its T : forall steps len idx acc h res h',
  Forall (stateless_entry h) its ->
  lazyLoop steps arr dir its T len idx acc h = Ok res h' -> h' = h.
Proof.
  induction steps as [|steps IH]; intros len idx acc h res h' Hent H;
    cbn [lazyLoop] in H; [discriminate|].
  destruct (Num.truthy len && _); [|now inversion H].
  apply bind_Ok in H as (p & h0 & Hp & H).
  apply lazyIteratees_stateless in Hp; [subst h0 | assumption].
  destruct p; [eauto | eauto | now inversion H].
Qed.

(** The evaluation of a wrapper with no [dropWhile] entry leaves the store
    as it is. *)
Lemma value_of_repeatable h a :
  repeatable h a -> forall fuel v h', value_of fuel a h = Ok v h' -> h' = h.
Proof.
  induction 1 as [a array acts chain Hl Ha | a d src Hd Hsrc _ IH Hent];
    intros fuel v h' Hv; (destruct fuel as [|fuel]; [discriminate|]).
  - rewrite (value_of_lodash_array fuel h a array acts chain Hl Ha) in Hv. now inversion Hv.
  - rewrite (value_of_described _ _ _ _ Hd) in Hv. unfold lazyValue_desc in Hv.
    rewrite Hsrc in Hv. apply bind_Ok in Hv as (v0 & h0 & Hv0 & Hv).
    apply IH in Hv0. subst h0.
    destruct v0; try (destruct (desc_actions d); [now inversion Hv | discriminate]).
    apply bind_Ok in Hv as (res & h1 & Hloop & Hret). inversion Hret; subst.
    unfold lazyLoop_of in Hloop. destruct (getView _ _ _) as [s e].
    now apply lazyLoop_stateless in Hloop.
Qed.

Lemma stateless_entry_app h t e : stateless_entry h e -> stateless_entry (h ++ t) e.
Proof. intros (d & Hl & Hty). exists d. split; [now apply lookup_app_old | assumption]. Qed.

Lemma repeatable_app h t a : repeatable h a -> repeatable (h ++ t) a.
Proof.
  induction 1 as [a array acts chain Hl Ha | a d src Hd Hsrc _ IH Hent].
  - eapply repeatable_lodash; eauto using lookup_app_old.
  - eapply repeatable_lazy; [apply described_app, Hd | exact Hsrc | exact IH |].
    eapply Forall_impl; [exact Hent|]. intros e. apply stateless_entry_app.
Qed.

Lemma repeatable_inv h this d :
  described h this d -> repeatable h this ->
  exists src, desc_wrapped d = WRef src /\ repeatable h src /\
              Forall (stateless_entry h) (desc_iteratees d).
Proof.
  intros Hd Hrep. destruct Hrep as [a array acts chain Hl _ | a d0 src Hd0 Hsrc Hrep Hent].
  - destruct Hd as (w & Hl' & _). congruence.
  - rewrite (described_fun _ _ _ _ Hd Hd0). eauto.
Qed.

(** A call that makes no [dropWhile] entry builds a wrapper without one. *)
Lemma call_keeps_repeatable c h this d filtered filtered' :
  described h this d -> repeatable h this -> desc_filtered d = filtered ->
  after_stateless c filtered = Some filtered' ->
  exists r h' d',
    lazy_call c this h = Ok r h' /\ described h' r d' /\ repeatable h' r /\
    desc_filtered d' = filtered'.
Proof.
  intros Hd Hrep Hf Hc.
  destruct (repeatable_inv _ _ _ Hd Hrep) as (src & Hsrc & Hreps & Hent).
  assert (forall ext, Forall (stateless_entry (h ++ ext)) (desc_iteratees d)) as Hent'.
  { intros ext. eapply Forall_impl; [exact Hent|]. intros e. apply stateless_entry_app. }
  assert (forall type cb,
            type <> LAZY_DROP_WHILE_FLAG ->
            exists r h' d',
              lazy_iteratee_method type cb this h = Ok r h' /\ described h' r d' /\
              repeatable h' r /\
              desc_filtered d'
              = (desc_filtered d || match type with LAZY_MAP_FLAG => false | _ => true end))
    as Hentry.
  { intros type cb Hty.
    destruct (iteratee_method_cloned type cb h this d Hd)
      as (r & h' & e & Hrun & [ext ->] & Hdr & He).
    { destruct type; [contradiction | | |]; now rewrite andb_false_r. }
    exists r, (h ++ ext). eexists. split; [exact Hrun|]. split; [exact Hdr|].
    split; [|reflexivity].
    eapply repeatable_lazy; [exact Hdr | exact Hsrc | now apply repeatable_app |].
    cbn [desc_iteratees]. apply Forall_app. split; [apply Hent'|].
    constructor; [|constructor]. eexists. split; [exact He | exact Hty]. }
  destruct c as [cb | cb | n | n | cb | cb | | s e]; cbn [after_stateless] in Hc;
    cbn [lazy_call].
  - inversion Hc; subst filtered'.
    destruct (Hentry LAZY_MAP_FLAG cb ltac:(discriminate))
      as (r & h' & d' & Hrun & Hdr & Hrep' & Hf').
    exists r, h', d'. rewrite Hf', orb_false_r. auto.
  - inversion Hc; subst filtered'.
    destruct (Hentry LAZY_FILTER_FLAG cb ltac:(discriminate))
      as (r & h' & d' & Hrun & Hdr & Hrep' & Hf').
    exists r, h', d'. rewrite Hf', orb_true_r. auto.
  - inversion Hc; subst filtered'.
    destruct (lazy_take_spec n h this d Hd) as (r & h' & Hrun & Hb).
    pose proof (built_described _ _ _ _ Hb) as Hdr. destruct Hb as ([ext ->] & _).
    exists r, (h ++ ext), (desc_take (lazy_count n) d).
    split; [exact Hrun|]. split; [exact Hdr|]. split.
    + eapply repeatable_lazy; [exact Hdr | | now apply repeatable_app, Hreps |].
      * now rewrite desc_take_wrapped.
      * unfold desc_take. destruct (desc_filtered d); cbn; apply Hent'.
    + rewrite <- Hf. unfold desc_take. destruct (desc_filtered d) eqn:E; cbn; auto.
  - destruct filtered; [discriminate|]. inversion Hc; subst filtered'.
    destruct (lazy_drop_spec n h this d Hd) as (r & h' & e & Hrun & Hb & _).
    pose proof (built_described _ _ _ _ Hb) as Hdr. destruct Hb as ([ext ->] & _).
    unfold desc_drop in Hdr. rewrite Hf in Hdr.
    exists r, (h ++ ext). eexists. split; [exact Hrun|]. split; [exact Hdr|]. split.
    + eapply repeatable_lazy; [exact Hdr | exact Hsrc | now apply repeatable_app |].
      cbn. apply Hent'.
    + exact Hf.
  - discriminate.
  - inversion Hc; subst filtered'.
    destruct (Hentry LAZY_TAKE_WHILE_FLAG cb ltac:(discriminate))
      as (r & h' & d' & Hrun & Hdr & Hrep' & Hf').
    exists r, h', d'. rewrite Hf', orb_true_r. auto.
  - inversion Hc; subst filtered'.
    destruct (lazyReverse_spec h this d Hd) as (r & h' & Hrun & Hb).
    pose proof (built_described _ _ _ _ Hb) as Hdr. destruct Hb as ([ext ->] & _).
    exists r, (h ++ ext), (desc_reverse this d).
    split; [exact Hrun|]. split; [exact Hdr|].
    unfold desc_reverse in *. destruct (desc_filtered d) eqn:E.
    + split; [|exact Hf].
      eapply repeatable_lazy; [exact Hdr | reflexivity | now apply repeatable_app |].
      constructor.
    + split; [|cbn; congruence].
      eapply repeatable_lazy; [exact Hdr | exact Hsrc | now apply repeatable_app |].
      cbn. apply Hent'.
  - discriminate.
Qed.

Lemma calls_keep_repeatable calls : forall h this d filtered,
  described h this d -> repeatable h this -> desc_filtered d = filtered ->
  keeps_no_state filtered calls = true ->
  exists r h', lazy_calls calls this h = Ok r h' /\ repeatable h' r.
Proof.
  induction calls as [|c calls IH]; intros h this d filtered Hd Hrep Hf Hsafe;
    cbn [lazy_calls keeps_no_state] in *.
  - exists this, h. auto.
  - destruct (after_stateless c filtered) as [filtered'|] eqn:Hc; [|discriminate].
    destruct (call_keeps_repeatable c h this d filtered filtered' Hd Hrep Hf Hc)
      as (r1 & h1 & d1 & Hrun1 & Hd1 & Hrep1 & Hf1).
    destruct (IH h1 r1 d1 filtered' Hd1 Hrep1 Hf1 Hsafe) as (r & h' & Hrun & Hrep').
    exists r, h'. split; [now rewrite (bind_eq _ _ _ _ _ Hrun1) | exact Hrep'].
Qed.

(** X13.  A chain of [map], [filter], [take], [takeWhile], [drop] and, after
    its first call, [reverse], with no [drop] after a [filter] or a
    [takeWhile], makes no [dropWhile] entry and builds a wrapper whose
    evaluation writes nothing: [value()] returns an array and leaves the store
    as it is, so that a second [value()] returns the same array.  A chain
    that begins with [reverse()] is another matter: there [wrapperReverse]
    queues [Array.prototype.reverse], every [value()] turns the array round
    once more, and two evaluations differ. *)
Theorem value_is_repeatable (A : list value) (calls : list chain_call) h :
  reverse_first calls = false ->
  keeps_no_state false calls = true ->
  exists r h',
    lazy_chain A calls h = Ok r h' /\
    (forall fuel v h1, value_of fuel r h' = Ok v h1 -> h1 = h') /\
    exists fuel xs,
      value_of fuel r h' = Ok (VArr xs) h' /\
      value_twice fuel r h' = Ok (VArr xs, VArr xs) h'.
Proof.
  intros Hfirst Hsafe.
  destruct (lazy_chain_wf A calls h Hfirst) as (r & h' & d' & Hrun & Hdr & Hab).
  assert (repeatable h' r) as Hrep.
  { unfold lazy_chain in Hrun. rewrite Hfirst in Hrun.
    rewrite (bind_eq _ _ _ _ _ (lazy_of_array_spec A h)) in Hrun.
    destruct (lazy_of_array_backed A h _ _ (lazy_of_array_spec A h)) as [Hd0 _].
    set (h0 := h ++ _) in *.
    assert (repeatable h0 (length h + 2)) as Hrep0.
    { eapply repeatable_lazy; [exact Hd0 | reflexivity | | constructor].
      eapply repeatable_lodash; unfold h0; rewrite lookup_app_plus; reflexivity. }
    destruct (calls_keep_repeatable calls _ _ _ false Hd0 Hrep0 eq_refl Hsafe)
      as (r2 & h2 & Hrun2 & Hrep2).
    rewrite Hrun in Hrun2. now inversion Hrun2; subst. }
  exists r, h'. split; [exact Hrun|].
  split; [intros fuel v h1; apply (value_of_repeatable h' r Hrep)|].
  destruct (array_backed_value h' r Hab) as (fuel & xs & h1 & Hv).
  pose proof (value_of_repeatable h' r Hrep _ _ _ Hv). subst h1.
  exists fuel, xs. split; [exact Hv|].
  unfold value_twice. now rewrite (bind_eq _ _ _ _ _ Hv), (bind_eq _ _ _ _ _ Hv).
Qed.

(** ** Patterns whose values are primitives *)

Lemma baseIsMatch_present_strict object (g : string -> value) : forall props,
  (forall key, In key props -> isStrictComparable (g key) = true) ->
  baseIsMatch_present object props (map g props) (map isStrictComparable (map g props)) true
  = forallb (fun key => strictEquals (g key) (getProp object key)) props.
Proof.
  induction props as [|key props IH]; intros Hsc; cbn [map baseIsMatch_present forallb].
  - reflexivity.
  - rewrite (Hsc key (or_introl eq_refl)). cbn [andb].
    destruct (strictEquals (g key) (getProp object key)); cbn [negb andb]; [|reflexivity].
    apply IH. intros k Hk. apply Hsc. now right.
Qed.

Lemma baseIsMatch_equal_strict object (g : string -> value) : forall props,
  (forall key, In key props -> isStrictComparable (g key) = true) ->
  baseIsMatch_equal object props (map g props) (map isStrictComparable (map g props)) None
  = forallb (fun key => negb (isUndefined (getProp object key)) || hasProperty object key)
            props.
Proof.
  induction props as [|key props IH]; intros Hsc; cbn [map baseIsMatch_equal forallb].
  - reflexivity.
  - rewrite (Hsc key (or_introl eq_refl)). cbn [andb].
    destruct (negb (isUndefined (getProp object key)) || hasProperty object key);
      cbn [andb]; [|reflexivity].
    apply IH. intros k Hk. apply Hsc. now right.
Qed.

Lemma forallb_both {A} (p q : A -> bool) (l : list A) :
  forallb p l && forallb q l = forallb (fun x => p x && q x) l.
Proof.
  induction l as [|x l IH]; cbn [forallb]; [reflexivity|]. rewrite <- IH.
  destruct (p x), (q x), (forallb p l); reflexivity.
Qed.

Lemma forallb_same {A} (p q : A -> bool) (l : list A) :
  (forall x, In x l -> p x = q x) -> forallb p l = forallb q l.
Proof.
  induction l as [|x l IH]; intros H; cbn [forallb]; [reflexivity|].
  rewrite (H x (or_introl eq_refl)), IH; [reflexivity|]. intros y Hy. apply H. now right.
Qed.

(** The general path of [baseMatches] on a pattern of primitives. *)
Lemma matchesGeneral_strict source object :
  object_keys source <> [] ->
  (forall key, In key (object_keys source) ->
               isStrictComparable (getProp source key) = true) ->
  matchesGeneral source object
  = forallb (fun key => matchesStrict key (getProp source key) object) (object_keys source).
Proof.
  intros Hne Hsc. unfold matchesGeneral, baseIsMatch. cbv zeta.
  rewrite (baseIsMatch_present_strict _ (getProp source) _ Hsc).
  rewrite (baseIsMatch_equal_strict _ (getProp source) _ Hsc).
  destruct (isNullish object) eqn:Hnull; cbn [negb andb].
  - destruct (object_keys source) as [|key keys]; [contradiction|].
    cbn [forallb]. unfold matchesStrict. now rewrite Hnull.
  - match goal with
    | |- (if ?a then ?b else false) = _ => change (a && b = forallb
             (fun key => matchesStrict key (getProp source key) object) (object_keys source))
    end.
    rewrite forallb_both. apply forallb_same. intros key Hkey.
    unfold matchesStrict. rewrite Hnull, !getProp_toObject. cbn [negb andb].
    rewrite (strictEquals_sym_primitive (getProp object key) (getProp source key))
      by (apply isStrictComparable_primitive, Hsc, Hkey).
    destruct (strictEquals (getProp source key) (getProp object key)) eqn:Heq;
      cbn [andb]; [|reflexivity].
    apply strictEquals_undefined in Heq. now rewrite Heq.
Qed.

(** X14.  For a pattern (a plain object with its own keys, or an array or a
    string with its indices for keys) whose values are all strictly
    comparable (primitives other than [NaN] and [-0]), whatever the number of
    its keys, the predicate
    of [baseMatches] holds of an object exactly when the single-key test of
    lines 1340-1343 holds for every key: the object is not [null] or
    [undefined], its value at the key is [===] to the pattern's, and the key
    is in the object when that value is [undefined].  A pattern with no key
    matches everything. *)
Theorem baseMatches_of_primitives source object :
  (forall key, In key (object_keys source) ->
               isStrictComparable (getProp source key) = true) ->
  baseMatches source object
  = forallb (fun key => matchesStrict key (getProp source key) object) (object_keys source).
Proof.
  intros Hsc. unfold baseMatches. cbv zeta.
  destruct (object_keys source) as [|k1 [|k2 keys]] eqn:Hkeys.
  - reflexivity.
  - rewrite (Hsc k1 (or_introl eq_refl)). cbn [forallb]. now rewrite andb_true_r.
  - rewrite <- Hkeys in *. apply matchesGeneral_strict; [|exact Hsc].
    rewrite Hkeys. discriminate.
Qed.

(** X15.  A match of [baseMatches] never comes from a key that the object
    lacks: when the predicate holds of an object for a pattern with a key, the
    object is not [null] or [undefined] and every key of the pattern is in it,
    whatever the values are and however they are compared. *)
Theorem baseMatches_needs_every_key source object key :
  In key (object_keys source) ->
  baseMatches source object = true ->
  isNullish object = false /\ hasProperty (toObject object) key = true.
Proof.
  intros Hkey Hm.
  assert (isUndefined (getProp (toObject object) key) = false \/
          hasProperty (toObject object) key = true ->
          hasProperty (toObject object) key = true) as Hdefined.
  { intros [Hdef | Hhas]; [|exact Hhas].
    unfold hasProperty. unfold getProp in Hdef. rewrite toObject_idem in Hdef.
    destruct (lookupProp (toObject object) key); [reflexivity | discriminate]. }
  assert (matchesGeneral source object = true ->
          isNullish object = false /\ hasProperty (toObject object) key = true) as Hgen.
  { clear Hm. unfold matchesGeneral, baseIsMatch. cbv zeta. intros Hm.
    apply andb_prop in Hm as [Hnull Hm]. apply negb_true_iff in Hnull.
    split; [exact Hnull|].
    destruct (baseIsMatch_present _ _ _ _ _) eqn:Hpresent; [|discriminate].
    revert Hkey Hpresent Hm. generalize (object_keys source) as props.
    induction props as [|k props IH]; intros Hkey Hpresent Hequal; [contradiction|].
    cbn [map baseIsMatch_present baseIsMatch_equal] in Hpresent, Hequal.
    cbn [andb] in Hpresent, Hequal.
    destruct (isStrictComparable (getProp source k)) eqn:Hflag.
    - destruct (strictEquals _ _) eqn:Heq; cbn [negb] in Hpresent; [|discriminate].
      destruct (negb (isUndefined (getProp (toObject object) k))
                || hasProperty (toObject object) k) eqn:Hres; [|discriminate].
      destruct Hkey as [<- | Hkey]; [|now apply IH].
      apply Hdefined. apply orb_prop in Hres as [Hres | Hres]; [left | now right].
      now apply negb_true_iff in Hres.
    - destruct (hasProperty (toObject object) k) eqn:Hhas; cbn [negb] in Hpresent;
        [|discriminate].
      destruct (baseIsEqualLoose _ _); [|discriminate].
      destruct Hkey as [<- | Hkey]; [exact Hhas | now apply IH]. }
  unfold baseMatches in Hm. cbv zeta in Hm.
  destruct (object_keys source) as [|k1 [|k2 keys]] eqn:Hkeys.
  - contradiction.
  - destruct (isStrictComparable (getProp source k1)) eqn:Hsc.
    + destruct Hkey as [<- | []]. unfold matchesStrict in Hm.
      apply andb_prop in Hm as [Hm Hin]. apply andb_prop in Hm as [Hnull Heq].
      apply negb_true_iff in Hnull. split; [exact Hnull|].
      apply Hdefined. apply orb_prop in Hin as [Hdef | Hin]; [left | now right].
      apply negb_true_iff in Hdef. rewrite getProp_toObject.
      apply strictEquals_undefined in Heq. now rewrite Heq.
    + rewrite <- Hkeys in Hkey. now apply Hgen.
  - rewrite <- Hkeys in Hkey. now apply Hgen.
Qed.

(** ** chunk *)

Lemma chunk_size_cases size :
  chunk_size size = PInf \/ exists z, 1 <= z /\ chunk_size size = Fin z.
Proof.
  unfold chunk_size. destruct (isNullish size); [right; exists 1; split; [lia | reflexivity]|].
  cbv zeta. destruct (ToNumber size) as [| | | |z]; cbn [Num.truthy].
  - right. exists 1. split; [lia | reflexivity].
  - left. reflexivity.
  - right. exists 1. split; [lia | reflexivity].
  - right. exists 1. split; [lia | reflexivity].
  - right. destruct (Z.eqb_spec z 0); cbn [negb]; rewrite Num_max_Fin;
      eexists; (split; [|reflexivity]); lia.
Qed.

(** The pieces of [xs], [z] elements each, that come before the [j]-th. *)
Lemma pieces_concat (xs : list value) (z : nat) : forall j,
  concat (map (fun i => take z (drop (i * z) xs)) (seq 0 j)) = take (j * z) xs.
Proof.
  induction j as [|j IH]; [reflexivity|].
  rewrite seq_S, map_app, concat_app, IH. cbn [map concat plus]. rewrite app_nil_r.
  rewrite take_take_drop. f_equal. lia.
Qed.

Lemma insert_at_hole {A} (l : list (option A)) (m : nat) (x : A) :
  array_set (l ++ None :: replicate m None) (length l) x = (l ++ [Some x]) ++ replicate m None.
Proof.
  unfold array_set. rewrite length_app. cbn [length].
  destruct (Nat.ltb_spec (length l) (length l + S (length (replicate m (@None A)))));
    [|lia].
  rewrite insert_app_r_alt by lia. rewrite Nat.sub_diag. cbn [insert list_insert].
  now rewrite <- app_assoc.
Qed.

Lemma chunk_count_bounds len z :
  1 <= z -> 0 <= len ->
  len <= Z.of_nat (chunk_count len (Fin z)) * z /\
  (forall k : nat, (k < chunk_count len (Fin z))%nat -> Z.of_nat k * z < len).
Proof.
  intros Hz Hlen. unfold chunk_count.
  pose proof (Z.mul_div_le (len + z - 1) z ltac:(lia)) as Hlo.
  pose proof (Z.mul_succ_div_gt (len + z - 1) z ltac:(lia)) as Hhi.
  assert (0 <= (len + z - 1) / z) as Hq by (apply Z.div_pos; lia).
  rewrite Z2Nat.id by assumption. split; [nia|].
  intros k Hk. assert (Z.of_nat k <= (len + z - 1) / z - 1) as Hk' by lia. nia.
Qed.

(** The loop of [chunk] from its [k]-th iteration on. *)
Lemma chunk_loop_pieces (xs : list value) z :
  Z.of_nat (length xs) < 2 ^ 32 -> 1 <= z ->
  forall m k steps,
    (k + m = chunk_count (Z.of_nat (length xs)) (Fin z))%nat -> (m < steps)%nat ->
    chunk_loop steps xs (Fin z) (Fin (Z.of_nat k * z)) (Z.of_nat k - 1)
      (map Some (map (fun i => take (Z.to_nat z) (drop (i * Z.to_nat z) xs)) (seq 0 k))
       ++ replicate m None)
    = Some (map Some (map (fun i => take (Z.to_nat z) (drop (i * Z.to_nat z) xs))
                          (seq 0 (chunk_count (Z.of_nat (length xs)) (Fin z))))).
Proof.
  intros Hlen Hz.
  destruct (chunk_count_bounds (Z.of_nat (length xs)) z Hz ltac:(lia)) as [Hall Hsome].
  induction m as [|m IH]; intros k steps Hk Hsteps;
    (destruct steps as [|steps]; [lia|]); cbn [chunk_loop]; unfold lengthOf;
    rewrite Num_lt_Fin.
  - rewrite Nat.add_0_r in Hk. subst k.
    destruct (Z.ltb_spec (Z.of_nat (chunk_count (Z.of_nat (length xs)) (Fin z)) * z)
                (Z.of_nat (length xs))); [lia|].
    cbn [replicate]. now rewrite app_nil_r.
  - pose proof (Hsome k ltac:(lia)) as Hin.
    destruct (Z.ltb_spec (Z.of_nat k * z) (Z.of_nat (length xs))); [|lia].
    change (Num.add (Fin (Z.of_nat k * z)) (Fin z)) with (Fin (Z.of_nat k * z + z)).
    replace (Z.to_nat (Z.of_nat k - 1 + 1)) with k by lia.
    assert (baseSlice xs (VNum (Fin (Z.of_nat k * z))) (VNum (Fin (Z.of_nat k * z + z)))
            = take (Z.to_nat z) (drop (k * Z.to_nat z) xs)) as ->.
    { destruct (baseSlice_int xs (Z.of_nat k * z) (Z.of_nat k * z + z) Hlen) as [Hseg _].
      unfold VInt in Hseg. rewrite Hseg. clear Hseg.
      destruct (Z.ltb_spec (Z.of_nat k * z) 0); [lia|].
      destruct (Z.ltb_spec (Z.of_nat k * z + z) 0); [lia|].
      replace (Z.to_nat (Z.of_nat k * z)) with (k * Z.to_nat z)%nat by lia.
      destruct (Z.le_gt_cases (Z.of_nat k * z + z) (Z.of_nat (length xs))).
      - f_equal. lia.
      - rewrite !take_ge by (rewrite length_drop; lia). reflexivity. }
    cbn [replicate].
    pose proof (insert_at_hole
                  (map Some (map (fun i => take (Z.to_nat z) (drop (i * Z.to_nat z) xs))
                                 (seq 0 k))) m
                  (take (Z.to_nat z) (drop (k * Z.to_nat z) xs))) as Hset.
    rewrite !length_map, length_seq in Hset. rewrite Hset.
    replace (Z.of_nat k * z + z) with (Z.of_nat (S k) * z) by lia.
    replace (Z.of_nat k - 1 + 1) with (Z.of_nat (S k) - 1) by lia.
    rewrite <- (IH (S k) steps) by lia. f_equal.
    rewrite (seq_S k 0), !map_app. reflexivity.
Qed.

(** X16.  [chunk(array, size)], for an exact size, cuts the array into
    consecutive pieces: it returns an array with no hole, whose pieces put end
    to end are the array, none of them empty; for a size that counts as the
    integer [z] (at least [1]) the [i]-th piece is the [z] elements from
    position [i * z], fewer in the last piece; for an infinite size the array
    is one piece.  (On a size with a fractional part the pieces that
    [baseSlice] cuts leave elements out.) *)
Theorem chunk_partition (xs : list value) (size : value) :
  Z.of_nat (length xs) < 2 ^ 32 ->
  exact_size size = true ->
  exists chunks,
    array_chunk xs size = Some (map Some chunks) /\
    concat chunks = xs /\
    Forall (fun c => c <> []) chunks /\
    (forall z, chunk_size size = Fin z ->
       forall i c, chunks !! i = Some c ->
         c = take (Z.to_nat z) (drop (i * Z.to_nat z) xs)) /\
    (chunk_size size = PInf -> chunks = match xs with [] => [] | _ => [xs] end).
Proof.
  intros Hlen _. unfold array_chunk. cbv zeta.
  destruct (chunk_size_cases size) as [-> | (z & Hz & ->)].
  - (* one piece *)
    exists (match xs with [] => [] | _ => [xs] end).
    split; [|split; [|split; [|split; [discriminate | reflexivity]]]].
    + cbn [chunk_loop chunk_count new_Array replicate]. unfold lengthOf.
      rewrite Num_lt_Fin. destruct xs as [|x xs'] eqn:Hxs; [reflexivity|].
      rewrite <- Hxs in *.
      destruct (Z.ltb_spec 0 (Z.of_nat (length xs))); [|rewrite Hxs in *; cbn in *; lia].
      change (Num.add (Fin 0) PInf) with PInf.
      change (VNum (Fin 0)) with (VInt 0). rewrite take_to_posinf by assumption.
      destruct (length xs) as [|n] eqn:Hn; [lia|]. reflexivity.
    + destruct xs; [reflexivity|]. cbn [concat]. apply app_nil_r.
    + destruct xs; constructor; [discriminate | constructor].
  - destruct (chunk_count_bounds (Z.of_nat (length xs)) z Hz ltac:(lia)) as [Hall Hsome].
    set (n := chunk_count (Z.of_nat (length xs)) (Fin z)) in *.
    exists (map (fun i => take (Z.to_nat z) (drop (i * Z.to_nat z) xs)) (seq 0 n)).
    split; [|split; [|split; [|split; [|discriminate]]]].
    + apply (chunk_loop_pieces xs z Hlen Hz n O (S (length xs))); [reflexivity|].
      assert (Z.of_nat n <= Z.of_nat (length xs)); [|lia].
      destruct n as [|n']; [lia|]. pose proof (Hsome n' ltac:(lia)). nia.
    + rewrite pieces_concat. apply take_ge. nia.
    + apply List.Forall_forall. intros c Hc. apply in_map_iff in Hc as (i & <- & Hi).
      apply in_seq in Hi. pose proof (Hsome i ltac:(lia)) as Hin.
      intros Hnil. apply (f_equal length) in Hnil.
      rewrite length_take, length_drop in Hnil. cbn [length] in Hnil. nia.
    + intros z' [= <-] i c Hc.
      assert (i < n)%nat as Hi.
      { apply lookup_lt_Some in Hc. now rewrite length_map, length_seq in Hc. }
      apply nth_lookup_Some with (d := []) in Hc. rewrite <- Hc.
      rewrite (nth_indep _ [] (take (Z.to_nat z) (drop (0 * Z.to_nat z) xs)))
        by (rewrite length_map, length_seq; lia).
      rewrite (map_nth (fun i => take (Z.to_nat z) (drop (i * Z.to_nat z) xs))).
      now rewrite seq_nth by lia.
Qed.

(** ** baseIndexOf and indexOfNaN *)

(** A scan from the left that returns the first index whose element passes
    [test], as the loops of [baseIndexOf] and [indexOfNaN] do. *)
Lemma scan_left_first (xs : list value) (test : value -> bool)
    (loop : nat -> Z -> option Z) :
  (forall steps index,
     loop (S steps) index
     = if index + 1 <? Z.of_nat (length xs)
       then if test (arrayGetZ xs (index + 1)) then Some (index + 1)
            else loop steps (index + 1)
       else Some (-1)) ->
  forall m (j : nat) steps,
    (j + m = length xs)%nat -> (m < steps)%nat ->
    exists r,
      loop steps (Z.of_nat j - 1) = Some r /\
      (forall (i : nat) x, (j <= i)%nat -> Z.of_nat i < r \/ r = -1 ->
                           xs !! i = Some x -> test x = false) /\
      (r = -1 \/ (Z.of_nat j <= r /\ exists x, xs !! Z.to_nat r = Some x /\ test x = true)).
Proof.
  intros Hloop. induction m as [|m IH]; intros j steps Hj Hsteps;
    (destruct steps as [|steps]; [lia|]); rewrite Hloop;
    replace (Z.of_nat j - 1 + 1) with (Z.of_nat j) by lia.
  - destruct (Z.ltb_spec (Z.of_nat j) (Z.of_nat (length xs))); [lia|].
    exists (-1). split; [reflexivity|]. split; [|now left].
    intros i x Hi _ Hx. apply lookup_lt_Some in Hx. lia.
  - destruct (Z.ltb_spec (Z.of_nat j) (Z.of_nat (length xs))); [|lia].
    destruct (lookup_lt_is_Some_2 xs j ltac:(lia)) as [y Hy].
    rewrite (arrayGetZ_lookup xs j y Hy).
    destruct (test y) eqn:Hty.
    + exists (Z.of_nat j). split; [reflexivity|]. split.
      * intros i x Hi [Hlt | Hneg] Hx; lia.
      * right. split; [lia|]. exists y. now rewrite Nat2Z.id.
    + destruct (IH (S j) steps ltac:(lia) ltac:(lia)) as (r & Hrun & Hbefore & Hat).
      replace (Z.of_nat (S j) - 1) with (Z.of_nat j) in Hrun by lia.
      exists r. split; [exact Hrun|]. split.
      * intros i x Hi Hr Hx. destruct (Nat.eq_dec i j) as [-> | Hne].
        -- congruence.
        -- apply (Hbefore i x); [lia | exact Hr | exact Hx].
      * destruct Hat as [-> | (Hr & x & Hx & Htx)]; [now left|].
        right. split; [lia|]. eauto.
Qed.

(** X17.  [baseIndexOf(array, value, fromIndex)] from an index that is not
    negative returns the first index at or after it whose element is the value
    (by [===], or both [NaN], which goes through [indexOfNaN]), and [-1] when
    there is none. *)
Theorem baseIndexOf_finds_first (xs : list value) (v : value) (fromIndex : Z) :
  0 <= fromIndex ->
  let same x := if isNaN_value v then isNaN_value x else strictEquals x v in
  exists r,
    baseIndexOf (S (length xs)) xs v fromIndex = Some r /\
    (forall (i : nat) x, fromIndex <= Z.of_nat i -> Z.of_nat i < r \/ r = -1 ->
                         xs !! i = Some x -> same x = false) /\
    (r = -1 \/ (fromIndex <= r /\ exists x, xs !! Z.to_nat r = Some x /\ same x = true)).
Proof.
  intros Hfrom same.
  set (loop := fun steps index =>
                 if isNaN_value v then indexOfNaN_loop steps xs index false
                 else baseIndexOf_loop steps xs v index).
  assert (baseIndexOf (S (length xs)) xs v fromIndex = loop (S (length xs)) (fromIndex - 1))
    as ->.
  { unfold baseIndexOf, indexOfNaN, loop. destruct (isNaN_value v); reflexivity. }
  assert (forall steps index,
            loop (S steps) index
            = if index + 1 <? Z.of_nat (length xs)
              then if same (arrayGetZ xs (index + 1)) then Some (index + 1)
                   else loop steps (index + 1)
              else Some (-1)) as Hloop.
  { intros steps index. unfold loop, same. destruct (isNaN_value v); reflexivity. }
  destruct (Z.le_gt_cases fromIndex (Z.of_nat (length xs))) as [Hin | Hout].
  - destruct (scan_left_first xs same loop Hloop (length xs - Z.to_nat fromIndex)
                (Z.to_nat fromIndex) (S (length xs)) ltac:(lia) ltac:(lia))
      as (r & Hrun & Hbefore & Hat).
    rewrite Z2Nat.id in Hrun, Hat by lia.
    exists r. split; [exact Hrun|]. split; [|exact Hat].
    intros i x Hi Hr Hx. apply (Hbefore i x); [lia | exact Hr | exact Hx].
  - exists (-1). rewrite Hloop.
    destruct (Z.ltb_spec (fromIndex - 1 + 1) (Z.of_nat (length xs))); [lia|].
    split; [reflexivity|]. split; [|now left].
    intros i x Hi _ Hx. apply lookup_lt_Some in Hx. lia.
Qed.

(** The scan of [indexOfNaN] from the right, from an index that is not
    negative. *)
Lemma indexOfNaN_right_last (xs : list value) : forall (j : nat) steps,
  (j < steps)%nat ->
  exists r,
    indexOfNaN_loop steps xs (Z.of_nat j) true = Some r /\
    (forall i : nat, r < Z.of_nat i < Z.of_nat j -> isNaN_value (arrayGetZ xs (Z.of_nat i)) = false) /\
    (r = -1 \/ (0 <= r < Z.of_nat j /\ isNaN_value (arrayGetZ xs r) = true)).
Proof.
  induction j as [|j IH]; intros steps Hsteps; (destruct steps as [|steps]; [lia|]);
    cbn [indexOfNaN_loop].
  - exists (-1). split; [reflexivity|]. split; [intros; lia | now left].
  - destruct (Z.eqb_spec (Z.of_nat (S j)) 0); [lia|].
    replace (Z.of_nat (S j) - 1) with (Z.of_nat j) by lia.
    destruct (isNaN_value (arrayGetZ xs (Z.of_nat j))) eqn:Hnan.
    + exists (Z.of_nat j). split; [reflexivity|]. split; [intros; lia|].
      right. split; [lia | exact Hnan].
    + destruct (IH steps ltac:(lia)) as (r & Hrun & Hafter & Hat).
      exists r. split; [exact Hrun|]. split.
      * intros i Hi. destruct (Nat.eq_dec i j) as [-> | Hne]; [exact Hnan|].
        apply Hafter. lia.
      * destruct Hat as [-> | [Hr Hnan']]; [now left | right; split; [lia | exact Hnan']].
Qed.

(** X18.  [indexOfNaN(array, fromIndex, true)] scans down from the index
    below [fromIndex]: from an index that is not negative it returns the
    greatest index below it that holds [NaN], or [-1]; from a negative index
    its loop [while (index--)] never ends, whatever the array. *)
Theorem indexOfNaN_from_the_right (xs : list value) (fromIndex : Z) :
  (0 <= fromIndex ->
   exists r,
     indexOfNaN (S (Z.to_nat fromIndex)) xs fromIndex true = Some r /\
     (forall i : nat, r < Z.of_nat i < fromIndex ->
                      isNaN_value (arrayGetZ xs (Z.of_nat i)) = false) /\
     (r = -1 \/ (0 <= r < fromIndex /\ isNaN_value (arrayGetZ xs r) = true))) /\
  (fromIndex < 0 -> forall steps, indexOfNaN steps xs fromIndex true = None).
Proof.
  unfold indexOfNaN. rewrite Z.add_0_r. split.
  - intros Hfrom.
    destruct (indexOfNaN_right_last xs (Z.to_nat fromIndex) (S (Z.to_nat fromIndex)))
      as (r & Hrun & Hafter & Hat); [lia|].
    rewrite Z2Nat.id in Hrun, Hafter, Hat by lia. eauto.
  - intros Hneg steps. revert fromIndex Hneg.
    induction steps as [|steps IH]; intros fromIndex Hneg; cbn [indexOfNaN_loop];
      [reflexivity|].
    destruct (Z.eqb_spec fromIndex 0); [lia|].
    unfold arrayGetZ. destruct (Z.ltb_spec (fromIndex - 1) 0); [|lia].
    cbn [isNaN_value]. apply IH. lia.
Qed.

End Further.

(** * The further properties on examples *)

Lemma take_count_bound_witness :
  exists fuel h1 h2,
    methods_value (host := bareHost) fuel (ints [1; 2; 3; 4; 5; 6])
      [Method_call (Call_filter (CbFun isEven))] []
    = Ok (VArr (ints [2; 4; 6])) h1 /\
    methods_value (host := bareHost) fuel (ints [1; 2; 3; 4; 5; 6])
      ([Method_call (Call_filter (CbFun isEven))] ++ [Method_call (Call_take (VInt 2))]) []
    = Ok (VArr (ints [2; 4])) h2.
Proof.
  destruct (take_count_bound (host := bareHost) (ints [1; 2; 3; 4; 5; 6])
              [Method_call (Call_filter (CbFun isEven))] 2 [] eq_refl eq_refl ltac:(lia))
    as (fuel & xs & h1 & ys & h2 & Hxs & Hys & Htake & _ & _ & Hpin).
  rewrite Htake, (Hpin eq_refl) in Hys. rewrite (Hpin eq_refl) in Hxs.
  exists fuel, h1, h2. split; [exact Hxs | exact Hys].
Defined.

Lemma size_is_coerced_witness :
  (array_take (host := bareHost) (ints [1; 2; 3]) (VInt (-5)) = [] /\
   array_drop (host := bareHost) (ints [1; 2; 3]) (VInt (-5)) = ints [1; 2; 3] /\
   array_take (host := bareHost) (ints [1; 2; 3]) (VInt (-5))
   = array_take (host := bareHost) (ints [1; 2; 3]) (VInt 0) /\
   exists h1 h2,
     methods_value (host := bareHost) (6 * 0 + 8) (ints [1; 2; 3])
       ([] ++ [Method_call (Call_take (VInt (-5)))]) [] = Ok (VArr []) h1 /\
     methods_value (host := bareHost) (6 * 0 + 8) (ints [1; 2; 3])
       ([] ++ [Method_call (Call_drop (VInt (-5)))]) [] = Ok (VArr (ints [1; 2; 3])) h2) /\
  (array_take (host := numeralHost) (ints [1; 2; 3; 4; 5; 6]) (VStr "2") = ints [1; 2] /\
   array_drop (host := numeralHost) (ints [1; 2; 3; 4; 5; 6]) (VStr "2") = ints [3; 4; 5; 6] /\
   exists h1 h2,
     methods_value (host := numeralHost) (6 * 1 + 8) (ints [1; 2; 3; 4; 5; 6])
       ([Method_call (Call_filter (CbFun isEven))] ++ [Method_call (Call_take (VStr "2"))]) []
     = Ok (VArr (ints [2; 4])) h1 /\
     methods_value (host := numeralHost) (6 * 1 + 8) (ints [1; 2; 3; 4; 5; 6])
       ([Method_call (Call_filter (CbFun isEven))] ++ [Method_call (Call_drop (VStr "2"))]) []
     = Ok (VArr (ints [6])) h2) /\
  array_take (host := bareHost) (ints [1; 2; 3]) (VStr "abc") = [] /\
  array_take (host := bareHost) (ints [1; 2; 3]) (VBool true) = ints [1] /\
  array_drop (host := bareHost) (ints [1; 2; 3]) VUndefined = ints [2; 3] /\
  array_take (host := bareHost) (ints [1; 2; 3]) (VInt 7) = ints [1; 2; 3].
Proof.
  split; [|split; [|split; [|split; [|split]]]].
  - destruct (size_is_coerced (host := bareHost) (ints [1; 2; 3]) (VInt (-5)) [] []
                eq_refl eq_refl) as (_ & _ & _ & Htake & Hdrop & Hlazy & Hsame).
    split; [exact Htake|]. split; [exact Hdrop|].
    split; [exact (eq_sym (proj1 (Hsame (VInt 0) eq_refl eq_refl)))|].
    exact (Hlazy eq_refl eq_refl).
  - destruct (size_is_coerced (host := numeralHost) (ints [1; 2; 3; 4; 5; 6]) (VStr "2")
                [Method_call (Call_filter (CbFun isEven))] [] eq_refl eq_refl)
      as (_ & _ & _ & Htake & Hdrop & Hlazy & _).
    split; [exact Htake|]. split; [exact Hdrop|].
    exact (Hlazy eq_refl eq_refl).
  - exact (proj1 (proj2 (proj2 (proj2
             (size_is_coerced (host := bareHost) (ints [1; 2; 3]) (VStr "abc") [] []
                eq_refl eq_refl))))).
  - exact (proj1 (proj2 (proj2 (proj2
             (size_is_coerced (host := bareHost) (ints [1; 2; 3]) (VBool true) [] []
                eq_refl eq_refl))))).
  - exact (proj1 (proj2 (proj2 (proj2 (proj2
             (size_is_coerced (host := bareHost) (ints [1; 2; 3]) VUndefined [] []
                eq_refl eq_refl)))))).
  - exact (proj1 (proj2 (proj2 (proj2
             (size_is_coerced (host := bareHost) (ints [1; 2; 3]) (VInt 7) [] []
                eq_refl eq_refl))))).
Defined.

Lemma baseSlice_is_segment_witness :
  baseSlice (ints [1; 2; 3; 4; 5]) (VInt (-3)) (VInt 4) = ints [3; 4] /\
  baseSlice (ints [1; 2; 3; 4; 5]) (VInt (-3)) VUndefined = ints [3; 4; 5].
Proof.
  apply (baseSlice_is_segment (host := bareHost) (ints [1; 2; 3; 4; 5]) (-3) 4).
  reflexivity.
Defined.

Lemma take_drop_partition_witness :
  array_take (ints [1; 2; 3]) (VInt 2) ++ array_drop (ints [1; 2; 3]) (VInt 2)
  = ints [1; 2; 3] /\
  (forall z, lazy_count (VInt 2) = Fin z ->
     array_take (ints [1; 2; 3]) (VInt 2) = take (Z.to_nat z) (ints [1; 2; 3]) /\
     array_drop (ints [1; 2; 3]) (VInt 2) = drop (Z.to_nat z) (ints [1; 2; 3])) /\
  (lazy_count (VInt 2) = PInf ->
   array_take (ints [1; 2; 3]) (VInt 2) = ints [1; 2; 3] /\
   array_drop (ints [1; 2; 3]) (VInt 2) = []).
Proof.
  apply (take_drop_partition (host := bareHost) (ints [1; 2; 3]) (VInt 2));
    reflexivity.
Defined.

Lemma dropRight_takeRight_partition_witness :
  array_dropRight (ints [1; 2; 3]) (VInt 2) ++ array_takeRight (ints [1; 2; 3]) (VInt 2)
  = ints [1; 2; 3] /\
  (forall z, VInt 2 = VInt z ->
     array_takeRight (ints [1; 2; 3]) (VInt 2)
     = drop (Z.to_nat (Z.of_nat (length (ints [1; 2; 3])) - z)) (ints [1; 2; 3]) /\
     array_dropRight (ints [1; 2; 3]) (VInt 2)
     = take (Z.to_nat (Z.of_nat (length (ints [1; 2; 3])) - z)) (ints [1; 2; 3])).
Proof.
  apply (dropRight_takeRight_partition (host := bareHost) (ints [1; 2; 3]) (VInt 2));
    reflexivity.
Defined.

Lemma takeWhile_dropWhile_partition_witness :
  array_takeWhile (ints [1; 2; 3; 1]) (CbFun (below 3))
  ++ array_dropWhile (ints [1; 2; 3; 1]) (CbFun (below 3)) = ints [1; 2; 3; 1] /\
  Forall (fun v => truthy (baseCallback (CbFun (below 3)) v) = true)
         (array_takeWhile (ints [1; 2; 3; 1]) (CbFun (below 3))) /\
  (forall x rest, array_dropWhile (ints [1; 2; 3; 1]) (CbFun (below 3)) = x :: rest ->
                  truthy (baseCallback (CbFun (below 3)) x) = false).
Proof.
  apply (takeWhile_dropWhile_partition (host := bareHost) (ints [1; 2; 3; 1])
           (CbFun (below 3))).
  reflexivity.
Defined.

Lemma dropRightWhile_takeRightWhile_partition_witness :
  array_dropRightWhile (ints [1; 5; 2; 1]) (CbFun (below 3))
  ++ array_takeRightWhile (ints [1; 5; 2; 1]) (CbFun (below 3)) = ints [1; 5; 2; 1] /\
  Forall (fun v => truthy (baseCallback (CbFun (below 3)) v) = true)
         (array_takeRightWhile (ints [1; 5; 2; 1]) (CbFun (below 3))) /\
  (forall init x, array_dropRightWhile (ints [1; 5; 2; 1]) (CbFun (below 3)) = init ++ [x] ->
                  truthy (baseCallback (CbFun (below 3)) x) = false).
Proof.
  apply (dropRightWhile_takeRightWhile_partition (host := bareHost) (ints [1; 5; 2; 1])
           (CbFun (below 3))).
  reflexivity.
Defined.

Lemma first_rest_initial_last_witness :
  array_first (ints [1; 2; 3]) :: array_rest (ints [1; 2; 3]) = ints [1; 2; 3] /\
  array_initial (ints [1; 2; 3]) ++ [array_last (ints [1; 2; 3])] = ints [1; 2; 3].
Proof.
  apply (first_rest_initial_last (host := bareHost) (ints [1; 2; 3])).
  reflexivity.
Defined.

Lemma fused_methods_agree_with_eager_witness :
  exists h',
    methods_value (host := bareHost) (6 * 4 + 2) (ints [1; 2; 3; 4; 5; 6; 7; 8])
      [Method_call (Call_filter (CbFun isEven)); Method_call (Call_map (CbFun times10));
       Method_takeRight (VInt 3); Method_call (Call_slice (VInt 1) (VInt (-1)))] []
    = Ok (VArr (ints [60])) h'.
Proof.
  apply (fused_methods_agree_with_eager (host := bareHost) (ints [1; 2; 3; 4; 5; 6; 7; 8])
           [Method_call (Call_filter (CbFun isEven)); Method_call (Call_map (CbFun times10));
            Method_takeRight (VInt 3); Method_call (Call_slice (VInt 1) (VInt (-1)))] []);
    reflexivity.
Defined.

Lemma fused_first_and_last_witness :
  exists h1 h2,
    methods_first (host := bareHost) (6 * 2 + 5) (ints [1; 2; 3; 4; 5; 6])
      [Method_call (Call_filter (CbFun isEven)); Method_rest] []
    = Ok (VInt 4) h1 /\
    methods_last (host := bareHost) (6 * 2 + 5) (ints [1; 2; 3; 4; 5; 6])
      [Method_call (Call_filter (CbFun isEven)); Method_rest] []
    = Ok (VInt 6) h2.
Proof.
  apply (fused_first_and_last (host := bareHost) (ints [1; 2; 3; 4; 5; 6])
           [Method_call (Call_filter (CbFun isEven)); Method_rest] []);
    reflexivity.
Defined.

Lemma from_the_right_is_reversed_witness :
  array_takeRight (ints [1; 2; 3]) (VInt 2)
  = array_reverse (array_take (array_reverse (ints [1; 2; 3])) (VInt 2)) /\
  array_dropRight (ints [1; 2; 3]) (VInt 2)
  = array_reverse (array_drop (array_reverse (ints [1; 2; 3])) (VInt 2)) /\
  array_takeRightWhile (ints [1; 2; 3]) (CbFun isEven)
  = array_reverse (array_takeWhile (array_reverse (ints [1; 2; 3])) (CbFun isEven)) /\
  array_dropRightWhile (ints [1; 2; 3]) (CbFun isEven)
  = array_reverse (array_dropWhile (array_reverse (ints [1; 2; 3])) (CbFun isEven)).
Proof.
  apply (from_the_right_is_reversed (host := bareHost) (ints [1; 2; 3]) (VInt 2)
           (CbFun isEven));
    reflexivity.
Defined.

Lemma slice_in_drops_and_takes_witness :
  array_slice (ints [1; 2; 3; 4; 5]) (VInt 1) (VInt 3)
  = array_take (array_drop (ints [1; 2; 3; 4; 5]) (VInt 1)) (VInt (3 - 1)).
Proof.
  apply (slice_in_drops_and_takes (host := bareHost) (ints [1; 2; 3; 4; 5]) 1 3);
    [reflexivity | lia | lia].
Defined.

Lemma evaluation_is_local_witness :
  exists v h1 h',
    value_of 3 (result_of sample_while) (store_of sample_while ++ [CActions []]) = Ok v h1 /\
    h1 = h' ++ [CActions []] /\ same_shape (store_of sample_while) h' /\
    value_of 3 (result_of sample_while) (store_of sample_while) = Ok v h' /\
    array_backed h' (result_of sample_while) /\ array_backed h1 (result_of sample_while).
Proof.
  assert (exists v h1,
            value_of 3 (result_of sample_while) (store_of sample_while ++ [CActions []])
            = Ok v h1) as (v & h1 & Hv)
    by (eexists _, _; vm_compute; reflexivity).
  destruct (evaluation_is_local _ _ _ _ _ _ sample_while_backed Hv)
    as (h' & H1 & H2 & H3 & H4 & H5).
  exists v, h1, h'. auto 6.
Defined.


Lemma value_is_repeatable_witness :
  exists r h',
    lazy_chain (host := bareHost) (ints [1; 2; 3; 4])
      [Call_drop (VInt 1); Call_filter (CbFun isEven); Call_take (VInt 1)] [] = Ok r h' /\
    (forall fuel v h1, value_of fuel r h' = Ok v h1 -> h1 = h') /\
    exists fuel xs,
      value_of fuel r h' = Ok (VArr xs) h' /\
      value_twice fuel r h' = Ok (VArr xs, VArr xs) h'.
Proof.
  apply (value_is_repeatable (host := bareHost) (ints [1; 2; 3; 4])
           [Call_drop (VInt 1); Call_filter (CbFun isEven); Call_take (VInt 1)] []);
    reflexivity.
Defined.

Lemma baseMatches_of_primitives_witness :
  baseMatches (host := bareHost) (VObj [("a"%string, VInt 1); ("b"%string, VBool true)])
    (VObj [("b"%string, VBool true); ("a"%string, VInt 1); ("c"%string, VNull)])
  = true /\
  baseMatches (host := bareHost) (VArr (ints [1; 2])) (VObj []) = false /\
  baseMatches (host := bareHost) (VArr (ints [1; 2])) (VArr (ints [1; 2; 3])) = true.
Proof.
  split; [|split].
  - rewrite (baseMatches_of_primitives (host := bareHost)
               (VObj [("a"%string, VInt 1); ("b"%string, VBool true)])
               (VObj [("b"%string, VBool true); ("a"%string, VInt 1); ("c"%string, VNull)])).
    + reflexivity.
    + intros key [<- | [<- | []]]; reflexivity.
  - rewrite (baseMatches_of_primitives (host := bareHost) (VArr (ints [1; 2])) (VObj [])).
    + reflexivity.
    + intros key [<- | [<- | []]]; reflexivity.
  - rewrite (baseMatches_of_primitives (host := bareHost) (VArr (ints [1; 2]))
               (VArr (ints [1; 2; 3]))).
    + reflexivity.
    + intros key [<- | [<- | []]]; reflexivity.
Defined.

Lemma baseMatches_needs_every_key_witness :
  isNullish (VObj [("a"%string, VUndefined)]) = false /\
  hasProperty (host := bareHost) (toObject (VObj [("a"%string, VUndefined)])) "a"%string = true.
Proof.
  apply (baseMatches_needs_every_key (host := bareHost) (VObj [("a"%string, VUndefined)])
           (VObj [("a"%string, VUndefined)]) "a"%string).
  - left. reflexivity.
  - reflexivity.
Defined.

Lemma chunk_partition_witness :
  exists chunks,
    array_chunk (host := bareHost) (ints [1; 2; 3; 4; 5]) (VInt 2) = Some (map Some chunks) /\
    concat chunks = ints [1; 2; 3; 4; 5] /\
    Forall (fun c => c <> []) chunks /\
    (forall z, chunk_size (host := bareHost) (VInt 2) = Fin z ->
       forall i c, chunks !! i = Some c ->
         c = take (Z.to_nat z) (drop (i * Z.to_nat z) (ints [1; 2; 3; 4; 5]))) /\
    (chunk_size (host := bareHost) (VInt 2) = PInf ->
     chunks = [ints [1; 2; 3; 4; 5]]).
Proof.
  apply (chunk_partition (host := bareHost) (ints [1; 2; 3; 4; 5]) (VInt 2));
    reflexivity.
Defined.

Lemma baseIndexOf_finds_first_witness :
  exists r,
    baseIndexOf (host := bareHost) 5 (ints [1; 2; 1; 2]) (VInt 2) 2 = Some r /\
    (forall (i : nat) x, 2 <= Z.of_nat i -> Z.of_nat i < r \/ r = -1 ->
                         ints [1; 2; 1; 2] !! i = Some x ->
                         strictEquals (host := bareHost) x (VInt 2) = false) /\
    (r = -1 \/
     (2 <= r /\ exists x, ints [1; 2; 1; 2] !! Z.to_nat r = Some x /\
                          strictEquals (host := bareHost) x (VInt 2) = true)).
Proof.
  apply (baseIndexOf_finds_first (host := bareHost) (ints [1; 2; 1; 2]) (VInt 2) 2). lia.
Defined.

Lemma indexOfNaN_from_the_right_witness :
  indexOfNaN 4 [VInt 1; VNum NaN; VInt 3] 3 true = Some 1 /\
  indexOfNaN 100 [VInt 1; VNum NaN; VInt 3] (-1) true = None.
Proof.
  destruct (indexOfNaN_from_the_right [VInt 1; VNum NaN; VInt 3] 3) as [_ Hnone].
  split; [reflexivity|].
  destruct (indexOfNaN_from_the_right [VInt 1; VNum NaN; VInt 3] (-1)) as [_ Hloop].
  apply Hloop. lia.
Defined.

Lemma take_before_filter_is_applied_after_witness :
  (exists h',
     methods_value (host := bareHost) (6 * 1 + 3) (ints [1; 2; 3; 4])
       ([Method_call (Call_filter (CbFun always))]
        ++ [Method_call (Call_take (VInt 2)); Method_call (Call_filter (CbFun isEven))]) []
     = Ok (VArr (ints [2; 4])) h') /\
  methods_eager (host := bareHost) (ints [1; 2; 3; 4])
    ([Method_call (Call_filter (CbFun always))]
     ++ [Method_call (Call_take (VInt 2)); Method_call (Call_filter (CbFun isEven))])
  = ints [2].
Proof.
  apply (take_before_filter_is_applied_after (host := bareHost) (ints [1; 2; 3; 4])
           [Method_call (Call_filter (CbFun always))] (VInt 2) (CbFun isEven) []);
    reflexivity.
Defined.
